(** * A bidirectional map on two intrusive binary search trees

    Shallow embedding of [intrusive_set.h] and [bimap.h].

    Memory is explicit.  A record of the program is identified by its address;
    the [node<Tag>] base subobject of the record at address [a] is the entry
    at [a] of the link store of that tag.  A pointer is an [option addr]
    ([None] is [nullptr]).  Every function that dereferences a pointer returns
    an [option]: [None] stands for undefined behaviour (a null or dangling
    pointer is dereferenced) or for a loop that ran out of fuel.  Loops and
    recursive functions take their fuel from the number of allocated nodes,
    which bounds the depth of every well-formed tree. *)

From stdpp Require Import gmap list sorting strings.
From Stdlib Require Import ZArith Lia.


Abbreviation addr := positive.
Abbreviation ptr := (option positive).

(** ** [intrusive::node<Tag>] *)

Record node := mk_node { parent : ptr; left : ptr; right : ptr }.

(** [node() noexcept = default]: the three relations start empty. *)
Definition node_default : node := mk_node None None None.

Definition with_parent (v : ptr) (n : node) : node := mk_node v (left n) (right n).
Definition with_left (v : ptr) (n : node) : node := mk_node (parent n) v (right n).
Definition with_right (v : ptr) (n : node) : node := mk_node (parent n) (left n) v.

Abbreviation links := (gmap positive node).

(** ** Commands: state passing with failure *)

Definition cmd (St A : Type) : Type := St → option (A * St).

Definition ret {St A} (x : A) : cmd St A := λ m, Some (x, m).

Definition bind {St A B} (c : cmd St A) (k : A → cmd St B) : cmd St B :=
  λ m, match c m with
       | Some (x, m') => k x m'
       | None => None
       end.

Notation "'let*' x ':=' c 'in' k" := (bind c (λ x, k))
  (at level 10, x pattern, c at level 100, k at level 200).
Notation "c ';;' k" := (bind c (λ _, k))
  (at level 100, k at level 200, right associativity).

(** [p->field] as an rvalue: fails on a null or dangling [p]. *)
Definition load (m : links) (p : ptr) : option node := a ← p; m !! a.

Definition get_parent (p : ptr) : cmd links ptr := λ m, n ← load m p; Some (parent n, m).
Definition get_left (p : ptr) : cmd links ptr := λ m, n ← load m p; Some (left n, m).
Definition get_right (p : ptr) : cmd links ptr := λ m, n ← load m p; Some (right n, m).

(** [p->field = v]. *)
Definition store (f : node → node) (p : ptr) : cmd links unit :=
  λ m, a ← p; n ← m !! a; Some (tt, <[a := f n]> m).

Definition put_parent (p v : ptr) : cmd links unit := store (with_parent v) p.
Definition put_left (p v : ptr) : cmd links unit := store (with_left v) p.
Definition put_right (p v : ptr) : cmd links unit := store (with_right v) p.

(** [if (p)]: a pointer used as a condition. *)
Definition non_null (p : ptr) : bool := if p is Some _ then true else false.

(** A [const] member function reads the store and leaves it as it is. *)
Definition query {St A} (f : St → option A) : cmd St A := λ m, x ← f m; Some (x, m).

(** Fuel for the loops of one call: the number of allocated nodes, plus one. *)
Definition fuel_of (m : links) : nat := S (size m).

Module node_ops.

  (** [node::set_child(old_node, new_node)] *)
Definition set_child (old_node new_node : ptr) : cmd links unit :=
    let* parent := get_parent old_node in
    let* l := get_left parent in
    (if decide (l = old_node)
     then put_left parent new_node
     else put_right parent new_node);;
    if non_null new_node then put_parent new_node parent else ret tt.

End node_ops.

(** ** [intrusive::intrusive_set<T, Key, Tag, Compare, Getter>] *)

Module intrusive_set.

  (** The object: its [Compare] base and the pointer to the sentinel. *)
Record t (Key : Type) := mk {
    compare : Key → Key → bool;
    sentinel : ptr
  }.
  Arguments mk {Key} _ _.
  Arguments compare {Key} _ _ _.
  Arguments sentinel {Key} _.

  Section ops.
    Context {Key : Type}.

    (** [Getter::get] on the record a node belongs to, as a function of the
        address of the record; it has no value on a keyless node. *)
    Variable get_key : positive → option Key.

    Variable self : t Key.

Definition less (l r : Key) : bool := compare self l r.
Definition greater (l r : Key) : bool := compare self r l.
Definition equals (l r : Key) : bool := negb (greater l r || less l r).

Definition key_at (p : ptr) : option Key := a ← p; get_key a.

    (** [while (node->left) node = node->left;] *)
Fixpoint descend_left (fuel : nat) (m : links) (p : ptr) : option ptr :=
      match fuel with
      | O => None
      | S fuel =>
          n ← load m p;
          if non_null (left n) then descend_left fuel m (left n) else Some p
      end.

    (** [while (node->right) node = node->right;] *)
Fixpoint descend_right (fuel : nat) (m : links) (p : ptr) : option ptr :=
      match fuel with
      | O => None
      | S fuel =>
          n ← load m p;
          if non_null (right n) then descend_right fuel m (right n) else Some p
      end.

    (** [while (node->parent && node->parent->right == node) node = node->parent;] *)
Fixpoint ascend_from_right (fuel : nat) (m : links) (p : ptr) : option ptr :=
      match fuel with
      | O => None
      | S fuel =>
          n ← load m p;
          if non_null (parent n) then
            q ← load m (parent n);
            if decide (right q = p) then ascend_from_right fuel m (parent n)
            else Some p
          else Some p
      end.

    (** [while (node->parent && node->parent->left == node) node = node->parent;] *)
Fixpoint ascend_from_left (fuel : nat) (m : links) (p : ptr) : option ptr :=
      match fuel with
      | O => None
      | S fuel =>
          n ← load m p;
          if non_null (parent n) then
            q ← load m (parent n);
            if decide (left q = p) then ascend_from_left fuel m (parent n)
            else Some p
          else Some p
      end.

    (** [iterator::operator++] *)
Definition incr (m : links) (it : ptr) : option ptr :=
      n ← load m it;
      if non_null (right n) then descend_left (fuel_of m) m (right n)
      else
        p ← ascend_from_right (fuel_of m) m it;
        q ← load m p;
        Some (parent q).

    (** [iterator::operator--] *)
Definition decr (m : links) (it : ptr) : option ptr :=
      n ← load m it;
      if non_null (left n) then descend_right (fuel_of m) m (left n)
      else
        p ← ascend_from_left (fuel_of m) m it;
        q ← load m p;
        Some (parent q).

    (** [end()] *)
Definition end_ : ptr := sentinel self.

    (** [begin()] *)
Definition begin (m : links) : option ptr :=
      descend_left (fuel_of m) m (sentinel self).

    (** [bound_impl(key, node)] *)
Fixpoint bound_impl (fuel : nat) (m : links) (key : Key) (p : ptr) : option ptr :=
      match fuel with
      | O => None
      | S fuel =>
          if non_null p then
            k ← key_at p;
            if less k key then
              n ← load m p; bound_impl fuel m key (right n)
            else if greater k key then
              n ← load m p;
              tmp ← bound_impl fuel m key (left n);
              if decide (tmp ≠ sentinel self) then Some tmp else Some p
            else Some p
          else Some (sentinel self)
      end.

    (** [lower_bound(key)] *)
Definition lower_bound (m : links) (key : Key) : option ptr :=
      s ← load m (sentinel self);
      bound_impl (fuel_of m) m key (left s).

    (** [upper_bound(key)] *)
Definition upper_bound (m : links) (key : Key) : option ptr :=
      it ← lower_bound m key;
      if decide (it ≠ end_) then
        k ← key_at it;
        if equals key k then incr m it else Some it
      else Some it.

    (** [find(key)] *)
Definition find (m : links) (key : Key) : option ptr :=
      it ← lower_bound m key;
      if decide (it ≠ end_) then
        k ← key_at it;
        if equals key k then Some it else Some end_
      else Some end_.

    (** [add_to_tree(obj, node)] *)
Fixpoint add_to_tree (fuel : nat) (obj p : ptr) : cmd links ptr :=
      match fuel with
      | O => λ _, None
      | S fuel =>
          if non_null p then
            let* ko := query (λ _, key_at obj) in
            let* kn := query (λ _, key_at p) in
            if less ko kn then
              let* l := get_left p in
              let* r := add_to_tree fuel obj l in
              put_left p r;;
              let* l' := get_left p in
              put_parent l' p;;
              ret p
            else
              let* r := get_right p in
              let* r' := add_to_tree fuel obj r in
              put_right p r';;
              let* r'' := get_right p in
              put_parent r'' p;;
              ret p
          else ret obj
      end.

    (** [insert(obj, hint)] *)
Definition insert (obj : ptr) (hint : bool) : cmd links ptr :=
      let* dup :=
        (if hint then ret false
         else
           let* k := query (λ _, key_at obj) in
           let* it := query (λ m, find m k) in
           ret (bool_decide (it ≠ end_))) in
      if dup : bool then ret end_
      else
        let* root := get_left (sentinel self) in
        let* fuel := query (λ m, Some (fuel_of m)) in
        let* root' := add_to_tree fuel obj root in
        put_left (sentinel self) root';;
        let* root'' := get_left (sentinel self) in
        put_parent root'' (sentinel self);;
        ret obj.

    (** [erase(it)]; the result is the pointer to the unlinked record. *)
Definition erase (it : ptr) : cmd links ptr :=
      let node := it in
      let* l := get_left node in
      let* r := get_right node in
      (if non_null l && non_null r then
         let* fuel := query (λ m, Some (fuel_of m)) in
         let* new_node := query (λ m, descend_right fuel m l) in
         let* np := get_parent new_node in
         (if decide (np ≠ node) then
            let* nl := get_left new_node in
            node_ops.set_child new_node nl;;
            let* l' := get_left node in
            put_left new_node l';;
            let* nl' := get_left new_node in
            put_parent nl' new_node
          else ret tt);;
         let* r' := get_right node in
         put_right new_node r';;
         let* r'' := get_right node in
         put_parent r'' new_node;;
         node_ops.set_child node new_node
       else
         node_ops.set_child node (if non_null l then l else r));;
      put_parent node None;;
      put_right node None;;
      put_left node None;;
      ret node.

  End ops.

  (** [swap(other)]: the [Compare] bases are exchanged in the two objects,
      the roots are exchanged in the store. *)
Definition swap {Key} (self other : t Key) : cmd links (t Key * t Key) :=
    let self' := mk (compare other) (sentinel self) in
    let other' := mk (compare self) (sentinel other) in
    let* l1 := get_left (sentinel self) in
    let* l2 := get_left (sentinel other) in
    put_left (sentinel self) l2;;
    put_left (sentinel other) l1;;
    let* a := get_left (sentinel self) in
    (if non_null a then put_parent a (sentinel self) else ret tt);;
    let* b := get_left (sentinel other) in
    (if non_null b then put_parent b (sentinel other) else ret tt);;
    ret (self', other').

End intrusive_set.

(** ** [bimap<Left, Right, CompareLeft, CompareRight>] *)

Inductive tag := tag_for_left | tag_for_right.

(** [std::out_of_range] *)
Inductive exn := out_of_range (what : string).

Inductive result (A : Type) :=
  | returned (x : A)
  | thrown (e : exn).
Arguments returned {A} _.
Arguments thrown {A} _.

(** [std::size_t] arithmetic. *)
Definition size_t_modulus : Z := (2 ^ 64)%Z.
Definition size_t_succ (n : Z) : Z := ((n + 1) mod size_t_modulus)%Z.
Definition size_t_pred (n : Z) : Z := ((n - 1) mod size_t_modulus)%Z.

Module bimap.

Section ops.
  Context {left_t right_t : Type}.

  (** The keys of a [storage_node]; its two base nodes are in the link stores. *)
Record storage_node := mk_storage_node {
    left_key : left_t;
    right_key : right_t
  }.

Record mem := mk_mem {
    lnodes : links;                       (* the [node<tag_for_left>] subobjects *)
    rnodes : links;                       (* the [node<tag_for_right>] subobjects *)
    records : gmap positive storage_node  (* the keys of the allocated records *)
  }.

Record t := mk {
    sentinel : addr;                      (* address of the member [sentinel] *)
    m_size : Z;
    left_set : intrusive_set.t left_t;
    right_set : intrusive_set.t right_t
  }.

Definition with_size (n : Z) (b : t) : t :=
    mk (sentinel b) n (left_set b) (right_set b).

  (** Traits: [left_struct] and [right_struct]. *)
Definition key (T : tag) : Type :=
    match T with tag_for_left => left_t | tag_for_right => right_t end.
Definition getter (T : tag) : storage_node → key T :=
    match T with tag_for_left => left_key | tag_for_right => right_key end.
Definition flip_struct (T : tag) : tag :=
    match T with tag_for_left => tag_for_right | tag_for_right => tag_for_left end.
Definition nodes (T : tag) (mm : mem) : links :=
    match T with tag_for_left => lnodes mm | tag_for_right => rnodes mm end.
Definition set (T : tag) (b : t) : intrusive_set.t (key T) :=
    match T with tag_for_left => left_set b | tag_for_right => right_set b end.

  (** [Getter::get] after the cast of a node to the [storage_node] around it. *)
Definition get_key (T : tag) (mm : mem) (a : addr) : option (key T) :=
    getter T <$> records mm !! a.

  (** A command of one tree, run on the memory. *)
Definition on (T : tag) {A} (c : cmd links A) : cmd mem A :=
    λ mm, '(x, l) ← c (nodes T mm);
          Some (x, match T with
                   | tag_for_left => mk_mem l (rnodes mm) (records mm)
                   | tag_for_right => mk_mem (lnodes mm) l (records mm)
                   end).

  (** [template_iterator<Traits>] *)
Record template_iterator (T : tag) := mk_iterator { it : ptr }.
  Arguments mk_iterator {T} _.
  Arguments it {T} _.

Definition left_iterator := template_iterator tag_for_left.
Definition right_iterator := template_iterator tag_for_right.

  (** [operator*] *)
Definition deref {T} (i : template_iterator T) (mm : mem) : option (key T) :=
    a ← it i; get_key T mm a.

  (** [operator++] *)
Definition iterator_incr {T} (b : t) (i : template_iterator T) (mm : mem)
    : option (template_iterator T) :=
    mk_iterator <$> intrusive_set.incr (nodes T mm) (it i).

  (** [operator--] *)
Definition iterator_decr {T} (b : t) (i : template_iterator T) (mm : mem)
    : option (template_iterator T) :=
    mk_iterator <$> intrusive_set.decr (nodes T mm) (it i).

  (** [flip()]: the two casts move between the base subobjects of one record. *)
Definition flip {T} (i : template_iterator T) : template_iterator (flip_struct T) :=
    mk_iterator (it i).

  (** [operator==] and [operator!=] of iterators. *)
Definition iterator_eq {T} (l r : template_iterator T) : bool :=
    bool_decide (it l = it r).
Definition iterator_ne {T} (l r : template_iterator T) : bool :=
    bool_decide (it l ≠ it r).

  (** [new storage_node(l, r)] *)
Definition new_storage_node (l : left_t) (r : right_t) : cmd mem ptr :=
    λ mm,
      let a := fresh (dom (lnodes mm) ∪ dom (rnodes mm) ∪ dom (records mm)) in
      Some (Some a,
            mk_mem (<[a := node_default]> (lnodes mm))
                   (<[a := node_default]> (rnodes mm))
                   (<[a := mk_storage_node l r]> (records mm))).

  (** [delete static_cast<storage_node*>(p)] *)
Definition delete_storage_node (p : ptr) : cmd mem unit :=
    λ mm,
      match p with
      | None => Some (tt, mm)
      | Some a =>
          _ ← records mm !! a;
          Some (tt, mk_mem (delete a (lnodes mm)) (delete a (rnodes mm))
                           (delete a (records mm)))
      end.

  (** [bimap(compare_left, compare_right)] *)
Definition new (compare_left : left_t → left_t → bool)
      (compare_right : right_t → right_t → bool) : cmd mem t :=
    λ mm,
      let s := fresh (dom (lnodes mm) ∪ dom (rnodes mm) ∪ dom (records mm)) in
      Some (mk s 0%Z (intrusive_set.mk compare_left (Some s))
                         (intrusive_set.mk compare_right (Some s)),
            mk_mem (<[s := node_default]> (lnodes mm))
                   (<[s := node_default]> (rnodes mm))
                   (records mm)).

Definition begin_left (b : t) (mm : mem) : option left_iterator :=
    mk_iterator <$> intrusive_set.begin (left_set b) (lnodes mm).
Definition end_left (b : t) : left_iterator :=
    mk_iterator (intrusive_set.end_ (left_set b)).
Definition begin_right (b : t) (mm : mem) : option right_iterator :=
    mk_iterator <$> intrusive_set.begin (right_set b) (rnodes mm).
Definition end_right (b : t) : right_iterator :=
    mk_iterator (intrusive_set.end_ (right_set b)).

Definition empty (b : t) : bool := bool_decide (m_size b = 0%Z).
Definition size (b : t) : Z := m_size b.

Definition find_left (b : t) (mm : mem) (l : left_t) : option left_iterator :=
    mk_iterator <$>
      intrusive_set.find (get_key tag_for_left mm) (left_set b) (lnodes mm) l.
Definition find_right (b : t) (mm : mem) (r : right_t) : option right_iterator :=
    mk_iterator <$>
      intrusive_set.find (get_key tag_for_right mm) (right_set b) (rnodes mm) r.

Definition lower_bound_left (b : t) (mm : mem) (l : left_t) : option left_iterator :=
    mk_iterator <$>
      intrusive_set.lower_bound (get_key tag_for_left mm) (left_set b) (lnodes mm) l.
Definition upper_bound_left (b : t) (mm : mem) (l : left_t) : option left_iterator :=
    mk_iterator <$>
      intrusive_set.upper_bound (get_key tag_for_left mm) (left_set b) (lnodes mm) l.
Definition lower_bound_right (b : t) (mm : mem) (r : right_t) : option right_iterator :=
    mk_iterator <$>
      intrusive_set.lower_bound (get_key tag_for_right mm) (right_set b) (rnodes mm) r.
Definition upper_bound_right (b : t) (mm : mem) (r : right_t) : option right_iterator :=
    mk_iterator <$>
      intrusive_set.upper_bound (get_key tag_for_right mm) (right_set b) (rnodes mm) r.

  (** [perfect_forwarding_insert(left, right)] *)
Definition perfect_forwarding_insert (b : t) (l : left_t) (r : right_t)
    : cmd mem (left_iterator * t) :=
    let* fl := query (λ mm, find_left b mm l) in
    let* absent :=
      (if iterator_eq fl (end_left b)
       then let* fr := query (λ mm, find_right b mm r) in
            ret (iterator_eq fr (end_right b))
       else ret false) in
    if negb absent then ret (end_left b, b)
    else
      let* storage := new_storage_node l r in
      let* _ := (λ mm, on tag_for_right
        (intrusive_set.insert (get_key tag_for_right mm) (right_set b) storage true) mm) in
      let b := with_size (size_t_succ (m_size b)) b in
      let* i := (λ mm, on tag_for_left
        (intrusive_set.insert (get_key tag_for_left mm) (left_set b) storage true) mm) in
      ret (mk_iterator i, b).

  (** [insert(left, right)], all four overloads. *)
Definition insert (b : t) (l : left_t) (r : right_t)
    : cmd mem (left_iterator * t) :=
    perfect_forwarding_insert b l r.

  (** [erase_left(left_iterator)] *)
Definition erase_left (b : t) (i : left_iterator)
    : cmd mem (left_iterator * t) :=
    on tag_for_right (intrusive_set.erase (it (flip i)));;
    let copy := i in
    let* i := query (iterator_incr b i) in
    let next : left_iterator := mk_iterator (it i) in
    let* p := on tag_for_left (intrusive_set.erase (it copy)) in
    delete_storage_node p;;
    let b := with_size (size_t_pred (m_size b)) b in
    ret (next, b).

  (** [erase_right(right_iterator)] *)
Definition erase_right (b : t) (i : right_iterator)
    : cmd mem (right_iterator * t) :=
    on tag_for_left (intrusive_set.erase (it (flip i)));;
    let copy := i in
    let* i := query (iterator_incr b i) in
    let next : right_iterator := mk_iterator (it i) in
    let* p := on tag_for_right (intrusive_set.erase (it copy)) in
    delete_storage_node p;;
    let b := with_size (size_t_pred (m_size b)) b in
    ret (next, b).

  (** [erase_left(const left_t&)] *)
Definition erase_left_key (b : t) (l : left_t) : cmd mem (bool * t) :=
    let* i := query (λ mm, find_left b mm l) in
    if iterator_ne i (end_left b) then
      let* (_, b) := erase_left b i in ret (true, b)
    else ret (false, b).

  (** [erase_right(const right_t&)] *)
Definition erase_right_key (b : t) (r : right_t) : cmd mem (bool * t) :=
    let* i := query (λ mm, find_right b mm r) in
    if iterator_ne i (end_right b) then
      let* (_, b) := erase_right b i in ret (true, b)
    else ret (false, b).

  (** [for (auto it = first; it != last; it = erase_left(it)) {}] *)
Fixpoint erase_left_loop (fuel : nat) (b : t) (i last : left_iterator)
    : cmd mem t :=
    match fuel with
    | O => λ _, None
    | S fuel =>
        if iterator_ne i last then
          let* (i, b) := erase_left b i in erase_left_loop fuel b i last
        else ret b
    end.

Fixpoint erase_right_loop (fuel : nat) (b : t) (i last : right_iterator)
    : cmd mem t :=
    match fuel with
    | O => λ _, None
    | S fuel =>
        if iterator_ne i last then
          let* (i, b) := erase_right b i in erase_right_loop fuel b i last
        else ret b
    end.

  (** [erase_left(first, last)] *)
Definition erase_left_range (b : t) (first last : left_iterator)
    : cmd mem (left_iterator * t) :=
    let* fuel := query (λ mm, Some (fuel_of (lnodes mm))) in
    let* b := erase_left_loop fuel b first last in
    ret (last, b).

  (** [erase_right(first, last)] *)
Definition erase_right_range (b : t) (first last : right_iterator)
    : cmd mem (right_iterator * t) :=
    let* fuel := query (λ mm, Some (fuel_of (rnodes mm))) in
    let* b := erase_right_loop fuel b first last in
    ret (last, b).

  (** [at_left(key)] *)
Definition at_left (b : t) (mm : mem) (k : left_t) : option (result right_t) :=
    left_it ← find_left b mm k;
    if iterator_eq left_it (end_left b)
    then Some (thrown (out_of_range "element doesn't exist"))
    else returned <$> deref (flip left_it) mm.

  (** [at_right(key)] *)
Definition at_right (b : t) (mm : mem) (k : right_t) : option (result left_t) :=
    right_it ← find_right b mm k;
    if iterator_eq right_it (end_right b)
    then Some (thrown (out_of_range "element doesn't exist"))
    else returned <$> deref (flip right_it) mm.

  (** A key passed as [const Key&].  The object it refers to is outside the
      records of the memory (a local variable, a temporary), or it is a key
      member of the record at an address: [left_key], or [right_key], of
      either key type when the two are the same. *)
Inductive key_ref (K : Type) :=
    | ref_value (k : K)
    | ref_member (a : addr) (member : storage_node → K).
  Arguments ref_value {K} _.
  Arguments ref_member {K} _ _.

  (** The value read through the reference; there is none once the record
      was deleted. *)
Definition read_ref {K} (key : key_ref K) (mm : mem) : option K :=
    match key with
    | ref_value k => Some k
    | ref_member a member => member <$> records mm !! a
    end.

  (** [at_left_or_default(key)]; [default_right] is [right_t{}].  [key] is
      read by [find_left(key)], and again by [insert(key, std::move(tmp))]
      after [erase_right(it)]. *)
Definition at_left_or_default (default_right : right_t) (b : t)
      (key : key_ref left_t) : cmd mem (right_t * t) :=
    let* k := query (read_ref key) in
    let* i := query (λ mm, find_left b mm k) in
    if iterator_ne i (end_left b) then
      let* v := query (deref (flip i)) in ret (v, b)
    else
      let tmp := default_right in
      let* j := query (λ mm, find_right b mm tmp) in
      let* b :=
        (if iterator_ne j (end_right b)
         then let* (_, b) := erase_right b j in ret b
         else ret b) in
      let* k := query (read_ref key) in
      let* (i, b) := insert b k tmp in
      let* v := query (deref (flip i)) in
      ret (v, b).

  (** [at_right_or_default(key)]; [default_left] is [left_t{}].  [key] is
      read by [find_right(key)], and again by [insert(std::move(tmp), key)]
      after [erase_left(it)]. *)
Definition at_right_or_default (default_left : left_t) (b : t)
      (key : key_ref right_t) : cmd mem (left_t * t) :=
    let* k := query (read_ref key) in
    let* i := query (λ mm, find_right b mm k) in
    if iterator_ne i (end_right b) then
      let* v := query (deref (flip i)) in ret (v, b)
    else
      let tmp := default_left in
      let* j := query (λ mm, find_left b mm tmp) in
      let* b :=
        (if iterator_ne j (end_left b)
         then let* (_, b) := erase_left b j in ret b
         else ret b) in
      let* k := query (read_ref key) in
      let* (i, b) := insert b tmp k in
      let* v := query (deref i) in
      ret (v, b).

  (** [swap(other)] *)
Definition swap (b other : t) : cmd mem (t * t) :=
    let* (ls, lo) :=
      on tag_for_left (intrusive_set.swap (left_set b) (left_set other)) in
    let* (rs, ro) :=
      on tag_for_right (intrusive_set.swap (right_set b) (right_set other)) in
    ret (mk (sentinel b) (m_size other) ls rs,
         mk (sentinel other) (m_size b) lo ro).

  (** The loop of the copy constructor, from [other.begin_left()] to
      [other.end_left()]: the pair under [it] is inserted, then [it++]. *)
Fixpoint copy_loop (fuel : nat) (other b : t) (i : left_iterator)
    : cmd mem t :=
    match fuel with
    | O => λ _, None
    | S fuel =>
        if iterator_ne i (end_left other) then
          let* l := query (deref i) in
          let* r := query (deref (flip i)) in
          let* (_, b) := insert b l r in
          let* i := query (iterator_incr other i) in
          copy_loop fuel other b i
        else ret b
    end.

  (** [bimap(const bimap& other)] *)
Definition copy (other : t) : cmd mem t :=
    let* b := new (intrusive_set.compare (left_set other))
                        (intrusive_set.compare (right_set other)) in
    let* i := query (begin_left other) in
    let* fuel := query (λ mm, Some (fuel_of (lnodes mm))) in
    copy_loop fuel other b i.

  (** [~bimap()]: the records are erased, then the member [sentinel] goes. *)
Definition destroy (b : t) : cmd mem unit :=
    let* first := query (begin_left b) in
    erase_left_range b first (end_left b);;
    λ mm, Some (tt, mk_mem (delete (sentinel b) (lnodes mm))
                           (delete (sentinel b) (rnodes mm))
                           (records mm)).

  (** [operator=(const bimap& other)]; the result is [*this] afterwards.
      [bimap] declares a copy constructor, a copy assignment and a
      destructor and no move member, so an rvalue argument selects this
      function and the copy constructor as well. *)
Definition assign (b other : t) : cmd mem t :=
    if decide (sentinel other ≠ sentinel b) then
      let* tmp := copy other in
      let* (tmp, b) := swap tmp b in
      destroy tmp;;
      ret b
    else ret b.

  (** The loop of [operator==(a, b)]. *)
Fixpoint eq_loop (fuel : nat) (a b : t) (mm : mem)
      (it1 it2 : left_iterator) : option bool :=
    match fuel with
    | O => None
    | S fuel =>
        let comp_left := intrusive_set.compare (left_set a) in
        let comp_right := intrusive_set.compare (right_set a) in
        if iterator_ne it2 (end_left b) then
          l1 ← deref it1 mm; l2 ← deref it2 mm;
          if comp_left l1 l2 then Some false
          else if comp_left l2 l1 then Some false
          else
            r1 ← deref (flip it1) mm; r2 ← deref (flip it2) mm;
            if comp_right r1 r2 then Some false
            else if comp_right r2 r1 then Some false
            else
              it1 ← iterator_incr a it1 mm;
              it2 ← iterator_incr b it2 mm;
              eq_loop fuel a b mm it1 it2
        else Some true
    end.

  (** [operator==(a, b)] *)
Definition eq (a b : t) (mm : mem) : option bool :=
    if decide (size a ≠ size b) then Some false
    else
      it1 ← begin_left a mm;
      it2 ← begin_left b mm;
      eq_loop (fuel_of (lnodes mm)) a b mm it1 it2.

  (** [operator!=(a, b)] *)
Definition ne (a b : t) (mm : mem) : option bool :=
    negb <$> eq a b mm.

End ops.

Arguments mem : clear implicits.
Arguments t : clear implicits.
Arguments storage_node : clear implicits.
Arguments key_ref : clear implicits.
Arguments ref_value {left_t right_t K} _.
Arguments ref_member {left_t right_t K} _ _.
Arguments mk_iterator {T} _.
Arguments it {T} _.

End bimap.

(** * Specification side *)

(** ** The comparison objects: the named requirement [Compare] *)

Class StrictWeakOrder {K : Type} (cmp : K → K → bool) : Prop := {
  swo_irrefl x : cmp x x = false;
  swo_trans x y z : cmp x y = true → cmp y z = true → cmp x z = true;
  swo_equiv_trans x y z :
    cmp x y = false → cmp y x = false →
    cmp y z = false → cmp z y = false →
    cmp x z = false ∧ cmp z x = false
}.

(** Two keys are equivalent when neither is less than the other. *)
Definition equiv_under {K} (cmp : K → K → bool) (x y : K) : bool :=
  negb (cmp x y) && negb (cmp y x).

(** ** The shape of a tree in a link store *)

(** The tree of addresses a link store holds below a slot. *)
Inductive tree :=
  | Leaf
  | Br (l : tree) (a : addr) (r : tree).

(** In-order sequence. *)
Fixpoint elements (t : tree) : list addr :=
  match t with
  | Leaf => []
  | Br l a r => elements l ++ a :: elements r
  end.

Definition root (t : tree) : ptr :=
  match t with
  | Leaf => None
  | Br _ a _ => Some a
  end.

Fixpoint height (t : tree) : nat :=
  match t with
  | Leaf => 0
  | Br l _ r => S (height l `max` height r)
  end.

(** [shape m p t]: the nodes of [t] are linked in [m] as [t] says, the root
    of [t] having [p] for parent. *)
Fixpoint shape (m : links) (p : ptr) (t : tree) : Prop :=
  match t with
  | Leaf => True
  | Br l a r =>
      match m !! a with
      | Some n =>
          parent n = p ∧ left n = root l ∧ right n = root r ∧
          shape m (Some a) l ∧ shape m (Some a) r
      | None => False
      end
  end.

(** Where a subtree hangs below its parent: in the left slot, or in the right
    slot, and then the left slot does not hold its root. *)
Definition hangs (np : node) (side : bool) (c : ptr) : Prop :=
  if side then left np = c
  else right np = c ∧ ∀ y, c = Some y → left np ≠ Some y.

(** The slots of [np'] are those of [np], but for the one that now holds [c]. *)
Definition rehung (np np' : node) (side : bool) (c : ptr) : Prop :=
  parent np' = parent np ∧
  if side then left np' = c ∧ right np' = right np
  else right np' = c ∧ left np' = left np.

(** The cursor on the first address of a list, the end cursor if there is none. *)
Definition cursor_at (e : ptr) (l : list addr) : ptr :=
  match l with
  | a :: _ => Some a
  | [] => e
  end.

(** The cursor on the first address of a list that satisfies [P], the end
    cursor if there is none. *)
Definition first_where (P : addr → bool) (e : ptr) (l : list addr) : ptr :=
  from_option Some e (List.find P l).

(** Binary-search-tree insertion, as [add_to_tree] descends. *)
Fixpoint tins (lt : addr → addr → bool) (obj : addr) (t : tree) : tree :=
  match t with
  | Leaf => Br Leaf obj Leaf
  | Br l a r => if lt obj a then Br (tins lt obj l) a r else Br l a (tins lt obj r)
  end.

Fixpoint tmax (t : tree) : ptr :=
  match t with
  | Leaf => None
  | Br _ a Leaf => Some a
  | Br _ _ r => tmax r
  end.

Fixpoint remove_max (t : tree) : tree :=
  match t with
  | Leaf => Leaf
  | Br l _ Leaf => l
  | Br l a r => Br l a (remove_max r)
  end.

(** What [erase] leaves in the place of a node with subtrees [l] and [r]. *)
Definition join (l r : tree) : tree :=
  match l, r with
  | Leaf, _ => r
  | _, Leaf => l
  | _, _ =>
      match tmax l with
      | Some x => Br (remove_max l) x r
      | None => r
      end
  end.

Fixpoint tdelete (x : addr) (t : tree) : tree :=
  match t with
  | Leaf => Leaf
  | Br l a r =>
      if decide (x = a) then join l r
      else Br (tdelete x l) a (tdelete x r)
  end.

(** ** The invariant of one tree *)

Section tree_inv.
  Context {K : Type}.
  Variable get_key : addr → option K.
  Variable cmp : K → K → bool.

  (** Comparison of the keys of two records. *)
Definition lt_at (a b : addr) : bool :=
    match get_key a, get_key b with
    | Some x, Some y => cmp x y
    | _, _ => false
    end.

  (** The key of a record is less than [k]; [k] is less than the key. *)
Definition below (k : K) (a : addr) : bool :=
    match get_key a with Some x => cmp x k | None => false end.
Definition above (k : K) (a : addr) : bool :=
    match get_key a with Some x => cmp k x | None => false end.
  (** The key of a record is equivalent to [k]. *)
Definition matches (k : K) (a : addr) : bool :=
    match get_key a with Some x => equiv_under cmp k x | None => false end.

Definition keyed (l : list addr) : Prop := Forall (λ a, is_Some (get_key a)) l.

Definition strictly_sorted (l : list addr) : Prop :=
    StronglySorted (λ a b, lt_at a b = true) l.

  (** [tree_inv m s t]: below the sentinel [s] the store [m] holds the binary
      search tree [t]. *)
Definition tree_inv (m : links) (s : addr) (t : tree) : Prop :=
    match m !! s with
    | Some ns => left ns = root t ∧ right ns = None
    | None => False
    end ∧
    shape m (Some s) t ∧
    NoDup (elements t) ∧
    (s ∉ elements t) ∧
    keyed (elements t) ∧
    strictly_sorted (elements t).

End tree_inv.

(** ** Traversal by the iterators of the code *)

Module traversal.
  Section walk.
    Context {left_t right_t : Type}.
    Abbreviation mem := (bimap.mem left_t right_t).
    Abbreviation bimap := (bimap.t left_t right_t).

    (** [for (; i != last; ++i)], collecting the cursors that are visited. *)
Fixpoint walk {T} (fuel : nat) (b : bimap) (mm : mem)
        (i last : bimap.template_iterator T) : option (list ptr) :=
      match fuel with
      | O => None
      | S fuel =>
          if bimap.iterator_ne i last then
            j ← bimap.iterator_incr b i mm;
            rest ← walk fuel b mm j last;
            Some (bimap.it i :: rest)
          else Some []
      end.

    (** The cursors from [begin_left()] to [end_left()]. *)
Definition left_cursors (b : bimap) (mm : mem) : option (list ptr) :=
      i ← bimap.begin_left b mm;
      walk (fuel_of (bimap.lnodes mm)) b mm i (bimap.end_left b).

    (** The cursors from [begin_right()] to [end_right()]. *)
Definition right_cursors (b : bimap) (mm : mem) : option (list ptr) :=
      i ← bimap.begin_right b mm;
      walk (fuel_of (bimap.rnodes mm)) b mm i (bimap.end_right b).

    (** The keys read through a list of cursors. *)
Definition left_keys (mm : mem) (cs : list ptr) : option (list left_t) :=
      mapM (λ c, bimap.deref (T:=tag_for_left) (bimap.mk_iterator c) mm) cs.
Definition right_keys (mm : mem) (cs : list ptr) : option (list right_t) :=
      mapM (λ c, bimap.deref (T:=tag_for_right) (bimap.mk_iterator c) mm) cs.

    (** The pair under a cursor of the left tree: the key under the cursor
        and the key under its flip; and the same from the right tree. *)
Definition pair_at_left (mm : mem) (c : ptr) : option (left_t * right_t) :=
      let i : bimap.left_iterator := bimap.mk_iterator c in
      l ← bimap.deref i mm; r ← bimap.deref (bimap.flip i) mm; Some (l, r).
Definition pair_at_right (mm : mem) (c : ptr) : option (left_t * right_t) :=
      let i : bimap.right_iterator := bimap.mk_iterator c in
      r ← bimap.deref i mm; l ← bimap.deref (bimap.flip i) mm; Some (l, r).

    (** The pairs of the container, in the order of the left tree and in the
        order of the right tree. *)
Definition left_pairs (b : bimap) (mm : mem) : option (list (left_t * right_t)) :=
      cs ← left_cursors b mm; mapM (pair_at_left mm) cs.
Definition right_pairs (b : bimap) (mm : mem) : option (list (left_t * right_t)) :=
      cs ← right_cursors b mm; mapM (pair_at_right mm) cs.

    (** The first cursor of [cs] whose key satisfies [P]; [e] if there is none. *)
Definition first_cursor {T} (mm : mem) (P : bimap.key T → bool)
        (e : bimap.template_iterator T) (cs : list ptr) : bimap.template_iterator T :=
      default e
        (bimap.mk_iterator <$>
          List.find (λ c, match bimap.deref (T:=T) (bimap.mk_iterator c) mm with
                          | Some x => P x
                          | None => false
                          end) cs).
  End walk.
End traversal.

(** ** The invariant of a bimap *)

Section bimap_inv.
  Context {left_t right_t : Type}.
  Abbreviation mem := (bimap.mem left_t right_t).
  Abbreviation bimap := (bimap.t left_t right_t).

  (** The memory with the link store of one side replaced. *)
Definition set_nodes (T : tag) (l : links) (mm : mem) : mem :=
    match T with
    | tag_for_left => bimap.mk_mem l (bimap.rnodes mm) (bimap.records mm)
    | tag_for_right => bimap.mk_mem (bimap.lnodes mm) l (bimap.records mm)
    end.

  (** [erase_left] and [erase_right] are one function of the side. *)
Definition erase_side (T : tag) (b : bimap) (i : bimap.template_iterator T)
    : cmd mem (bimap.template_iterator T * bimap) :=
    bimap.on (bimap.flip_struct T) (intrusive_set.erase (bimap.it (bimap.flip i)));;
    let copy := i in
    let* i := query (bimap.iterator_incr b i) in
    let next : bimap.template_iterator T := bimap.mk_iterator (bimap.it i) in
    let* p := bimap.on T (intrusive_set.erase (bimap.it copy)) in
    bimap.delete_storage_node p;;
    let b := bimap.with_size (size_t_pred (bimap.m_size b)) b in
    ret (next, b).

  (** The invariant of the tree of one side. *)
Definition side_inv (T : tag) (mm : mem) (b : bimap) (t : tree) : Prop :=
    intrusive_set.sentinel (bimap.set T b) = Some (bimap.sentinel b) ∧
    tree_inv (bimap.get_key T mm) (intrusive_set.compare (bimap.set T b))
      (bimap.nodes T mm) (bimap.sentinel b) t.

  (** [inv_with mm b tl tr]: the left tree of [b] is [tl] and its right tree
      is [tr]; both sets use the member [sentinel]; the two trees hold the
      same records; [m_size] counts them. *)
Definition inv_with (mm : mem) (b : bimap) (tl tr : tree) : Prop :=
    intrusive_set.sentinel (bimap.left_set b) = Some (bimap.sentinel b) ∧
    intrusive_set.sentinel (bimap.right_set b) = Some (bimap.sentinel b) ∧
    tree_inv (bimap.get_key tag_for_left mm)
      (intrusive_set.compare (bimap.left_set b)) (bimap.lnodes mm) (bimap.sentinel b) tl ∧
    tree_inv (bimap.get_key tag_for_right mm)
      (intrusive_set.compare (bimap.right_set b)) (bimap.rnodes mm) (bimap.sentinel b) tr ∧
    elements tl ≡ₚ elements tr ∧
    bimap.m_size b = Z.of_nat (length (elements tl)) ∧
    (bimap.m_size b < size_t_modulus)%Z.

Definition inv (mm : mem) (b : bimap) : Prop :=
    StrictWeakOrder (intrusive_set.compare (bimap.left_set b)) ∧
    StrictWeakOrder (intrusive_set.compare (bimap.right_set b)) ∧
    ∃ tl tr, inv_with mm b tl tr.

  (** The keys of the record at an address. *)
Definition pair_of (mm : mem) (a : addr) : option (left_t * right_t) :=
    (λ rec, (bimap.left_key rec, bimap.right_key rec)) <$> bimap.records mm !! a.

  (** The states of one container that its constructor and its mutators
      reach, as long as [m_size] does not wrap around. *)
Inductive reachable : mem → bimap → Prop :=
    | reachable_new mm0 cl cr b mm :
        StrictWeakOrder cl → StrictWeakOrder cr →
        bimap.new cl cr mm0 = Some (b, mm) →
        reachable mm b
    | reachable_insert mm b l r i b' mm' :
        reachable mm b →
        (bimap.m_size b + 1 < size_t_modulus)%Z →
        bimap.insert b l r mm = Some ((i, b'), mm') →
        reachable mm' b'
    | reachable_erase_left mm b cs c i b' mm' :
        reachable mm b →
        traversal.left_cursors b mm = Some cs → c ∈ cs →
        bimap.erase_left b (bimap.mk_iterator c) mm = Some ((i, b'), mm') →
        reachable mm' b'
    | reachable_erase_right mm b cs c i b' mm' :
        reachable mm b →
        traversal.right_cursors b mm = Some cs → c ∈ cs →
        bimap.erase_right b (bimap.mk_iterator c) mm = Some ((i, b'), mm') →
        reachable mm' b'.

End bimap_inv.

(** ** Structural equality, as a lock-step comparison of two lists of pairs *)

(** Every pair of [ps] and the pair of [qs] at the same position have
    equivalent left keys under [cl] and equivalent right keys under [cr]. *)
Definition pairs_equivalent {L R} (cl : L → L → bool) (cr : R → R → bool)
    (ps qs : list (L * R)) : bool :=
  forallb (λ pq, equiv_under cl pq.1.1 pq.2.1 && equiv_under cr pq.1.2 pq.2.2)
    (zip ps qs).

Definition structurally_equal {L R} (cl : L → L → bool) (cr : R → R → bool)
    (na nb : Z) (ps qs : list (L * R)) : bool :=
  bool_decide (na = nb) && pairs_equivalent cl cr ps qs.

(** The container [b] with other comparison objects in its two sets. *)
Definition with_compare {L R} (cl : L → L → bool) (cr : R → R → bool)
    (b : bimap.t L R) : bimap.t L R :=
  bimap.mk (bimap.sentinel b) (bimap.m_size b)
    (intrusive_set.mk cl (intrusive_set.sentinel (bimap.left_set b)))
    (intrusive_set.mk cr (intrusive_set.sentinel (bimap.right_set b))).

(** ** Concrete containers of natural numbers *)

Module example.

Definition mem0 : bimap.mem nat nat := bimap.mk_mem ∅ ∅ ∅.

  (** The state of a command run from a state, [default] when it fails. *)
Definition after {A} (c : cmd (bimap.mem nat nat) A)
      (st : bimap.t nat nat * bimap.mem nat nat)
      (f : A → bimap.t nat nat) : bimap.t nat nat * bimap.mem nat nat :=
    match c st.2 with
    | Some (x, mm) => (f x, mm)
    | None => st
    end.

  (** [bimap<nat, nat> b;] in the empty memory *)
Definition st0 : bimap.t nat nat * bimap.mem nat nat :=
    Eval vm_compute in
      match bimap.new Nat.ltb Nat.ltb mem0 with
      | Some st => st
      | None => (bimap.mk 1%positive 0%Z (intrusive_set.mk Nat.ltb None)
                   (intrusive_set.mk Nat.ltb None), mem0)
      end.

  (** then [b.insert(3, 30); b.insert(1, 20); b.insert(2, 10);] *)
Definition st1 : bimap.t nat nat * bimap.mem nat nat :=
    Eval vm_compute in after (bimap.insert st0.1 3 30) st0 snd.
Definition st2 : bimap.t nat nat * bimap.mem nat nat :=
    Eval vm_compute in after (bimap.insert st1.1 1 20) st1 snd.
Definition st3 : bimap.t nat nat * bimap.mem nat nat :=
    Eval vm_compute in after (bimap.insert st2.1 2 10) st2 snd.

  (** Less-than on the halves: [2] and [3] are equivalent. *)
Definition lt_half (x y : nat) : bool := Nat.ltb (x / 2) (y / 2).

  (** [a] holds [(2, 0)] and compares left keys by [lt_half]; [b] holds
      [(3, 0)] and compares them by [<]; both live in the memory [mm_ab]. *)
Definition a0 : bimap.t nat nat * bimap.mem nat nat :=
    Eval vm_compute in
      match bimap.new lt_half Nat.ltb mem0 with
      | Some st => after (bimap.insert st.1 2 0) st snd
      | None => st0
      end.
Definition b0 : bimap.t nat nat * bimap.mem nat nat :=
    Eval vm_compute in
      match bimap.new Nat.ltb Nat.ltb a0.2 with
      | Some st => after (bimap.insert st.1 3 0) st snd
      | None => st0
      end.

  (** [p] gets [(1, 10)], then [(2, 20)]; [q], constructed in the memory of
      [p], gets [(2, 20)], then [(1, 10)]; both compare their keys by [<]. *)
Definition p0 : bimap.t nat nat * bimap.mem nat nat :=
    Eval vm_compute in
      match bimap.new Nat.ltb Nat.ltb mem0 with
      | Some st =>
          let st := after (bimap.insert st.1 1 10) st snd in
          after (bimap.insert st.1 2 20) st snd
      | None => st0
      end.
Definition q0 : bimap.t nat nat * bimap.mem nat nat :=
    Eval vm_compute in
      match bimap.new Nat.ltb Nat.ltb p0.2 with
      | Some st =>
          let st := after (bimap.insert st.1 2 20) st snd in
          after (bimap.insert st.1 1 10) st snd
      | None => st0
      end.

End example.

(** ** The life of one container in a memory *)

Section bimap_life.
  Context {left_t right_t : Type}.
  Abbreviation mem := (bimap.mem left_t right_t).
  Abbreviation bimap := (bimap.t left_t right_t).

  (** The states that a container constructed in the memory [mm0] reaches by
      its mutators, as long as [m_size] does not wrap around. *)
Inductive reachable_from (mm0 : mem) : mem → bimap → Prop :=
    | from_new cl cr b mm :
        StrictWeakOrder cl → StrictWeakOrder cr →
        bimap.new cl cr mm0 = Some (b, mm) →
        reachable_from mm0 mm b
    | from_insert mm b l r i b' mm' :
        reachable_from mm0 mm b →
        (bimap.m_size b + 1 < size_t_modulus)%Z →
        bimap.insert b l r mm = Some ((i, b'), mm') →
        reachable_from mm0 mm' b'
    | from_erase_left mm b cs c i b' mm' :
        reachable_from mm0 mm b →
        traversal.left_cursors b mm = Some cs → c ∈ cs →
        bimap.erase_left b (bimap.mk_iterator c) mm = Some ((i, b'), mm') →
        reachable_from mm0 mm' b'
    | from_erase_right mm b cs c i b' mm' :
        reachable_from mm0 mm b →
        traversal.right_cursors b mm = Some cs → c ∈ cs →
        bimap.erase_right b (bimap.mk_iterator c) mm = Some ((i, b'), mm') →
        reachable_from mm0 mm' b'.

  (** The reference [key] is to a member of the record under the cursor
      [p]. *)
Definition refers_to {K} (key : bimap.key_ref left_t right_t K) (p : ptr) : bool :=
    match key with
    | bimap.ref_member a _ => bool_decide (p = Some a)
    | bimap.ref_value _ => false
    end.

End bimap_life.

(** * Proofs *)

Arguments fuel_of : simpl never.
Arguments intrusive_set.incr : simpl never.
Arguments intrusive_set.begin : simpl never.
Arguments intrusive_set.lower_bound : simpl never.
Arguments intrusive_set.upper_bound : simpl never.
Arguments intrusive_set.find : simpl never.

(** Unfolding the predicates of the invariant, also where a section
    abbreviates them. *)
Ltac unfold_keyed H := unfold keyed in H.
Ltac unfold_matches H := unfold matches in H.
Ltac unfold_tree_inv := unfold tree_inv.

(** ** Commands *)

Lemma bind_Some {St A B} (c : cmd St A) (k : A → cmd St B) m x m' :
  c m = Some (x, m') → bind c k m = k x m'.
Proof. unfold bind. by intros ->. Qed.

Lemma bind_inv {St A B} (c : cmd St A) (k : A → cmd St B) m y m'' :
  bind c k m = Some (y, m'') →
  ∃ x m', c m = Some (x, m') ∧ k x m' = Some (y, m'').
Proof.
  unfold bind. destruct (c m) as [[x m']|]; [|done]. eauto.
Qed.

Lemma bind_assoc {St A B C} (c : cmd St A) (f : A → cmd St B) (k : B → cmd St C) m :
  bind (bind c f) k m = bind c (λ x, bind (f x) k) m.
Proof. unfold bind. by destruct (c m) as [[x m']|]. Qed.

Lemma load_Some m a n : m !! a = Some n → load m (Some a) = Some n.
Proof. done. Qed.

Lemma get_left_Some m a n : m !! a = Some n → get_left (Some a) m = Some (left n, m).
Proof. unfold get_left. simpl. by intros ->. Qed.

Lemma get_right_Some m a n : m !! a = Some n → get_right (Some a) m = Some (right n, m).
Proof. unfold get_right. simpl. by intros ->. Qed.

Lemma get_parent_Some m a n : m !! a = Some n → get_parent (Some a) m = Some (parent n, m).
Proof. unfold get_parent. simpl. by intros ->. Qed.

Lemma store_Some f m a n :
  m !! a = Some n → store f (Some a) m = Some (tt, <[a := f n]> m).
Proof. unfold store. simpl. by intros ->. Qed.

Lemma query_Some {St A} (f : St → option A) m x : f m = Some x → query f m = Some (x, m).
Proof. unfold query. by intros ->. Qed.

(** ** Lists *)

Lemma app_cons_split {A} (l1 l2 pre post : list A) x a :
  l1 ++ x :: l2 = pre ++ a :: post →
  (∃ post', l1 = pre ++ a :: post' ∧ post = post' ++ x :: l2) ∨
  (a = x ∧ pre = l1 ∧ post = l2) ∨
  (∃ pre', l2 = pre' ++ a :: post ∧ pre = l1 ++ x :: pre').
Proof.
  revert pre. induction l1 as [|y l1 IH]; intros [|z pre] E; simplify_eq/=.
  - right; left. done.
  - right; right. eauto.
  - left. eauto.
  - destruct (IH _ H0) as [(post' & -> & ->)|[(-> & -> & ->)|(pre' & -> & ->)]].
    + left. eauto.
    + right; left. done.
    + right; right. eauto.
Qed.

(** ** Trees *)

Lemma elements_nil t : elements t = [] → t = Leaf.
Proof. destruct t; [done|]. simpl. by destruct (elements t1). Qed.

Lemma root_None t : root t = None → t = Leaf.
Proof. by destruct t. Qed.

Lemma root_elem t a : root t = Some a → a ∈ elements t.
Proof. destruct t; [done|]. intros [= ->]. set_solver. Qed.

Lemma head_elements_app t l : t ≠ Leaf → head (elements t ++ l) = head (elements t).
Proof.
  intros Ht. destruct (elements t) eqn:E; [|done]. by apply elements_nil in E.
Qed.

Lemma last_elements_Br l x r :
  last (elements (Br l x r)) =
  match r with Leaf => Some x | Br _ _ _ => last (elements r) end.
Proof.
  simpl. rewrite last_app, last_cons. destruct r as [|r1 y r2]; [done|].
  destruct (last (elements (Br r1 y r2))) eqn:E; [done|].
  apply last_None in E. by apply elements_nil in E.
Qed.

Lemma height_le_length t : height t ≤ length (elements t).
Proof.
  induction t as [|l IHl a r IHr]; simpl; [done|]. rewrite length_app. simpl. lia.
Qed.

Lemma shape_frame m m' p t :
  (∀ a, a ∈ elements t → m' !! a = m !! a) → shape m p t → shape m' p t.
Proof.
  revert p. induction t as [|l IHl a r IHr]; intros p Hag; simpl; [done|].
  rewrite (Hag a) by set_solver.
  destruct (m !! a) as [n|]; [|done].
  intros (Hp & Hl & Hr & Hsl & Hsr). repeat split; try done.
  - apply IHl; [|done]. intros. apply Hag. set_solver.
  - apply IHr; [|done]. intros. apply Hag. set_solver.
Qed.

Lemma shape_Br m p l a r n :
  m !! a = Some n → parent n = p → left n = root l → right n = root r →
  shape m (Some a) l → shape m (Some a) r → shape m p (Br l a r).
Proof. intros Ha. simpl. rewrite Ha. done. Qed.

Lemma shape_Br_inv m p l a r :
  shape m p (Br l a r) →
  ∃ n, m !! a = Some n ∧ parent n = p ∧ left n = root l ∧ right n = root r ∧
       shape m (Some a) l ∧ shape m (Some a) r.
Proof. simpl. destruct (m !! a) as [n|]; [|done]. eauto. Qed.

Lemma shape_lookup m p t a :
  shape m p t → a ∈ elements t → is_Some (m !! a).
Proof.
  revert p. induction t as [|l IHl x r IHr]; intros p; simpl; [set_solver|].
  destruct (m !! x) as [n|] eqn:E; [|done].
  intros (? & ? & ? & Hl & Hr) Hin.
  apply elem_of_app in Hin as [Hin|Hin]; [by eapply IHl|].
  apply elem_of_cons in Hin as [->|Hin]; [by rewrite E|by eapply IHr].
Qed.

Lemma shape_root m p t a :
  shape m p t → root t = Some a → ∃ n, m !! a = Some n ∧ parent n = p.
Proof.
  destruct t; [done|]. simpl. intros H [= ->].
  destruct (m !! a) as [n|]; [|done]. exists n. naive_solver.
Qed.

Lemma shape_length m p t s :
  shape m p t → NoDup (elements t) → s ∉ elements t → is_Some (m !! s) →
  S (length (elements t)) ≤ size m.
Proof.
  intros Hs Hnd Hs' Hm.
  assert (list_to_set (s :: elements t) ⊆ dom m) as Hsub.
  { intros x. rewrite elem_of_list_to_set, elem_of_dom, elem_of_cons.
    intros [->|Hx]; [done|]. by eapply shape_lookup. }
  apply subseteq_size in Hsub.
  rewrite size_list_to_set in Hsub.
  - rewrite size_dom in Hsub. simpl in Hsub. done.
  - constructor; done.
Qed.

(** ** The loops of the iterators *)

Lemma descend_left_spec fuel m p t :
  shape m p t → t ≠ Leaf → height t ≤ fuel →
  intrusive_set.descend_left fuel m (root t) = Some (head (elements t)).
Proof.
  revert fuel p. induction t as [|l IHl a r _]; intros fuel p Hs Hne Hf; [done|].
  simpl in *. destruct fuel as [|fuel]; [lia|]. simpl.
  destruct (m !! a) as [n|]; [|done]. simpl.
  destruct Hs as (_ & Hl & _ & Hsl & _). rewrite Hl.
  destruct l as [|l1 x l2]; [done|].
  rewrite (IHl fuel (Some a)); [|done..|lia].
  by rewrite head_elements_app.
Qed.

Lemma ascend_from_right_mono f f' m p q :
  intrusive_set.ascend_from_right f m p = Some q → f ≤ f' →
  intrusive_set.ascend_from_right f' m p = Some q.
Proof.
  revert f' p. induction f as [|f IH]; intros f' p; [done|].
  intros H Hle. destruct f' as [|f']; [lia|]. simpl in *.
  destruct (load m p) as [n|]; [|done]. simpl in *.
  destruct (non_null (parent n)); [|done].
  destruct (load m (parent n)) as [nq|]; [|done]. simpl in *.
  case_decide; [|done]. apply IH; [done|lia].
Qed.

Lemma ascend_rightmost m p t a :
  shape m p t → last (elements t) = Some a →
  ∀ f q, intrusive_set.ascend_from_right f m (root t) = Some q →
         intrusive_set.ascend_from_right (height t + f) m (Some a) = Some q.
Proof.
  revert p. induction t as [|l _ x r IHr]; intros p Hs Hlast f q Hq; [done|].
  simpl in Hs. destruct (m !! x) as [n|] eqn:Hx; [|done].
  destruct Hs as (Hp & Hl & Hr & Hsl & Hsr).
  rewrite last_elements_Br in Hlast.
  destruct r as [|r1 y r2].
  - simplify_eq. eapply ascend_from_right_mono; [done|lia].
  - eapply ascend_from_right_mono; [eapply (IHr _ Hsr Hlast (S f))|simpl; lia].
    simpl in Hsr |- *. destruct (m !! y) as [ny|] eqn:Hy; [|done]. simpl.
    destruct Hsr as (-> & _). simpl. rewrite Hx. simpl.
    rewrite Hr. simpl. rewrite decide_True by done. done.
Qed.

(** [operator++] on a node of a subtree: the next node of the subtree, as
    long as there is one. *)
Lemma incr_shape F m p t pre a post :
  shape m p t → NoDup (elements t) → elements t = pre ++ a :: post →
  height t < F →
  ∃ n, m !! a = Some n ∧
    match post with
    | b :: _ =>
        (if non_null (right n) then intrusive_set.descend_left F m (right n)
         else p' ← intrusive_set.ascend_from_right F m (Some a);
              q ← load m p'; Some (parent q)) = Some (Some b)
    | [] => right n = None
    end.
Proof.
  revert p pre post. induction t as [|l IHl x r IHr]; intros p pre post Hs Hnd E HF.
  { by destruct pre. }
  simpl in Hs. destruct (m !! x) as [n|] eqn:Hx; [|done].
  destruct Hs as (Hp & Hl & Hr & Hsl & Hsr).
  simpl in E, Hnd, HF.
  apply NoDup_app in Hnd as (Hndl & Hlr & Hndr).
  apply NoDup_cons in Hndr as (Hxr & Hndr).
  apply app_cons_split in E as [(post' & E & ->)|[(-> & -> & ->)|(pre' & E & ->)]].
  - destruct (IHl _ _ _ Hsl Hndl E) as (na & Ha & Hpost); [lia|].
    exists na. split; [done|]. destruct post' as [|b post']; [|done]. simpl.
    rewrite Hpost. simpl.
    assert (last (elements l) = Some a) as Hlast.
    { rewrite E. rewrite last_app. done. }
    destruct l as [|l1 y l2]; [by destruct pre|].
    assert (intrusive_set.ascend_from_right F m (Some a) = Some (Some y)) as ->.
    { eapply ascend_from_right_mono;
        [eapply (ascend_rightmost _ _ _ _ Hsl Hlast 1)|simpl in *; lia].
      simpl in Hsl |- *. destruct (m !! y) as [ny|] eqn:Hy; [|done]. simpl.
      destruct Hsl as (-> & _). simpl. rewrite Hx. simpl.
      rewrite decide_False; [done|].
      rewrite Hr. intros Hroot. apply root_elem in Hroot.
      apply (Hlr y); set_solver. }
    simpl. simpl in Hsl. destruct (m !! y) as [ny|]; [|done]. simpl.
    by destruct Hsl as (-> & _).
  - exists n. split; [done|]. destruct (elements r) as [|b er] eqn:Er.
    + apply elements_nil in Er. subst r. done.
    + rewrite Hr. destruct r as [|r1 y r2]; [done|].
      simpl. rewrite (descend_left_spec _ _ _ (Br r1 y r2) Hsr); [|done|simpl in *; lia].
      by rewrite Er.
  - destruct (IHr _ _ _ Hsr Hndr E) as (na & Ha & Hpost); [lia|].
    exists na. done.
Qed.

(** ** Strict weak orders *)

Section swo.
  Context {K : Type} (cmp : K → K → bool) `{!StrictWeakOrder cmp}.

Lemma swo_asym x y : cmp x y = true → cmp y x = false.
  Proof.
    intros H. destruct (cmp y x) eqn:E; [|done].
    pose proof (swo_trans x y x H E) as Ht.
    pose proof (swo_irrefl (cmp:=cmp) x). congruence.
  Qed.

Lemma swo_cotrans x y z : cmp x z = true → cmp x y = true ∨ cmp y z = true.
  Proof.
    intros H.
    destruct (cmp x y) eqn:Exy; [by left|].
    destruct (cmp y z) eqn:Eyz; [by right|]. exfalso.
    destruct (cmp y x) eqn:Eyx.
    { pose proof (swo_trans y x z Eyx H). congruence. }
    destruct (cmp z y) eqn:Ezy.
    { pose proof (swo_trans x z y H Ezy). congruence. }
    destruct (swo_equiv_trans x y z) as [Hxz _]; try done. congruence.
  Qed.

Lemma equiv_under_refl x : equiv_under cmp x x = true.
  Proof. unfold equiv_under. by rewrite (swo_irrefl (cmp:=cmp) x). Qed.

Lemma equiv_under_sym x y : equiv_under cmp x y = equiv_under cmp y x.
  Proof. unfold equiv_under. apply andb_comm. Qed.

Lemma equiv_under_lt_l x y z :
    equiv_under cmp x y = true → cmp x z = true → cmp y z = true.
  Proof.
    unfold equiv_under. intros [Hxy Hyx]%andb_prop Hxz.
    apply negb_true_iff in Hxy, Hyx.
    destruct (swo_cotrans x y z Hxz); congruence.
  Qed.

Lemma equiv_under_lt_r x y z :
    equiv_under cmp x y = true → cmp z x = true → cmp z y = true.
  Proof.
    unfold equiv_under. intros [Hxy Hyx]%andb_prop Hzx.
    apply negb_true_iff in Hxy, Hyx.
    destruct (swo_cotrans z y x Hzx); congruence.
  Qed.

End swo.

(** ** [List.find] *)

Lemma find_app_None {A} (P : A → bool) l1 l2 :
  (∀ a, a ∈ l1 → P a = false) → List.find P (l1 ++ l2) = List.find P l2.
Proof.
  induction l1 as [|x l1 IH]; intros H; [done|]. simpl.
  rewrite H by set_solver. apply IH. intros. apply H. set_solver.
Qed.

Lemma find_app_Some {A} (P : A → bool) l1 l2 a :
  List.find P l1 = Some a → List.find P (l1 ++ l2) = Some a.
Proof.
  induction l1 as [|x l1 IH]; [done|]. simpl. destruct (P x); [done|]. apply IH.
Qed.

Lemma find_elem_of {A} (P : A → bool) l a :
  List.find P l = Some a → a ∈ l ∧ P a = true.
Proof.
  induction l as [|x l IH]; [done|]. simpl. destruct (P x) eqn:E.
  - intros [= ->]. split; [set_solver|done].
  - intros H. destruct (IH H). split; [set_solver|done].
Qed.

Lemma find_None_iff {A} (P : A → bool) l :
  List.find P l = None ↔ ∀ a, a ∈ l → P a = false.
Proof.
  induction l as [|x l IH]; simpl; [set_solver|].
  destruct (P x) eqn:E.
  - split; [done|]. intros H. rewrite H in E by set_solver. done.
  - rewrite IH. set_solver.
Qed.

(** The first element that satisfies [P] splits the list. *)
Lemma find_split {A} (P : A → bool) l a :
  List.find P l = Some a →
  ∃ pre post, l = pre ++ a :: post ∧ (∀ x, x ∈ pre → P x = false) ∧ P a = true.
Proof.
  induction l as [|x l IH]; [done|]. simpl. destruct (P x) eqn:E.
  - intros [= ->]. exists [], l. set_solver.
  - intros H. destruct (IH H) as (pre & post & -> & Hpre & Ha).
    exists (x :: pre), post. set_solver.
Qed.

(** ** One tree under its sentinel *)

Section tree.
  Context {K : Type}.
  Variable get_key : addr → option K.
  Variable self : intrusive_set.t K.
  Variable s : addr.
  Hypothesis sentinel_self : intrusive_set.sentinel self = Some s.

  Abbreviation cmp := (intrusive_set.compare self).
  Abbreviation tree_inv := (tree_inv get_key cmp).
  Abbreviation keyed := (keyed get_key).
  Abbreviation strictly_sorted := (strictly_sorted get_key cmp).
  Abbreviation below := (below get_key cmp).
  Abbreviation above := (above get_key cmp).
  Abbreviation matches := (matches get_key cmp).

Lemma tree_inv_fuel m t : tree_inv m s t → height t < fuel_of m ∧ height t ≤ size m.
  Proof.
    intros (Hs & Hsh & Hnd & Hnin & _).
    destruct (m !! s) as [ns|] eqn:E; [|done].
    pose proof (shape_length m _ t s Hsh Hnd Hnin (mk_is_Some _ _ E)).
    pose proof (height_le_length t). unfold fuel_of. lia.
  Qed.

Lemma begin_spec m t :
    tree_inv m s t →
    intrusive_set.begin self m = Some (cursor_at (Some s) (elements t)).
  Proof.
    intros Hinv. pose proof (tree_inv_fuel m t Hinv) as [_ Hf].
    destruct Hinv as (Hs & Hsh & _).
    unfold intrusive_set.begin, fuel_of. rewrite sentinel_self. simpl.
    destruct (m !! s) as [ns|] eqn:E; [|done]. simpl.
    destruct Hs as [-> _]. destruct t as [|l a r]; [done|].
    rewrite (descend_left_spec _ _ _ _ Hsh); [|done..].
    simpl. by destruct (elements l).
  Qed.

Lemma incr_spec m t pre a post :
    tree_inv m s t → elements t = pre ++ a :: post →
    intrusive_set.incr m (Some a) = Some (cursor_at (Some s) post).
  Proof.
    intros Hinv E. pose proof (tree_inv_fuel m t Hinv) as [Hf _].
    destruct Hinv as (Hs & Hsh & Hnd & Hnin & _).
    destruct (incr_shape _ _ _ _ _ _ _ Hsh Hnd E Hf) as (n & Ha & Hpost).
    unfold intrusive_set.incr. cbn. rewrite Ha. cbn.
    destruct post as [|b post]; [|done]. rewrite Hpost. cbn.
    destruct (m !! s) as [ns|] eqn:Es; [|done]. destruct Hs as [Hl Hr].
    destruct t as [|l x r]; [by destruct pre|].
    assert (last (elements (Br l x r)) = Some a) as Hlast.
    { rewrite E, last_app. done. }
    pose proof Hsh as Hsh'. simpl in Hsh'.
    destruct (m !! x) as [nx|] eqn:Ex; [|done]. destruct Hsh' as (Hp & _).
    rewrite (ascend_from_right_mono (height (Br l x r) + 1) _ _ _ (Some x)); [|
      |lia].
    - cbn. rewrite Ex. cbn. by rewrite Hp.
    - apply (ascend_rightmost _ _ _ _ Hsh Hlast). simpl. rewrite Ex. simpl.
      rewrite Hp. simpl. rewrite Es. simpl. rewrite Hr.
      by rewrite decide_False.
  Qed.

  Context `{!StrictWeakOrder cmp}.

Lemma sorted_below_l k el x er kx :
    strictly_sorted (el ++ x :: er) → keyed (el ++ x :: er) →
    get_key x = Some kx → cmp k kx = false →
    ∀ a, a ∈ el → below k a = true.
  Proof.
    intros Hsort Hkeyed Hx Hk a Ha.
    assert (lt_at get_key cmp a x = true) as Hlt.
    { eapply (StronglySorted_app_1_elem_of _ _ _ _ _ Hsort); set_solver. }
    unfold lt_at, below in *. rewrite Hx in Hlt.
    destruct (get_key a) as [ka|]; [|done].
    destruct (swo_cotrans cmp ka k kx Hlt); [done|congruence].
  Qed.

Lemma sorted_above_r k el x er kx :
    strictly_sorted (el ++ x :: er) → keyed (el ++ x :: er) →
    get_key x = Some kx → cmp kx k = false →
    ∀ a, a ∈ er → above k a = true.
  Proof.
    intros Hsort Hkeyed Hx Hk a Ha.
    assert (lt_at get_key cmp x a = true) as Hlt.
    { apply StronglySorted_app_1_r in Hsort.
      apply StronglySorted_cons in Hsort as [Hall _].
      rewrite Forall_forall in Hall. by apply Hall. }
    unfold lt_at, above in *. rewrite Hx in Hlt.
    destruct (get_key a) as [ka|]; [|done].
    destruct (swo_cotrans cmp kx k ka Hlt); [congruence|done].
  Qed.

Lemma bound_impl_spec F m p t k :
    shape m p t → keyed (elements t) → strictly_sorted (elements t) →
    s ∉ elements t → height t < F →
    intrusive_set.bound_impl get_key self F m k (root t) =
    Some (first_where (λ a, negb (below k a)) (Some s) (elements t)).
  Proof.
    revert F p. induction t as [|l IHl x r IHr]; intros F p Hsh Hkeyed Hsort Hnin HF.
    { destruct F; [lia|]. simpl. by rewrite sentinel_self. }
    destruct F as [|F]; [lia|]. simpl in Hsh, HF.
    destruct (m !! x) as [n|] eqn:Hx; [|done].
    destruct Hsh as (Hp & Hl & Hr & Hsl & Hsr).
    pose proof Hkeyed as Hkeyed'. pose proof Hsort as Hsort'.
    simpl in Hkeyed', Hsort'. unfold keyed in Hkeyed'.
    apply Forall_app in Hkeyed' as [Hkl Hkr].
    apply Forall_cons in Hkr as [[kx Hkx] Hkr].
    apply StronglySorted_app in Hsort' as (Hlr & Hsortl & Hsortr).
    apply StronglySorted_cons in Hsortr as [Hxr Hsortr].
    cbn [intrusive_set.bound_impl non_null intrusive_set.key_at mbind option_bind root].
    rewrite Hkx. simpl. unfold intrusive_set.less, intrusive_set.greater.
    unfold first_where. cbn [elements].
    assert (below k x = cmp kx k) as Hbx by (unfold below; by rewrite Hkx).
    destruct (cmp kx k) eqn:E1.
    - rewrite Hx. simpl. rewrite Hr.
      rewrite (IHr F (Some x)); [|done..| |lia]; [|set_solver].
      unfold first_where. rewrite find_app_None.
      + cbn [List.find]. by rewrite Hbx.
      + intros a Ha. apply negb_false_iff.
        eapply (sorted_below_l k (elements l) x (elements r) kx); try done.
        by apply swo_asym.
    - destruct (cmp k kx) eqn:E2.
      + rewrite Hx. simpl. rewrite Hl.
        rewrite (IHl F (Some x)); [|done..| |lia]; [|set_solver].
        unfold first_where. simpl.
        destruct (List.find _ (elements l)) as [a|] eqn:Ef.
        * simpl. rewrite sentinel_self.
          apply find_elem_of in Ef as Ha. destruct Ha as [Ha _].
          rewrite decide_True; [|set_solver].
          by rewrite (find_app_Some _ _ _ _ Ef).
        * simpl. rewrite sentinel_self. rewrite decide_False by naive_solver.
          rewrite find_app_None by by apply find_None_iff.
          cbn [List.find]. by rewrite Hbx.
      + rewrite find_app_None.
        * cbn [List.find]. by rewrite Hbx.
        * intros a Ha. apply negb_false_iff.
          by eapply (sorted_below_l k (elements l) x (elements r) kx).
  Qed.

Lemma lower_bound_spec m t k :
    tree_inv m s t →
    intrusive_set.lower_bound get_key self m k =
    Some (first_where (λ a, negb (below k a)) (Some s) (elements t)).
  Proof.
    intros Hinv. pose proof (tree_inv_fuel m t Hinv) as [Hf _].
    destruct Hinv as (Hs & Hsh & Hnd & Hnin & Hkeyed & Hsort).
    unfold intrusive_set.lower_bound. rewrite sentinel_self. cbn.
    destruct (m !! s) as [ns|]; [|done]. cbn. destruct Hs as [-> _].
    by eapply bound_impl_spec.
  Qed.

End tree.

(** ** [find] and [upper_bound] *)

Section lookup.
  Context {K : Type}.
  Variable get_key : addr → option K.
  Variable self : intrusive_set.t K.
  Variable s : addr.
  Hypothesis sentinel_self : intrusive_set.sentinel self = Some s.
  Context `{!StrictWeakOrder (intrusive_set.compare self)}.

  Abbreviation cmp := (intrusive_set.compare self).
  Abbreviation tree_inv := (tree_inv get_key cmp).
  Abbreviation keyed := (keyed get_key).
  Abbreviation strictly_sorted := (strictly_sorted get_key cmp).
  Abbreviation below := (below get_key cmp).
  Abbreviation above := (above get_key cmp).
  Abbreviation matches := (matches get_key cmp).

Lemma equals_matches k a ka :
    get_key a = Some ka → intrusive_set.equals self k ka = matches k a.
  Proof.
    intros Ha. unfold intrusive_set.equals, intrusive_set.greater,
      intrusive_set.less, matches, equiv_under. rewrite Ha.
    by destruct (cmp k ka), (cmp ka k).
  Qed.

Lemma below_not_matches k a : below k a = true → matches k a = false.
  Proof.
    unfold below, matches, equiv_under. destruct (get_key a) as [ka|]; [|done].
    intros ->. by rewrite andb_false_r.
  Qed.

Lemma above_not_matches k a : above k a = true → matches k a = false.
  Proof.
    unfold above, matches, equiv_under. destruct (get_key a) as [ka|]; [|done].
    by intros ->.
  Qed.

Lemma below_not_above k a : below k a = true → above k a = false.
  Proof.
    unfold below, above. destruct (get_key a) as [ka|]; [|done].
    apply swo_asym, _.
  Qed.

Lemma matches_not_above k a : matches k a = true → above k a = false.
  Proof.
    intros H. destruct (above k a) eqn:E; [|done].
    apply above_not_matches in E. congruence.
  Qed.

Lemma trichotomy k a :
    is_Some (get_key a) → below k a = false → matches k a = false →
    above k a = true.
  Proof.
    unfold below, matches, above, equiv_under. intros [ka ->] ->.
    rewrite andb_true_r. apply negb_false_iff.
  Qed.

  (** In a sorted sequence, everything after a key that is not below [k]
      is above [k], unless that key matches [k]. *)
Lemma sorted_after_above k pre a post :
    strictly_sorted (pre ++ a :: post) → keyed (pre ++ a :: post) →
    below k a = false → ∀ b, b ∈ post → above k b = true.
  Proof.
    intros Hsort Hkeyed Hb b Hin.
    assert (is_Some (get_key a)) as [ka Hka].
    { unfold_keyed Hkeyed. rewrite Forall_forall in Hkeyed.
      apply Hkeyed. set_solver. }
    eapply (sorted_above_r get_key self k pre a post ka); try done.
    unfold below in Hb. by rewrite Hka in Hb.
  Qed.

Lemma find_spec m t k :
    tree_inv m s t →
    intrusive_set.find get_key self m k =
    Some (first_where (matches k) (Some s) (elements t)).
  Proof.
    intros Hinv. unfold intrusive_set.find.
    rewrite (lower_bound_spec get_key self s sentinel_self m t k Hinv). cbn.
    destruct Hinv as (Hs & Hsh & Hnd & Hnin & Hkeyed & Hsort).
    unfold intrusive_set.end_, first_where. rewrite sentinel_self.
    destruct (List.find _ (elements t)) as [a|] eqn:Ef; cbn.
    - apply find_split in Ef as (pre & post & E & Hpre & Ha).
      apply negb_true_iff in Ha.
      assert (a ≠ s) as Hne by (intros ->; apply Hnin; rewrite E; set_solver).
      rewrite decide_True by congruence.
      unfold_keyed Hkeyed. pose proof Hkeyed as Hkeyed'.
      rewrite Forall_forall in Hkeyed'.
      destruct (Hkeyed' a) as [ka Hka]; [rewrite E; set_solver|].
      rewrite Hka. cbn. rewrite (equals_matches k a ka Hka).
      rewrite E. rewrite find_app_None.
      2:{ intros x Hx. apply below_not_matches. apply negb_false_iff. by apply Hpre. }
      cbn [List.find]. destruct (matches k a) eqn:Em; [done|].
      cbn. f_equal. symmetry.
      assert (List.find (matches k) post = None) as ->; [|done].
      apply find_None_iff. intros b Hb. apply above_not_matches.
      rewrite E in Hsort, Hkeyed.
      by eapply sorted_after_above.
    - rewrite decide_False by naive_solver.
      assert (List.find (matches k) (elements t) = None) as ->; [|done].
      apply find_None_iff. intros a Ha. apply below_not_matches.
      apply negb_false_iff. exact (proj1 (find_None_iff _ _) Ef a Ha).
  Qed.

Lemma upper_bound_spec m t k :
    tree_inv m s t →
    intrusive_set.upper_bound get_key self m k =
    Some (first_where (above k) (Some s) (elements t)).
  Proof.
    intros Hinv. unfold intrusive_set.upper_bound.
    rewrite (lower_bound_spec get_key self s sentinel_self m t k Hinv). cbn.
    pose proof Hinv as (Hs & Hsh & Hnd & Hnin & Hkeyed & Hsort).
    unfold intrusive_set.end_, first_where. rewrite sentinel_self.
    destruct (List.find _ (elements t)) as [a|] eqn:Ef; cbn.
    - apply find_split in Ef as (pre & post & E & Hpre & Ha).
      apply negb_true_iff in Ha.
      assert (a ≠ s) as Hne by (intros ->; apply Hnin; rewrite E; set_solver).
      rewrite decide_True by congruence.
      unfold_keyed Hkeyed. pose proof Hkeyed as Hkeyed'.
      rewrite Forall_forall in Hkeyed'.
      destruct (Hkeyed' a) as [ka Hka]; [rewrite E; set_solver|].
      rewrite Hka. cbn. rewrite (equals_matches k a ka Hka).
      assert (List.find (above k) (elements t) = List.find (above k) (a :: post)) as ->.
      { rewrite E. apply find_app_None. intros x Hx. apply below_not_above.
        apply negb_false_iff. by apply Hpre. }
      cbn [List.find]. destruct (matches k a) eqn:Em.
      + rewrite (incr_spec get_key self s m t pre a post Hinv E).
        rewrite matches_not_above by done. f_equal.
        destruct post as [|b post]; [done|]. cbn.
        rewrite E in Hsort, Hkeyed.
        rewrite (sorted_after_above k pre a (b :: post) Hsort Hkeyed Ha b); [done|].
        set_solver.
      + rewrite trichotomy; [done|by rewrite Hka|done..].
    - rewrite decide_False by naive_solver.
      assert (List.find (above k) (elements t) = None) as ->; [|done].
      apply find_None_iff. intros a Ha. apply below_not_above.
      apply negb_false_iff. exact (proj1 (find_None_iff _ _) Ef a Ha).
  Qed.

End lookup.

(** ** Insertion *)

(** One command of a sequence is run; [tac] proves what it returns. *)
Ltac exec_with tac := rewrite ?bind_assoc; erewrite bind_Some; [|tac].
Ltac exec_left H := exec_with ltac:(apply get_left_Some; exact H).
Ltac exec_right H := exec_with ltac:(apply get_right_Some; exact H).
Ltac exec_parent H := exec_with ltac:(apply get_parent_Some; exact H).
Ltac exec_store H := exec_with ltac:(apply store_Some; exact H).

Lemma tins_elements lt obj t :
  ∃ pre post, elements t = pre ++ post ∧
              elements (tins lt obj t) = pre ++ obj :: post.
Proof.
  induction t as [|l IHl a r IHr]; simpl.
  { by exists [], []. }
  destruct (lt obj a).
  - destruct IHl as (pre & post & -> & E). simpl. rewrite E.
    exists pre, (post ++ a :: elements r). by rewrite <-!app_assoc.
  - destruct IHr as (pre & post & -> & E). simpl. rewrite E.
    exists (elements l ++ a :: pre), post. by rewrite <-!app_assoc.
Qed.

Lemma tins_elem_of lt obj t x :
  x ∈ elements (tins lt obj t) ↔ x = obj ∨ x ∈ elements t.
Proof.
  destruct (tins_elements lt obj t) as (pre & post & -> & ->). set_solver.
Qed.

Lemma tins_root lt obj t : ∃ r, root (tins lt obj t) = Some r.
Proof. destruct t as [|l a r]; simpl; [eauto|]. destruct (lt obj a); eauto. Qed.

Lemma tins_NoDup lt obj t :
  NoDup (elements t) → obj ∉ elements t → NoDup (elements (tins lt obj t)).
Proof.
  destruct (tins_elements lt obj t) as (pre & post & -> & ->).
  intros Hnd Hobj. apply NoDup_app in Hnd as (? & ? & ?).
  apply NoDup_app. repeat split; [done| |apply NoDup_cons; set_solver].
  set_solver.
Qed.

(** The root of a shape may be given another parent. *)
Lemma shape_reparent m q q' t y ny :
  shape m q t → root t = Some y → m !! y = Some ny →
  NoDup (elements t) →
  shape (<[y := with_parent q' ny]> m) q' t.
Proof.
  destruct t as [|l x r]; [done|]. simpl. intros Hsh [= ->] Hy Hnd.
  rewrite Hy in Hsh. rewrite lookup_insert_eq. simpl.
  destruct Hsh as (_ & Hl & Hr & Hsl & Hsr).
  apply NoDup_app in Hnd as (_ & Hlr & Hndr). apply NoDup_cons in Hndr as [Hyr _].
  repeat split; try done.
  - eapply shape_frame; [|done]. intros a Ha. rewrite lookup_insert_ne; [done|].
    intros ->. apply (Hlr a Ha). set_solver.
  - eapply shape_frame; [|done]. intros a Ha. rewrite lookup_insert_ne; [done|].
    intros ->. done.
Qed.

Section insertion.
  Context {K : Type}.
  Variable get_key : addr → option K.
  Variable self : intrusive_set.t K.

  Abbreviation cmp := (intrusive_set.compare self).
  Abbreviation keyed := (keyed get_key).
  Abbreviation strictly_sorted := (strictly_sorted get_key cmp).
  Abbreviation lt := (lt_at get_key cmp).
  Abbreviation matches := (matches get_key cmp).

Lemma add_to_tree_spec F m p t obj no :
    shape m p t → m !! obj = Some no → left no = None → right no = None →
    obj ∉ elements t → NoDup (elements t) → keyed (obj :: elements t) →
    height t < F →
    ∃ m' r nr,
      intrusive_set.add_to_tree get_key self F (Some obj) (root t) m = Some (Some r, m') ∧
      root (tins lt obj t) = Some r ∧
      m' !! r = Some nr ∧
      shape (<[r := with_parent p nr]> m') p (tins lt obj t) ∧
      (∀ x, x ∉ obj :: elements t → m' !! x = m !! x) ∧
      (∀ x, is_Some (m' !! x) ↔ is_Some (m !! x)).
  Proof.
    revert F p m no.
    induction t as [|l IHl a r IHr]; intros F p m no Hsh Hobj Hol Hor Hnin Hnd Hkeyed HF.
    { destruct F as [|F]; [simpl in HF; lia|]. exists m, obj, no. simpl.
      rewrite lookup_insert_eq. simpl. repeat split; try done. }
    destruct F as [|F]; [simpl in HF; lia|].
    simpl in Hsh. destruct (m !! a) as [n|] eqn:Ha; [|done].
    destruct Hsh as (Hp & Hl & Hr & Hsl & Hsr).
    simpl in Hnd, Hnin, HF.
    apply NoDup_app in Hnd as (Hndl & Hlr & Hndr).
    apply NoDup_cons in Hndr as (Har & Hndr).
    apply Forall_cons in Hkeyed as [[ko Hko] Hkeyed]. simpl in Hkeyed.
    pose proof Hkeyed as Hkeyed'.
    apply Forall_app in Hkeyed' as [Hkl Hkr].
    apply Forall_cons in Hkr as [[ka Hka] Hkr].
    assert (obj ≠ a) as Hoa by set_solver.
    cbn [intrusive_set.add_to_tree root non_null].
    exec_with ltac:(apply query_Some; cbn; exact Hko).
    exec_with ltac:(apply query_Some; cbn; exact Hka).
    unfold intrusive_set.less. cbn [tins].
    assert (lt obj a = cmp ko ka) as -> by (unfold lt_at; by rewrite Hko, Hka).
    destruct (cmp ko ka) eqn:Ecmp.
    - exec_left Ha. rewrite Hl.
      destruct (IHl F (Some a) m no) as (m1 & r1 & nr1 & Hadd & Hroot & Hr1 & Hsh1 & Hfr1 & Hdom1);
        try done; [set_solver|by apply Forall_cons|lia|].
      exec_with ltac:(exact Hadd).
      assert (r1 ∈ elements (tins lt obj l)) as Hr1in by by apply root_elem.
      apply tins_elem_of in Hr1in.
      assert (r1 ≠ a) as Hr1a by (intros ->; set_solver).
      assert (m1 !! a = Some n) as Ha1 by (rewrite Hfr1; [done|set_solver]).
      exec_store Ha1.
      exec_with ltac:(apply get_left_Some; apply lookup_insert_eq).
      cbn [left with_left].
      exec_with ltac:(apply store_Some; rewrite lookup_insert_ne by done; exact Hr1).
      set (m3 := <[r1 := _]> (<[a := _]> m1)).
      exists m3, a, (with_left (Some r1) n). cbn [ret root].
      split; [done|]. split; [done|].
      assert (m3 !! a = Some (with_left (Some r1) n)) as Ha3.
      { unfold m3. rewrite lookup_insert_ne by done. apply lookup_insert_eq. }
      split; [done|]. split; [|split].
      + simpl. rewrite lookup_insert_eq. simpl. repeat split; try done.
        * eapply shape_frame; [|exact Hsh1]. intros x Hx.
          apply tins_elem_of in Hx.
          rewrite lookup_insert_ne by (intros ->; set_solver).
          unfold m3. destruct (decide (x = r1)) as [->|Hne].
          { by rewrite !lookup_insert_eq. }
          rewrite !lookup_insert_ne; try done. intros ->; set_solver.
        * eapply shape_frame; [|exact Hsr]. intros x Hx.
          rewrite lookup_insert_ne by (intros ->; set_solver).
          unfold m3. rewrite !lookup_insert_ne.
          { apply Hfr1. set_solver. }
          { intros ->; set_solver. }
          { intros ->. destruct Hr1in as [->|Hin]; [set_solver|].
            apply (Hlr x Hin). set_solver. }
      + intros x Hx. unfold m3. rewrite !lookup_insert_ne.
        * apply Hfr1. set_solver.
        * set_solver.
        * intros ->. set_solver.
      + intros x. rewrite <-Hdom1. unfold m3.
        destruct (decide (x = r1)) as [->|Hne1].
        { rewrite lookup_insert_eq, Hr1. split; eauto. }
        rewrite lookup_insert_ne by done.
        destruct (decide (x = a)) as [->|Hne2].
        { rewrite lookup_insert_eq, Ha1. split; eauto. }
        by rewrite lookup_insert_ne.
    - exec_right Ha. rewrite Hr.
      destruct (IHr F (Some a) m no) as (m1 & r1 & nr1 & Hadd & Hroot & Hr1 & Hsh1 & Hfr1 & Hdom1);
        try done; [set_solver|by apply Forall_cons|lia|].
      exec_with ltac:(exact Hadd).
      assert (r1 ∈ elements (tins lt obj r)) as Hr1in by by apply root_elem.
      apply tins_elem_of in Hr1in.
      assert (r1 ≠ a) as Hr1a by (intros ->; set_solver).
      assert (m1 !! a = Some n) as Ha1 by (rewrite Hfr1; [done|set_solver]).
      exec_store Ha1.
      exec_with ltac:(apply get_right_Some; apply lookup_insert_eq).
      cbn [right with_right].
      exec_with ltac:(apply store_Some; rewrite lookup_insert_ne by done; exact Hr1).
      set (m3 := <[r1 := _]> (<[a := _]> m1)).
      exists m3, a, (with_right (Some r1) n). cbn [ret root].
      split; [done|]. split; [done|].
      assert (m3 !! a = Some (with_right (Some r1) n)) as Ha3.
      { unfold m3. rewrite lookup_insert_ne by done. apply lookup_insert_eq. }
      split; [done|]. split; [|split].
      + simpl. rewrite lookup_insert_eq. simpl. repeat split; try done.
        * eapply shape_frame; [|exact Hsl]. intros x Hx.
          rewrite lookup_insert_ne by (intros ->; set_solver).
          unfold m3. rewrite !lookup_insert_ne.
          { apply Hfr1. intros Hc. apply elem_of_cons in Hc as [->|Hc]; [set_solver|].
            apply (Hlr x Hx). set_solver. }
          { intros ->; set_solver. }
          { intros ->. destruct Hr1in as [->|Hin]; [set_solver|].
            apply (Hlr x Hx). set_solver. }
        * eapply shape_frame; [|exact Hsh1]. intros x Hx.
          apply tins_elem_of in Hx.
          rewrite lookup_insert_ne by (intros ->; set_solver).
          unfold m3. destruct (decide (x = r1)) as [->|Hne].
          { by rewrite !lookup_insert_eq. }
          rewrite !lookup_insert_ne; try done. intros ->; set_solver.
      + intros x Hx. unfold m3. rewrite !lookup_insert_ne.
        * apply Hfr1. set_solver.
        * set_solver.
        * intros ->. set_solver.
      + intros x. rewrite <-Hdom1. unfold m3.
        destruct (decide (x = r1)) as [->|Hne1].
        { rewrite lookup_insert_eq, Hr1. split; eauto. }
        rewrite lookup_insert_ne by done.
        destruct (decide (x = a)) as [->|Hne2].
        { rewrite lookup_insert_eq, Ha1. split; eauto. }
        by rewrite lookup_insert_ne.
  Qed.

End insertion.

Section insert.
  Context {K : Type}.
  Variable get_key : addr → option K.
  Variable self : intrusive_set.t K.
  Variable s : addr.
  Hypothesis sentinel_self : intrusive_set.sentinel self = Some s.
  Context `{!StrictWeakOrder (intrusive_set.compare self)}.

  Abbreviation cmp := (intrusive_set.compare self).
  Abbreviation tree_inv := (tree_inv get_key cmp).
  Abbreviation keyed := (keyed get_key).
  Abbreviation strictly_sorted := (strictly_sorted get_key cmp).
  Abbreviation lt := (lt_at get_key cmp).
  Abbreviation matches := (matches get_key cmp).

Lemma lt_at_trans a b c : lt a b = true → lt b c = true → lt a c = true.
  Proof.
    unfold lt_at. destruct (get_key a), (get_key b), (get_key c); try done.
    apply swo_trans.
  Qed.

Lemma tins_sorted obj ko t :
    strictly_sorted (elements t) → keyed (elements t) →
    get_key obj = Some ko →
    (∀ a, a ∈ elements t → matches ko a = false) →
    strictly_sorted (elements (tins lt obj t)).
  Proof.
    intros Hsort Hkeyed Hko Hnm.
    induction t as [|l IHl a r IHr]; simpl.
    { repeat constructor. }
    simpl in Hsort, Hkeyed, Hnm.
    pose proof Hsort as Hsort'.
    apply StronglySorted_app in Hsort' as (Hlr & Hsortl & Hsortr).
    pose proof Hsortr as Hsortr'.
    apply StronglySorted_cons in Hsortr' as [Har Hsortr'].
    rewrite Forall_forall in Har.
    apply Forall_app in Hkeyed as [Hkl Hkr].
    pose proof Hkr as Hkr'. apply Forall_cons in Hkr' as [[ka Hka] Hkr'].
    assert (lt obj a = cmp ko ka) as Hlt by (unfold lt_at; by rewrite Hko, Hka).
    assert (lt a obj = cmp ka ko) as Hgt by (unfold lt_at; by rewrite Hko, Hka).
    rewrite Hlt. destruct (cmp ko ka) eqn:E.
    - simpl. apply StronglySorted_app. split; [|split].
      + intros x1 x2 Hx1 Hx2. apply tins_elem_of in Hx1 as [->|Hx1].
        * apply elem_of_cons in Hx2 as [->|Hx2]; [by rewrite Hlt|].
          apply (lt_at_trans _ a); [by rewrite Hlt|by apply Har].
        * by apply Hlr.
      + apply IHl; try done. intros x Hx. apply Hnm. set_solver.
      + done.
    - assert (cmp ka ko = true) as E'.
      { specialize (Hnm a). unfold_matches Hnm. unfold equiv_under in Hnm.
        rewrite Hka, E in Hnm. simpl in Hnm.
        apply negb_false_iff. apply Hnm. set_solver. }
      simpl. apply StronglySorted_app. split; [|split].
      + intros x1 x2 Hx1 Hx2. apply elem_of_cons in Hx2 as [->|Hx2].
        { apply Hlr; set_solver. }
        apply tins_elem_of in Hx2 as [->|Hx2].
        * apply (lt_at_trans _ a); [apply Hlr; set_solver|by rewrite Hgt].
        * apply Hlr; set_solver.
      + done.
      + apply StronglySorted_cons. split.
        * apply Forall_forall. intros x Hx. apply tins_elem_of in Hx as [->|Hx].
          { by rewrite Hgt. } { by apply Har. }
        * apply IHr; try done. intros x Hx. apply Hnm. set_solver.
  Qed.

  (** [insert(obj, true)] on a record whose key is not in the tree. *)
Lemma insert_spec m t obj no ko :
    tree_inv m s t →
    m !! obj = Some no → left no = None → right no = None →
    obj ≠ s → obj ∉ elements t →
    get_key obj = Some ko →
    (∀ a, a ∈ elements t → matches ko a = false) →
    ∃ m',
      intrusive_set.insert get_key self (Some obj) true m = Some (Some obj, m') ∧
      tree_inv m' s (tins lt obj t) ∧
      (∀ x, x ≠ s → x ∉ obj :: elements t → m' !! x = m !! x) ∧
      (∀ x, is_Some (m' !! x) ↔ is_Some (m !! x)).
  Proof.
    intros Hinv Hobj Hol Hor Hos Hnin Hko Hnm.
    pose proof (tree_inv_fuel get_key self s m t Hinv) as [Hf _].
    destruct Hinv as (Hs & Hsh & Hnd & Hsnin & Hkeyed & Hsort).
    destruct (m !! s) as [ns|] eqn:Es; [|done]. destruct Hs as [Hsl Hsr].
    destruct (add_to_tree_spec get_key self (fuel_of m) m (Some s) t obj no)
      as (m1 & r1 & nr1 & Hadd & Hroot & Hr1 & Hsh1 & Hfr1 & Hdom1); try done.
    { apply Forall_cons. split; [by rewrite Hko|done]. }
    unfold intrusive_set.insert. rewrite sentinel_self.
    cbn [bind ret].
    exec_left Es. rewrite Hsl.
    exec_with ltac:(by apply query_Some).
    exec_with ltac:(exact Hadd).
    assert (r1 ∈ elements (tins lt obj t)) as Hr1in by by apply root_elem.
    apply tins_elem_of in Hr1in.
    assert (r1 ≠ s) as Hr1s by (intros ->; set_solver).
    assert (m1 !! s = Some ns) as Es1 by (rewrite Hfr1; [done|set_solver]).
    exec_store Es1.
    exec_with ltac:(apply get_left_Some; apply lookup_insert_eq).
    cbn [left with_left].
    exec_with ltac:(apply store_Some; rewrite lookup_insert_ne by done; exact Hr1).
    set (m3 := <[r1 := _]> (<[s := _]> m1)).
    exists m3. cbn [ret]. split; [done|]. split; [|split].
    - unfold_tree_inv.
      assert (m3 !! s = Some (with_left (Some r1) ns)) as ->.
      { unfold m3. rewrite lookup_insert_ne by done. apply lookup_insert_eq. }
      simpl. rewrite Hroot. repeat split; try done.
      + eapply shape_frame; [|exact Hsh1]. intros x Hx.
        apply tins_elem_of in Hx. unfold m3.
        destruct (decide (x = r1)) as [->|Hne].
        { by rewrite !lookup_insert_eq. }
        rewrite !lookup_insert_ne; try done. intros ->; set_solver.
      + by apply tins_NoDup.
      + rewrite tins_elem_of. set_solver.
      + apply Forall_forall. intros x Hx. apply tins_elem_of in Hx as [->|Hx].
        * by rewrite Hko.
        * unfold_keyed Hkeyed. rewrite Forall_forall in Hkeyed. by apply Hkeyed.
      + by eapply tins_sorted.
    - intros x Hxs Hx. unfold m3. rewrite !lookup_insert_ne.
      + by apply Hfr1.
      + done.
      + intros ->. set_solver.
    - intros x. rewrite <-Hdom1. unfold m3.
      destruct (decide (x = r1)) as [->|Hne1].
      { rewrite lookup_insert_eq, Hr1. split; eauto. }
      rewrite lookup_insert_ne by done.
      destruct (decide (x = s)) as [->|Hne2].
      { rewrite lookup_insert_eq, Es1. split; eauto. }
      by rewrite lookup_insert_ne.
  Qed.

End insert.

(** ** Removal: the trees *)

Lemma tmax_is_Some t : t ≠ Leaf → is_Some (tmax t).
Proof.
  induction t as [|l _ a r IHr]; [done|]. intros _. simpl.
  destruct r as [|r1 y r2]; [eauto|]. by apply IHr.
Qed.

Lemma remove_max_elements t mx :
  tmax t = Some mx → elements t = elements (remove_max t) ++ [mx].
Proof.
  induction t as [|l _ a r IHr]; [done|]. simpl.
  destruct r as [|r1 y r2].
  - by intros [= ->].
  - intros H. rewrite (IHr H). simpl. by rewrite <-!app_assoc.
Qed.

Lemma tmax_elem t mx : tmax t = Some mx → mx ∈ elements t.
Proof. intros H. rewrite (remove_max_elements t mx H). set_solver. Qed.

Lemma remove_max_root t mx :
  tmax t = Some mx → root t ≠ Some mx → NoDup (elements t) →
  root (remove_max t) = root t.
Proof.
  destruct t as [|l a r]; [done|]. simpl. destruct r as [|r1 y r2]; [|done].
  by intros [= ->].
Qed.

Lemma tmax_root_eq l a r :
  NoDup (elements (Br l a r)) → tmax (Br l a r) = Some a → r = Leaf.
Proof.
  intros Hnd Hmax. destruct r as [|r1 y r2]; [done|]. exfalso.
  assert (a ∈ elements (Br r1 y r2)) as Hin by (apply tmax_elem; exact Hmax).
  simpl in Hnd. apply NoDup_app in Hnd as (_ & _ & Hnd).
  apply NoDup_cons in Hnd as [Hnin _]. done.
Qed.

Lemma join_elements l r : elements (join l r) = elements l ++ elements r.
Proof.
  unfold join. destruct l as [|l1 x l2]; [done|].
  destruct r as [|r1 y r2]; [by rewrite app_nil_r|].
  set (L := Br l1 x l2). set (R := Br r1 y r2).
  destruct (tmax L) as [mx|] eqn:E.
  - rewrite (remove_max_elements L mx E).
    change (elements (Br (remove_max L) mx R))
      with (elements (remove_max L) ++ mx :: elements R).
    by rewrite <-app_assoc.
  - destruct (tmax_is_Some L); [done|congruence].
Qed.

Lemma tdelete_notin a t : a ∉ elements t → tdelete a t = t.
Proof.
  induction t as [|l IHl x r IHr]; [done|]. simpl. intros Hnin.
  rewrite decide_False by set_solver.
  rewrite IHl, IHr by set_solver. done.
Qed.

Lemma tdelete_elements a t pre post :
  NoDup (elements t) → elements t = pre ++ a :: post →
  elements (tdelete a t) = pre ++ post.
Proof.
  revert pre post. induction t as [|l IHl x r IHr]; intros pre post Hnd E.
  { by destruct pre. }
  simpl in *. apply NoDup_app in Hnd as (Hndl & Hlr & Hndr).
  apply NoDup_cons in Hndr as (Hxr & Hndr).
  apply app_cons_split in E as [(post' & E & ->)|[(-> & -> & ->)|(pre' & E & ->)]].
  - assert (a ∈ elements l) as Ha by (rewrite E; set_solver).
    rewrite decide_False by (intros ->; apply (Hlr x Ha); set_solver).
    simpl. rewrite (IHl _ _ Hndl E).
    rewrite tdelete_notin by (intros Hc; apply (Hlr a Ha); set_solver).
    by rewrite <-app_assoc.
  - rewrite decide_True by done. apply join_elements.
  - assert (a ∈ elements r) as Ha by (rewrite E; set_solver).
    rewrite decide_False by (intros ->; done).
    simpl. rewrite (IHr _ _ Hndr E).
    rewrite tdelete_notin by (intros Hc; apply (Hlr a Hc); set_solver).
    by rewrite <-app_assoc.
Qed.

Lemma tdelete_subseteq a t x : x ∈ elements (tdelete a t) → x ∈ elements t.
Proof.
  induction t as [|l IHl y r IHr]; [done|]. simpl.
  destruct (decide (a = y)) as [->|Hne].
  - rewrite join_elements. set_solver.
  - simpl. set_solver.
Qed.

(** ** Removal: the store *)

Lemma descend_right_spec fuel m p t :
  shape m p t → t ≠ Leaf → height t ≤ fuel →
  intrusive_set.descend_right fuel m (root t) = Some (tmax t).
Proof.
  revert fuel p. induction t as [|l _ a r IHr]; intros fuel p Hs Hne Hf; [done|].
  simpl in Hs, Hf. destruct fuel as [|fuel]; [lia|].
  cbn [intrusive_set.descend_right root load mbind option_bind].
  destruct (m !! a) as [n|]; [|done]. cbn.
  destruct Hs as (_ & _ & Hr & _ & Hsr). rewrite Hr.
  destruct r as [|r1 x r2]; [done|].
  cbn [non_null root]. rewrite <-(IHr fuel (Some a)); [done..|lia].
Qed.

(** Membership facts of a store after some updates. *)
Ltac solve_ne :=
  match goal with
  | |- ?i ≠ ?j =>
      tryif unify i j then fail
      else first [done | congruence | (let H := fresh in intros H; subst; set_solver)]
  end.
Ltac lookup_ne := rewrite ?lookup_insert_ne by (done || congruence).
Ltac lookup_ne_mem := rewrite ?lookup_insert_ne by solve_ne.

Lemma is_Some_insert_same (m : links) a n n' x :
  m !! a = Some n → is_Some (<[a := n']> m !! x) ↔ is_Some (m !! x).
Proof.
  intros Ha. destruct (decide (x = a)) as [->|?].
  - rewrite lookup_insert_eq, Ha. split; eauto.
  - by rewrite lookup_insert_ne.
Qed.

(** [set_child(mx, mx->left)] where [mx] is the largest node of a tree
    and is not its root. *)
Lemma splice_max m q t mx :
  shape m q t → NoDup (elements t) → tmax t = Some mx → root t ≠ Some mx →
  ∃ nmx pm m1,
    m !! mx = Some nmx ∧ right nmx = None ∧
    parent nmx = Some pm ∧ pm ∈ elements t ∧
    node_ops.set_child (Some mx) (left nmx) m = Some (tt, m1) ∧
    shape m1 q (remove_max t) ∧
    m1 !! mx = Some nmx ∧
    (∀ x, x ∉ elements t → m1 !! x = m !! x) ∧
    (∀ x, is_Some (m1 !! x) ↔ is_Some (m !! x)).
Proof.
  revert q. induction t as [|l _ x r IHr]; intros q Hsh Hnd Hmax Hroot; [done|].
  destruct r as [|r1 y r2]; [simpl in *; congruence|].
  pose proof Hsh as Hsh'. simpl in Hsh'.
  destruct (m !! x) as [nx|] eqn:Hx; [|done].
  destruct Hsh' as (Hp & Hl & Hr & Hsl & Hsr).
  pose proof Hnd as Hnd'. cbn [elements] in Hnd'.
  apply NoDup_app in Hnd' as (Hndl & Hlr & Hndr).
  apply NoDup_cons in Hndr as (Hxr & Hndr).
  destruct (decide (y = mx)) as [->|Hne].
  - (* the largest node is the right child of the root *)
    assert (r2 = Leaf) as -> by by eapply tmax_root_eq.
    pose proof Hsr as Hsr'. simpl in Hsr'.
    destruct (m !! mx) as [nmx|] eqn:Hmx; [|done].
    destruct Hsr' as (Hpmx & Hlmx & Hrmx & Hsr1 & _).
    assert (mx ≠ x) as Hmxx by (intros ->; set_solver).
    exists nmx, x.
    unfold node_ops.set_child.
    assert (left nx ≠ Some mx) as Hlne.
    { rewrite Hl. intros Hc. apply root_elem in Hc. apply (Hlr mx Hc). set_solver. }
    destruct r1 as [|r11 z r12].
    + exists (<[x := with_right None nx]> m).
      split; [done|]. split; [done|]. split; [done|]. split; [set_solver|].
      split.
      { exec_parent Hmx. rewrite Hpmx. exec_left Hx.
        rewrite decide_False by done. rewrite Hlmx. cbn [root].
        exec_store Hx. done. }
      split.
      { simpl. rewrite lookup_insert_eq. simpl. repeat split; try done.
        eapply shape_frame; [|exact Hsl]. intros a Ha. lookup_ne_mem. done. }
      split; [by lookup_ne|]. split.
      { intros a Ha. lookup_ne_mem. done. }
      intros a. by eapply is_Some_insert_same.
    + pose proof Hsr1 as Hsr1'. simpl in Hsr1'.
      destruct (m !! z) as [nz|] eqn:Hz; [|done].
      assert (z ≠ x) as Hzx by (intros ->; set_solver).
      assert (z ≠ mx).
      { intros ->. simpl in Hndr. apply NoDup_app in Hndr as (_ & Hc & _).
        apply (Hc mx); set_solver. }
      exists (<[z := with_parent (Some x) nz]> (<[x := with_right (Some z) nx]> m)).
      split; [done|]. split; [done|]. split; [done|]. split; [set_solver|].
      split.
      { exec_parent Hmx. rewrite Hpmx. exec_left Hx.
        rewrite decide_False by done. rewrite Hlmx. cbn [root].
        exec_store Hx. cbn [non_null].
        unfold put_parent. rewrite (store_Some _ _ z nz); [done|].
        by lookup_ne. }
      split.
      { cbn [remove_max].
        eapply shape_Br;
          [rewrite lookup_insert_ne by done; apply lookup_insert_eq|done..| |].
        - eapply shape_frame; [|exact Hsl]. intros a Ha.
          rewrite !lookup_insert_ne; [done|solve_ne|].
          intros Heq. subst. apply (Hlr _ Ha). set_solver.
        - eapply shape_frame.
          2:{ apply (shape_reparent (<[x:=with_right (Some z) nx]> m) (Some mx) (Some x)
                      (Br r11 z r12) z nz); [|done|by lookup_ne|].
              - eapply shape_frame; [|exact Hsr1]. intros a Ha. lookup_ne_mem. done.
              - simpl in Hndr. apply NoDup_app in Hndr as (? & _). done. }
          done. }
      split.
      { by lookup_ne. }
      split.
      { intros a Ha. rewrite !lookup_insert_ne; [done|set_solver|set_solver]. }
      intros a. rewrite (is_Some_insert_same _ z nz) by (by lookup_ne).
      by eapply is_Some_insert_same.
  - (* the largest node is deeper *)
    destruct (IHr (Some x)) as (nmx & pm & m1 & Hmx & Hrmx & Hpmx & Hpmin & Hset & Hsh1 & Hmx1 & Hfr & Hdom);
      [done|done|done|simpl; congruence|].
    exists nmx, pm, m1.
    split; [done|]. split; [done|]. split; [done|]. split; [set_solver|].
    split; [done|]. split.
    { assert (remove_max (Br l x (Br r1 y r2)) = Br l x (remove_max (Br r1 y r2))) as ->
        by done.
      cbn [shape]. rewrite (Hfr x) by done. rewrite Hx.
      split; [done|]. split; [done|]. split.
      - rewrite Hr. symmetry.
        apply (remove_max_root (Br r1 y r2) mx); [exact Hmax| |done].
        simpl. congruence.
      - split; [|done]. eapply shape_frame; [|exact Hsl]. intros a Ha.
        apply Hfr. intros Hc. apply (Hlr a Ha). set_solver. }
    split; [done|]. split; [|done].
    intros a Ha. apply Hfr. set_solver.
Qed.

Lemma hangs_rehung np np' side c c' :
  hangs np side c → rehung np np' side c' →
  (∀ y, c' = Some y → left np ≠ Some y) →
  hangs np' side c'.
Proof.
  unfold hangs, rehung. destruct side; [naive_solver|].
  intros [_ _] (_ & -> & ->) H. done.
Qed.

(** [set_child(a, root u)]: the subtree [u] takes the place of [a]. *)
Lemma set_child_replace m a na p np side u q :
  m !! a = Some na → parent na = Some p → m !! p = Some np →
  hangs np side (Some a) →
  shape m q u → NoDup (elements u) → p ∉ elements u →
  ∃ m1 np1,
    node_ops.set_child (Some a) (root u) m = Some (tt, m1) ∧
    shape m1 (Some p) u ∧
    m1 !! p = Some np1 ∧ rehung np np1 side (root u) ∧
    (∀ x, x ≠ p → x ∉ elements u → m1 !! x = m !! x) ∧
    (∀ x, is_Some (m1 !! x) ↔ is_Some (m !! x)).
Proof.
  intros Ha Hpa Hp Hside Hsh Hnd Hpu.
  set (np1 := if side then with_left (root u) np else with_right (root u) np).
  assert (rehung np np1 side (root u)) as Hre.
  { unfold rehung, np1. by destruct side. }
  assert (∃ m0, (let* l := get_left (Some p) in
                 if decide (l = Some a) then put_left (Some p) (root u)
                 else put_right (Some p) (root u)) m = Some (tt, m0) ∧
                m0 = <[p := np1]> m) as (m0 & Hm0 & ->).
  { eexists. split; [|done]. exec_left Hp. unfold np1, hangs in *.
    destruct side.
    - rewrite decide_True by done. by apply store_Some.
    - destruct Hside as [_ Hne]. rewrite decide_False by (by apply Hne).
      by apply store_Some. }
  unfold node_ops.set_child. exec_parent Ha. rewrite Hpa.
  assert (∀ k : unit → cmd links unit,
    (let* l := get_left (Some p) in
      (if decide (l = Some a) then put_left (Some p) (root u)
       else put_right (Some p) (root u));; k tt) m = k tt (<[p:=np1]> m)) as Hk.
  { intros k. exec_left Hp. revert Hm0. exec_left Hp.
    destruct (decide (left np = Some a)); intros Hm0; by exec_with ltac:(exact Hm0). }
  rewrite (Hk (λ _, if non_null (root u) then put_parent (root u) (Some p) else ret tt)).
  destruct u as [|u1 y u2].
  - exists (<[p := np1]> m), np1. cbn [non_null root ret].
    split; [done|]. split; [done|]. split; [apply lookup_insert_eq|].
    split; [done|]. split.
    + intros x Hx _. by rewrite lookup_insert_ne.
    + intros x. destruct (decide (x = p)) as [->|?].
      * rewrite lookup_insert_eq, Hp. split; eauto.
      * by rewrite lookup_insert_ne.
  - pose proof Hsh as Hsh'. simpl in Hsh'.
    destruct (m !! y) as [ny|] eqn:Hy; [|done].
    assert (y ≠ p) as Hyp by (intros ->; set_solver).
    exists (<[y := with_parent (Some p) ny]> (<[p := np1]> m)), np1.
    cbn [non_null root]. split.
    { apply store_Some. by rewrite lookup_insert_ne. }
    split.
    { apply (shape_reparent _ q); [|done|by rewrite lookup_insert_ne|done].
      eapply shape_frame; [|exact Hsh]. intros x Hx.
      rewrite lookup_insert_ne; [done|]. intros ->. done. }
    split.
    { rewrite lookup_insert_ne by done. apply lookup_insert_eq. }
    split; [done|]. split.
    + intros x Hxp Hx. rewrite !lookup_insert_ne; [done|done|]. set_solver.
    + intros x. destruct (decide (x = y)) as [->|?].
      { rewrite lookup_insert_eq, Hy. split; eauto. }
      rewrite lookup_insert_ne by done.
      destruct (decide (x = p)) as [->|?].
      * rewrite lookup_insert_eq, Hp. split; eauto.
      * by rewrite lookup_insert_ne.
Qed.

(** [node->left = node->right = node->parent = nullptr; return node;] *)
Lemma clear_node m a n :
  m !! a = Some n →
  (put_parent (Some a) None;; put_right (Some a) None;;
   put_left (Some a) None;; ret (Some a)) m
  = Some (Some a, <[a := node_default]> m).
Proof.
  intros Ha. exec_store Ha.
  exec_with ltac:(apply store_Some; apply lookup_insert_eq).
  exec_with ltac:(apply store_Some; apply lookup_insert_eq).
  unfold ret. by rewrite !insert_insert_eq.
Qed.

(** [erase] on a node with at most one child. *)
Lemma erase_one_child m a na p np side u c q :
  m !! a = Some na → parent na = Some p →
  shape m q u → NoDup (elements u) →
  a ∉ elements u → p ∉ elements u → a ≠ p →
  m !! p = Some np → hangs np side (Some a) →
  c = root u →
  ∃ m' np',
    (node_ops.set_child (Some a) c;;
     put_parent (Some a) None;; put_right (Some a) None;;
     put_left (Some a) None;; ret (Some a)) m = Some (Some a, m') ∧
    m' !! a = Some node_default ∧
    shape m' (Some p) u ∧
    m' !! p = Some np' ∧ rehung np np' side (root u) ∧
    (∀ x, x ≠ p → x ≠ a → x ∉ elements u → m' !! x = m !! x) ∧
    (∀ x, is_Some (m' !! x) ↔ is_Some (m !! x)).
Proof.
  intros Ha Hpa Hsh Hnd Hau Hpu Hap Hp Hside ->.
  destruct (set_child_replace m a na p np side u q)
    as (m1 & np1 & Hset & Hsh1 & Hp1 & Hre & Hfr & Hdom); try done.
  exec_with ltac:(exact Hset).
  assert (m1 !! a = Some na) as Ha1 by (rewrite Hfr; done).
  rewrite (clear_node m1 a na Ha1).
  exists (<[a := node_default]> m1), np1.
  split; [done|]. split; [apply lookup_insert_eq|]. split.
  { eapply shape_frame; [|exact Hsh1]. intros x Hx.
    apply lookup_insert_ne. intros ->. done. }
  split; [by rewrite lookup_insert_ne|]. split; [done|]. split.
  - intros x Hxp Hxa Hx. rewrite lookup_insert_ne by done. by apply Hfr.
  - intros x. rewrite (is_Some_insert_same _ a na) by done. apply Hdom.
Qed.

(** The first half of [erase] on a node [a] with two children: the largest
    node [mx] of the left subtree [l] is spliced out and takes [l] without
    [mx] for left subtree. *)
Lemma erase_lift_max m a na l mx nmx :
  m !! a = Some na → left na = root l →
  shape m (Some a) l → NoDup (elements l) → a ∉ elements l →
  tmax l = Some mx → m !! mx = Some nmx →
  ∃ m3 n3,
    (∀ A (k : cmd links A),
       ((if decide (parent nmx ≠ Some a) then
           let* nl := get_left (Some mx) in
           node_ops.set_child (Some mx) nl;;
           let* l' := get_left (Some a) in
           put_left (Some mx) l';;
           let* nl' := get_left (Some mx) in
           put_parent nl' (Some mx)
         else ret tt);; k) m = k m3) ∧
    m3 !! mx = Some n3 ∧
    left n3 = root (remove_max l) ∧
    shape m3 (Some mx) (remove_max l) ∧
    (∀ x, x ∉ elements l → m3 !! x = m !! x) ∧
    (∀ x, is_Some (m3 !! x) ↔ is_Some (m !! x)).
Proof.
  intros Ha Hl Hsh Hnd Hal Hmax Hmx.
  destruct l as [|l1 y l2]; [done|].
  pose proof (remove_max_elements _ _ Hmax) as El.
  destruct (decide (y = mx)) as [->|Hne].
  - (* [mx] is the left child of [a] *)
    assert (l2 = Leaf) as -> by by eapply tmax_root_eq.
    apply shape_Br_inv in Hsh as (n & Hmx' & Hpmx & Hlmx & _ & Hsl1 & _).
    rewrite Hmx in Hmx'. injection Hmx' as <-.
    exists m, nmx. split.
    { intros A k. rewrite decide_False by (intros Hc; by apply Hc). done. }
    done.
  - destruct (splice_max m (Some a) (Br l1 y l2) mx)
      as (nmx' & pm & m1 & Hmx' & Hrmx & Hpmx & Hpmin & Hset & Hsh1 & Hmx1 & Hfr & Hdom);
      try done; [simpl; congruence|].
    rewrite Hmx in Hmx'. injection Hmx' as <-.
    assert (root (remove_max (Br l1 y l2)) = Some y) as Hroot.
    { rewrite (remove_max_root _ mx); [done|done| |done]. simpl. congruence. }
    assert (m1 !! a = Some na) as Ha1 by (rewrite Hfr; done).
    destruct (shape_root _ _ _ _ Hsh1 Hroot) as (ny1 & Hy1 & _).
    assert (mx ∉ elements (remove_max (Br l1 y l2))) as Hmxnin.
    { rewrite El in Hnd. apply NoDup_app in Hnd as (_ & Hc & _).
      intros Hin. apply (Hc mx Hin). set_solver. }
    assert (NoDup (elements (remove_max (Br l1 y l2)))) as Hnd'.
    { rewrite El in Hnd. by apply NoDup_app in Hnd as (? & _). }
    set (m2 := <[mx := with_left (Some y) nmx]> m1).
    set (m3 := <[y := with_parent (Some mx) ny1]> m2).
    exists m3, (with_left (Some y) nmx). split.
    { intros A k. rewrite decide_True.
      2:{ rewrite Hpmx. intros [= ->]. done. }
      exec_left Hmx. exec_with ltac:(exact Hset).
      exec_left Ha1. rewrite Hl. cbn [root].
      exec_store Hmx1.
      exec_with ltac:(apply get_left_Some; apply lookup_insert_eq).
      cbn [left with_left].
      exec_with ltac:(apply store_Some; rewrite lookup_insert_ne by done; exact Hy1).
      done. }
    split.
    { unfold m3, m2. rewrite lookup_insert_ne by done. apply lookup_insert_eq. }
    split; [by rewrite Hroot|]. split.
    { apply (shape_reparent _ (Some a)); [|done| |done].
      - eapply shape_frame; [|exact Hsh1]. intros x Hx. unfold m2.
        apply lookup_insert_ne. intros ->. done.
      - unfold m2. by rewrite lookup_insert_ne. }
    split.
    { intros x Hx. unfold m3, m2.
      rewrite !lookup_insert_ne; [by apply Hfr| |].
      - intros ->. apply Hx. by apply tmax_elem.
      - intros ->. set_solver. }
    intros x. unfold m3, m2.
    rewrite (is_Some_insert_same _ y ny1) by (by rewrite lookup_insert_ne).
    rewrite (is_Some_insert_same _ mx nmx) by done. apply Hdom.
Qed.

(** [erase] on the root [a] of a subtree that hangs below [p]. *)
Lemma erase_here m a na p np side l r :
  m !! a = Some na → parent na = Some p → left na = root l → right na = root r →
  shape m (Some a) l → shape m (Some a) r →
  NoDup (elements (Br l a r)) → p ∉ elements (Br l a r) →
  m !! p = Some np → hangs np side (Some a) →
  height l < fuel_of m →
  ∃ m' np',
    intrusive_set.erase (Some a) m = Some (Some a, m') ∧
    m' !! a = Some node_default ∧
    shape m' (Some p) (join l r) ∧
    m' !! p = Some np' ∧ rehung np np' side (root (join l r)) ∧
    (∀ x, x ≠ p → x ∉ elements (Br l a r) → m' !! x = m !! x) ∧
    (∀ x, is_Some (m' !! x) ↔ is_Some (m !! x)).
Proof.
  intros Ha Hpa Hl Hr Hsl Hsr Hnd Hpnin Hp Hside Hfuel.
  cbn [elements] in Hnd, Hpnin.
  pose proof Hnd as Hnd0.
  apply NoDup_app in Hnd as (Hndl & Hlr & Hndr).
  apply NoDup_cons in Hndr as (Har & Hndr).
  assert (a ≠ p) as Hap by (intros ->; set_solver).
  assert (a ∉ elements l) as Hal by (intros Hc; apply (Hlr a Hc); set_solver).
  assert (p ∉ elements l) as Hpl by set_solver.
  assert (p ∉ elements r) as Hpr by set_solver.
  unfold intrusive_set.erase. exec_left Ha. exec_right Ha. rewrite Hl, Hr.
  destruct l as [|l1 y l2].
  { (* no left child *)
    cbn [root non_null andb].
    destruct (erase_one_child m a na p np side r (root r) (Some a))
      as (m' & np' & Herase & Ha' & Hsh' & Hp' & Hre & Hfr & Hdom); try done.
    rewrite Herase. exists m', np'. cbn [join].
    split; [done|]. split; [done|]. split; [done|]. split; [done|].
    split; [done|]. split; [|done].
    intros x Hxp Hx. apply Hfr; [done| |]; set_solver. }
  destruct r as [|r1 z r2].
  { (* no right child *)
    cbn [root non_null andb].
    destruct (erase_one_child m a na p np side (Br l1 y l2) (Some y) (Some a))
      as (m' & np' & Herase & Ha' & Hsh' & Hp' & Hre & Hfr & Hdom); try done.
    rewrite Herase. exists m', np'. cbn [join].
    split; [done|]. split; [done|]. split; [done|]. split; [done|].
    split; [done|]. split; [|done].
    intros x Hxp Hx. apply Hfr; [done| |]; set_solver. }
  (* two children *)
  cbn [root non_null andb].
  set (L := Br l1 y l2) in *. set (R := Br r1 z r2) in *.
  destruct (tmax_is_Some L) as [mx Hmax]; [done|].
  exec_with ltac:(by apply query_Some).
  exec_with ltac:(apply query_Some; apply (descend_right_spec _ _ _ L Hsl); [done|lia]).
  rewrite Hmax.
  pose proof (tmax_elem _ _ Hmax) as Hmxin.
  destruct (shape_lookup _ _ _ _ Hsl Hmxin) as [nmx Hmx].
  exec_parent Hmx.
  destruct (erase_lift_max m a na L mx nmx)
    as (m3 & n3 & Hk & Hmx3 & Hl3 & Hsh3 & Hfr3 & Hdom3); try done.
  rewrite !bind_assoc. rewrite Hk. clear Hk.
  pose proof (remove_max_elements _ _ Hmax) as El.
  assert (mx ≠ a) as Hmxa by (intros ->; done).
  assert (mx ≠ p) as Hmxp by (intros ->; done).
  assert (mx ≠ z) as Hmxz.
  { intros ->. apply (Hlr z Hmxin). set_solver. }
  assert (z ≠ a) as Hza by (intros ->; set_solver).
  assert (z ≠ p) as Hzp by (intros ->; set_solver).
  assert (z ∉ elements L) as HzL.
  { intros Hc. apply (Hlr z Hc). set_solver. }
  assert (m3 !! a = Some na) as Ha3 by (by rewrite Hfr3).
  apply shape_Br_inv in Hsr as Hsr'. destruct Hsr' as (nz & Hz & _).
  assert (m3 !! z = Some nz) as Hz3 by (by rewrite Hfr3).
  exec_right Ha3. rewrite Hr. cbn [root].
  exec_store Hmx3.
  exec_with ltac:(apply get_right_Some; rewrite lookup_insert_ne by done; exact Ha3).
  rewrite Hr. cbn [root].
  exec_with ltac:(apply store_Some; rewrite lookup_insert_ne by done; exact Hz3).
  set (m4 := <[mx := _]> m3).
  set (m5 := <[z := _]> m4).
  set (U := Br (remove_max L) mx R).
  assert (elements U = elements (remove_max L) ++ mx :: elements R) as EU by done.
  assert (∀ x, x ∈ elements U ↔ x ∈ elements L ∨ x ∈ elements R) as HU.
  { intros x. rewrite EU, El. set_solver. }
  assert (NoDup (elements U)) as HndU.
  { rewrite EU. rewrite El in Hndl, Hlr.
    apply NoDup_app in Hndl as (HndL' & HL'mx & _).
    apply NoDup_app. split; [done|]. split.
    - intros x Hx. apply not_elem_of_cons. split.
      + intros ->. apply (HL'mx mx Hx). set_solver.
      + intros Hc. apply (Hlr x); set_solver.
    - apply NoDup_cons. split; [|done].
      intros Hc. apply (Hlr mx); set_solver. }
  assert (mx ∉ elements (remove_max L)) as HmxL'.
  { rewrite El in Hndl. apply NoDup_app in Hndl as (_ & Hc & _).
    intros Hin. apply (Hc mx Hin). set_solver. }
  assert (shape m5 (parent n3) U) as HshU.
  { eapply (shape_Br _ _ _ _ _ (with_right (Some z) n3)).
    - unfold m5, m4. rewrite lookup_insert_ne by done. apply lookup_insert_eq.
    - done.
    - done.
    - done.
    - eapply shape_frame; [|exact Hsh3]. intros x Hx. unfold m5, m4.
      rewrite !lookup_insert_ne; [done| |].
      + intros ->. done.
      + intros ->. apply HzL. rewrite El. set_solver.
    - apply (shape_reparent _ (Some a)); [|done| |done].
      + eapply shape_frame; [|exact Hsr]. intros x Hx. unfold m4.
        rewrite lookup_insert_ne.
        * apply Hfr3. intros Hc. apply (Hlr x Hc). set_solver.
        * intros ->. apply (Hlr x Hmxin). set_solver.
      + unfold m4. by rewrite lookup_insert_ne. }
  assert (m5 !! a = Some na) as Ha5.
  { unfold m5, m4. by rewrite !lookup_insert_ne. }
  assert (m5 !! p = Some np) as Hp5.
  { unfold m5, m4. rewrite !lookup_insert_ne by done. by rewrite Hfr3. }
  destruct (erase_one_child m5 a na p np side U (Some mx) (parent n3))
    as (m' & np' & Herase & Ha' & Hsh' & Hp' & Hre & Hfr & Hdom); try done.
  { rewrite HU. set_solver. }
  { rewrite HU. set_solver. }
  rewrite Herase. exists m', np'.
  assert (join L R = U) as ->.
  { unfold join, L, R. fold L. by rewrite Hmax. }
  split; [done|]. split; [done|]. split; [done|]. split; [done|].
  split; [done|]. split.
  - intros x Hxp Hx. rewrite Hfr; [|done| |].
    + unfold m5, m4. rewrite !lookup_insert_ne.
      * apply Hfr3. set_solver.
      * intros ->. set_solver.
      * intros ->. set_solver.
    + intros ->. set_solver.
    + rewrite HU. set_solver.
  - intros x. rewrite Hdom. unfold m5, m4.
    rewrite (is_Some_insert_same _ z nz) by (by rewrite lookup_insert_ne).
    rewrite (is_Some_insert_same _ mx n3) by done. apply Hdom3.
Qed.

(** [erase] on any node of a subtree that hangs below [p]. *)
Lemma erase_shape m p np side t a :
  m !! p = Some np → hangs np side (root t) →
  shape m (Some p) t → NoDup (elements t) → p ∉ elements t →
  a ∈ elements t → height t < fuel_of m →
  ∃ m' np',
    intrusive_set.erase (Some a) m = Some (Some a, m') ∧
    m' !! a = Some node_default ∧
    shape m' (Some p) (tdelete a t) ∧
    m' !! p = Some np' ∧ rehung np np' side (root (tdelete a t)) ∧
    (∀ x, x ≠ p → x ∉ elements t → m' !! x = m !! x) ∧
    (∀ x, is_Some (m' !! x) ↔ is_Some (m !! x)).
Proof.
  revert p np side.
  induction t as [|l IHl x r IHr]; intros p np side Hp Hside Hsh Hnd Hpnin Ha Hfuel.
  { by apply elem_of_nil in Ha. }
  pose proof Hsh as Hsh'.
  apply shape_Br_inv in Hsh' as (nx & Hx & Hpx & Hlx & Hrx & Hsl & Hsr).
  destruct (decide (a = x)) as [->|Hne].
  { cbn [tdelete]. rewrite decide_True by done.
    eapply erase_here; try done. simpl in Hfuel. lia. }
  pose proof Hnd as Hnd'. cbn [elements] in Hnd', Hpnin, Ha.
  apply NoDup_app in Hnd' as (Hndl & Hlr & Hndr).
  apply NoDup_cons in Hndr as (Hxr & Hndr).
  assert (x ≠ p) as Hxp by (intros ->; set_solver).
  assert (x ∉ elements l) as Hxl by (intros Hc; apply (Hlr x Hc); set_solver).
  assert (rehung np np side (Some x)) as Hre0.
  { unfold rehung, hangs in *. simpl in Hside. destruct side; naive_solver. }
  cbn [tdelete]. rewrite decide_False by done.
  apply elem_of_app in Ha as [Ha|Ha]; [|apply elem_of_cons in Ha as [?|Ha]; [done|]].
  - (* the node is in the left subtree *)
    destruct (IHl x nx true) as (m' & nx' & Herase & Ha' & Hsh' & Hx' & Hre & Hfr & Hdom);
      try done; [simpl in Hfuel; lia|].
    assert (a ∉ elements r) as Har by (intros Hc; apply (Hlr a Ha); set_solver).
    rewrite (tdelete_notin a r Har).
    destruct Hre as (Hpar & Hleft & Hright).
    exists m', np. split; [done|]. split; [done|]. split.
    { eapply shape_Br; [exact Hx'|congruence|done|congruence|done|].
      eapply shape_frame; [|exact Hsr]. intros y Hy. apply Hfr.
      - intros ->. done.
      - intros Hc. apply (Hlr y Hc). set_solver. }
    split.
    { rewrite Hfr; [done|done|set_solver]. }
    split; [done|]. split; [|done].
    intros y Hyp Hy. apply Hfr; [|set_solver]. intros ->. set_solver.
  - (* the node is in the right subtree *)
    destruct (IHr x nx false) as (m' & nx' & Herase & Ha' & Hsh' & Hx' & Hre & Hfr & Hdom);
      try done; [|simpl in Hfuel; lia|].
    { split; [done|]. intros y Hy. rewrite Hlx. intros Hc.
      apply root_elem in Hy, Hc. apply (Hlr y Hc). set_solver. }
    assert (a ∉ elements l) as Hal by (intros Hc; apply (Hlr a Hc); set_solver).
    rewrite (tdelete_notin a l Hal).
    destruct Hre as (Hpar & Hright & Hleft).
    exists m', np. split; [done|]. split; [done|]. split.
    { eapply shape_Br; [exact Hx'|congruence|congruence|done| |done].
      eapply shape_frame; [|exact Hsl]. intros y Hy. apply Hfr.
      - intros ->. done.
      - intros Hc. apply (Hlr y Hy). set_solver. }
    split.
    { rewrite Hfr; [done|done|set_solver]. }
    split; [done|]. split; [|done].
    intros y Hyp Hy. apply Hfr; [|set_solver]. intros ->. set_solver.
Qed.

Section erase.
  Context {K : Type}.
  Variable get_key : addr → option K.
  Variable cmp : K → K → bool.
  Variable s : addr.

  Abbreviation tree_inv := (tree_inv get_key cmp).

Lemma sorted_remove pre a post :
    strictly_sorted get_key cmp (pre ++ a :: post) →
    strictly_sorted get_key cmp (pre ++ post).
  Proof.
    unfold strictly_sorted. rewrite !StronglySorted_app, StronglySorted_cons.
    intros (H1 & H2 & H3 & H4). split; [|done]. intros. apply H1; set_solver.
  Qed.

  (** [erase(it)] on a node of the tree. *)
Lemma erase_spec m t pre a post :
    tree_inv m s t → elements t = pre ++ a :: post →
    ∃ m',
      intrusive_set.erase (Some a) m = Some (Some a, m') ∧
      tree_inv m' s (tdelete a t) ∧
      elements (tdelete a t) = pre ++ post ∧
      m' !! a = Some node_default ∧
      (∀ x, x ≠ s → x ∉ elements t → m' !! x = m !! x) ∧
      (∀ x, is_Some (m' !! x) ↔ is_Some (m !! x)).
  Proof.
    intros Hinv E.
    assert (height t < fuel_of m) as Hfuel.
    { destruct Hinv as (Hs & Hsh & Hnd & Hnin & _).
      destruct (m !! s) as [ns|] eqn:Es; [|done].
      pose proof (shape_length m _ t s Hsh Hnd Hnin (mk_is_Some _ _ Es)).
      pose proof (height_le_length t). unfold fuel_of. lia. }
    destruct Hinv as (Hs & Hsh & Hnd & Hnin & Hkeyed & Hsort).
    destruct (m !! s) as [ns|] eqn:Es; [|done]. destruct Hs as [Hsl Hsr].
    destruct (erase_shape m s ns true t a)
      as (m' & ns' & Herase & Ha' & Hsh' & Hs' & Hre & Hfr & Hdom); try done.
    { rewrite E. set_solver. }
    pose proof (tdelete_elements a t pre post Hnd E) as E'.
    exists m'. split; [done|]. split; [|done].
    unfold_tree_inv. rewrite Hs'. destruct Hre as (_ & Hl' & Hr').
    split; [split; congruence|]. split; [done|].
    rewrite E'. rewrite E in Hnd, Hnin, Hkeyed, Hsort.
    split.
    { apply NoDup_app in Hnd as (? & ? & [? ?]%NoDup_cons).
      apply NoDup_app. set_solver. }
    split; [set_solver|]. split.
    { unfold keyed in *. rewrite Forall_app, Forall_cons in Hkeyed.
      apply Forall_app. naive_solver. }
    by eapply sorted_remove.
  Qed.

End erase.

(** ** The two trees of a bimap *)

Section bimap_read.
  Context {left_t right_t : Type}.
  Abbreviation mem := (bimap.mem left_t right_t).
  Abbreviation bimap := (bimap.t left_t right_t).

  Implicit Types (mm : mem) (b : bimap) (tl tr : tree).

Lemma inv_with_left mm b tl tr :
    inv_with mm b tl tr → side_inv tag_for_left mm b tl.
  Proof. intros (? & ? & ? & _). by split. Qed.

Lemma inv_with_right mm b tl tr :
    inv_with mm b tl tr → side_inv tag_for_right mm b tr.
  Proof. intros (? & ? & ? & ? & _). by split. Qed.

Lemma side_inv_fuel T mm b t :
    side_inv T mm b t → length (elements t) < fuel_of (bimap.nodes T mm).
  Proof.
    intros [_ (Hs & Hsh & Hnd & Hnin & _)].
    destruct (bimap.nodes T mm !! bimap.sentinel b) as [ns|] eqn:E; [|done].
    pose proof (shape_length _ _ t _ Hsh Hnd Hnin (mk_is_Some _ _ E)).
    unfold fuel_of. lia.
  Qed.

Lemma walk_spec T fuel mm b t pre l :
    side_inv T mm b t → elements t = pre ++ l → length l < fuel →
    traversal.walk (T:=T) fuel b mm
      (bimap.mk_iterator (cursor_at (Some (bimap.sentinel b)) l))
      (bimap.mk_iterator (Some (bimap.sentinel b)))
    = Some (Some <$> l).
  Proof.
    intros [Hsen Hinv]. revert fuel pre.
    induction l as [|a l IH]; intros fuel pre E Hfuel.
    { destruct fuel; [simpl in Hfuel; lia|]. simpl.
      unfold bimap.iterator_ne. simpl. by rewrite bool_decide_false by naive_solver. }
    destruct fuel as [|fuel]; [simpl in Hfuel; lia|].
    cbn [traversal.walk cursor_at].
    assert (a ≠ bimap.sentinel b) as Hne.
    { destruct Hinv as (_ & _ & _ & Hnin & _). intros ->. apply Hnin.
      rewrite E. set_solver. }
    unfold bimap.iterator_ne. cbn [bimap.it].
    rewrite bool_decide_true by congruence.
    unfold bimap.iterator_incr. cbn [bimap.it].
    rewrite (incr_spec _ _ _ _ _ pre a l Hinv E). cbn.
    rewrite (IH fuel (pre ++ [a])); [done| |simpl in Hfuel; lia].
    by rewrite <-app_assoc.
  Qed.

Lemma begin_side T mm b t :
    side_inv T mm b t →
    intrusive_set.begin (bimap.set T b) (bimap.nodes T mm)
    = Some (cursor_at (Some (bimap.sentinel b)) (elements t)).
  Proof. intros [Hsen Hinv]. by eapply begin_spec. Qed.

Lemma left_cursors_spec mm b tl :
    side_inv tag_for_left mm b tl →
    traversal.left_cursors b mm = Some (Some <$> elements tl).
  Proof.
    intros Hinv. unfold traversal.left_cursors, bimap.begin_left.
    pose proof (begin_side tag_for_left mm b tl Hinv) as Hb.
    cbn [bimap.set bimap.nodes bimap.key] in Hb. rewrite Hb. cbn.
    unfold bimap.end_left, intrusive_set.end_. destruct Hinv as [Hsen Hinv].
    cbn in Hsen. rewrite Hsen.
    apply (walk_spec tag_for_left _ mm b tl []); [by split|done|].
    by apply (side_inv_fuel tag_for_left mm b tl).
  Qed.

Lemma right_cursors_spec mm b tr :
    side_inv tag_for_right mm b tr →
    traversal.right_cursors b mm = Some (Some <$> elements tr).
  Proof.
    intros Hinv. unfold traversal.right_cursors, bimap.begin_right.
    pose proof (begin_side tag_for_right mm b tr Hinv) as Hb.
    cbn [bimap.set bimap.nodes bimap.key] in Hb. rewrite Hb. cbn.
    unfold bimap.end_right, intrusive_set.end_. destruct Hinv as [Hsen Hinv].
    cbn in Hsen. rewrite Hsen.
    apply (walk_spec tag_for_right _ mm b tr []); [by split|done|].
    by apply (side_inv_fuel tag_for_right mm b tr).
  Qed.

  (** The lookups of one side. *)
Lemma find_side T mm b t k `{!StrictWeakOrder (intrusive_set.compare (bimap.set T b))} :
    side_inv T mm b t →
    intrusive_set.find (bimap.get_key T mm) (bimap.set T b) (bimap.nodes T mm) k
    = Some (first_where
              (matches (bimap.get_key T mm) (intrusive_set.compare (bimap.set T b)) k)
              (Some (bimap.sentinel b)) (elements t)).
  Proof. intros [Hsen Hinv]. by eapply find_spec. Qed.

Lemma lower_bound_side T mm b t k `{!StrictWeakOrder (intrusive_set.compare (bimap.set T b))} :
    side_inv T mm b t →
    intrusive_set.lower_bound (bimap.get_key T mm) (bimap.set T b) (bimap.nodes T mm) k
    = Some (first_where
              (λ a, negb (below (bimap.get_key T mm)
                            (intrusive_set.compare (bimap.set T b)) k a))
              (Some (bimap.sentinel b)) (elements t)).
  Proof. intros [Hsen Hinv]. by eapply lower_bound_spec. Qed.

Lemma upper_bound_side T mm b t k `{!StrictWeakOrder (intrusive_set.compare (bimap.set T b))} :
    side_inv T mm b t →
    intrusive_set.upper_bound (bimap.get_key T mm) (bimap.set T b) (bimap.nodes T mm) k
    = Some (first_where
              (above (bimap.get_key T mm) (intrusive_set.compare (bimap.set T b)) k)
              (Some (bimap.sentinel b)) (elements t)).
  Proof. intros [Hsen Hinv]. by eapply upper_bound_spec. Qed.

End bimap_read.

(** ** Frames *)

Lemma lt_at_ext {K} (g g' : addr → option K) cmp a b :
  g' a = g a → g' b = g b → lt_at g' cmp a b = lt_at g cmp a b.
Proof. unfold lt_at. by intros -> ->. Qed.

Lemma strictly_sorted_ext {K} (g g' : addr → option K) cmp l :
  (∀ x, x ∈ l → g' x = g x) →
  strictly_sorted g cmp l → strictly_sorted g' cmp l.
Proof.
  unfold strictly_sorted. induction l as [|a l IH]; intros Hg Hs; [constructor|].
  apply StronglySorted_cons in Hs as [Hall Hs]. apply StronglySorted_cons. split.
  - rewrite Forall_forall in Hall |- *. intros x Hx.
    rewrite (lt_at_ext g g'); [by apply Hall|apply Hg; set_solver..].
  - apply IH; [|done]. intros. apply Hg. set_solver.
Qed.

Lemma matches_ext {K} (g g' : addr → option K) cmp k a :
  g' a = g a → matches g' cmp k a = matches g cmp k a.
Proof. unfold matches. by intros ->. Qed.

Lemma tree_inv_frame {K} (g g' : addr → option K) cmp m m' s t :
  (∀ x, x ∈ s :: elements t → m' !! x = m !! x) →
  (∀ x, x ∈ elements t → g' x = g x) →
  tree_inv g cmp m s t → tree_inv g' cmp m' s t.
Proof.
  intros Hm Hg (Hs & Hsh & Hnd & Hnin & Hkeyed & Hsort).
  unfold tree_inv. rewrite (Hm s) by set_solver.
  split; [done|]. split.
  { eapply shape_frame; [|done]. intros. apply Hm. set_solver. }
  split; [done|]. split; [done|]. split.
  - unfold keyed in *. rewrite Forall_forall in Hkeyed |- *.
    intros x Hx. rewrite Hg by done. by apply Hkeyed.
  - by eapply strictly_sorted_ext.
Qed.

Lemma tree_inv_lookup {K} (g : addr → option K) cmp m s t x :
  tree_inv g cmp m s t → x ∈ s :: elements t → is_Some (m !! x).
Proof.
  intros (Hs & Hsh & _) [->|Hx]%elem_of_cons.
  - by destruct (m !! s).
  - by eapply shape_lookup.
Qed.

Lemma first_where_end (P : addr → bool) s l :
  s ∉ l → first_where P (Some s) l = Some s ↔ ∀ a, a ∈ l → P a = false.
Proof.
  intros Hs. unfold first_where. rewrite <-find_None_iff.
  destruct (List.find P l) as [a|] eqn:E; simpl; [|done].
  apply find_elem_of in E as [Ha _]. split; [|done].
  intros [= ->]. done.
Qed.

Section bimap_frame.
  Context {left_t right_t : Type}.
  Abbreviation mem := (bimap.mem left_t right_t).
  Abbreviation bimap := (bimap.t left_t right_t).
  Implicit Types (mm : mem) (b : bimap) (tl tr : tree).

Lemma get_key_ext T mm mm' x :
    bimap.records mm' !! x = bimap.records mm !! x →
    bimap.get_key T mm' x = bimap.get_key T mm x.
  Proof. unfold bimap.get_key. by intros ->. Qed.

Lemma side_inv_frame T mm mm' b b' t :
    bimap.set T b' = bimap.set T b → bimap.sentinel b' = bimap.sentinel b →
    (∀ x, x ∈ bimap.sentinel b :: elements t →
          bimap.nodes T mm' !! x = bimap.nodes T mm !! x) →
    (∀ x, x ∈ elements t → bimap.records mm' !! x = bimap.records mm !! x) →
    side_inv T mm b t → side_inv T mm' b' t.
  Proof.
    intros Hset Hsen Hn Hr [Hs Hinv]. unfold side_inv. rewrite Hset, Hsen.
    split; [done|]. eapply tree_inv_frame; [done| |done].
    intros x Hx. by apply get_key_ext, Hr.
  Qed.

Lemma on_left_Some {A} (c : cmd links A) mm x l :
    c (bimap.lnodes mm) = Some (x, l) →
    bimap.on tag_for_left c mm
    = Some (x, bimap.mk_mem l (bimap.rnodes mm) (bimap.records mm)).
  Proof. unfold bimap.on. cbn. by intros ->. Qed.

Lemma on_right_Some {A} (c : cmd links A) mm x l :
    c (bimap.rnodes mm) = Some (x, l) →
    bimap.on tag_for_right c mm
    = Some (x, bimap.mk_mem (bimap.lnodes mm) l (bimap.records mm)).
  Proof. unfold bimap.on. cbn. by intros ->. Qed.

Lemma find_left_spec mm b tl l
      `{!StrictWeakOrder (intrusive_set.compare (bimap.left_set b))} :
    side_inv tag_for_left mm b tl →
    bimap.find_left b mm l
    = Some (bimap.mk_iterator
              (first_where
                 (matches (bimap.get_key tag_for_left mm)
                    (intrusive_set.compare (bimap.left_set b)) l)
                 (Some (bimap.sentinel b)) (elements tl))).
  Proof.
    intros Hinv. unfold bimap.find_left.
    pose proof (find_side tag_for_left mm b tl l Hinv) as Hf.
    exact (f_equal (fmap (bimap.mk_iterator (T:=tag_for_left))) Hf).
  Qed.

Lemma find_right_spec mm b tr r
      `{!StrictWeakOrder (intrusive_set.compare (bimap.right_set b))} :
    side_inv tag_for_right mm b tr →
    bimap.find_right b mm r
    = Some (bimap.mk_iterator
              (first_where
                 (matches (bimap.get_key tag_for_right mm)
                    (intrusive_set.compare (bimap.right_set b)) r)
                 (Some (bimap.sentinel b)) (elements tr))).
  Proof.
    intros Hinv. unfold bimap.find_right.
    pose proof (find_side tag_for_right mm b tr r Hinv) as Hf.
    exact (f_equal (fmap (bimap.mk_iterator (T:=tag_for_right))) Hf).
  Qed.

Lemma end_left_spec mm b tl tr :
    inv_with mm b tl tr → bimap.end_left b = bimap.mk_iterator (Some (bimap.sentinel b)).
  Proof.
    intros (Hs & _). unfold bimap.end_left, intrusive_set.end_. by rewrite Hs.
  Qed.

Lemma end_right_spec mm b tl tr :
    inv_with mm b tl tr → bimap.end_right b = bimap.mk_iterator (Some (bimap.sentinel b)).
  Proof.
    intros (_ & Hs & _). unfold bimap.end_right, intrusive_set.end_. by rewrite Hs.
  Qed.

End bimap_frame.

(** ** [insert] *)

Section bimap_insert.
  Context {left_t right_t : Type}.
  Abbreviation mem := (bimap.mem left_t right_t).
  Abbreviation bimap := (bimap.t left_t right_t).
  Implicit Types (mm : mem) (b : bimap) (tl tr : tree).

  Abbreviation gL mm := (bimap.get_key tag_for_left mm).
  Abbreviation gR mm := (bimap.get_key tag_for_right mm).
  Abbreviation cmpL b := (intrusive_set.compare (bimap.left_set b)).
  Abbreviation cmpR b := (intrusive_set.compare (bimap.right_set b)).

Lemma first_where_found (P : addr → bool) s l :
    s ∉ l → (∃ x, x ∈ l ∧ P x = true) → first_where P (Some s) l ≠ Some s.
  Proof.
    intros Hs (x & Hx & HP) Hc.
    pose proof (proj1 (first_where_end P s l Hs) Hc x Hx). congruence.
  Qed.

Lemma iterator_eq_true {T} (i j : bimap.template_iterator T) :
    bimap.it i = bimap.it j → bimap.iterator_eq i j = true.
  Proof. intros. unfold bimap.iterator_eq. by rewrite bool_decide_true. Qed.

Lemma iterator_eq_false {T} (i j : bimap.template_iterator T) :
    bimap.it i ≠ bimap.it j → bimap.iterator_eq i j = false.
  Proof. intros. unfold bimap.iterator_eq. by rewrite bool_decide_false. Qed.

Lemma iterator_ne_true {T} (i j : bimap.template_iterator T) :
    bimap.it i ≠ bimap.it j → bimap.iterator_ne i j = true.
  Proof. intros. unfold bimap.iterator_ne. by rewrite bool_decide_true. Qed.

Lemma iterator_ne_false {T} (i j : bimap.template_iterator T) :
    bimap.it i = bimap.it j → bimap.iterator_ne i j = false.
  Proof. intros. unfold bimap.iterator_ne. rewrite bool_decide_false; naive_solver. Qed.

  (** A key of the pair is in its tree already: nothing happens. *)
Lemma insert_present mm b tl tr l r
      `{!StrictWeakOrder (cmpL b)} `{!StrictWeakOrder (cmpR b)} :
    inv_with mm b tl tr →
    (∃ x, x ∈ elements tl ∧ matches (gL mm) (cmpL b) l x = true) ∨
    (∃ x, x ∈ elements tr ∧ matches (gR mm) (cmpR b) r x = true) →
    bimap.insert b l r mm = Some ((bimap.end_left b, b), mm).
  Proof.
    intros Hinv Hpres.
    pose proof (inv_with_left _ _ _ _ Hinv) as HL.
    pose proof (inv_with_right _ _ _ _ Hinv) as HR.
    assert (bimap.sentinel b ∉ elements tl) as HsL by apply HL.
    assert (bimap.sentinel b ∉ elements tr) as HsR by apply HR.
    unfold bimap.insert, bimap.perfect_forwarding_insert.
    exec_with ltac:(apply query_Some; by apply find_left_spec).
    rewrite (end_left_spec _ _ _ _ Hinv), (end_right_spec _ _ _ _ Hinv).
    set (fl := first_where _ _ (elements tl)).
    destruct (decide (fl = Some (bimap.sentinel b))) as [Hfl|Hfl].
    - rewrite iterator_eq_true by done.
      exec_with ltac:(apply query_Some; by apply find_right_spec).
      destruct Hpres as [Hp|Hp].
      { by destruct (first_where_found _ _ _ HsL Hp). }
      pose proof (first_where_found _ _ _ HsR Hp) as Hfr.
      cbn [ret bind]. by rewrite iterator_eq_false.
    - by rewrite iterator_eq_false.
  Qed.

  (** Neither key is in its tree: one record is allocated and linked into
      both trees. *)
Lemma insert_absent mm b tl tr l r
      `{!StrictWeakOrder (cmpL b)} `{!StrictWeakOrder (cmpR b)} :
    inv_with mm b tl tr →
    (∀ x, x ∈ elements tl → matches (gL mm) (cmpL b) l x = false) →
    (∀ x, x ∈ elements tr → matches (gR mm) (cmpR b) r x = false) →
    let a := fresh (dom (bimap.lnodes mm) ∪ dom (bimap.rnodes mm)
                    ∪ dom (bimap.records mm)) in
    let b' := bimap.with_size (size_t_succ (bimap.m_size b)) b in
    ∃ mm',
      bimap.insert b l r mm = Some ((bimap.mk_iterator (Some a), b'), mm') ∧
      bimap.records mm' = <[a := bimap.mk_storage_node l r]> (bimap.records mm) ∧
      side_inv tag_for_left mm' b'
        (tins (lt_at (gL mm') (cmpL b)) a tl) ∧
      side_inv tag_for_right mm' b'
        (tins (lt_at (gR mm') (cmpR b)) a tr) ∧
      (∀ x, x ≠ a → x ≠ bimap.sentinel b → x ∉ elements tl →
            bimap.lnodes mm' !! x = bimap.lnodes mm !! x) ∧
      (∀ x, x ≠ a → x ≠ bimap.sentinel b → x ∉ elements tr →
            bimap.rnodes mm' !! x = bimap.rnodes mm !! x) ∧
      (∀ x, x ≠ a → is_Some (bimap.lnodes mm' !! x) ↔ is_Some (bimap.lnodes mm !! x)) ∧
      (∀ x, x ≠ a → is_Some (bimap.rnodes mm' !! x) ↔ is_Some (bimap.rnodes mm !! x)) ∧
      is_Some (bimap.lnodes mm' !! a) ∧ is_Some (bimap.rnodes mm' !! a).
  Proof.
    intros Hinv HabsL HabsR a b'.
    pose proof (inv_with_left _ _ _ _ Hinv) as HL.
    pose proof (inv_with_right _ _ _ _ Hinv) as HR.
    assert (bimap.sentinel b ∉ elements tl) as HsL by apply HL.
    assert (bimap.sentinel b ∉ elements tr) as HsR by apply HR.
    assert (a ∉ dom (bimap.lnodes mm) ∪ dom (bimap.rnodes mm)
              ∪ dom (bimap.records mm)) as Hfresh by apply is_fresh.
    assert (bimap.lnodes mm !! a = None) as HaL.
    { apply not_elem_of_dom. set_solver. }
    assert (bimap.rnodes mm !! a = None) as HaR.
    { apply not_elem_of_dom. set_solver. }
    assert (bimap.records mm !! a = None) as HaK.
    { apply not_elem_of_dom. set_solver. }
    assert (∀ x, x ∈ bimap.sentinel b :: elements tl → x ≠ a) as HneL.
    { intros x Hx ->. destruct HL as [_ HL].
      destruct (tree_inv_lookup _ _ _ _ _ _ HL Hx) as [? Hc]. cbn in Hc. congruence. }
    assert (∀ x, x ∈ bimap.sentinel b :: elements tr → x ≠ a) as HneR.
    { intros x Hx ->. destruct HR as [_ HR].
      destruct (tree_inv_lookup _ _ _ _ _ _ HR Hx) as [? Hc]. cbn in Hc. congruence. }
    unfold bimap.insert, bimap.perfect_forwarding_insert.
    exec_with ltac:(apply query_Some; by apply find_left_spec).
    rewrite (end_left_spec _ _ _ _ Hinv), (end_right_spec _ _ _ _ Hinv).
    rewrite iterator_eq_true by (by apply first_where_end).
    exec_with ltac:(apply query_Some; by apply find_right_spec).
    cbn [ret bind]. rewrite iterator_eq_true by (by apply first_where_end).
    cbn [negb].
    set (mm1 := bimap.mk_mem (<[a := node_default]> (bimap.lnodes mm))
                  (<[a := node_default]> (bimap.rnodes mm))
                  (<[a := bimap.mk_storage_node l r]> (bimap.records mm))).
    assert (bimap.new_storage_node l r mm = Some (Some a, mm1)) as Hnew by done.
    exec_with ltac:(exact Hnew).
    assert (∀ T x, x ≠ a → bimap.get_key T mm1 x = bimap.get_key T mm x) as Hkeys.
    { intros T x Hx. apply get_key_ext. cbn. by rewrite lookup_insert_ne. }
    (* the right tree *)
    destruct HR as [HsenR HtR].
    assert (tree_inv (gR mm1) (cmpR b) (bimap.rnodes mm1) (bimap.sentinel b) tr) as HtR1.
    { eapply tree_inv_frame; [| |exact HtR].
      - intros x Hx. cbn. rewrite lookup_insert_ne; [done|]. intros <-. by apply (HneR a).
      - intros x Hx. apply (Hkeys tag_for_right). apply HneR. set_solver. }
    destruct (insert_spec (gR mm1) (bimap.right_set b) (bimap.sentinel b) HsenR
                (bimap.rnodes mm1) tr a node_default r)
      as (rn' & HinsR & HtR' & HfrR & HdomR); try done.
    { cbn. apply lookup_insert_eq. }
    { intros ->. apply (HneR (bimap.sentinel b)); set_solver. }
    { intros Hc. apply (HneR a); set_solver. }
    { unfold bimap.get_key. cbn. by rewrite lookup_insert_eq. }
    { intros x Hx. rewrite (matches_ext (gR mm)); [by apply HabsR|].
      apply (Hkeys tag_for_right). apply HneR. set_solver. }
    exec_with ltac:(cbn beta; apply on_right_Some; exact HinsR).
    set (mm2 := bimap.mk_mem (bimap.lnodes mm1) rn' (bimap.records mm1)).
    (* the left tree *)
    destruct HL as [HsenL HtL].
    assert (tree_inv (gL mm2) (cmpL b) (bimap.lnodes mm2) (bimap.sentinel b) tl) as HtL1.
    { eapply tree_inv_frame; [| |exact HtL].
      - intros x Hx. cbn. rewrite lookup_insert_ne; [done|]. intros <-. by apply (HneL a).
      - intros x Hx. apply (Hkeys tag_for_left). apply HneL. set_solver. }
    destruct (insert_spec (gL mm2) (bimap.left_set b) (bimap.sentinel b) HsenL
                (bimap.lnodes mm2) tl a node_default l)
      as (ln' & HinsL & HtL' & HfrL & HdomL); try done.
    { cbn. apply lookup_insert_eq. }
    { intros ->. apply (HneL (bimap.sentinel b)); set_solver. }
    { intros Hc. apply (HneL a); set_solver. }
    { unfold bimap.get_key. cbn. by rewrite lookup_insert_eq. }
    { intros x Hx. rewrite (matches_ext (gL mm)); [by apply HabsL|].
      apply (Hkeys tag_for_left). apply HneL. set_solver. }
    change (bimap.left_set (bimap.with_size (size_t_succ (bimap.m_size b)) b))
      with (bimap.left_set b).
    exec_with ltac:(cbn beta; apply on_left_Some; exact HinsL).
    eexists. split; [done|]. subst mm2.
    cbn [bimap.records bimap.lnodes bimap.rnodes] in *.
    split; [done|]. split.
    { split; [done|]. exact HtL'. }
    split.
    { split; [done|]. cbn [bimap.nodes bimap.rnodes]. exact HtR'. }
    split.
    { intros x Hxa Hxs Hx. rewrite HfrL; [|done|set_solver].
      cbn. by rewrite lookup_insert_ne. }
    split.
    { intros x Hxa Hxs Hx. rewrite HfrR; [|done|set_solver].
      cbn. by rewrite lookup_insert_ne. }
    split.
    { intros x Hxa. rewrite HdomL. cbn. by rewrite lookup_insert_ne. }
    split.
    { intros x Hxa. rewrite HdomR. cbn. by rewrite lookup_insert_ne. }
    split.
    - apply HdomL. cbn. rewrite lookup_insert_eq. eauto.
    - apply HdomR. cbn. rewrite lookup_insert_eq. eauto.
  Qed.

End bimap_insert.

(** ** [erase_left] and [erase_right] *)

Section bimap_erase.
  Context {left_t right_t : Type}.
  Abbreviation mem := (bimap.mem left_t right_t).
  Abbreviation bimap := (bimap.t left_t right_t).
  Implicit Types (mm : mem) (b : bimap) (t : tree).

Lemma erase_left_side b i : bimap.erase_left b i = erase_side tag_for_left b i.
  Proof. done. Qed.

Lemma erase_right_side b i : bimap.erase_right b i = erase_side tag_for_right b i.
  Proof. done. Qed.

Lemma flip_flip T : bimap.flip_struct (bimap.flip_struct T) = T.
  Proof. by destruct T. Qed.

Lemma on_Some T {A} (c : cmd links A) mm x l :
    c (bimap.nodes T mm) = Some (x, l) →
    bimap.on T c mm = Some (x, set_nodes T l mm).
  Proof. unfold bimap.on. intros ->. by destruct T. Qed.

Lemma nodes_set_nodes T l mm : bimap.nodes T (set_nodes T l mm) = l.
  Proof. by destruct T. Qed.

Lemma nodes_set_nodes_flip T l mm :
    bimap.nodes (bimap.flip_struct T) (set_nodes T l mm)
    = bimap.nodes (bimap.flip_struct T) mm.
  Proof. by destruct T. Qed.

Lemma nodes_set_nodes_flip' T l mm :
    bimap.nodes T (set_nodes (bimap.flip_struct T) l mm) = bimap.nodes T mm.
  Proof. by destruct T. Qed.

Lemma records_set_nodes T l mm :
    bimap.records (set_nodes T l mm) = bimap.records mm.
  Proof. by destruct T. Qed.

Lemma get_key_set_nodes T U l mm :
    bimap.get_key U (set_nodes T l mm) = bimap.get_key U mm.
  Proof. by destruct T. Qed.

  (** The memory after [delete] of the record at [a]. *)
Lemma nodes_delete T mm a :
    bimap.nodes T
      (bimap.mk_mem (delete a (bimap.lnodes mm)) (delete a (bimap.rnodes mm))
                    (delete a (bimap.records mm)))
    = delete a (bimap.nodes T mm).
  Proof. by destruct T. Qed.

Lemma side_inv_keyed T mm b t a :
    side_inv T mm b t → a ∈ elements t → is_Some (bimap.records mm !! a).
  Proof.
    intros [_ (_ & _ & _ & _ & Hkeyed & _)] Ha.
    unfold keyed in Hkeyed. rewrite Forall_forall in Hkeyed.
    destruct (Hkeyed a Ha) as [k Hk]. unfold bimap.get_key in Hk.
    destruct (bimap.records mm !! a); [eauto|done].
  Qed.

Lemma size_t_pred_pos n :
    (0 < n < size_t_modulus)%Z → size_t_pred n = (n - 1)%Z.
  Proof. intros. unfold size_t_pred. apply Z.mod_small. lia. Qed.

Lemma erase_side_spec T mm b t t' pre a post :
    side_inv T mm b t → side_inv (bimap.flip_struct T) mm b t' →
    elements t ≡ₚ elements t' →
    elements t = pre ++ a :: post →
    let b' := bimap.with_size (size_t_pred (bimap.m_size b)) b in
    ∃ mm' pre' post',
      erase_side T b (bimap.mk_iterator (Some a)) mm
      = Some ((bimap.mk_iterator (cursor_at (Some (bimap.sentinel b)) post), b'), mm') ∧
      elements t' = pre' ++ a :: post' ∧
      side_inv T mm' b' (tdelete a t) ∧
      side_inv (bimap.flip_struct T) mm' b' (tdelete a t') ∧
      elements (tdelete a t) = pre ++ post ∧
      elements (tdelete a t') = pre' ++ post' ∧
      bimap.records mm' = delete a (bimap.records mm) ∧
      bimap.nodes T mm' !! a = None ∧
      bimap.nodes (bimap.flip_struct T) mm' !! a = None ∧
      (∀ x, x ≠ bimap.sentinel b → x ∉ elements t →
            bimap.nodes T mm' !! x = bimap.nodes T mm !! x) ∧
      (∀ x, x ≠ bimap.sentinel b → x ∉ elements t →
            bimap.nodes (bimap.flip_struct T) mm' !! x
            = bimap.nodes (bimap.flip_struct T) mm !! x) ∧
      (∀ x, x ≠ a → is_Some (bimap.nodes T mm' !! x) ↔ is_Some (bimap.nodes T mm !! x)) ∧
      (∀ x, x ≠ a → is_Some (bimap.nodes (bimap.flip_struct T) mm' !! x)
                    ↔ is_Some (bimap.nodes (bimap.flip_struct T) mm !! x)).
  Proof.
    intros [Hsen Hinv] [Hsen' Hinv'] Hperm E b'.
    assert (a ∈ elements t') as Ha'.
    { rewrite <-Hperm, E. set_solver. }
    apply list_elem_of_split in Ha' as (pre' & post' & E').
    pose proof Hinv as (_ & _ & Hnd & Hnin & _).
    pose proof Hinv' as (_ & _ & Hnd' & Hnin' & _).
    assert (a ≠ bimap.sentinel b) as Has.
    { intros ->. apply Hnin. rewrite E. set_solver. }
    destruct (side_inv_keyed T mm b t a) as [rec Hrec]; [by split|rewrite E; set_solver|].
    (* the other tree *)
    destruct (erase_spec _ _ _ _ _ pre' a post' Hinv' E')
      as (n1 & Herase1 & Hinv1 & Eel1 & Ha1 & Hfr1 & Hdom1).
    (* this tree *)
    destruct (erase_spec _ _ _ _ _ pre a post Hinv E)
      as (n2 & Herase2 & Hinv2 & Eel2 & Ha2 & Hfr2 & Hdom2).
    unfold erase_side. cbn [bimap.it bimap.flip].
    exec_with ltac:(apply on_Some; exact Herase1).
    exec_with ltac:(apply query_Some; unfold bimap.iterator_incr; cbn [bimap.it];
                    rewrite nodes_set_nodes_flip';
                    rewrite (incr_spec _ (bimap.set T b) _ _ _ pre a post Hinv E);
                    reflexivity).
    cbn [bimap.it].
    exec_with ltac:(apply on_Some; rewrite nodes_set_nodes_flip'; exact Herase2).
    set (mm2 := set_nodes T n2 (set_nodes (bimap.flip_struct T) n1 mm)).
    assert (bimap.records mm2 = bimap.records mm) as Hrec2.
    { unfold mm2. by rewrite !records_set_nodes. }
    assert (bimap.nodes T mm2 = n2) as HnT by apply nodes_set_nodes.
    assert (bimap.nodes (bimap.flip_struct T) mm2 = n1) as HnF.
    { unfold mm2. rewrite nodes_set_nodes_flip. apply nodes_set_nodes. }
    unfold bimap.delete_storage_node at 1.
    unfold bind at 1. rewrite Hrec2, Hrec. cbn [mbind option_bind ret].
    set (mm3 := bimap.mk_mem _ _ _).
    assert (bimap.nodes T mm3 = delete a n2) as HnT3.
    { unfold mm3. rewrite <-HnT. by destruct T. }
    assert (bimap.nodes (bimap.flip_struct T) mm3 = delete a n1) as HnF3.
    { unfold mm3. rewrite <-HnF. by destruct T. }
    assert (bimap.records mm3 = delete a (bimap.records mm)) as Hrec3.
    { done. }
    assert (a ∉ elements (tdelete a t)) as Hnin2.
    { rewrite Eel2. rewrite E in Hnd. apply NoDup_app in Hnd as (? & ? & [? ?]%NoDup_cons).
      set_solver. }
    assert (a ∉ elements (tdelete a t')) as Hnin1.
    { rewrite Eel1. rewrite E' in Hnd'.
      apply NoDup_app in Hnd' as (? & ? & [? ?]%NoDup_cons). set_solver. }
    exists mm3, pre', post'. split; [done|]. split; [done|]. split.
    { split; [done|]. rewrite HnT3.
      eapply tree_inv_frame; [| |exact Hinv2].
      - intros x Hx. apply lookup_delete_ne. intros ->.
        apply elem_of_cons in Hx as [?|?]; done.
      - intros x Hx. apply get_key_ext. rewrite Hrec3.
        apply lookup_delete_ne. intros ->. done. }
    split.
    { split; [done|]. rewrite HnF3.
      eapply tree_inv_frame; [| |exact Hinv1].
      - intros x Hx. apply lookup_delete_ne. intros ->.
        apply elem_of_cons in Hx as [?|?]; done.
      - intros x Hx. apply get_key_ext. rewrite Hrec3.
        apply lookup_delete_ne. intros ->. done. }
    split; [done|]. split; [done|]. split; [done|].
    split; [rewrite HnT3; apply lookup_delete_eq|].
    split; [rewrite HnF3; apply lookup_delete_eq|].
    assert (∀ x, x ∉ elements t → x ≠ a) as Hxa.
    { intros x Hx ->. apply Hx. rewrite E. set_solver. }
    split.
    { intros x Hxs Hx. rewrite HnT3, lookup_delete_ne by (by apply not_eq_sym, Hxa).
      by apply Hfr2. }
    split.
    { intros x Hxs Hx. rewrite HnF3, lookup_delete_ne by (by apply not_eq_sym, Hxa).
      apply Hfr1; [done|]. by rewrite <-Hperm. }
    split.
    - intros x Hx. rewrite HnT3, lookup_delete_ne by done. apply Hdom2.
    - intros x Hx. rewrite HnF3, lookup_delete_ne by done. apply Hdom1.
  Qed.

End bimap_erase.

(** ** The invariant holds in every reachable state *)

Lemma exists_or_none {A} (P : A → bool) (l : list A) :
  (∃ x, x ∈ l ∧ P x = true) ∨ (∀ x, x ∈ l → P x = false).
Proof.
  destruct (List.find P l) as [a|] eqn:E.
  - left. exists a. by apply find_elem_of.
  - right. by apply find_None_iff.
Qed.

Section bimap_inv_lemmas.
  Context {left_t right_t : Type}.
  Abbreviation mem := (bimap.mem left_t right_t).
  Abbreviation bimap := (bimap.t left_t right_t).
  Implicit Types (mm : mem) (b : bimap) (tl tr : tree).

  Abbreviation gL mm := (bimap.get_key tag_for_left mm).
  Abbreviation gR mm := (bimap.get_key tag_for_right mm).
  Abbreviation cmpL b := (intrusive_set.compare (bimap.left_set b)).
  Abbreviation cmpR b := (intrusive_set.compare (bimap.right_set b)).

Lemma inv_with_sides mm b tl tr :
    inv_with mm b tl tr ↔
    side_inv tag_for_left mm b tl ∧ side_inv tag_for_right mm b tr ∧
    elements tl ≡ₚ elements tr ∧
    bimap.m_size b = Z.of_nat (length (elements tl)) ∧
    (bimap.m_size b < size_t_modulus)%Z.
  Proof. unfold inv_with, side_inv. cbn. naive_solver. Qed.

Lemma new_inv_with cl cr mm0 b mm :
    bimap.new cl cr mm0 = Some (b, mm) → inv_with mm b Leaf Leaf.
  Proof.
    unfold bimap.new. intros [= <- <-]. unfold inv_with, tree_inv. cbn.
    rewrite !lookup_insert_eq. cbn.
    repeat split; try done; try apply NoDup_nil_2; try apply not_elem_of_nil;
      constructor.
  Qed.

Lemma new_compare cl cr mm0 b mm :
    bimap.new cl cr mm0 = Some (b, mm) →
    cmpL b = cl ∧ cmpR b = cr.
  Proof. unfold bimap.new. by intros [= <- <-]. Qed.

Lemma size_t_succ_small n :
    (0 ≤ n)%Z → (n + 1 < size_t_modulus)%Z → size_t_succ n = (n + 1)%Z.
  Proof. intros. unfold size_t_succ. apply Z.mod_small. lia. Qed.

Lemma tins_perm lt a t : elements (tins lt a t) ≡ₚ a :: elements t.
  Proof.
    destruct (tins_elements lt a t) as (pre & post & -> & ->).
    by rewrite Permutation_middle.
  Qed.

  (** [insert] keeps the invariant. *)
Lemma insert_inv_with mm b tl tr l r i b' mm'
      `{!StrictWeakOrder (cmpL b)} `{!StrictWeakOrder (cmpR b)} :
    inv_with mm b tl tr →
    (bimap.m_size b + 1 < size_t_modulus)%Z →
    bimap.insert b l r mm = Some ((i, b'), mm') →
    cmpL b' = cmpL b ∧ cmpR b' = cmpR b ∧ ∃ tl' tr', inv_with mm' b' tl' tr'.
  Proof.
    intros Hinv Hbound Hins.
    destruct (exists_or_none (matches (gL mm) (cmpL b) l) (elements tl)) as [Hl|Hl].
    { rewrite (insert_present mm b tl tr l r Hinv) in Hins by (by left).
      injection Hins as <- <- <-. eauto. }
    destruct (exists_or_none (matches (gR mm) (cmpR b) r) (elements tr)) as [Hr|Hr].
    { rewrite (insert_present mm b tl tr l r Hinv) in Hins by (by right).
      injection Hins as <- <- <-. eauto. }
    destruct (insert_absent mm b tl tr l r Hinv Hl Hr)
      as (mm1 & Hins' & Hrec & HL & HR & _).
    rewrite Hins' in Hins. injection Hins as <- <- <-.
    split; [done|]. split; [done|].
    eexists _, _. apply inv_with_sides. split; [exact HL|]. split; [exact HR|].
    apply inv_with_sides in Hinv as (_ & _ & Hperm & Hsize & _).
    split; [by rewrite !tins_perm, Hperm|].
    cbn [bimap.m_size bimap.with_size].
    rewrite size_t_succ_small by lia.
    rewrite tins_perm. cbn [length]. split; lia.
  Qed.

  (** [erase_left] and [erase_right] keep the invariant. *)
Lemma erase_side_inv_with T mm b t t' pre a post :
    side_inv T mm b t → side_inv (bimap.flip_struct T) mm b t' →
    elements t ≡ₚ elements t' →
    bimap.m_size b = Z.of_nat (length (elements t)) →
    (bimap.m_size b < size_t_modulus)%Z →
    elements t = pre ++ a :: post →
    ∀ i b' mm',
      erase_side T b (bimap.mk_iterator (Some a)) mm = Some ((i, b'), mm') →
      side_inv T mm' b' (tdelete a t) ∧
      side_inv (bimap.flip_struct T) mm' b' (tdelete a t') ∧
      elements (tdelete a t) ≡ₚ elements (tdelete a t') ∧
      bimap.m_size b' = Z.of_nat (length (elements (tdelete a t))) ∧
      bimap.m_size b' = (bimap.m_size b - 1)%Z ∧
      (bimap.m_size b' < size_t_modulus)%Z.
  Proof.
    intros HT HF Hperm Hsize Hbound E i b' mm' Herase.
    destruct (erase_side_spec T mm b t t' pre a post HT HF Hperm E)
      as (mm1 & pre' & post' & Herase' & E' & HT' & HF' & El & El' & _).
    rewrite Herase' in Herase. injection Herase as <- <- <-.
    split; [done|]. split; [done|].
    assert (pre ++ post ≡ₚ pre' ++ post') as Hperm'.
    { rewrite E, E' in Hperm. rewrite <-!Permutation_middle in Hperm.
      by apply Permutation_cons_inv in Hperm. }
    split; [by rewrite El, El'|].
    cbn [bimap.m_size bimap.with_size].
    rewrite E in Hsize. rewrite length_app in Hsize. cbn [length] in Hsize.
    rewrite size_t_pred_pos by lia.
    rewrite El, length_app. lia.
  Qed.

Lemma erase_left_inv_with mm b tl tr a i b' mm' :
    inv_with mm b tl tr → a ∈ elements tl →
    bimap.erase_left b (bimap.mk_iterator (Some a)) mm = Some ((i, b'), mm') →
    cmpL b' = cmpL b ∧ cmpR b' = cmpR b ∧
    inv_with mm' b' (tdelete a tl) (tdelete a tr).
  Proof.
    intros Hinv Ha Herase.
    apply inv_with_sides in Hinv as (HL & HR & Hperm & Hsize & Hbound).
    apply list_elem_of_split in Ha as (pre & post & E).
    assert (b' = bimap.with_size (size_t_pred (bimap.m_size b)) b) as Hb'.
    { destruct (erase_side_spec tag_for_left mm b tl tr pre a post HL HR Hperm E)
        as (mm1 & pre' & post' & Herase' & _).
      rewrite erase_left_side in Herase. rewrite Herase' in Herase.
      by injection Herase as <- <- <-. }
    destruct (erase_side_inv_with tag_for_left mm b tl tr pre a post HL HR Hperm
                Hsize Hbound E i b' mm' Herase) as (? & ? & ? & ? & ? & ?).
    split; [by rewrite Hb'|]. split; [by rewrite Hb'|].
    apply inv_with_sides. done.
  Qed.

Lemma erase_right_inv_with mm b tl tr a i b' mm' :
    inv_with mm b tl tr → a ∈ elements tr →
    bimap.erase_right b (bimap.mk_iterator (Some a)) mm = Some ((i, b'), mm') →
    cmpL b' = cmpL b ∧ cmpR b' = cmpR b ∧
    inv_with mm' b' (tdelete a tl) (tdelete a tr).
  Proof.
    intros Hinv Ha Herase.
    apply inv_with_sides in Hinv as (HL & HR & Hperm & Hsize & Hbound).
    apply list_elem_of_split in Ha as (pre & post & E).
    assert (b' = bimap.with_size (size_t_pred (bimap.m_size b)) b) as Hb'.
    { destruct (erase_side_spec tag_for_right mm b tr tl pre a post HR HL
                  (symmetry Hperm) E)
        as (mm1 & pre' & post' & Herase' & _).
      rewrite erase_right_side in Herase. rewrite Herase' in Herase.
      by injection Herase as <- <- <-. }
    assert (bimap.m_size b = Z.of_nat (length (elements tr))) as Hsize'.
    { by rewrite <-Hperm. }
    destruct (erase_side_inv_with tag_for_right mm b tr tl pre a post HR HL
                (symmetry Hperm) Hsize' Hbound E i b' mm' Herase)
      as (? & ? & Hperm' & Hsz & ? & ?).
    split; [by rewrite Hb'|]. split; [by rewrite Hb'|].
    apply inv_with_sides. split; [done|]. split; [done|].
    split; [done|]. split; [|done]. by rewrite <-Hperm'.
  Qed.

Lemma cursors_elem mm b tl tr cs c :
    inv_with mm b tl tr → traversal.left_cursors b mm = Some cs → c ∈ cs →
    ∃ a, c = Some a ∧ a ∈ elements tl.
  Proof.
    intros Hinv Hcs Hc.
    rewrite (left_cursors_spec mm b tl) in Hcs by (by eapply inv_with_left).
    injection Hcs as <-. apply list_elem_of_fmap in Hc as (a & -> & Ha). eauto.
  Qed.

Lemma right_cursors_elem mm b tl tr cs c :
    inv_with mm b tl tr → traversal.right_cursors b mm = Some cs → c ∈ cs →
    ∃ a, c = Some a ∧ a ∈ elements tr.
  Proof.
    intros Hinv Hcs Hc.
    rewrite (right_cursors_spec mm b tr) in Hcs by (by eapply inv_with_right).
    injection Hcs as <-. apply list_elem_of_fmap in Hc as (a & -> & Ha). eauto.
  Qed.

Lemma reachable_inv mm b : reachable mm b → inv mm b.
  Proof.
    induction 1 as [mm0 cl cr b mm Hcl Hcr Hnew
                   |mm b l r i b' mm' _ IH Hbound Hins
                   |mm b cs c i b' mm' _ IH Hcs Hc Herase
                   |mm b cs c i b' mm' _ IH Hcs Hc Herase]; unfold inv in *.
    - destruct (new_compare _ _ _ _ _ Hnew) as [-> ->].
      split; [done|]. split; [done|]. eexists _, _. by eapply new_inv_with.
    - destruct IH as (HswoL & HswoR & tl & tr & Hinv).
      destruct (insert_inv_with mm b tl tr l r i b' mm' Hinv Hbound Hins)
        as (-> & -> & ?). done.
    - destruct IH as (HswoL & HswoR & tl & tr & Hinv).
      destruct (cursors_elem _ _ _ _ _ _ Hinv Hcs Hc) as (a & -> & Ha).
      destruct (erase_left_inv_with mm b tl tr a i b' mm' Hinv Ha Herase)
        as (-> & -> & ?). split; [done|]. split; [done|]. eauto.
    - destruct IH as (HswoL & HswoR & tl & tr & Hinv).
      destruct (right_cursors_elem _ _ _ _ _ _ Hinv Hcs Hc) as (a & -> & Ha).
      destruct (erase_right_inv_with mm b tl tr a i b' mm' Hinv Ha Herase)
        as (-> & -> & ?). split; [done|]. split; [done|]. eauto.
  Qed.

End bimap_inv_lemmas.

(** ** What the traversals read *)

Lemma find_fmap {A B} (f : A → B) (P : B → bool) l :
  List.find P (f <$> l) = f <$> List.find (P ∘ f) l.
Proof. induction l as [|x l IH]; [done|]. cbn. by destruct (P (f x)). Qed.

Lemma find_ext {A} (P Q : A → bool) l :
  (∀ x, x ∈ l → P x = Q x) → List.find P l = List.find Q l.
Proof.
  induction l as [|x l IH]; intros H; [done|]. cbn.
  rewrite (H x) by set_solver. destruct (Q x); [done|]. apply IH.
  intros. apply H. set_solver.
Qed.

(** [find] on two lists whose elements correspond one to one. *)
Lemma find_Forall2 {A B} (R : A → B → Prop) (P : A → bool) (Q : B → bool) l k :
  Forall2 R l k → (∀ a p, R a p → P a = Q p) →
  (List.find P l = None ∧ List.find Q k = None) ∨
  (∃ a p, List.find P l = Some a ∧ List.find Q k = Some p ∧ R a p).
Proof.
  intros HF HPQ. induction HF as [|a p l k HR HF IH]; [by left|]. cbn.
  rewrite <-(HPQ a p HR). destruct (P a); [right; eauto|]. done.
Qed.

Lemma sorted_keys {K} (g : addr → option K) cmp l ks :
  Forall2 (λ a k, g a = Some k) l ks →
  strictly_sorted g cmp l →
  StronglySorted (λ x y, cmp x y = true) ks.
Proof.
  intros HF. induction HF as [|a k l ks Ha HF IH]; intros Hs; [constructor|].
  apply StronglySorted_cons in Hs as [Hall Hs]. apply StronglySorted_cons.
  split; [|by apply IH].
  clear IH Hs. induction HF as [|b kb l ks Hb HF IH]; [constructor|].
  apply Forall_cons in Hall as [Hab Hall]. constructor; [|by apply IH].
  unfold lt_at in Hab. by rewrite Ha, Hb in Hab.
Qed.

Lemma keyed_mapM {K} (g : addr → option K) l :
  keyed g l → ∃ ks, mapM g l = Some ks.
Proof.
  intros Hk. apply (mapM_is_Some g l). eapply Forall_impl; [exact Hk|]. done.
Qed.

Section observations.
  Context {left_t right_t : Type}.
  Abbreviation mem := (bimap.mem left_t right_t).
  Abbreviation bimap := (bimap.t left_t right_t).
  Implicit Types (mm : mem) (b : bimap) (tl tr : tree).

  Abbreviation gL mm := (bimap.get_key tag_for_left mm).
  Abbreviation gR mm := (bimap.get_key tag_for_right mm).
  Abbreviation cmpL b := (intrusive_set.compare (bimap.left_set b)).
  Abbreviation cmpR b := (intrusive_set.compare (bimap.right_set b)).

Lemma mapM_cursors {A} (f : ptr → option A) (l : list addr) :
    mapM f (Some <$> l) = mapM (f ∘ Some) l.
  Proof.
    induction l as [|a l IH]; [done|]. cbn. by rewrite IH.
  Qed.

Lemma left_keys_spec mm (l : list addr) :
    traversal.left_keys mm (Some <$> l) = mapM (gL mm) l.
  Proof. unfold traversal.left_keys. by rewrite mapM_cursors. Qed.

Lemma right_keys_spec mm (l : list addr) :
    traversal.right_keys mm (Some <$> l) = mapM (gR mm) l.
  Proof. unfold traversal.right_keys. by rewrite mapM_cursors. Qed.

Lemma side_keys_sorted T mm b t :
    side_inv T mm b t →
    ∃ ks, mapM (bimap.get_key T mm) (elements t) = Some ks ∧
          StronglySorted (λ x y, intrusive_set.compare (bimap.set T b) x y = true) ks.
  Proof.
    intros [_ (_ & _ & _ & _ & Hkeyed & Hsort)].
    destruct (keyed_mapM _ _ Hkeyed) as [ks Hks]. exists ks. split; [done|].
    apply mapM_Some in Hks. by eapply sorted_keys.
  Qed.

  (** The traversals of a state that satisfies the invariant. *)
Lemma inv_traversals mm b :
    inv mm b →
    (∃ cs ks, traversal.left_cursors b mm = Some cs ∧
              traversal.left_keys mm cs = Some ks ∧
              StronglySorted (λ x y, cmpL b x y = true) ks) ∧
    (∃ cs ks, traversal.right_cursors b mm = Some cs ∧
              traversal.right_keys mm cs = Some ks ∧
              StronglySorted (λ x y, cmpR b x y = true) ks).
  Proof.
    intros (_ & _ & tl & tr & Hinv).
    pose proof (inv_with_left _ _ _ _ Hinv) as HL.
    pose proof (inv_with_right _ _ _ _ Hinv) as HR.
    split.
    - destruct (side_keys_sorted tag_for_left mm b tl HL) as (ks & Hks & Hsort).
      exists (Some <$> elements tl), ks.
      rewrite (left_cursors_spec mm b tl HL), left_keys_spec. done.
    - destruct (side_keys_sorted tag_for_right mm b tr HR) as (ks & Hks & Hsort).
      exists (Some <$> elements tr), ks.
      rewrite (right_cursors_spec mm b tr HR), right_keys_spec. done.
  Qed.

End observations.

(** ** Bounds *)

Section bounds.
  Context {left_t right_t : Type}.
  Abbreviation mem := (bimap.mem left_t right_t).
  Abbreviation bimap := (bimap.t left_t right_t).
  Implicit Types (mm : mem) (b : bimap) (tl tr : tree).

  Abbreviation cmpL b := (intrusive_set.compare (bimap.left_set b)).
  Abbreviation cmpR b := (intrusive_set.compare (bimap.right_set b)).

  (** A search among the cursors of a tree is a search among its nodes. *)
Lemma first_cursor_where T mm (P : bimap.key T → bool) (P' : addr → bool) s l :
    (∀ a, a ∈ l → P' a = match bimap.get_key T mm a with
                          | Some x => P x
                          | None => false
                          end) →
    traversal.first_cursor mm P (bimap.mk_iterator (Some s)) (Some <$> l)
    = bimap.mk_iterator (first_where P' (Some s) l).
  Proof.
    intros HP. unfold traversal.first_cursor, first_where.
    rewrite find_fmap.
    rewrite (find_ext _ P'); [by destruct (List.find P' l)|].
    intros a Ha. by rewrite HP.
  Qed.

Lemma side_keyed T mm b t a :
    side_inv T mm b t → a ∈ elements t → is_Some (bimap.get_key T mm a).
  Proof.
    intros [_ (_ & _ & _ & _ & Hkeyed & _)] Ha.
    unfold keyed in Hkeyed. rewrite Forall_forall in Hkeyed. by apply Hkeyed.
  Qed.

Lemma lower_bound_cursors T mm b t k
      `{!StrictWeakOrder (intrusive_set.compare (bimap.set T b))} :
    side_inv T mm b t →
    bimap.mk_iterator (T:=T) <$>
      intrusive_set.lower_bound (bimap.get_key T mm) (bimap.set T b) (bimap.nodes T mm) k
    = Some (traversal.first_cursor mm
              (λ x, negb (intrusive_set.compare (bimap.set T b) x k))
              (bimap.mk_iterator (Some (bimap.sentinel b))) (Some <$> elements t)).
  Proof.
    intros Hinv. rewrite (lower_bound_side T mm b t k Hinv). cbn. f_equal.
    symmetry. apply first_cursor_where. intros a Ha.
    destruct (side_keyed T mm b t a Hinv Ha) as [x Hx].
    unfold below. by rewrite Hx.
  Qed.

Lemma upper_bound_cursors T mm b t k
      `{!StrictWeakOrder (intrusive_set.compare (bimap.set T b))} :
    side_inv T mm b t →
    bimap.mk_iterator (T:=T) <$>
      intrusive_set.upper_bound (bimap.get_key T mm) (bimap.set T b) (bimap.nodes T mm) k
    = Some (traversal.first_cursor mm
              (λ x, intrusive_set.compare (bimap.set T b) k x)
              (bimap.mk_iterator (Some (bimap.sentinel b))) (Some <$> elements t)).
  Proof.
    intros Hinv. rewrite (upper_bound_side T mm b t k Hinv). cbn. f_equal.
    symmetry. apply first_cursor_where. intros a Ha. done.
  Qed.

Lemma find_cursors T mm b t k
      `{!StrictWeakOrder (intrusive_set.compare (bimap.set T b))} :
    side_inv T mm b t →
    bimap.mk_iterator (T:=T) <$>
      intrusive_set.find (bimap.get_key T mm) (bimap.set T b) (bimap.nodes T mm) k
    = Some (traversal.first_cursor mm
              (equiv_under (intrusive_set.compare (bimap.set T b)) k)
              (bimap.mk_iterator (Some (bimap.sentinel b))) (Some <$> elements t)).
  Proof.
    intros Hinv. rewrite (find_side T mm b t k Hinv). cbn. f_equal.
    symmetry. apply first_cursor_where. intros a Ha. done.
  Qed.

  (** C9.  [lower_bound_left(k)] is the first cursor of the left traversal
      whose key is not less than [k], [upper_bound_left(k)] the first whose
      key is greater than [k], each [end_left()] when there is none; and the
      same on the right side. *)
Theorem bounds_are_first_in_order mm b (l : left_t) (r : right_t) :
    inv mm b →
    ∃ cs cs',
      traversal.left_cursors b mm = Some cs ∧
      traversal.right_cursors b mm = Some cs' ∧
      bimap.lower_bound_left b mm l
      = Some (traversal.first_cursor (T:=tag_for_left) mm
                (λ x, negb (cmpL b x l)) (bimap.end_left b) cs) ∧
      bimap.upper_bound_left b mm l
      = Some (traversal.first_cursor (T:=tag_for_left) mm
                (λ x, cmpL b l x) (bimap.end_left b) cs) ∧
      bimap.lower_bound_right b mm r
      = Some (traversal.first_cursor (T:=tag_for_right) mm
                (λ x, negb (cmpR b x r)) (bimap.end_right b) cs') ∧
      bimap.upper_bound_right b mm r
      = Some (traversal.first_cursor (T:=tag_for_right) mm
                (λ x, cmpR b r x) (bimap.end_right b) cs').
  Proof.
    intros (HswoL & HswoR & tl & tr & Hinv).
    pose proof (inv_with_left _ _ _ _ Hinv) as HL.
    pose proof (inv_with_right _ _ _ _ Hinv) as HR.
    exists (Some <$> elements tl), (Some <$> elements tr).
    rewrite (end_left_spec _ _ _ _ Hinv), (end_right_spec _ _ _ _ Hinv).
    split; [by apply left_cursors_spec|].
    split; [by apply right_cursors_spec|].
    split; [exact (lower_bound_cursors tag_for_left mm b tl l HL)|].
    split; [exact (upper_bound_cursors tag_for_left mm b tl l HL)|].
    split; [exact (lower_bound_cursors tag_for_right mm b tr r HR)|].
    exact (upper_bound_cursors tag_for_right mm b tr r HR).
  Qed.

End bounds.

(** ** Pairs, [flip] and [at] *)

Section pairs.
  Context {left_t right_t : Type}.
  Abbreviation mem := (bimap.mem left_t right_t).
  Abbreviation bimap := (bimap.t left_t right_t).
  Implicit Types (mm : mem) (b : bimap) (tl tr : tree).

  Abbreviation gL mm := (bimap.get_key tag_for_left mm).
  Abbreviation gR mm := (bimap.get_key tag_for_right mm).
  Abbreviation cmpL b := (intrusive_set.compare (bimap.left_set b)).
  Abbreviation cmpR b := (intrusive_set.compare (bimap.right_set b)).

Lemma pair_at_left_of mm a : traversal.pair_at_left mm (Some a) = pair_of mm a.
  Proof.
    unfold traversal.pair_at_left, pair_of, bimap.deref, bimap.get_key. cbn.
    by destruct (bimap.records mm !! a).
  Qed.

Lemma pair_at_right_of mm a : traversal.pair_at_right mm (Some a) = pair_of mm a.
  Proof.
    unfold traversal.pair_at_right, pair_of, bimap.deref, bimap.get_key. cbn.
    by destruct (bimap.records mm !! a).
  Qed.

Lemma pair_of_Some mm a p :
    pair_of mm a = Some p ↔ gL mm a = Some p.1 ∧ gR mm a = Some p.2.
  Proof.
    unfold pair_of, bimap.get_key. cbn.
    destruct (bimap.records mm !! a) as [rec|]; cbn; [|naive_solver].
    destruct p as [l r]. cbn. naive_solver.
  Qed.

Lemma pairs_exist T mm b t :
    side_inv T mm b t → ∃ ps, mapM (pair_of mm) (elements t) = Some ps.
  Proof.
    intros Hinv. apply mapM_is_Some, Forall_forall. intros a Ha.
    unfold pair_of. apply fmap_is_Some.
    exact (side_inv_keyed T mm b t a Hinv Ha).
  Qed.

Lemma left_pairs_spec mm b tl :
    side_inv tag_for_left mm b tl →
    traversal.left_pairs b mm = mapM (pair_of mm) (elements tl).
  Proof.
    intros Hinv. unfold traversal.left_pairs.
    rewrite (left_cursors_spec mm b tl Hinv). cbn. rewrite mapM_cursors.
    apply mapM_ext. intros a. apply pair_at_left_of.
  Qed.

Lemma right_pairs_spec mm b tr :
    side_inv tag_for_right mm b tr →
    traversal.right_pairs b mm = mapM (pair_of mm) (elements tr).
  Proof.
    intros Hinv. unfold traversal.right_pairs.
    rewrite (right_cursors_spec mm b tr Hinv). cbn. rewrite mapM_cursors.
    apply mapM_ext. intros a. apply pair_at_right_of.
  Qed.

  (** C3.  For every cursor [c] of the left traversal, [flip] gives the
      cursor of the right traversal on the same record: it dereferences to
      the right key of the record [c] dereferences to the left key of, and
      flipping twice gives [c] back; the same from the right traversal.
      [flip] takes no memory and no comparison: it cannot search. *)
Theorem flip_addresses_same_record mm b cs cs' :
    inv mm b →
    traversal.left_cursors b mm = Some cs →
    traversal.right_cursors b mm = Some cs' →
    (∀ c, c ∈ cs →
       let i : bimap.left_iterator := bimap.mk_iterator c in
       bimap.it (bimap.flip i) = c ∧ bimap.it (bimap.flip i) ∈ cs' ∧
       bimap.flip (bimap.flip i) = i ∧
       ∃ a rec, c = Some a ∧ bimap.records mm !! a = Some rec ∧
                bimap.deref i mm = Some (bimap.left_key rec) ∧
                bimap.deref (bimap.flip i) mm = Some (bimap.right_key rec)) ∧
    (∀ c, c ∈ cs' →
       let i : bimap.right_iterator := bimap.mk_iterator c in
       bimap.it (bimap.flip i) = c ∧ bimap.it (bimap.flip i) ∈ cs ∧
       bimap.flip (bimap.flip i) = i ∧
       ∃ a rec, c = Some a ∧ bimap.records mm !! a = Some rec ∧
                bimap.deref i mm = Some (bimap.right_key rec) ∧
                bimap.deref (bimap.flip i) mm = Some (bimap.left_key rec)).
  Proof.
    intros (_ & _ & tl & tr & Hinv) Hcs Hcs'.
    pose proof (inv_with_left _ _ _ _ Hinv) as HL.
    pose proof (inv_with_right _ _ _ _ Hinv) as HR.
    pose proof (proj1 (inv_with_sides _ _ _ _) Hinv) as (_ & _ & Hperm & _).
    rewrite (left_cursors_spec mm b tl HL) in Hcs. injection Hcs as <-.
    rewrite (right_cursors_spec mm b tr HR) in Hcs'. injection Hcs' as <-.
    split.
    - intros c Hc i. apply list_elem_of_fmap in Hc as (a & -> & Ha).
      split; [done|]. split.
      { apply list_elem_of_fmap. exists a. split; [done|]. by rewrite <-Hperm. }
      split; [done|].
      destruct (side_inv_keyed _ _ _ _ a HL Ha) as [rec Hrec].
      exists a, rec. split; [done|]. split; [done|].
      unfold bimap.deref, bimap.get_key. cbn. by rewrite Hrec.
    - intros c Hc i. apply list_elem_of_fmap in Hc as (a & -> & Ha).
      split; [done|]. split.
      { apply list_elem_of_fmap. exists a. split; [done|]. by rewrite Hperm. }
      split; [done|].
      destruct (side_inv_keyed _ _ _ _ a HR Ha) as [rec Hrec].
      exists a, rec. split; [done|]. split; [done|].
      unfold bimap.deref, bimap.get_key. cbn. by rewrite Hrec.
  Qed.

  (** [at] on one side, from the pairs in the order of that side. *)
Lemma at_left_pairs mm b tl tr ps k `{!StrictWeakOrder (cmpL b)} :
    inv_with mm b tl tr →
    mapM (pair_of mm) (elements tl) = Some ps →
    bimap.at_left b mm k
    = Some (match List.find (λ p, equiv_under (cmpL b) k p.1) ps with
            | Some p => returned p.2
            | None => thrown (out_of_range "element doesn't exist")
            end).
  Proof.
    intros Hinv Hps.
    pose proof (inv_with_left _ _ _ _ Hinv) as HL.
    unfold bimap.at_left. rewrite (find_left_spec mm b tl k HL). cbn.
    rewrite (end_left_spec _ _ _ _ Hinv).
    apply mapM_Some in Hps.
    destruct (find_Forall2 _ (matches (gL mm) (cmpL b) k)
                (λ p, equiv_under (cmpL b) k p.1) _ _ Hps)
      as [[Hf Hf']|(a & p & Hf & Hf' & Hap)].
    { intros a p Hap. apply pair_of_Some in Hap as [Hl _].
      unfold matches. by rewrite Hl. }
    - unfold first_where. cbn [bimap.key] in Hf. rewrite Hf, Hf'. cbn.
      by rewrite iterator_eq_true.
    - unfold first_where. cbn [bimap.key] in Hf. rewrite Hf, Hf'. cbn.
      apply find_elem_of in Hf as [Ha _].
      rewrite iterator_eq_false.
      2:{ cbn. intros [= ->]. by apply HL in Ha. }
      apply pair_of_Some in Hap as [_ Hr].
      unfold bimap.deref. cbn. by rewrite Hr.
  Qed.

Lemma at_right_pairs mm b tl tr ps k `{!StrictWeakOrder (cmpR b)} :
    inv_with mm b tl tr →
    mapM (pair_of mm) (elements tr) = Some ps →
    bimap.at_right b mm k
    = Some (match List.find (λ p, equiv_under (cmpR b) k p.2) ps with
            | Some p => returned p.1
            | None => thrown (out_of_range "element doesn't exist")
            end).
  Proof.
    intros Hinv Hps.
    pose proof (inv_with_right _ _ _ _ Hinv) as HR.
    unfold bimap.at_right. rewrite (find_right_spec mm b tr k HR). cbn.
    rewrite (end_right_spec _ _ _ _ Hinv).
    apply mapM_Some in Hps.
    destruct (find_Forall2 _ (matches (gR mm) (cmpR b) k)
                (λ p, equiv_under (cmpR b) k p.2) _ _ Hps)
      as [[Hf Hf']|(a & p & Hf & Hf' & Hap)].
    { intros a p Hap. apply pair_of_Some in Hap as [_ Hr].
      unfold matches. by rewrite Hr. }
    - unfold first_where. cbn [bimap.key] in Hf. rewrite Hf, Hf'. cbn.
      by rewrite iterator_eq_true.
    - unfold first_where. cbn [bimap.key] in Hf. rewrite Hf, Hf'. cbn.
      apply find_elem_of in Hf as [Ha _].
      rewrite iterator_eq_false.
      2:{ cbn. intros [= ->]. by apply HR in Ha. }
      apply pair_of_Some in Hap as [Hl _].
      unfold bimap.deref. cbn. by rewrite Hl.
  Qed.

End pairs.

(** ** Lookups that raise, and [insert] *)

Lemma existsb_false_iff {A} (P : A → bool) l :
  existsb P l = false ↔ ∀ x, x ∈ l → P x = false.
Proof.
  induction l as [|x l IH]; cbn; [set_solver|].
  rewrite orb_false_iff, IH. set_solver.
Qed.

Lemma existsb_true_iff {A} (P : A → bool) l :
  existsb P l = true ↔ ∃ x, x ∈ l ∧ P x = true.
Proof.
  induction l as [|x l IH]; cbn; [set_solver|].
  rewrite orb_true_iff, IH. set_solver.
Qed.

Lemma Forall2_elem_l {A B} (R : A → B → Prop) l k a :
  Forall2 R l k → a ∈ l → ∃ p, p ∈ k ∧ R a p.
Proof.
  intros HF. induction HF as [|x y l k HR HF IH]; [set_solver|].
  intros [->|Ha]%elem_of_cons; [set_solver|].
  destruct (IH Ha) as (p & ? & ?). set_solver.
Qed.

Lemma Forall2_elem_r {A B} (R : A → B → Prop) l k p :
  Forall2 R l k → p ∈ k → ∃ a, a ∈ l ∧ R a p.
Proof.
  intros HF. induction HF as [|x y l k HR HF IH]; [set_solver|].
  intros [->|Ha]%elem_of_cons; [set_solver|].
  destruct (IH Ha) as (a & ? & ?). set_solver.
Qed.

Section lookups.
  Context {left_t right_t : Type}.
  Abbreviation mem := (bimap.mem left_t right_t).
  Abbreviation bimap := (bimap.t left_t right_t).
  Implicit Types (mm : mem) (b : bimap) (tl tr : tree).

  Abbreviation gL mm := (bimap.get_key tag_for_left mm).
  Abbreviation gR mm := (bimap.get_key tag_for_right mm).
  Abbreviation cmpL b := (intrusive_set.compare (bimap.left_set b)).
  Abbreviation cmpR b := (intrusive_set.compare (bimap.right_set b)).

Lemma thrown_iff_none {A B} (P : A → bool) (f : A → B) e l :
    Some (match List.find P l with
          | Some p => returned (f p)
          | None => thrown e
          end) = Some (thrown e)
    ↔ ∀ p, p ∈ l → P p = false.
  Proof.
    rewrite <-find_None_iff. destruct (List.find P l); naive_solver.
  Qed.

  (** C6.  [at_left(key)] throws [std::out_of_range] exactly when no pair of
      the container has a left key equivalent to [key], and returns the right
      key of the pair that has one otherwise; [at_right] is the same with the
      sides exchanged.  Both are readers of the memory, so the container is
      the same afterwards.  [find_left] and [find_right] return a cursor,
      [end] when the key is absent, and the four bounds return a cursor. *)
Theorem at_throws_iff_absent mm b (l : left_t) (r : right_t) :
    inv mm b →
    ∃ cs cs' ps ps',
      traversal.left_cursors b mm = Some cs ∧
      traversal.right_cursors b mm = Some cs' ∧
      traversal.left_pairs b mm = Some ps ∧
      traversal.right_pairs b mm = Some ps' ∧
      bimap.at_left b mm l
      = Some (match List.find (λ p, equiv_under (cmpL b) l p.1) ps with
              | Some p => returned p.2
              | None => thrown (out_of_range "element doesn't exist")
              end) ∧
      bimap.at_right b mm r
      = Some (match List.find (λ p, equiv_under (cmpR b) r p.2) ps' with
              | Some p => returned p.1
              | None => thrown (out_of_range "element doesn't exist")
              end) ∧
      (bimap.at_left b mm l = Some (thrown (out_of_range "element doesn't exist"))
       ↔ ∀ p, p ∈ ps → equiv_under (cmpL b) l p.1 = false) ∧
      (bimap.at_right b mm r = Some (thrown (out_of_range "element doesn't exist"))
       ↔ ∀ p, p ∈ ps' → equiv_under (cmpR b) r p.2 = false) ∧
      bimap.find_left b mm l
      = Some (traversal.first_cursor (T:=tag_for_left) mm
                (equiv_under (cmpL b) l) (bimap.end_left b) cs) ∧
      bimap.find_right b mm r
      = Some (traversal.first_cursor (T:=tag_for_right) mm
                (equiv_under (cmpR b) r) (bimap.end_right b) cs') ∧
      is_Some (bimap.lower_bound_left b mm l) ∧
      is_Some (bimap.upper_bound_left b mm l) ∧
      is_Some (bimap.lower_bound_right b mm r) ∧
      is_Some (bimap.upper_bound_right b mm r).
  Proof.
    intros (HswoL & HswoR & tl & tr & Hinv).
    pose proof (inv_with_left _ _ _ _ Hinv) as HL.
    pose proof (inv_with_right _ _ _ _ Hinv) as HR.
    destruct (pairs_exist _ _ _ _ HL) as [ps Hps].
    destruct (pairs_exist _ _ _ _ HR) as [ps' Hps'].
    exists (Some <$> elements tl), (Some <$> elements tr), ps, ps'.
    split; [by apply left_cursors_spec|].
    split; [by apply right_cursors_spec|].
    split; [by rewrite (left_pairs_spec mm b tl HL)|].
    split; [by rewrite (right_pairs_spec mm b tr HR)|].
    rewrite (at_left_pairs mm b tl tr ps l Hinv Hps).
    rewrite (at_right_pairs mm b tl tr ps' r Hinv Hps').
    split; [done|]. split; [done|].
    split; [apply thrown_iff_none|]. split; [apply thrown_iff_none|].
    rewrite (end_left_spec _ _ _ _ Hinv), (end_right_spec _ _ _ _ Hinv).
    split; [exact (find_cursors tag_for_left mm b tl l HL)|].
    split; [exact (find_cursors tag_for_right mm b tr r HR)|].
    split.
    { eapply mk_is_Some. exact (lower_bound_cursors tag_for_left mm b tl l HL). }
    split.
    { eapply mk_is_Some. exact (upper_bound_cursors tag_for_left mm b tl l HL). }
    split.
    { eapply mk_is_Some. exact (lower_bound_cursors tag_for_right mm b tr r HR). }
    eapply mk_is_Some. exact (upper_bound_cursors tag_for_right mm b tr r HR).
  Qed.

  (** Presence of a key on either side, read from the pairs. *)
Lemma present_pairs mm b tl tr ps (l : left_t) (r : right_t) :
    inv_with mm b tl tr → mapM (pair_of mm) (elements tl) = Some ps →
    if existsb (λ p, equiv_under (cmpL b) l p.1 || equiv_under (cmpR b) r p.2) ps
    then (∃ x, x ∈ elements tl ∧ matches (gL mm) (cmpL b) l x = true) ∨
         (∃ x, x ∈ elements tr ∧ matches (gR mm) (cmpR b) r x = true)
    else (∀ x, x ∈ elements tl → matches (gL mm) (cmpL b) l x = false) ∧
         (∀ x, x ∈ elements tr → matches (gR mm) (cmpR b) r x = false).
  Proof.
    intros Hinv Hps. apply mapM_Some in Hps.
    pose proof (proj1 (inv_with_sides _ _ _ _) Hinv) as (_ & _ & Hperm & _).
    destruct (existsb _ ps) eqn:E.
    - apply existsb_true_iff in E as (p & Hp & HP).
      destruct (Forall2_elem_r _ _ _ _ Hps Hp) as (a & Ha & Hap).
      apply pair_of_Some in Hap as [Hl Hr].
      apply orb_true_iff in HP as [HP|HP].
      + left. exists a. split; [done|]. unfold matches.
        cbn [bimap.key] in *. by rewrite Hl.
      + right. exists a. split; [by rewrite <-Hperm|]. unfold matches.
        cbn [bimap.key] in *. by rewrite Hr.
    - assert (∀ x, x ∈ elements tl →
                matches (gL mm) (cmpL b) l x = false ∧
                matches (gR mm) (cmpR b) r x = false) as H.
      { intros x Hx. destruct (Forall2_elem_l _ _ _ _ Hps Hx) as (p & Hp & Hxp).
        apply pair_of_Some in Hxp as [Hl Hr].
        pose proof (proj1 (existsb_false_iff _ _) E p Hp) as HP.
        apply orb_false_iff in HP as [? ?].
        unfold matches. cbn [bimap.key] in *. by rewrite Hl, Hr. }
      split; intros x Hx; [by apply H|]. apply H. by rewrite Hperm.
  Qed.

End lookups.

(** ** [insert] and [erase] *)

Lemma cursor_at_head e (l : list addr) :
  cursor_at e l = default e (head (Some <$> l)).
Proof. by destruct l. Qed.

Lemma fmap_split_inv {A B} (f : A → B) l pre c post :
  f <$> l = pre ++ c :: post →
  ∃ pre0 a post0, l = pre0 ++ a :: post0 ∧ pre = f <$> pre0 ∧ c = f a ∧
                  post = f <$> post0.
Proof.
  intros (pre0 & l2 & -> & H2 & ->)%fmap_app_inv.
  symmetry in H2. apply fmap_cons_inv in H2 as (a & post0 & -> & -> & ->).
  by exists pre0, a, post0.
Qed.

Section mutators.
  Context {left_t right_t : Type}.
  Abbreviation mem := (bimap.mem left_t right_t).
  Abbreviation bimap := (bimap.t left_t right_t).
  Implicit Types (mm : mem) (b : bimap) (tl tr : tree).

  Abbreviation gL mm := (bimap.get_key tag_for_left mm).
  Abbreviation gR mm := (bimap.get_key tag_for_right mm).
  Abbreviation cmpL b := (intrusive_set.compare (bimap.left_set b)).
  Abbreviation cmpR b := (intrusive_set.compare (bimap.right_set b)).

  (** C1.  [insert(l, r)] returns [end_left()] and changes neither the
      memory nor the container when some pair has a left key equivalent to
      [l] or a right key equivalent to [r].  Otherwise it allocates one
      record at an address [a] that held none, with the keys [l] and [r];
      the left traversal and the right traversal gain the cursor on [a] and
      keep the others in their order; the cursor it returns is on [a];
      [m_size] is incremented (modulo 2^64, so by one below the largest
      [size_t]). *)
Theorem insert_unless_present mm b (l : left_t) (r : right_t) :
    inv mm b →
    ∃ cs cs' ps,
      traversal.left_cursors b mm = Some cs ∧
      traversal.right_cursors b mm = Some cs' ∧
      traversal.left_pairs b mm = Some ps ∧
      if existsb (λ p, equiv_under (cmpL b) l p.1 || equiv_under (cmpR b) r p.2) ps
      then bimap.insert b l r mm = Some ((bimap.end_left b, b), mm)
      else
        ∃ a mm' pre post pre' post',
          let b' := bimap.with_size (size_t_succ (bimap.m_size b)) b in
          let i : bimap.left_iterator := bimap.mk_iterator (Some a) in
          bimap.insert b l r mm = Some ((i, b'), mm') ∧
          bimap.records mm !! a = None ∧
          bimap.records mm' = <[a := bimap.mk_storage_node l r]> (bimap.records mm) ∧
          bimap.deref i mm' = Some l ∧
          bimap.deref (bimap.flip i) mm' = Some r ∧
          cs = pre ++ post ∧
          traversal.left_cursors b' mm' = Some (pre ++ Some a :: post) ∧
          cs' = pre' ++ post' ∧
          traversal.right_cursors b' mm' = Some (pre' ++ Some a :: post') ∧
          ((bimap.m_size b + 1 < size_t_modulus)%Z →
           bimap.size b' = (bimap.size b + 1)%Z ∧ inv mm' b').
  Proof.
    intros (HswoL & HswoR & tl & tr & Hinv).
    pose proof (inv_with_left _ _ _ _ Hinv) as HL.
    pose proof (inv_with_right _ _ _ _ Hinv) as HR.
    destruct (pairs_exist _ _ _ _ HL) as [ps Hps].
    exists (Some <$> elements tl), (Some <$> elements tr), ps.
    split; [by apply left_cursors_spec|].
    split; [by apply right_cursors_spec|].
    split; [by rewrite (left_pairs_spec mm b tl HL)|].
    pose proof (present_pairs mm b tl tr ps l r Hinv Hps) as Hpres.
    destruct (existsb _ ps).
    { by apply (insert_present mm b tl tr l r Hinv). }
    destruct Hpres as [HabsL HabsR].
    destruct (insert_absent mm b tl tr l r Hinv HabsL HabsR)
      as (mm' & Hins & Hrec & HL' & HR' & _).
    set (a := fresh (dom (bimap.lnodes mm) ∪ dom (bimap.rnodes mm)
                     ∪ dom (bimap.records mm))) in *.
    destruct (tins_elements (lt_at (gL mm') (cmpL b)) a tl)
      as (pre & post & Epre & Eins).
    destruct (tins_elements (lt_at (gR mm') (cmpR b)) a tr)
      as (pre' & post' & Epre' & Eins').
    exists a, mm', (Some <$> pre), (Some <$> post), (Some <$> pre'), (Some <$> post').
    cbn zeta. split; [done|]. split.
    { apply not_elem_of_dom. pose proof (is_fresh (dom (bimap.lnodes mm)
        ∪ dom (bimap.rnodes mm) ∪ dom (bimap.records mm))) as Hf.
      fold a in Hf. set_solver. }
    split; [done|].
    split. { unfold bimap.deref, bimap.get_key. cbn. by rewrite Hrec, lookup_insert_eq. }
    split. { unfold bimap.deref, bimap.get_key. cbn. by rewrite Hrec, lookup_insert_eq. }
    split. { by rewrite Epre, fmap_app. }
    split. { rewrite (left_cursors_spec _ _ _ HL'), Eins, fmap_app. done. }
    split. { by rewrite Epre', fmap_app. }
    split. { rewrite (right_cursors_spec _ _ _ HR'), Eins', fmap_app. done. }
    intros Hbound.
    pose proof (proj1 (inv_with_sides _ _ _ _) Hinv) as (_ & _ & _ & Hsize & _).
    split.
    { unfold bimap.size. cbn [bimap.m_size bimap.with_size].
      apply size_t_succ_small; lia. }
    destruct (insert_inv_with mm b tl tr l r _ _ _ Hinv Hbound Hins)
      as (El & Er & Hinv').
    unfold inv. rewrite El, Er. done.
  Qed.

Lemma find_side_end T mm b t k
      `{!StrictWeakOrder (intrusive_set.compare (bimap.set T b))} :
    side_inv T mm b t →
    (∀ x, x ∈ elements t →
       matches (bimap.get_key T mm) (intrusive_set.compare (bimap.set T b)) k x = false) →
    intrusive_set.find (bimap.get_key T mm) (bimap.set T b) (bimap.nodes T mm) k
    = Some (Some (bimap.sentinel b)).
  Proof.
    intros Hinv Habs. rewrite (find_side T mm b t k Hinv). f_equal.
    apply first_where_end; [apply Hinv|done].
  Qed.

  (** In a tree no two keys are equivalent. *)
Lemma side_matches_unique T mm b t pre a post k
      `{!StrictWeakOrder (intrusive_set.compare (bimap.set T b))} :
    side_inv T mm b t → elements t = pre ++ a :: post →
    matches (bimap.get_key T mm) (intrusive_set.compare (bimap.set T b)) k a = true →
    ∀ x, x ∈ pre ++ post →
      matches (bimap.get_key T mm) (intrusive_set.compare (bimap.set T b)) k x = false.
  Proof.
    intros [Hsen (_ & _ & _ & _ & Hkeyed & Hsort)] E Hm x Hx.
    rewrite E in Hkeyed, Hsort.
    assert (is_Some (bimap.get_key T mm a)) as [ka Hka].
    { unfold keyed in Hkeyed. rewrite Forall_forall in Hkeyed. apply Hkeyed.
      set_solver. }
    unfold matches in Hm. rewrite Hka in Hm. unfold equiv_under in Hm.
    apply andb_true_iff in Hm as [H1%negb_true_iff H2%negb_true_iff].
    apply elem_of_app in Hx as [Hx|Hx].
    - apply below_not_matches.
      by eapply (sorted_below_l _ (bimap.set T b) _ Hsen k pre a post ka).
    - apply above_not_matches.
      by eapply (sorted_above_r _ (bimap.set T b) k pre a post ka).
  Qed.

Lemma erase_side_absent T mm mm' b t pre a post k
      `{!StrictWeakOrder (intrusive_set.compare (bimap.set T b))} :
    side_inv T mm b t → elements t = pre ++ a :: post →
    bimap.records mm' = delete a (bimap.records mm) →
    matches (bimap.get_key T mm) (intrusive_set.compare (bimap.set T b)) k a = true →
    ∀ x, x ∈ pre ++ post →
      matches (bimap.get_key T mm') (intrusive_set.compare (bimap.set T b)) k x = false.
  Proof.
    intros Hinv E Hrec Hm x Hx.
    assert (x ≠ a) as Hne.
    { destruct Hinv as [_ (_ & _ & Hnd & _)]. rewrite E in Hnd.
      apply NoDup_app in Hnd as (_ & Hpre & Hnd).
      apply NoDup_cons in Hnd as [Hpost _].
      intros ->. apply elem_of_app in Hx as [Hx|Hx]; [|done].
      apply (Hpre a Hx). set_solver. }
    rewrite (matches_ext (bimap.get_key T mm)).
    - by eapply side_matches_unique.
    - apply get_key_ext. rewrite Hrec. by apply lookup_delete_ne.
  Qed.

Lemma matches_own_key T mm a rec
      (cmp : bimap.key T → bimap.key T → bool) `{!StrictWeakOrder cmp} :
    bimap.records mm !! a = Some rec →
    ∃ k, bimap.get_key T mm a = Some k ∧
         matches (bimap.get_key T mm) cmp k a = true.
  Proof.
    intros Hrec. unfold matches, bimap.get_key. rewrite Hrec. cbn.
    eexists. split; [done|]. apply equiv_under_refl, _.
  Qed.

End mutators.

Section erase.
  Context {left_t right_t : Type}.
  Abbreviation mem := (bimap.mem left_t right_t).
  Abbreviation bimap := (bimap.t left_t right_t).
  Implicit Types (mm : mem) (b : bimap) (tl tr : tree).

  Abbreviation gL mm := (bimap.get_key tag_for_left mm).
  Abbreviation gR mm := (bimap.get_key tag_for_right mm).
  Abbreviation cmpL b := (intrusive_set.compare (bimap.left_set b)).
  Abbreviation cmpR b := (intrusive_set.compare (bimap.right_set b)).

Lemma set_with_size T n b : bimap.set T (bimap.with_size n b) = bimap.set T b.
  Proof. by destruct T. Qed.

Lemma get_key_left mm a rec :
    bimap.records mm !! a = Some rec → gL mm a = Some (bimap.left_key rec).
  Proof. intros H. unfold bimap.get_key. cbn in *. by rewrite H. Qed.

Lemma get_key_right mm a rec :
    bimap.records mm !! a = Some rec → gR mm a = Some (bimap.right_key rec).
  Proof. intros H. unfold bimap.get_key. cbn in *. by rewrite H. Qed.

  (** After the record at [a] went, no key of the tree is equivalent to one
      of its keys: [find] gives [end]. *)
Lemma erase_side_find T mm mm' b n t pre a post k
      `{!StrictWeakOrder (intrusive_set.compare (bimap.set T b))} :
    side_inv T mm b t → elements t = pre ++ a :: post →
    side_inv T mm' (bimap.with_size n b) (tdelete a t) →
    elements (tdelete a t) = pre ++ post →
    bimap.records mm' = delete a (bimap.records mm) →
    bimap.get_key T mm a = Some k →
    intrusive_set.find (bimap.get_key T mm') (bimap.set T (bimap.with_size n b))
      (bimap.nodes T mm') k
    = Some (Some (bimap.sentinel b)).
  Proof.
    intros Hinv E Hinv' E' Hrec Hk.
    assert (StrictWeakOrder
              (intrusive_set.compare (bimap.set T (bimap.with_size n b)))) as Hswo.
    { by rewrite set_with_size. }
    apply (find_side_end T mm' (bimap.with_size n b) (tdelete a t) k Hinv').
    intros x Hx. rewrite E' in Hx. rewrite set_with_size.
    eapply (erase_side_absent T mm mm' b t pre a post k); try done.
    unfold matches. rewrite Hk. apply equiv_under_refl, _.
  Qed.

  (** What [erase_left] and [erase_right] do, for either side [T]. *)
Lemma erase_side_removes T mm b t t' pre a post
      `{!StrictWeakOrder (intrusive_set.compare (bimap.set T b))}
      `{!StrictWeakOrder (intrusive_set.compare (bimap.set (bimap.flip_struct T) b))} :
    side_inv T mm b t → side_inv (bimap.flip_struct T) mm b t' →
    elements t ≡ₚ elements t' →
    elements t = pre ++ a :: post →
    let b' := bimap.with_size (size_t_pred (bimap.m_size b)) b in
    ∃ rec mm' pre' post',
      bimap.records mm !! a = Some rec ∧
      erase_side T b (bimap.mk_iterator (Some a)) mm
      = Some ((bimap.mk_iterator (cursor_at (Some (bimap.sentinel b)) post), b'), mm') ∧
      elements t' = pre' ++ a :: post' ∧
      side_inv T mm' b' (tdelete a t) ∧
      side_inv (bimap.flip_struct T) mm' b' (tdelete a t') ∧
      elements (tdelete a t) = pre ++ post ∧
      elements (tdelete a t') = pre' ++ post' ∧
      bimap.records mm' = delete a (bimap.records mm) ∧
      bimap.nodes T mm' !! a = None ∧
      bimap.nodes (bimap.flip_struct T) mm' !! a = None ∧
      (∀ k, bimap.get_key T mm a = Some k →
            intrusive_set.find (bimap.get_key T mm') (bimap.set T b')
              (bimap.nodes T mm') k
            = Some (Some (bimap.sentinel b))) ∧
      (∀ k, bimap.get_key (bimap.flip_struct T) mm a = Some k →
            intrusive_set.find (bimap.get_key (bimap.flip_struct T) mm')
              (bimap.set (bimap.flip_struct T) b')
              (bimap.nodes (bimap.flip_struct T) mm') k
            = Some (Some (bimap.sentinel b))).
  Proof.
    intros HT HF Hperm E b'.
    destruct (erase_side_spec T mm b t t' pre a post HT HF Hperm E)
      as (mm' & pre' & post' & Herase & E' & HT' & HF' & El & El' & Hrec
          & Ha & Ha' & _).
    destruct (side_inv_keyed T mm b t a HT) as [rec Hreca]; [rewrite E; set_solver|].
    exists rec, mm', pre', post'.
    repeat (split; [done|]). split.
    - intros k Hk. by eapply (erase_side_find T mm mm' b _ t pre a post k).
    - intros k Hk.
      by eapply (erase_side_find (bimap.flip_struct T) mm mm' b _ t' pre' a post' k).
  Qed.

  (** C2.  For a cursor [c] of the left traversal, [erase_left(c)] returns
      the cursor that follows [c] in the left traversal ([end_left()] after
      the last), takes [c] out of both traversals and keeps the other
      cursors in their order, releases the record (its address holds no
      record and no node afterwards), decrements [m_size] by one, and
      afterwards [find_right] of the right key of the pair and [find_left]
      of its left key give the end cursors.  [erase_right] does the same
      from a cursor of the right traversal. *)
Theorem erase_removes_from_both_sides mm b cs cs' :
    inv mm b →
    traversal.left_cursors b mm = Some cs →
    traversal.right_cursors b mm = Some cs' →
    (∀ pre c post, cs = pre ++ c :: post →
       ∃ a rec mm' pre' post',
         let b' := bimap.with_size (size_t_pred (bimap.m_size b)) b in
         c = Some a ∧ bimap.records mm !! a = Some rec ∧
         bimap.erase_left b (bimap.mk_iterator c) mm
         = Some ((bimap.mk_iterator (default (bimap.it (bimap.end_left b)) (head post)),
                  b'), mm') ∧
         cs' = pre' ++ c :: post' ∧
         traversal.left_cursors b' mm' = Some (pre ++ post) ∧
         traversal.right_cursors b' mm' = Some (pre' ++ post') ∧
         bimap.find_right b' mm' (bimap.right_key rec) = Some (bimap.end_right b') ∧
         bimap.find_left b' mm' (bimap.left_key rec) = Some (bimap.end_left b') ∧
         bimap.size b' = (bimap.size b - 1)%Z ∧
         bimap.records mm' = delete a (bimap.records mm) ∧
         bimap.lnodes mm' !! a = None ∧ bimap.rnodes mm' !! a = None ∧
         inv mm' b') ∧
    (∀ pre' c post', cs' = pre' ++ c :: post' →
       ∃ a rec mm' pre post,
         let b' := bimap.with_size (size_t_pred (bimap.m_size b)) b in
         c = Some a ∧ bimap.records mm !! a = Some rec ∧
         bimap.erase_right b (bimap.mk_iterator c) mm
         = Some ((bimap.mk_iterator (default (bimap.it (bimap.end_right b)) (head post')),
                  b'), mm') ∧
         cs = pre ++ c :: post ∧
         traversal.left_cursors b' mm' = Some (pre ++ post) ∧
         traversal.right_cursors b' mm' = Some (pre' ++ post') ∧
         bimap.find_left b' mm' (bimap.left_key rec) = Some (bimap.end_left b') ∧
         bimap.find_right b' mm' (bimap.right_key rec) = Some (bimap.end_right b') ∧
         bimap.size b' = (bimap.size b - 1)%Z ∧
         bimap.records mm' = delete a (bimap.records mm) ∧
         bimap.lnodes mm' !! a = None ∧ bimap.rnodes mm' !! a = None ∧
         inv mm' b').
  Proof.
    intros (HswoL & HswoR & tl & tr & Hinv) Hcs Hcs'.
    pose proof (inv_with_left _ _ _ _ Hinv) as HL.
    pose proof (inv_with_right _ _ _ _ Hinv) as HR.
    pose proof (proj1 (inv_with_sides _ _ _ _) Hinv) as (_ & _ & Hperm & Hsize & Hbound).
    rewrite (left_cursors_spec mm b tl HL) in Hcs. injection Hcs as <-.
    rewrite (right_cursors_spec mm b tr HR) in Hcs'. injection Hcs' as <-.
    split.
    - intros pre c post (pre0 & a & post0 & E & -> & -> & ->)%fmap_split_inv.
      destruct (erase_side_removes tag_for_left mm b tl tr pre0 a post0 HL HR Hperm E)
        as (rec & mm' & pre' & post' & Hrec & Herase & E' & HL' & HR' & El & El'
            & Hrec' & Ha & Ha' & HfL & HfR).
      exists a, rec, mm', (Some <$> pre'), (Some <$> post'). cbn zeta.
      split; [done|]. split; [done|].
      rewrite (end_left_spec _ _ _ _ Hinv). cbn [bimap.it].
      rewrite <-cursor_at_head. split; [exact Herase|].
      split. { by rewrite E', fmap_app. }
      split. { by rewrite (left_cursors_spec _ _ _ HL'), El, fmap_app. }
      split. { by rewrite (right_cursors_spec _ _ _ HR'), El', fmap_app. }
      assert (a ∈ elements tl) as Hin by (rewrite E; set_solver).
      destruct (erase_left_inv_with mm b tl tr a _ _ _ Hinv Hin Herase)
        as (EcL & EcR & Hinv').
      rewrite (end_left_spec _ _ _ _ Hinv'), (end_right_spec _ _ _ _ Hinv').
      split.
      { exact (f_equal (fmap (bimap.mk_iterator (T:=tag_for_right)))
                 (HfR (bimap.right_key rec) (get_key_right mm a rec Hrec))). }
      split.
      { exact (f_equal (fmap (bimap.mk_iterator (T:=tag_for_left)))
                 (HfL (bimap.left_key rec) (get_key_left mm a rec Hrec))). }
      split.
      { unfold bimap.size. cbn [bimap.m_size bimap.with_size].
        apply size_t_pred_pos. rewrite E, length_app in Hsize.
        cbn [length] in Hsize. lia. }
      split; [done|]. split; [exact Ha|]. split; [exact Ha'|].
      unfold inv. rewrite EcL, EcR. eauto.
    - intros pre' c post' (pre0 & a & post0 & E & -> & -> & ->)%fmap_split_inv.
      destruct (erase_side_removes tag_for_right mm b tr tl pre0 a post0 HR HL
                  (symmetry Hperm) E)
        as (rec & mm' & pre & post & Hrec & Herase & E' & HR' & HL' & Er & El
            & Hrec' & Ha & Ha' & HfR & HfL).
      exists a, rec, mm', (Some <$> pre), (Some <$> post). cbn zeta.
      split; [done|]. split; [done|].
      rewrite (end_right_spec _ _ _ _ Hinv). cbn [bimap.it].
      rewrite <-cursor_at_head. split; [exact Herase|].
      split. { by rewrite E', fmap_app. }
      split. { by rewrite (left_cursors_spec _ _ _ HL'), El, fmap_app. }
      split. { by rewrite (right_cursors_spec _ _ _ HR'), Er, fmap_app. }
      assert (a ∈ elements tr) as Hin by (rewrite E; set_solver).
      destruct (erase_right_inv_with mm b tl tr a _ _ _ Hinv Hin Herase)
        as (EcL & EcR & Hinv').
      rewrite (end_left_spec _ _ _ _ Hinv'), (end_right_spec _ _ _ _ Hinv').
      split.
      { exact (f_equal (fmap (bimap.mk_iterator (T:=tag_for_left)))
                 (HfL (bimap.left_key rec) (get_key_left mm a rec Hrec))). }
      split.
      { exact (f_equal (fmap (bimap.mk_iterator (T:=tag_for_right)))
                 (HfR (bimap.right_key rec) (get_key_right mm a rec Hrec))). }
      split.
      { unfold bimap.size. cbn [bimap.m_size bimap.with_size].
        apply size_t_pred_pos. rewrite Hperm, E, length_app in Hsize.
        cbn [length] in Hsize. lia. }
      split; [done|]. split; [exact Ha'|]. split; [exact Ha|].
      unfold inv. rewrite EcL, EcR. eauto.
  Qed.

End erase.

(** ** A key that is in the container, and the state after a mutator *)

Lemma first_where_at (P : addr → bool) e pre a post :
  (∀ x, x ∈ pre → P x = false) → P a = true →
  first_where P e (pre ++ a :: post) = Some a.
Proof.
  intros Hpre Ha. unfold first_where. rewrite find_app_None by done.
  cbn. by rewrite Ha.
Qed.

Section own_keys.
  Context {left_t right_t : Type}.
  Abbreviation mem := (bimap.mem left_t right_t).
  Abbreviation bimap := (bimap.t left_t right_t).
  Implicit Types (mm : mem) (b : bimap) (tl tr : tree).

  Abbreviation gL mm := (bimap.get_key tag_for_left mm).
  Abbreviation gR mm := (bimap.get_key tag_for_right mm).
  Abbreviation cmpL b := (intrusive_set.compare (bimap.left_set b)).
  Abbreviation cmpR b := (intrusive_set.compare (bimap.right_set b)).

Lemma first_where_own T mm b t a k
      (Hswo : StrictWeakOrder (intrusive_set.compare (bimap.set T b))) :
    side_inv T mm b t → a ∈ elements t → bimap.get_key T mm a = Some k →
    first_where (matches (bimap.get_key T mm) (intrusive_set.compare (bimap.set T b)) k)
      (Some (bimap.sentinel b)) (elements t) = Some a.
  Proof.
    intros Hinv Ha Hk.
    assert (matches (bimap.get_key T mm)
              (intrusive_set.compare (bimap.set T b)) k a = true) as Hm.
    { unfold matches. rewrite Hk. apply equiv_under_refl, _. }
    apply list_elem_of_split in Ha as (pre & post & E). rewrite E.
    apply first_where_at; [|done]. intros x Hx.
    eapply (side_matches_unique T mm b t pre a post k); try done. set_solver.
  Qed.

Lemma find_left_own mm b tl a rec (HswoL : StrictWeakOrder (cmpL b)) :
    side_inv tag_for_left mm b tl → a ∈ elements tl →
    bimap.records mm !! a = Some rec →
    bimap.find_left b mm (bimap.left_key rec) = Some (bimap.mk_iterator (Some a)).
  Proof.
    intros HL Ha Hrec. rewrite (find_left_spec mm b tl _ HL). do 2 f_equal.
    exact (first_where_own tag_for_left mm b tl a _ HswoL HL Ha
             (get_key_left mm a rec Hrec)).
  Qed.

Lemma find_right_own mm b tr a rec (HswoR : StrictWeakOrder (cmpR b)) :
    side_inv tag_for_right mm b tr → a ∈ elements tr →
    bimap.records mm !! a = Some rec →
    bimap.find_right b mm (bimap.right_key rec) = Some (bimap.mk_iterator (Some a)).
  Proof.
    intros HR Ha Hrec. rewrite (find_right_spec mm b tr _ HR). do 2 f_equal.
    exact (first_where_own tag_for_right mm b tr a _ HswoR HR Ha
             (get_key_right mm a rec Hrec)).
  Qed.

Lemma at_left_own mm b tl tr a rec (HswoL : StrictWeakOrder (cmpL b)) :
    inv_with mm b tl tr → a ∈ elements tl →
    bimap.records mm !! a = Some rec →
    bimap.at_left b mm (bimap.left_key rec) = Some (returned (bimap.right_key rec)).
  Proof.
    intros Hinv Ha Hrec. pose proof (inv_with_left _ _ _ _ Hinv) as HL.
    unfold bimap.at_left.
    rewrite (find_left_own mm b tl a rec HswoL HL Ha Hrec). cbn.
    rewrite (end_left_spec _ _ _ _ Hinv).
    rewrite iterator_eq_false.
    2:{ cbn. intros [= ->]. by apply HL in Ha. }
    unfold bimap.deref. cbn. by rewrite (get_key_right mm a rec Hrec).
  Qed.

Lemma at_right_own mm b tl tr a rec (HswoR : StrictWeakOrder (cmpR b)) :
    inv_with mm b tl tr → a ∈ elements tr →
    bimap.records mm !! a = Some rec →
    bimap.at_right b mm (bimap.right_key rec) = Some (returned (bimap.left_key rec)).
  Proof.
    intros Hinv Ha Hrec. pose proof (inv_with_right _ _ _ _ Hinv) as HR.
    unfold bimap.at_right.
    rewrite (find_right_own mm b tr a rec HswoR HR Ha Hrec). cbn.
    rewrite (end_right_spec _ _ _ _ Hinv).
    rewrite iterator_eq_false.
    2:{ cbn. intros [= ->]. by apply HR in Ha. }
    unfold bimap.deref. cbn. by rewrite (get_key_left mm a rec Hrec).
  Qed.

  (** No key of the tree is equivalent to [k] once the record at [a] is
      added, when none was before and the key at [a] is not. *)
Lemma absent_after_insert T mm mm' b n t t' a rec k
      (Hswo : StrictWeakOrder (intrusive_set.compare (bimap.set T b))) :
    side_inv T mm b t → side_inv T mm' (bimap.with_size n b) t' →
    elements t' ≡ₚ a :: elements t →
    bimap.records mm !! a = None →
    bimap.records mm' = <[a := rec]> (bimap.records mm) →
    equiv_under (intrusive_set.compare (bimap.set T b)) k (bimap.getter T rec) = false →
    (∀ x, x ∈ elements t →
       matches (bimap.get_key T mm) (intrusive_set.compare (bimap.set T b)) k x = false) →
    intrusive_set.find (bimap.get_key T mm') (bimap.set T (bimap.with_size n b))
      (bimap.nodes T mm') k
    = Some (Some (bimap.sentinel b)).
  Proof.
    intros Hinv Hinv' Hperm Hnone Hrec Hk Habs.
    assert (StrictWeakOrder
              (intrusive_set.compare (bimap.set T (bimap.with_size n b)))) as Hswo'.
    { by rewrite set_with_size. }
    apply (find_side_end T mm' (bimap.with_size n b) t' k Hinv').
    intros x Hx. rewrite set_with_size. rewrite Hperm in Hx.
    apply elem_of_cons in Hx as [->|Hx].
    - unfold matches, bimap.get_key. rewrite Hrec, lookup_insert_eq. cbn. done.
    - rewrite (matches_ext (bimap.get_key T mm)); [by apply Habs|].
      apply get_key_ext. rewrite Hrec. apply lookup_insert_ne.
      intros ->. destruct (side_inv_keyed T mm b t x Hinv Hx) as [? ?]. congruence.
  Qed.

  (** [insert(l, r)] when neither key is in the container, and the lookups
      of the state it leaves. *)
Lemma insert_absent_after mm b tl tr (l : left_t) (r : right_t)
      (HswoL : StrictWeakOrder (cmpL b)) (HswoR : StrictWeakOrder (cmpR b)) :
    inv_with mm b tl tr → (bimap.m_size b + 1 < size_t_modulus)%Z →
    (∀ x, x ∈ elements tl → matches (gL mm) (cmpL b) l x = false) →
    (∀ x, x ∈ elements tr → matches (gR mm) (cmpR b) r x = false) →
    ∃ a mm' tl' tr',
      let b' := bimap.with_size (size_t_succ (bimap.m_size b)) b in
      let i : bimap.left_iterator := bimap.mk_iterator (Some a) in
      bimap.insert b l r mm = Some ((i, b'), mm') ∧
      inv_with mm' b' tl' tr' ∧
      bimap.m_size b' = (bimap.m_size b + 1)%Z ∧
      bimap.deref i mm' = Some l ∧
      bimap.deref (bimap.flip i) mm' = Some r ∧
      bimap.at_left b' mm' l = Some (returned r) ∧
      bimap.at_right b' mm' r = Some (returned l) ∧
      (∀ k, equiv_under (cmpL b) k l = false →
            (∀ x, x ∈ elements tl → matches (gL mm) (cmpL b) k x = false) →
            bimap.find_left b' mm' k = Some (bimap.end_left b')) ∧
      (∀ k, equiv_under (cmpR b) k r = false →
            (∀ x, x ∈ elements tr → matches (gR mm) (cmpR b) k x = false) →
            bimap.find_right b' mm' k = Some (bimap.end_right b')).
  Proof.
    intros Hinv Hbound HabsL HabsR.
    pose proof (inv_with_left _ _ _ _ Hinv) as HL.
    pose proof (inv_with_right _ _ _ _ Hinv) as HR.
    destruct (insert_absent mm b tl tr l r Hinv HabsL HabsR)
      as (mm' & Hins & Hrec & HL' & HR' & _).
    set (a := fresh (dom (bimap.lnodes mm) ∪ dom (bimap.rnodes mm)
                     ∪ dom (bimap.records mm))) in *.
    set (b' := bimap.with_size (size_t_succ (bimap.m_size b)) b) in *.
    set (tl' := tins (lt_at (gL mm') (cmpL b)) a tl) in *.
    set (tr' := tins (lt_at (gR mm') (cmpR b)) a tr) in *.
    assert (bimap.records mm !! a = None) as Hnone.
    { apply not_elem_of_dom. pose proof (is_fresh (dom (bimap.lnodes mm)
        ∪ dom (bimap.rnodes mm) ∪ dom (bimap.records mm))) as Hf.
      fold a in Hf. set_solver. }
    assert (bimap.records mm' !! a = Some (bimap.mk_storage_node l r)) as Hreca.
    { by rewrite Hrec, lookup_insert_eq. }
    pose proof (proj1 (inv_with_sides _ _ _ _) Hinv) as (_ & _ & Hperm & Hsize & _).
    assert (bimap.m_size b' = (bimap.m_size b + 1)%Z) as Hsize'.
    { subst b'. cbn [bimap.m_size bimap.with_size]. apply size_t_succ_small; lia. }
    assert (inv_with mm' b' tl' tr') as Hinv'.
    { apply inv_with_sides. split; [exact HL'|]. split; [exact HR'|].
      split; [subst tl' tr'; by rewrite !tins_perm, Hperm|].
      rewrite Hsize'. subst tl'. rewrite tins_perm. cbn [length]. split; lia. }
    exists a, mm', tl', tr'. cbn zeta. fold b'.
    split; [exact Hins|]. split; [exact Hinv'|]. split; [exact Hsize'|].
    split. { exact (get_key_left mm' a _ Hreca). }
    split. { exact (get_key_right mm' a _ Hreca). }
    split.
    { apply (at_left_own mm' b' tl' tr' a (bimap.mk_storage_node l r) HswoL Hinv');
        [|exact Hreca].
      subst tl'. rewrite tins_perm. set_solver. }
    split.
    { apply (at_right_own mm' b' tl' tr' a (bimap.mk_storage_node l r) HswoR Hinv');
        [|exact Hreca].
      subst tr'. rewrite tins_perm. set_solver. }
    rewrite (end_left_spec _ _ _ _ Hinv'), (end_right_spec _ _ _ _ Hinv').
    split.
    - intros k Hk Habs.
      exact (f_equal (fmap (bimap.mk_iterator (T:=tag_for_left)))
               (absent_after_insert tag_for_left mm mm' b _ tl tl' a _ k HswoL
                  HL HL' (tins_perm _ _ _) Hnone Hrec Hk Habs)).
    - intros k Hk Habs.
      exact (f_equal (fmap (bimap.mk_iterator (T:=tag_for_right)))
               (absent_after_insert tag_for_right mm mm' b _ tr tr' a _ k HswoR
                  HR HR' (tins_perm _ _ _) Hnone Hrec Hk Habs)).
  Qed.

  (** [erase_left] or [erase_right] on the record at [a], and the keys that
      stay, for either side [T]. *)
Lemma erase_side_after T mm b t t' a
      (Hswo : StrictWeakOrder (intrusive_set.compare (bimap.set T b)))
      (Hswo' : StrictWeakOrder
                 (intrusive_set.compare (bimap.set (bimap.flip_struct T) b))) :
    side_inv T mm b t → side_inv (bimap.flip_struct T) mm b t' →
    elements t ≡ₚ elements t' → a ∈ elements t →
    ∃ i mm',
      erase_side T b (bimap.mk_iterator (Some a)) mm
      = Some ((i, bimap.with_size (size_t_pred (bimap.m_size b)) b), mm') ∧
      (∀ x, x ∈ elements (tdelete a t) →
         x ∈ elements t ∧
         ∀ k, matches (bimap.get_key T mm')
                (intrusive_set.compare (bimap.set T b)) k x
              = matches (bimap.get_key T mm)
                  (intrusive_set.compare (bimap.set T b)) k x) ∧
      (∀ x, x ∈ elements (tdelete a t') →
         x ∈ elements t' ∧
         ∀ k, matches (bimap.get_key (bimap.flip_struct T) mm')
                (intrusive_set.compare (bimap.set (bimap.flip_struct T) b)) k x
              = matches (bimap.get_key (bimap.flip_struct T) mm)
                  (intrusive_set.compare (bimap.set (bimap.flip_struct T) b)) k x) ∧
      (∀ k, matches (bimap.get_key T mm)
              (intrusive_set.compare (bimap.set T b)) k a = true →
            ∀ x, x ∈ elements (tdelete a t) →
              matches (bimap.get_key T mm')
                (intrusive_set.compare (bimap.set T b)) k x = false) ∧
      (∀ k, matches (bimap.get_key (bimap.flip_struct T) mm)
              (intrusive_set.compare (bimap.set (bimap.flip_struct T) b)) k a = true →
            ∀ x, x ∈ elements (tdelete a t') →
              matches (bimap.get_key (bimap.flip_struct T) mm')
                (intrusive_set.compare (bimap.set (bimap.flip_struct T) b)) k x = false).
  Proof.
    intros HT HF Hperm Ha.
    apply list_elem_of_split in Ha as (pre & post & E).
    destruct (erase_side_spec T mm b t t' pre a post HT HF Hperm E)
      as (mm' & pre' & post' & Herase & E' & HT' & HF' & El & El' & Hrec & _).
    eexists _, mm'. split; [exact Herase|].
    assert (∀ (T0 : tag) (t0 : tree) p q, side_inv T0 mm b t0 →
              elements t0 = p ++ a :: q → elements (tdelete a t0) = p ++ q →
              ∀ x, x ∈ elements (tdelete a t0) →
                x ∈ elements t0 ∧
                ∀ k, matches (bimap.get_key T0 mm')
                       (intrusive_set.compare (bimap.set T0 b)) k x
                     = matches (bimap.get_key T0 mm)
                         (intrusive_set.compare (bimap.set T0 b)) k x) as Hkeep.
    { intros T0 t0 p q Hinv0 E0 El0 x Hx. rewrite El0 in Hx.
      assert (x ≠ a) as Hne.
      { destruct Hinv0 as [_ (_ & _ & Hnd & _)]. rewrite E0 in Hnd.
        apply NoDup_app in Hnd as (_ & Hpre & Hnd).
        apply NoDup_cons in Hnd as [Hpost _].
        intros ->. apply elem_of_app in Hx as [Hx|Hx]; [|done].
        apply (Hpre a Hx). set_solver. }
      split; [rewrite E0; set_solver|]. intros k. apply matches_ext.
      apply get_key_ext. rewrite Hrec. by apply lookup_delete_ne. }
    split; [by eapply Hkeep|]. split; [by eapply Hkeep|]. split.
    - intros k Hk x Hx. rewrite El in Hx.
      by eapply (erase_side_absent T mm mm' b t pre a post k).
    - intros k Hk x Hx. rewrite El' in Hx.
      by eapply (erase_side_absent (bimap.flip_struct T) mm mm' b t' pre' a post' k).
  Qed.

End own_keys.

(** ** [at_left_or_default] and [at_right_or_default] *)

Section defaults.
  Context {left_t right_t : Type}.
  Abbreviation mem := (bimap.mem left_t right_t).
  Abbreviation bimap := (bimap.t left_t right_t).
  Implicit Types (mm : mem) (b : bimap) (tl tr : tree).

  Abbreviation gL mm := (bimap.get_key tag_for_left mm).
  Abbreviation gR mm := (bimap.get_key tag_for_right mm).
  Abbreviation cmpL b := (intrusive_set.compare (bimap.left_set b)).
  Abbreviation cmpR b := (intrusive_set.compare (bimap.right_set b)).

Lemma bind_None {St A B} (c : cmd St A) (k : A → cmd St B) m :
    c m = None → bind c k m = None.
  Proof. unfold bind. by intros ->. Qed.

Lemma query_None {St A} (f : St → option A) m : f m = None → query f m = None.
  Proof. unfold query. by intros ->. Qed.

  (** A reference that is not to a member of the record at [a'] reads the
      same once that record is deleted; one that is reads nothing. *)
Lemma read_ref_kept {K} (key : bimap.key_ref left_t right_t K) mm mm1 (a' : addr) k :
    bimap.records mm1 = delete a' (bimap.records mm) →
    bimap.read_ref key mm = Some k → refers_to key (Some a') = false →
    bimap.read_ref key mm1 = Some k.
  Proof.
    intros Hrec Hk Hno. destruct key as [k0|a member]; [done|].
    cbn in *. apply bool_decide_eq_false in Hno.
    rewrite Hrec, lookup_delete_ne; [done|]. congruence.
  Qed.

Lemma read_ref_lost {K} (key : bimap.key_ref left_t right_t K) mm mm1 (a' : addr) :
    bimap.records mm1 = delete a' (bimap.records mm) →
    refers_to key (Some a') = true →
    bimap.read_ref key mm1 = None.
  Proof.
    intros Hrec Hyes. destruct key as [k0|a member]; [done|].
    cbn in *. apply bool_decide_eq_true in Hyes. injection Hyes as <-.
    by rewrite Hrec, lookup_delete_eq.
  Qed.

Lemma erase_side_records T mm b t t' (a : addr) i b1 mm1 :
    side_inv T mm b t → side_inv (bimap.flip_struct T) mm b t' →
    elements t ≡ₚ elements t' → a ∈ elements t →
    erase_side T b (bimap.mk_iterator (Some a)) mm = Some ((i, b1), mm1) →
    bimap.records mm1 = delete a (bimap.records mm).
  Proof.
    intros HT HF Hperm Ha Herase.
    apply list_elem_of_split in Ha as (p & q & E).
    destruct (erase_side_spec T mm b t t' p a q HT HF Hperm E)
      as (mm1' & p' & q' & Herase' & _ & _ & _ & _ & _ & Hr & _).
    assert (mm1 = mm1') as -> by congruence. done.
  Qed.

Lemma at_left_or_default_spec mm b tl tr (d : right_t)
      (key : bimap.key_ref left_t right_t left_t) (k : left_t)
      (HswoL : StrictWeakOrder (cmpL b)) (HswoR : StrictWeakOrder (cmpR b)) :
    inv_with mm b tl tr → (bimap.m_size b + 1 < size_t_modulus)%Z →
    bimap.read_ref key mm = Some k →
    match List.find (matches (gL mm) (cmpL b) k) (elements tl) with
    | Some a =>
        ∃ rec, bimap.records mm !! a = Some rec ∧
               bimap.at_left_or_default d b key mm
               = Some ((bimap.right_key rec, b), mm)
    | None =>
        match List.find (matches (gR mm) (cmpR b) d) (elements tr) with
        | Some a' =>
            if refers_to key (Some a')
            then bimap.at_left_or_default d b key mm = None
            else
              ∃ b' mm' tl' tr',
                bimap.at_left_or_default d b key mm = Some ((d, b'), mm') ∧
                inv_with mm' b' tl' tr' ∧ cmpL b' = cmpL b ∧ cmpR b' = cmpR b ∧
                bimap.at_left b' mm' k = Some (returned d) ∧
                ∃ rec', bimap.records mm !! a' = Some rec' ∧
                        bimap.find_left b' mm' (bimap.left_key rec')
                        = Some (bimap.end_left b') ∧
                        bimap.m_size b' = bimap.m_size b
        | None =>
            ∃ b' mm' tl' tr',
              bimap.at_left_or_default d b key mm = Some ((d, b'), mm') ∧
              inv_with mm' b' tl' tr' ∧ cmpL b' = cmpL b ∧ cmpR b' = cmpR b ∧
              bimap.at_left b' mm' k = Some (returned d) ∧
              bimap.m_size b' = (bimap.m_size b + 1)%Z
        end
    end.
  Proof.
    intros Hinv Hbound Hkey.
    pose proof (inv_with_left _ _ _ _ Hinv) as HL.
    pose proof (inv_with_right _ _ _ _ Hinv) as HR.
    pose proof (proj1 (inv_with_sides _ _ _ _) Hinv) as (_ & _ & Hperm & Hsize & Hlt).
    unfold bimap.at_left_or_default.
    exec_with ltac:(apply query_Some; exact Hkey).
    exec_with ltac:(apply query_Some; by apply find_left_spec).
    rewrite (end_left_spec _ _ _ _ Hinv). unfold first_where.
    destruct (List.find (matches (gL mm) (cmpL b) k) (elements tl)) as [a|] eqn:Ef.
    { apply find_elem_of in Ef as [Ha Hm]. cbn [from_option].
      rewrite iterator_ne_true.
      2:{ cbn. intros [= ->]. by apply HL in Ha. }
      destruct (side_inv_keyed _ _ _ _ a HL Ha) as [rec Hrec]. exists rec.
      split; [done|].
      exec_with ltac:(apply query_Some; exact (get_key_right mm a rec Hrec)).
      done. }
    pose proof (proj1 (find_None_iff _ _) Ef) as HabsL.
    cbn [from_option]. rewrite iterator_ne_false by done.
    exec_with ltac:(apply query_Some; by apply find_right_spec).
    rewrite (end_right_spec _ _ _ _ Hinv). unfold first_where.
    destruct (List.find (matches (gR mm) (cmpR b) d) (elements tr)) as [a'|] eqn:Ef'.
    - apply find_elem_of in Ef' as [Ha' Hm']. cbn [from_option].
      rewrite iterator_ne_true.
      2:{ cbn. intros [= ->]. by apply HR in Ha'. }
      destruct (erase_side_after tag_for_right mm b tr tl a' HswoR HswoL HR HL
                  (symmetry Hperm) Ha')
        as (i & mm1 & Herase & HkeepR & HkeepL & HabsR1 & HabsL1).
      set (b1 := bimap.with_size (size_t_pred (bimap.m_size b)) b) in *.
      pose proof (erase_side_records tag_for_right mm b tr tl a' i b1 mm1 HR HL
                    (symmetry Hperm) Ha' Herase) as Hrec1.
      destruct (refers_to key (Some a')) eqn:Hrefers.
      { rewrite !bind_assoc. erewrite bind_Some; [|exact Herase]. cbn [bind ret].
        apply bind_None, query_None. by eapply read_ref_lost. }
      pose proof (read_ref_kept key mm mm1 a' k Hrec1 Hkey Hrefers) as Hkey1.
      destruct (erase_right_inv_with mm b tl tr a' i b1 mm1 Hinv Ha' Herase)
        as (_ & _ & Hinv1).
      assert (bimap.m_size b1 = (bimap.m_size b - 1)%Z) as Hsize1.
      { subst b1. cbn [bimap.m_size bimap.with_size]. apply size_t_pred_pos.
        apply list_elem_of_split in Ha' as (p & q & E).
        rewrite Hperm, E, length_app in Hsize. cbn [length] in Hsize. lia. }
      destruct (insert_absent_after mm1 b1 (tdelete a' tl) (tdelete a' tr) k d
                  HswoL HswoR Hinv1)
        as (a2 & mm2 & tl2 & tr2 & Hins & Hinv2 & Hsize2 & Hd1 & Hd2 & Hat & _
            & Hfl & _).
      { lia. }
      { intros x Hx. destruct (HkeepL x Hx) as [Hin Hsame].
        exact (eq_trans (Hsame k) (HabsL x Hin)). }
      { exact (HabsR1 d Hm'). }
      rewrite !bind_assoc. erewrite bind_Some; [|exact Herase]. cbn [bind ret].
      exec_with ltac:(apply query_Some; exact Hkey1).
      exec_with ltac:(exact Hins). cbv beta iota.
      exec_with ltac:(apply query_Some; exact Hd2).
      eexists _, mm2, tl2, tr2. split; [done|]. split; [exact Hinv2|].
      split; [done|]. split; [done|]. split; [exact Hat|].
      destruct (side_inv_keyed _ _ _ _ a' HR Ha') as [rec' Hrec']. exists rec'.
      split; [done|]. split; [|cbn zeta in Hsize2; lia].
      apply Hfl.
      + assert (a' ∈ elements tl) as Hin by (by rewrite Hperm).
        pose proof (HabsL a' Hin) as Hno. unfold matches in Hno.
        rewrite (get_key_left mm a' rec' Hrec') in Hno.
        by rewrite equiv_under_sym.
      + apply (HabsL1 (bimap.left_key rec')).
        unfold matches. cbn [bimap.flip_struct bimap.set bimap.key].
        rewrite (get_key_left mm a' rec' Hrec').
        apply equiv_under_refl, _.
    - pose proof (proj1 (find_None_iff _ _) Ef') as HabsR.
      cbn [from_option]. rewrite iterator_ne_false by done. cbn [bind ret].
      destruct (insert_absent_after mm b tl tr k d HswoL HswoR Hinv Hbound HabsL HabsR)
        as (a2 & mm2 & tl2 & tr2 & Hins & Hinv2 & Hsize2 & Hd1 & Hd2 & Hat & _).
      exec_with ltac:(apply query_Some; exact Hkey).
      exec_with ltac:(exact Hins). cbv beta iota.
      exec_with ltac:(apply query_Some; exact Hd2).
      eexists _, mm2, tl2, tr2. split; [done|]. split; [exact Hinv2|].
      split; [done|]. split; [done|]. split; [exact Hat|]. exact Hsize2.
  Qed.

Lemma at_right_or_default_spec mm b tl tr (d : left_t)
      (key : bimap.key_ref left_t right_t right_t) (k : right_t)
      (HswoL : StrictWeakOrder (cmpL b)) (HswoR : StrictWeakOrder (cmpR b)) :
    inv_with mm b tl tr → (bimap.m_size b + 1 < size_t_modulus)%Z →
    bimap.read_ref key mm = Some k →
    match List.find (matches (gR mm) (cmpR b) k) (elements tr) with
    | Some a =>
        ∃ rec, bimap.records mm !! a = Some rec ∧
               bimap.at_right_or_default d b key mm
               = Some ((bimap.left_key rec, b), mm)
    | None =>
        match List.find (matches (gL mm) (cmpL b) d) (elements tl) with
        | Some a' =>
            if refers_to key (Some a')
            then bimap.at_right_or_default d b key mm = None
            else
              ∃ b' mm' tl' tr',
                bimap.at_right_or_default d b key mm = Some ((d, b'), mm') ∧
                inv_with mm' b' tl' tr' ∧ cmpL b' = cmpL b ∧ cmpR b' = cmpR b ∧
                bimap.at_right b' mm' k = Some (returned d) ∧
                ∃ rec', bimap.records mm !! a' = Some rec' ∧
                        bimap.find_right b' mm' (bimap.right_key rec')
                        = Some (bimap.end_right b') ∧
                        bimap.m_size b' = bimap.m_size b
        | None =>
            ∃ b' mm' tl' tr',
              bimap.at_right_or_default d b key mm = Some ((d, b'), mm') ∧
              inv_with mm' b' tl' tr' ∧ cmpL b' = cmpL b ∧ cmpR b' = cmpR b ∧
              bimap.at_right b' mm' k = Some (returned d) ∧
              bimap.m_size b' = (bimap.m_size b + 1)%Z
        end
    end.
  Proof.
    intros Hinv Hbound Hkey.
    pose proof (inv_with_left _ _ _ _ Hinv) as HL.
    pose proof (inv_with_right _ _ _ _ Hinv) as HR.
    pose proof (proj1 (inv_with_sides _ _ _ _) Hinv) as (_ & _ & Hperm & Hsize & Hlt).
    unfold bimap.at_right_or_default.
    exec_with ltac:(apply query_Some; exact Hkey).
    exec_with ltac:(apply query_Some; by apply find_right_spec).
    rewrite (end_right_spec _ _ _ _ Hinv). unfold first_where.
    destruct (List.find (matches (gR mm) (cmpR b) k) (elements tr)) as [a|] eqn:Ef.
    { apply find_elem_of in Ef as [Ha Hm]. cbn [from_option].
      rewrite iterator_ne_true.
      2:{ cbn. intros [= ->]. by apply HR in Ha. }
      destruct (side_inv_keyed _ _ _ _ a HR Ha) as [rec Hrec]. exists rec.
      split; [done|].
      exec_with ltac:(apply query_Some; exact (get_key_left mm a rec Hrec)).
      done. }
    pose proof (proj1 (find_None_iff _ _) Ef) as HabsR.
    cbn [from_option]. rewrite iterator_ne_false by done.
    exec_with ltac:(apply query_Some; by apply find_left_spec).
    rewrite (end_left_spec _ _ _ _ Hinv). unfold first_where.
    destruct (List.find (matches (gL mm) (cmpL b) d) (elements tl)) as [a'|] eqn:Ef'.
    - apply find_elem_of in Ef' as [Ha' Hm']. cbn [from_option].
      rewrite iterator_ne_true.
      2:{ cbn. intros [= ->]. by apply HL in Ha'. }
      destruct (erase_side_after tag_for_left mm b tl tr a' HswoL HswoR HL HR
                  Hperm Ha')
        as (i & mm1 & Herase & HkeepL & HkeepR & HabsL1 & HabsR1).
      set (b1 := bimap.with_size (size_t_pred (bimap.m_size b)) b) in *.
      pose proof (erase_side_records tag_for_left mm b tl tr a' i b1 mm1 HL HR
                    Hperm Ha' Herase) as Hrec1.
      destruct (refers_to key (Some a')) eqn:Hrefers.
      { rewrite !bind_assoc. erewrite bind_Some; [|exact Herase]. cbn [bind ret].
        apply bind_None, query_None. by eapply read_ref_lost. }
      pose proof (read_ref_kept key mm mm1 a' k Hrec1 Hkey Hrefers) as Hkey1.
      destruct (erase_left_inv_with mm b tl tr a' i b1 mm1 Hinv Ha' Herase)
        as (_ & _ & Hinv1).
      assert (bimap.m_size b1 = (bimap.m_size b - 1)%Z) as Hsize1.
      { subst b1. cbn [bimap.m_size bimap.with_size]. apply size_t_pred_pos.
        apply list_elem_of_split in Ha' as (p & q & E).
        rewrite E, length_app in Hsize. cbn [length] in Hsize. lia. }
      destruct (insert_absent_after mm1 b1 (tdelete a' tl) (tdelete a' tr) d k
                  HswoL HswoR Hinv1)
        as (a2 & mm2 & tl2 & tr2 & Hins & Hinv2 & Hsize2 & Hd1 & Hd2 & _ & Hat
            & _ & Hfr).
      { lia. }
      { exact (HabsL1 d Hm'). }
      { intros x Hx. destruct (HkeepR x Hx) as [Hin Hsame].
        exact (eq_trans (Hsame k) (HabsR x Hin)). }
      rewrite !bind_assoc. erewrite bind_Some; [|exact Herase]. cbn [bind ret].
      exec_with ltac:(apply query_Some; exact Hkey1).
      exec_with ltac:(exact Hins). cbv beta iota.
      exec_with ltac:(apply query_Some; exact Hd1).
      eexists _, mm2, tl2, tr2. split; [done|]. split; [exact Hinv2|].
      split; [done|]. split; [done|]. split; [exact Hat|].
      destruct (side_inv_keyed _ _ _ _ a' HL Ha') as [rec' Hrec']. exists rec'.
      split; [done|]. split; [|cbn zeta in Hsize2; lia].
      apply Hfr.
      + assert (a' ∈ elements tr) as Hin by (by rewrite <-Hperm).
        pose proof (HabsR a' Hin) as Hno. unfold matches in Hno.
        rewrite (get_key_right mm a' rec' Hrec') in Hno.
        by rewrite equiv_under_sym.
      + apply (HabsR1 (bimap.right_key rec')).
        unfold matches. cbn [bimap.flip_struct bimap.set bimap.key].
        rewrite (get_key_right mm a' rec' Hrec').
        apply equiv_under_refl, _.
    - pose proof (proj1 (find_None_iff _ _) Ef') as HabsL.
      cbn [from_option]. rewrite iterator_ne_false by done. cbn [bind ret].
      destruct (insert_absent_after mm b tl tr d k HswoL HswoR Hinv Hbound HabsL HabsR)
        as (a2 & mm2 & tl2 & tr2 & Hins & Hinv2 & Hsize2 & Hd1 & Hd2 & _ & Hat & _).
      exec_with ltac:(apply query_Some; exact Hkey).
      exec_with ltac:(exact Hins). cbv beta iota.
      exec_with ltac:(apply query_Some; exact Hd1).
      eexists _, mm2, tl2, tr2. split; [done|]. split; [exact Hinv2|].
      split; [done|]. split; [done|]. split; [exact Hat|]. exact Hsize2.
  Qed.

End defaults.

Section defaults_pairs.
  Context {left_t right_t : Type}.
  Abbreviation mem := (bimap.mem left_t right_t).
  Abbreviation bimap := (bimap.t left_t right_t).
  Implicit Types (mm : mem) (b : bimap) (tl tr : tree).

  Abbreviation gL mm := (bimap.get_key tag_for_left mm).
  Abbreviation gR mm := (bimap.get_key tag_for_right mm).
  Abbreviation cmpL b := (intrusive_set.compare (bimap.left_set b)).
  Abbreviation cmpR b := (intrusive_set.compare (bimap.right_set b)).

  (** A search among the records of a tree is a search among its pairs. *)
Lemma find_pairs mm (l : list addr) ps (P : addr → bool)
      (Q : left_t * right_t → bool) :
    mapM (pair_of mm) l = Some ps →
    (∀ a p, pair_of mm a = Some p → P a = Q p) →
    match List.find P l, List.find Q ps with
    | Some a, Some p => pair_of mm a = Some p
    | None, None => True
    | _, _ => False
    end.
  Proof.
    intros Hps HPQ. apply mapM_Some in Hps.
    destruct (find_Forall2 _ P Q _ _ Hps HPQ) as [[-> ->]|(a & p & -> & -> & Hap)];
      done.
  Qed.

Lemma find_pairs_left mm b (l : list addr) ps (k : left_t) :
    mapM (pair_of mm) l = Some ps →
    match List.find (matches (gL mm) (cmpL b) k) l,
          List.find (λ p, equiv_under (cmpL b) k p.1) ps with
    | Some a, Some p => pair_of mm a = Some p
    | None, None => True
    | _, _ => False
    end.
  Proof.
    intros Hps. apply (find_pairs mm l ps); [done|].
    intros a p [Hl _]%pair_of_Some. unfold matches.
    cbn [bimap.key] in *. by rewrite Hl.
  Qed.

Lemma find_pairs_right mm b (l : list addr) ps (k : right_t) :
    mapM (pair_of mm) l = Some ps →
    match List.find (matches (gR mm) (cmpR b) k) l,
          List.find (λ p, equiv_under (cmpR b) k p.2) ps with
    | Some a, Some p => pair_of mm a = Some p
    | None, None => True
    | _, _ => False
    end.
  Proof.
    intros Hps. apply (find_pairs mm l ps); [done|].
    intros a p [_ Hr]%pair_of_Some. unfold matches.
    cbn [bimap.key] in *. by rewrite Hr.
  Qed.

Lemma pair_of_record mm a rec p :
    bimap.records mm !! a = Some rec → pair_of mm a = Some p →
    p = (bimap.left_key rec, bimap.right_key rec).
  Proof. unfold pair_of. intros ->. cbn. by intros [= <-]. Qed.

Lemma find_right_cursor mm b tl tr (d : right_t)
      (HswoR : StrictWeakOrder (cmpR b)) :
    inv_with mm b tl tr →
    ∃ j, bimap.find_right b mm d = Some j ∧
      match List.find (matches (gR mm) (cmpR b) d) (elements tr) with
      | Some a' => j = bimap.mk_iterator (Some a') ∧
                   bimap.iterator_ne j (bimap.end_right b) = true
      | None => bimap.iterator_ne j (bimap.end_right b) = false
      end.
  Proof.
    intros Hinv. pose proof (inv_with_right _ _ _ _ Hinv) as HR.
    eexists. split; [by apply (find_right_spec mm b tr d HR)|].
    rewrite (end_right_spec _ _ _ _ Hinv). unfold first_where.
    destruct (List.find _ (elements tr)) as [a'|] eqn:Ef; cbn [from_option].
    - split; [done|]. apply find_elem_of in Ef as [Ha _].
      apply iterator_ne_true. cbn. intros [= ->]. by apply HR in Ha.
    - by apply iterator_ne_false.
  Qed.

Lemma find_left_cursor mm b tl tr (d : left_t)
      (HswoL : StrictWeakOrder (cmpL b)) :
    inv_with mm b tl tr →
    ∃ j, bimap.find_left b mm d = Some j ∧
      match List.find (matches (gL mm) (cmpL b) d) (elements tl) with
      | Some a' => j = bimap.mk_iterator (Some a') ∧
                   bimap.iterator_ne j (bimap.end_left b) = true
      | None => bimap.iterator_ne j (bimap.end_left b) = false
      end.
  Proof.
    intros Hinv. pose proof (inv_with_left _ _ _ _ Hinv) as HL.
    eexists. split; [by apply (find_left_spec mm b tl d HL)|].
    rewrite (end_left_spec _ _ _ _ Hinv). unfold first_where.
    destruct (List.find _ (elements tl)) as [a'|] eqn:Ef; cbn [from_option].
    - split; [done|]. apply find_elem_of in Ef as [Ha _].
      apply iterator_ne_true. cbn. intros [= ->]. by apply HL in Ha.
    - by apply iterator_ne_false.
  Qed.

  (** C5.  What [at_left_or_default(key)] does, for a reference [key] that
      reads the left key [l].  When [l] is a left key of the container it
      returns the right key paired with it and changes nothing.  Otherwise
      it looks the default right value [dr] up; the record that holds [dr],
      when there is one, is erased, and then [insert(key, dr)] reads [key]
      again.  When [key] refers to a member of the record that was erased,
      this read is of a deleted object and the call has no result.  In every
      other case the call returns [dr], the pair [(l, dr)] is in the
      container afterwards, and when [dr] was the right key of a pair [q]
      the left key of [q] is absent afterwards and the size is the same;
      when it was of none, the size grew by one.  [at_right_or_default] is
      the same with the sides exchanged. *)
Theorem at_or_default_reads_key_after_erase mm b
      (dl : left_t) (dr : right_t)
      (kl : bimap.key_ref left_t right_t left_t)
      (kr : bimap.key_ref left_t right_t right_t) (l : left_t) (r : right_t) :
    inv mm b → (bimap.m_size b + 1 < size_t_modulus)%Z →
    bimap.read_ref kl mm = Some l → bimap.read_ref kr mm = Some r →
    ∃ ps ps' jl jr,
      traversal.left_pairs b mm = Some ps ∧
      traversal.right_pairs b mm = Some ps' ∧
      bimap.find_left b mm dl = Some jl ∧
      bimap.find_right b mm dr = Some jr ∧
      match List.find (λ p, equiv_under (cmpL b) l p.1) ps with
      | Some p => bimap.at_left_or_default dr b kl mm = Some ((p.2, b), mm)
      | None =>
          if bimap.iterator_ne jr (bimap.end_right b) && refers_to kl (bimap.it jr)
          then bimap.at_left_or_default dr b kl mm = None
          else
            ∃ b' mm',
              bimap.at_left_or_default dr b kl mm = Some ((dr, b'), mm') ∧
              inv mm' b' ∧
              bimap.at_left b' mm' l = Some (returned dr) ∧
              match List.find (λ p, equiv_under (cmpR b) dr p.2) ps' with
              | Some q =>
                  bimap.find_left b' mm' q.1 = Some (bimap.end_left b') ∧
                  bimap.size b' = bimap.size b
              | None => bimap.size b' = (bimap.size b + 1)%Z
              end
      end ∧
      match List.find (λ p, equiv_under (cmpR b) r p.2) ps' with
      | Some p => bimap.at_right_or_default dl b kr mm = Some ((p.1, b), mm)
      | None =>
          if bimap.iterator_ne jl (bimap.end_left b) && refers_to kr (bimap.it jl)
          then bimap.at_right_or_default dl b kr mm = None
          else
            ∃ b' mm',
              bimap.at_right_or_default dl b kr mm = Some ((dl, b'), mm') ∧
              inv mm' b' ∧
              bimap.at_right b' mm' r = Some (returned dl) ∧
              match List.find (λ p, equiv_under (cmpL b) dl p.1) ps with
              | Some q =>
                  bimap.find_right b' mm' q.2 = Some (bimap.end_right b') ∧
                  bimap.size b' = bimap.size b
              | None => bimap.size b' = (bimap.size b + 1)%Z
              end
      end.
  Proof.
    intros (HswoL & HswoR & tl & tr & Hinv) Hbound Hkl Hkr.
    pose proof (inv_with_left _ _ _ _ Hinv) as HL.
    pose proof (inv_with_right _ _ _ _ Hinv) as HR.
    destruct (pairs_exist _ _ _ _ HL) as [ps Hps].
    destruct (pairs_exist _ _ _ _ HR) as [ps' Hps'].
    destruct (find_left_cursor mm b tl tr dl HswoL Hinv) as (jl & Hjl & Hjl').
    destruct (find_right_cursor mm b tl tr dr HswoR Hinv) as (jr & Hjr & Hjr').
    exists ps, ps', jl, jr.
    split; [by rewrite (left_pairs_spec mm b tl HL)|].
    split; [by rewrite (right_pairs_spec mm b tr HR)|].
    split; [done|]. split; [done|].
    split.
    - pose proof (at_left_or_default_spec mm b tl tr dr kl l HswoL HswoR Hinv Hbound Hkl)
        as H.
      pose proof (find_pairs_left mm b _ ps l Hps) as H1.
      pose proof (find_pairs_right mm b _ ps' dr Hps') as H2.
      destruct (List.find (matches (gL mm) (cmpL b) l) (elements tl)) as [a|],
        (List.find (λ p, equiv_under (cmpL b) l p.1) ps) as [p|]; try done.
      { destruct H as (rec & Hrec & H).
        by rewrite (pair_of_record mm a rec p Hrec H1). }
      destruct (List.find (matches (gR mm) (cmpR b) dr) (elements tr)) as [a'|],
        (List.find (λ p, equiv_under (cmpR b) dr p.2) ps') as [q|]; try done.
      + destruct Hjr' as [-> ->]. cbn [andb bimap.it].
        destruct (refers_to kl (Some a')); [done|].
        destruct H as (b' & mm' & tl' & tr' & Hat & Hinv' & EcL & EcR & Hnew
                       & rec' & Hrec' & Hf & Hsz).
        exists b', mm'. split; [exact Hat|]. split.
        { unfold inv. rewrite EcL, EcR. eauto. }
        split; [exact Hnew|].
        by rewrite (pair_of_record mm a' rec' q Hrec' H2).
      + rewrite Hjr'. cbn [andb].
        destruct H as (b' & mm' & tl' & tr' & Hat & Hinv' & EcL & EcR & Hnew & Hsz).
        exists b', mm'. split; [exact Hat|]. split.
        { unfold inv. rewrite EcL, EcR. eauto. }
        split; [exact Hnew|done].
    - pose proof (at_right_or_default_spec mm b tl tr dl kr r HswoL HswoR Hinv Hbound Hkr)
        as H.
      pose proof (find_pairs_right mm b _ ps' r Hps') as H1.
      pose proof (find_pairs_left mm b _ ps dl Hps) as H2.
      destruct (List.find (matches (gR mm) (cmpR b) r) (elements tr)) as [a|],
        (List.find (λ p, equiv_under (cmpR b) r p.2) ps') as [p|]; try done.
      { destruct H as (rec & Hrec & H).
        by rewrite (pair_of_record mm a rec p Hrec H1). }
      destruct (List.find (matches (gL mm) (cmpL b) dl) (elements tl)) as [a'|],
        (List.find (λ p, equiv_under (cmpL b) dl p.1) ps) as [q|]; try done.
      + destruct Hjl' as [-> ->]. cbn [andb bimap.it].
        destruct (refers_to kr (Some a')); [done|].
        destruct H as (b' & mm' & tl' & tr' & Hat & Hinv' & EcL & EcR & Hnew
                       & rec' & Hrec' & Hf & Hsz).
        exists b', mm'. split; [exact Hat|]. split.
        { unfold inv. rewrite EcL, EcR. eauto. }
        split; [exact Hnew|].
        by rewrite (pair_of_record mm a' rec' q Hrec' H2).
      + rewrite Hjl'. cbn [andb].
        destruct H as (b' & mm' & tl' & tr' & Hat & Hinv' & EcL & EcR & Hnew & Hsz).
        exists b', mm'. split; [exact Hat|]. split.
        { unfold inv. rewrite EcL, EcR. eauto. }
        split; [exact Hnew|done].
  Qed.

End defaults_pairs.

(** ** [operator==] *)

Lemma mapM_cons_inv {A B} (f : A → option B) x l ps :
  mapM f (x :: l) = Some ps →
  ∃ p ps', f x = Some p ∧ mapM f l = Some ps' ∧ ps = p :: ps'.
Proof.
  intros H. apply mapM_Some in H. inversion H as [|? p ? ps' Hp Hl]; subst.
  exists p, ps'. split; [done|]. split; [by apply mapM_Some|done].
Qed.

Section pairs_equivalent.
  Context {L R : Type} (cl : L → L → bool) (cr : R → R → bool).

Lemma pairs_equivalent_cons p q (ps qs : list (L * R)) :
    pairs_equivalent cl cr (p :: ps) (q :: qs)
    = equiv_under cl p.1 q.1 && equiv_under cr p.2 q.2
      && pairs_equivalent cl cr ps qs.
  Proof. done. Qed.

Lemma pairs_equivalent_sym (ps qs : list (L * R)) :
    pairs_equivalent cl cr ps qs = pairs_equivalent cl cr qs ps.
  Proof.
    revert qs. induction ps as [|p ps IH]; intros [|q qs]; try done.
    rewrite !pairs_equivalent_cons, IH.
    by rewrite (equiv_under_sym cl p.1), (equiv_under_sym cr p.2).
  Qed.

Lemma pairs_equivalent_refl `{!StrictWeakOrder cl} `{!StrictWeakOrder cr}
      (ps : list (L * R)) :
    pairs_equivalent cl cr ps ps = true.
  Proof.
    induction ps as [|p ps IH]; [done|].
    rewrite pairs_equivalent_cons, IH.
    by rewrite (equiv_under_refl cl), (equiv_under_refl cr).
  Qed.

Lemma structurally_equal_sym na nb (ps qs : list (L * R)) :
    structurally_equal cl cr na nb ps qs = structurally_equal cl cr nb na qs ps.
  Proof.
    unfold structurally_equal. rewrite pairs_equivalent_sym. f_equal.
    apply bool_decide_ext. lia.
  Qed.

  (** One step of the loop of [operator==]. *)
Lemma eq_loop_step (l1 l2 : L) (r1 r2 : R) (rest : option bool) b :
    rest = Some b →
    (if cl l1 l2 then Some false
     else if cl l2 l1 then Some false
     else if cr r1 r2 then Some false
     else if cr r2 r1 then Some false
     else rest)
    = Some (equiv_under cl l1 l2 && equiv_under cr r1 r2 && b).
  Proof.
    intros ->. unfold equiv_under.
    by destruct (cl l1 l2), (cl l2 l1), (cr r1 r2), (cr r2 r1).
  Qed.

End pairs_equivalent.

Section equality.
  Context {left_t right_t : Type}.
  Abbreviation mem := (bimap.mem left_t right_t).
  Abbreviation bimap := (bimap.t left_t right_t).
  Implicit Types (mm : mem) (a b : bimap) (tl tr : tree).

  Abbreviation gL mm := (bimap.get_key tag_for_left mm).
  Abbreviation gR mm := (bimap.get_key tag_for_right mm).
  Abbreviation cmpL b := (intrusive_set.compare (bimap.left_set b)).
  Abbreviation cmpR b := (intrusive_set.compare (bimap.right_set b)).

Lemma end_left_side mm b tl :
    side_inv tag_for_left mm b tl →
    bimap.end_left b = bimap.mk_iterator (Some (bimap.sentinel b)).
  Proof.
    intros [Hs _]. unfold bimap.end_left, intrusive_set.end_. cbn in Hs.
    by rewrite Hs.
  Qed.

Lemma eq_loop_spec mm a b tla tlb :
    side_inv tag_for_left mm a tla → side_inv tag_for_left mm b tlb →
    ∀ lb la fuel prea preb psa psb,
      elements tla = prea ++ la → elements tlb = preb ++ lb →
      length la = length lb → length lb < fuel →
      mapM (pair_of mm) la = Some psa → mapM (pair_of mm) lb = Some psb →
      bimap.eq_loop fuel a b mm
        (bimap.mk_iterator (cursor_at (Some (bimap.sentinel a)) la))
        (bimap.mk_iterator (cursor_at (Some (bimap.sentinel b)) lb))
      = Some (pairs_equivalent (cmpL a) (cmpR a) psa psb).
  Proof.
    intros HA HB. pose proof (end_left_side mm b tlb HB) as Hend.
    induction lb as [|y lb IH];
      intros la fuel prea preb psa psb Ea Eb Hlen Hfuel Hpa Hpb.
    - destruct la; [|done]. destruct fuel; [cbn in Hfuel; lia|].
      cbn in Hpa, Hpb. injection Hpa as <-. injection Hpb as <-.
      cbn [bimap.eq_loop cursor_at]. rewrite Hend.
      by rewrite iterator_ne_false.
    - destruct la as [|x la]; [done|]. destruct fuel; [cbn in Hfuel; lia|].
      apply mapM_cons_inv in Hpa as (p & psa' & Hp & Hpa & ->).
      apply mapM_cons_inv in Hpb as (q & psb' & Hq & Hpb & ->).
      apply pair_of_Some in Hp as [Hpl Hpr]. apply pair_of_Some in Hq as [Hql Hqr].
      cbn [bimap.eq_loop cursor_at]. rewrite Hend.
      rewrite iterator_ne_true.
      2:{ cbn. intros [= ->]. destruct HB as [_ (_ & _ & _ & Hnin & _)].
          apply Hnin. rewrite Eb. set_solver. }
      unfold bimap.deref, bimap.iterator_incr. cbn [bimap.it bimap.flip].
      destruct HA as [HsA HA], HB as [HsB HB].
      rewrite (incr_spec _ _ _ _ _ prea x la HA Ea).
      rewrite (incr_spec _ _ _ _ _ preb y lb HB Eb).
      cbn. cbn [bimap.key] in *. rewrite Hpl, Hql, Hpr, Hqr. cbn.
      apply (eq_loop_step (cmpL a) (cmpR a)).
      apply (IH la fuel (prea ++ [x]) (preb ++ [y]) psa' psb');
        [by rewrite <-app_assoc|by rewrite <-app_assoc
        |cbn in Hlen; lia|cbn in Hfuel; lia|done|done].
  Qed.

Lemma eq_spec mm a b tla tra tlb trb psa psb :
    inv_with mm a tla tra → inv_with mm b tlb trb →
    mapM (pair_of mm) (elements tla) = Some psa →
    mapM (pair_of mm) (elements tlb) = Some psb →
    bimap.eq a b mm
    = Some (structurally_equal (cmpL a) (cmpR a) (bimap.size a) (bimap.size b)
              psa psb).
  Proof.
    intros HA HB Hpa Hpb. unfold bimap.eq, structurally_equal.
    destruct (decide (bimap.size a ≠ bimap.size b)) as [Hne|Heq].
    { by rewrite bool_decide_false. }
    apply dec_stable in Heq. rewrite bool_decide_true by done. cbn [andb].
    pose proof (inv_with_left _ _ _ _ HA) as HLa.
    pose proof (inv_with_left _ _ _ _ HB) as HLb.
    unfold bimap.begin_left.
    pose proof (begin_side tag_for_left mm a tla HLa) as Ha.
    pose proof (begin_side tag_for_left mm b tlb HLb) as Hb.
    cbn [bimap.set bimap.nodes bimap.key] in Ha, Hb. rewrite Ha, Hb. cbn.
    apply (eq_loop_spec mm a b tla tlb HLa HLb _ _ _ [] []); try done.
    - apply inv_with_sides in HA as (_ & _ & _ & Hsa & _).
      apply inv_with_sides in HB as (_ & _ & _ & Hsb & _).
      unfold bimap.size in Heq. lia.
    - exact (side_inv_fuel tag_for_left mm b tlb HLb).
  Qed.

  (** The pairs of a container are strictly increasing in their left keys. *)
Lemma sorted_pairs mm cmp (l : list addr) ps :
    Forall2 (λ x p, pair_of mm x = Some p) l ps →
    strictly_sorted (gL mm) cmp l →
    StronglySorted (λ p q : left_t * right_t, cmp p.1 q.1 = true) ps.
  Proof.
    intros HF. induction HF as [|x p l ps Hx HF IH]; intros Hs; [constructor|].
    apply StronglySorted_cons in Hs as [Hall Hs]. apply StronglySorted_cons.
    split; [|by apply IH].
    clear IH Hs. induction HF as [|y q l ps Hy HF IH]; [constructor|].
    apply Forall_cons in Hall as [Hxy Hall]. constructor; [|by apply IH].
    apply pair_of_Some in Hx as [Hx _]. apply pair_of_Some in Hy as [Hy _].
    unfold lt_at in Hxy. cbn [bimap.key] in *. by rewrite Hx, Hy in Hxy.
  Qed.

Lemma side_sorted_pairs mm b tl ps :
    side_inv tag_for_left mm b tl →
    mapM (pair_of mm) (elements tl) = Some ps →
    StronglySorted (λ p q : left_t * right_t, cmpL b p.1 q.1 = true) ps.
  Proof.
    intros [_ (_ & _ & _ & _ & _ & Hsort)] Hps. apply mapM_Some in Hps.
    by eapply sorted_pairs.
  Qed.

  (** C7, as the code has it.  [a == b] is true exactly when the sizes are
      equal and the pairs of [a] and [b], both in the order of the left keys,
      are equivalent position by position under the left and the right
      comparison of [a], the first operand; [a != b] is its negation.  It is
      reflexive.  For two containers that hold the same comparison objects
      it is symmetric, and it is true whenever the two hold the same pairs,
      in whatever order they were inserted; for containers whose comparison
      objects differ, [a == b] and [b == a] can differ. *)
Theorem eq_is_lockstep_equivalence mm a b :
    inv mm a → inv mm b →
    ∃ ps qs,
      traversal.left_pairs a mm = Some ps ∧
      traversal.left_pairs b mm = Some qs ∧
      bimap.eq a b mm
      = Some (structurally_equal (cmpL a) (cmpR a) (bimap.size a) (bimap.size b)
                ps qs) ∧
      bimap.ne a b mm
      = Some (negb (structurally_equal (cmpL a) (cmpR a) (bimap.size a)
                      (bimap.size b) ps qs)) ∧
      bimap.eq a a mm = Some true ∧
      (cmpL b = cmpL a → cmpR b = cmpR a →
       bimap.eq b a mm = bimap.eq a b mm ∧
       (ps ≡ₚ qs → bimap.eq a b mm = Some true)).
  Proof.
    intros (HswoLa & HswoRa & tla & tra & HA) (HswoLb & HswoRb & tlb & trb & HB).
    pose proof (inv_with_left _ _ _ _ HA) as HLa.
    pose proof (inv_with_left _ _ _ _ HB) as HLb.
    destruct (pairs_exist _ _ _ _ HLa) as [ps Hps].
    destruct (pairs_exist _ _ _ _ HLb) as [qs Hqs].
    exists ps, qs.
    split; [by rewrite (left_pairs_spec mm a tla HLa)|].
    split; [by rewrite (left_pairs_spec mm b tlb HLb)|].
    pose proof (eq_spec mm a b _ _ _ _ ps qs HA HB Hps Hqs) as Hab.
    split; [exact Hab|].
    split; [unfold bimap.ne; by rewrite Hab|].
    split.
    { rewrite (eq_spec mm a a _ _ _ _ ps ps HA HA Hps Hps).
      unfold structurally_equal. rewrite bool_decide_true by done.
      by rewrite pairs_equivalent_refl. }
    intros EL ER. split.
    { rewrite (eq_spec mm b a _ _ _ _ qs ps HB HA Hqs Hps), Hab, EL, ER.
      f_equal. apply structurally_equal_sym. }
    intros Hperm. rewrite Hab. f_equal.
    assert (ps = qs) as <-.
    { apply (StronglySorted_unique_strong
               (λ p q : left_t * right_t, cmpL a p.1 q.1 = true)).
      - intros p q _ _ H1 H2.
        pose proof (swo_asym (cmpL a) p.1 q.1 H1). congruence.
      - by eapply side_sorted_pairs.
      - rewrite <-EL. by eapply side_sorted_pairs.
      - done. }
    pose proof (pairs_equivalent_refl (cmpL a) (cmpR a) ps) as Hrefl.
    unfold structurally_equal. rewrite Hrefl.
    apply andb_true_iff. split; [|done]. apply bool_decide_eq_true.
    apply inv_with_sides in HA as (_ & _ & _ & Hsa & _).
    apply inv_with_sides in HB as (_ & _ & _ & Hsb & _).
    unfold bimap.size. rewrite Hsa, Hsb. f_equal.
    apply mapM_Some, Forall2_length in Hps.
    apply mapM_Some, Forall2_length in Hqs. congruence.
  Qed.

Lemma eq_loop_with_compare cl cr fuel mm a b i j :
    bimap.eq_loop fuel a (with_compare cl cr b) mm i j
    = bimap.eq_loop fuel a b mm i j.
  Proof.
    revert i j. induction fuel as [|fuel IH]; intros i j; [done|].
    cbn [bimap.eq_loop].
    change (bimap.end_left (with_compare cl cr b)) with (bimap.end_left b).
    destruct (bimap.iterator_ne j (bimap.end_left b)); [|done].
    destruct (bimap.deref i mm) as [l1|]; [|done].
    destruct (bimap.deref j mm) as [l2|]; [|done]. cbn [mbind option_bind].
    destruct (cmpL a l1 l2); [done|]. destruct (cmpL a l2 l1); [done|].
    destruct (bimap.deref (bimap.flip i) mm) as [r1|]; [|done].
    destruct (bimap.deref (bimap.flip j) mm) as [r2|]; [|done]. cbn [mbind option_bind].
    destruct (cmpR a r1 r2); [done|]. destruct (cmpR a r2 r1); [done|].
    destruct (bimap.iterator_incr a i mm) as [i'|]; [|done]. cbn [mbind option_bind].
    change (bimap.iterator_incr (with_compare cl cr b) j mm)
      with (bimap.iterator_incr b j mm).
    destruct (bimap.iterator_incr b j mm) as [j'|]; [|done]. cbn [mbind option_bind].
    apply IH.
  Qed.

End equality.

(** ** The concrete containers *)

Lemma ltb_swo : StrictWeakOrder Nat.ltb.
Proof.
  split.
  - intros x. apply Nat.ltb_irrefl.
  - intros x y z H1%Nat.ltb_lt H2%Nat.ltb_lt. apply Nat.ltb_lt. lia.
  - intros x y z H1%Nat.ltb_ge H2%Nat.ltb_ge H3%Nat.ltb_ge H4%Nat.ltb_ge.
    split; apply Nat.ltb_ge; lia.
Qed.

Lemma lt_half_swo : StrictWeakOrder example.lt_half.
Proof.
  unfold example.lt_half. split.
  - intros x. apply Nat.ltb_irrefl.
  - intros x y z H1%Nat.ltb_lt H2%Nat.ltb_lt. apply Nat.ltb_lt. lia.
  - intros x y z H1%Nat.ltb_ge H2%Nat.ltb_ge H3%Nat.ltb_ge H4%Nat.ltb_ge.
    split; apply Nat.ltb_ge; lia.
Qed.

Lemma st0_reachable : reachable example.st0.2 example.st0.1.
Proof.
  apply (reachable_new example.mem0 Nat.ltb Nat.ltb); [apply ltb_swo..|].
  vm_compute. reflexivity.
Qed.

Lemma st1_reachable : reachable example.st1.2 example.st1.1.
Proof.
  eapply (reachable_insert _ _ 3 30); [exact st0_reachable|done|].
  vm_compute. reflexivity.
Qed.

Lemma st2_reachable : reachable example.st2.2 example.st2.1.
Proof.
  eapply (reachable_insert _ _ 1 20); [exact st1_reachable|done|].
  vm_compute. reflexivity.
Qed.

Lemma st3_reachable : reachable example.st3.2 example.st3.1.
Proof.
  eapply (reachable_insert _ _ 2 10); [exact st2_reachable|done|].
  vm_compute. reflexivity.
Qed.

Lemma st3_inv : inv example.st3.2 example.st3.1.
Proof. exact (reachable_inv _ _ st3_reachable). Qed.

Lemma a0_reachable : reachable example.a0.2 example.a0.1.
Proof.
  eapply (reachable_insert _ _ 2 0 _ _ _
            (reachable_new example.mem0 example.lt_half Nat.ltb _ _
               lt_half_swo ltb_swo eq_refl));
    [done|vm_compute; reflexivity].
Qed.

Lemma b0_reachable : reachable example.b0.2 example.b0.1.
Proof.
  eapply (reachable_insert _ _ 3 0 _ _ _
            (reachable_new example.a0.2 Nat.ltb Nat.ltb _ _
               ltb_swo ltb_swo eq_refl));
    [done|vm_compute; reflexivity].
Qed.

Section frame.
  Context {left_t right_t : Type}.
  Abbreviation mem := (bimap.mem left_t right_t).
  Abbreviation bimap := (bimap.t left_t right_t).
  Implicit Types (mm : mem) (a b : bimap) (tl tr : tree).

  (** The invariant of a container reads the memory at its sentinel and at
      its records only. *)
Lemma inv_with_frame mm mm' b tl tr :
    (∀ x, x ∈ bimap.sentinel b :: elements tl →
          bimap.lnodes mm' !! x = bimap.lnodes mm !! x ∧
          bimap.rnodes mm' !! x = bimap.rnodes mm !! x ∧
          bimap.records mm' !! x = bimap.records mm !! x) →
    inv_with mm b tl tr → inv_with mm' b tl tr.
  Proof.
    intros Hsame Hinv.
    apply inv_with_sides in Hinv as (HL & HR & Hperm & Hsize & Hbound).
    apply inv_with_sides. split; [|split; [|done]].
    - apply (side_inv_frame tag_for_left mm mm' b b tl); try done.
      + intros x Hx. by apply Hsame.
      + intros x Hx. apply Hsame. set_solver.
    - apply (side_inv_frame tag_for_right mm mm' b b tr); try done.
      + intros x Hx. apply Hsame. rewrite Hperm. done.
      + intros x Hx. apply Hsame. rewrite Hperm. set_solver.
  Qed.

Lemma inv_frame mm mm' b cs :
    inv mm b → traversal.left_cursors b mm = Some cs →
    (∀ x, Some x ∈ Some (bimap.sentinel b) :: cs →
          bimap.lnodes mm' !! x = bimap.lnodes mm !! x ∧
          bimap.rnodes mm' !! x = bimap.rnodes mm !! x ∧
          bimap.records mm' !! x = bimap.records mm !! x) →
    inv mm' b.
  Proof.
    intros (HswoL & HswoR & tl & tr & Hinv) Hcs Hsame.
    split; [done|]. split; [done|]. exists tl, tr.
    apply (inv_with_frame mm); [|done].
    rewrite (left_cursors_spec mm b tl) in Hcs by (by eapply inv_with_left).
    injection Hcs as <-. intros x Hx. apply Hsame.
    change (Some x ∈ Some <$> bimap.sentinel b :: elements tl).
    by apply list_elem_of_fmap_2.
  Qed.

End frame.

Lemma a0_inv_later : inv example.b0.2 example.a0.1.
Proof.
  apply (inv_frame example.a0.2 example.b0.2 example.a0.1 [Some 2%positive]).
  - exact (reachable_inv _ _ a0_reachable).
  - vm_compute. reflexivity.
  - intros x Hx. repeat (apply elem_of_cons in Hx as [[= ->]|Hx]).
    + vm_compute. done.
    + vm_compute. done.
    + by apply elem_of_nil in Hx.
Qed.

(** C10.  [a == b] is the same whatever comparison objects [b] holds: only
    those of [a] are called.  So with [a] comparing left keys by their halves
    and [b] by [<], for [a = {(2, 0)}] and [b = {(3, 0)}] the test [a == b]
    is true and [b == a] is false. *)
Theorem eq_consults_first_operand_only :
  (∀ (L R : Type) (mm : bimap.mem L R) (a b : bimap.t L R) cl cr,
     bimap.eq a (with_compare cl cr b) mm = bimap.eq a b mm) ∧
  inv example.b0.2 example.a0.1 ∧ inv example.b0.2 example.b0.1 ∧
  traversal.left_pairs example.a0.1 example.b0.2 = Some [(2, 0)] ∧
  traversal.left_pairs example.b0.1 example.b0.2 = Some [(3, 0)] ∧
  bimap.eq example.a0.1 example.b0.1 example.b0.2 = Some true ∧
  bimap.eq example.b0.1 example.a0.1 example.b0.2 = Some false.
Proof.
  split.
  { intros L R mm a b cl cr. unfold bimap.eq.
    change (bimap.size (with_compare cl cr b)) with (bimap.size b).
    destruct (decide (bimap.size a ≠ bimap.size b)); [done|].
    destruct (bimap.begin_left a mm) as [i|]; [|done]. cbn [mbind option_bind].
    change (bimap.begin_left (with_compare cl cr b) mm) with (bimap.begin_left b mm).
    destruct (bimap.begin_left b mm) as [j|]; [|done]. cbn [mbind option_bind].
    apply eq_loop_with_compare. }
  split; [exact a0_inv_later|].
  split; [exact (reachable_inv _ _ b0_reachable)|].
  repeat split; vm_compute; reflexivity.
Qed.

(** ** The theorems on the container [{(1, 20), (2, 10), (3, 30)}] *)

Ltac decide_cond c v :=
  let E := fresh "E" in
  assert (c = v) as E by (vm_compute; reflexivity);
  rewrite E in *; clear E.

Lemma insert_unless_present_witness :
  inv example.st3.2 example.st3.1 ∧
  ∃ i b' mm',
    bimap.insert example.st3.1 5 50 example.st3.2 = Some ((i, b'), mm') ∧
    bimap.deref i mm' = Some 5 ∧ inv mm' b'.
Proof.
  split; [exact st3_inv|].
  destruct (insert_unless_present example.st3.2 example.st3.1 5 50 st3_inv)
    as (cs & cs' & ps & _ & _ & Hps & H).
  vm_compute in Hps. injection Hps as <-.
  match type of H with (if ?c then _ else _) => decide_cond c false end.
  destruct H as (a & mm' & pre & post & pre' & post' & Hins & _ & _ & Hd & _ & _ & _
                 & _ & _ & Hinv').
  eexists _, _, mm'. split; [exact Hins|]. split; [exact Hd|].
  apply Hinv'. done.
Defined.

Lemma erase_removes_from_both_sides_witness :
  inv example.st3.2 example.st3.1 ∧
  ∃ b' mm',
    bimap.erase_left example.st3.1 (bimap.mk_iterator (Some 4%positive)) example.st3.2
    = Some ((bimap.mk_iterator (Some 2%positive), b'), mm') ∧
    bimap.size b' = 2%Z ∧ inv mm' b'.
Proof.
  split; [exact st3_inv|].
  destruct (proj1 (erase_removes_from_both_sides example.st3.2 example.st3.1
                     [Some 3; Some 4; Some 2]%positive
                     [Some 4; Some 3; Some 2]%positive
                     st3_inv eq_refl eq_refl)
              [Some 3%positive] (Some 4%positive) [Some 2%positive] eq_refl)
    as (a & rec & mm' & pre' & post' & _ & _ & Herase & _ & _ & _ & _ & _ & Hsize
        & _ & _ & _ & Hinv').
  eexists _, mm'. split; [exact Herase|]. split; [exact Hsize|exact Hinv'].
Defined.

Lemma flip_addresses_same_record_witness :
  inv example.st3.2 example.st3.1 ∧
  ∃ rec,
    bimap.deref (T:=tag_for_left) (bimap.mk_iterator (Some 4%positive)) example.st3.2
    = Some (bimap.left_key rec) ∧
    bimap.deref (bimap.flip (T:=tag_for_left) (bimap.mk_iterator (Some 4%positive)))
      example.st3.2
    = Some (bimap.right_key rec).
Proof.
  split; [exact st3_inv|].
  destruct (proj1 (flip_addresses_same_record example.st3.2 example.st3.1
                     [Some 3; Some 4; Some 2]%positive
                     [Some 4; Some 3; Some 2]%positive
                     st3_inv eq_refl eq_refl)
              (Some 4%positive))
    as (_ & _ & _ & a & rec & _ & _ & Hl & Hr).
  { set_solver. }
  exists rec. split; [exact Hl|exact Hr].
Defined.

Lemma at_throws_iff_absent_witness :
  inv example.st3.2 example.st3.1 ∧
  bimap.at_left example.st3.1 example.st3.2 7
  = Some (thrown (out_of_range "element doesn't exist")) ∧
  bimap.at_right example.st3.1 example.st3.2 10 = Some (returned 2).
Proof.
  split; [exact st3_inv|].
  destruct (at_throws_iff_absent example.st3.2 example.st3.1 7 10 st3_inv)
    as (cs & cs' & ps & ps' & _ & _ & Hps & Hps' & _ & Hat & Hiff & _).
  vm_compute in Hps. injection Hps as <-.
  vm_compute in Hps'. injection Hps' as <-.
  split.
  - apply Hiff. intros p Hp.
    repeat (apply elem_of_cons in Hp as [->|Hp]); try done.
    by apply elem_of_nil in Hp.
  - rewrite Hat. done.
Defined.

Lemma bounds_are_first_in_order_witness :
  inv example.st3.2 example.st3.1 ∧
  bimap.lower_bound_left example.st3.1 example.st3.2 2
  = Some (bimap.mk_iterator (Some 4%positive)) ∧
  bimap.upper_bound_left example.st3.1 example.st3.2 2
  = Some (bimap.mk_iterator (Some 2%positive)) ∧
  bimap.upper_bound_right example.st3.1 example.st3.2 30
  = Some (bimap.end_right example.st3.1).
Proof.
  split; [exact st3_inv|].
  destruct (bounds_are_first_in_order example.st3.2 example.st3.1 2 30 st3_inv)
    as (cs & cs' & Hcs & Hcs' & Hlb & Hub & _ & Hubr).
  vm_compute in Hcs. injection Hcs as <-.
  vm_compute in Hcs'. injection Hcs' as <-.
  rewrite Hlb, Hub, Hubr. done.
Defined.

(** ** The traversals visit the pairs of the container, in order *)

Lemma Forall2_impl_elem {A B} (R S : A → B → Prop) l k :
  Forall2 R l k → (∀ a b, a ∈ l → R a b → S a b) → Forall2 S l k.
Proof.
  intros HF. induction HF as [|a b l k HR HF IH]; intros H; [constructor|].
  constructor; [apply H; [set_solver|done]|].
  apply IH. intros a' b' Ha'. apply H. set_solver.
Qed.

Section visits.
  Context {left_t right_t : Type}.
  Abbreviation mem := (bimap.mem left_t right_t).
  Abbreviation bimap := (bimap.t left_t right_t).
  Implicit Types (mm : mem) (b : bimap) (tl tr : tree).

  Abbreviation gL mm := (bimap.get_key tag_for_left mm).
  Abbreviation gR mm := (bimap.get_key tag_for_right mm).
  Abbreviation cmpL b := (intrusive_set.compare (bimap.left_set b)).
  Abbreviation cmpR b := (intrusive_set.compare (bimap.right_set b)).

  (** The cursors of one side, the keys under them, and [find] on that
      side. *)
Lemma side_visits T mm b t
      (Hswo : StrictWeakOrder (intrusive_set.compare (bimap.set T b))) :
    side_inv T mm b t →
    ∃ ks,
      mapM (bimap.get_key T mm) (elements t) = Some ks ∧
      StronglySorted (λ x y, intrusive_set.compare (bimap.set T b) x y = true) ks ∧
      length ks = length (elements t) ∧
      Forall2 (λ (c : ptr) k,
                 intrusive_set.find (bimap.get_key T mm) (bimap.set T b)
                   (bimap.nodes T mm) k = Some c)
        (Some <$> elements t) ks ∧
      (∀ k c, intrusive_set.find (bimap.get_key T mm) (bimap.set T b)
                (bimap.nodes T mm) k = Some c →
              c = Some (bimap.sentinel b) ∨ c ∈ Some <$> elements t) ∧
      Some (bimap.sentinel b) ∉ Some <$> elements t.
  Proof.
    intros Hinv.
    destruct (side_keys_sorted T mm b t Hinv) as (ks & Hks & Hsort).
    exists ks. split; [done|]. split; [done|].
    pose proof Hks as HF. apply mapM_Some in HF.
    split; [symmetry; by eapply Forall2_length|]. split; [|split].
    - apply Forall2_fmap_l.
      apply (Forall2_impl_elem _ _ _ _ HF). intros a k Ha Hk. cbn.
      rewrite (find_side T mm b t k Hinv). f_equal.
      by apply (first_where_own T mm b t a k Hswo).
    - intros k c. rewrite (find_side T mm b t k Hinv). intros [= <-].
      unfold first_where.
      destruct (List.find _ (elements t)) as [a|] eqn:Ef; cbn [from_option].
      + right. apply find_elem_of in Ef as [Ha _]. by apply list_elem_of_fmap_2.
      + by left.
    - intros (a & [= <-] & Ha)%list_elem_of_fmap. by apply Hinv in Ha.
  Qed.

  (** C8.  In every state in which the invariant of the container holds
      (the constructors establish it, and every operation on this container
      or on another one keeps it), the iteration from [begin_left()] to
      [end_left()] by [operator++] ends and visits every pair of the
      container once: it passes [size()] cursors, [end_left()] is none of
      them, the cursor under which a key is read is the one that
      [find_left] gives for that key, and every cursor that [find_left]
      gives, other than [end_left()], is passed.  The left keys it reads are
      strictly increasing under the left comparison.  The iteration from
      [begin_right()] to [end_right()] is the same with the right keys and
      the right comparison, and it passes the same cursors, in the order of
      the right keys. *)
Theorem traversal_strictly_increasing mm b :
    inv mm b →
    ∃ cs ks cs' ks',
      traversal.left_cursors b mm = Some cs ∧
      traversal.left_keys mm cs = Some ks ∧
      traversal.right_cursors b mm = Some cs' ∧
      traversal.right_keys mm cs' = Some ks' ∧
      StronglySorted (λ x y, cmpL b x y = true) ks ∧
      StronglySorted (λ x y, cmpR b x y = true) ks' ∧
      bimap.size b = Z.of_nat (length ks) ∧
      bimap.size b = Z.of_nat (length ks') ∧
      cs ≡ₚ cs' ∧
      bimap.it (bimap.end_left b) ∉ cs ∧
      bimap.it (bimap.end_right b) ∉ cs' ∧
      Forall2 (λ c k, bimap.find_left b mm k = Some (bimap.mk_iterator c)) cs ks ∧
      Forall2 (λ c k, bimap.find_right b mm k = Some (bimap.mk_iterator c)) cs' ks' ∧
      (∀ k i, bimap.find_left b mm k = Some i →
              i = bimap.end_left b ∨ bimap.it i ∈ cs) ∧
      (∀ k i, bimap.find_right b mm k = Some i →
              i = bimap.end_right b ∨ bimap.it i ∈ cs').
  Proof.
    intros (HswoL & HswoR & tl & tr & Hinv).
    pose proof (proj1 (inv_with_sides _ _ _ _) Hinv) as (HL & HR & Hperm & Hsize & _).
    destruct (side_visits tag_for_left mm b tl HswoL HL)
      as (ks & Hks & Hsort & Hlen & Hfind & Hfound & Hend).
    destruct (side_visits tag_for_right mm b tr HswoR HR)
      as (ks' & Hks' & Hsort' & Hlen' & Hfind' & Hfound' & Hend').
    cbn [bimap.set bimap.nodes bimap.key] in *.
    exists (Some <$> elements tl), ks, (Some <$> elements tr), ks'.
    rewrite (end_left_spec _ _ _ _ Hinv), (end_right_spec _ _ _ _ Hinv).
    cbn [bimap.it].
    split; [by apply left_cursors_spec|].
    split; [by rewrite left_keys_spec|].
    split; [by apply right_cursors_spec|].
    split; [by rewrite right_keys_spec|].
    split; [done|]. split; [done|].
    split; [unfold bimap.size; by rewrite Hlen|].
    split; [unfold bimap.size; by rewrite Hlen', <-Hperm|].
    split; [by rewrite Hperm|].
    split; [done|]. split; [done|].
    split.
    { eapply Forall2_impl; [exact Hfind|]. intros c k H.
      exact (f_equal (fmap (bimap.mk_iterator (T:=tag_for_left))) H). }
    split.
    { eapply Forall2_impl; [exact Hfind'|]. intros c k H.
      exact (f_equal (fmap (bimap.mk_iterator (T:=tag_for_right))) H). }
    split.
    - intros k [c] Hf. unfold bimap.find_left in Hf.
      destruct (intrusive_set.find (gL mm) (bimap.left_set b) (bimap.lnodes mm) k)
        as [c'|] eqn:Ef; [|done].
      injection Hf as <-. destruct (Hfound k c' Ef) as [->|Hc]; [by left|by right].
    - intros k [c] Hf. unfold bimap.find_right in Hf.
      destruct (intrusive_set.find (gR mm) (bimap.right_set b) (bimap.rnodes mm) k)
        as [c'|] eqn:Ef; [|done].
      injection Hf as <-. destruct (Hfound' k c' Ef) as [->|Hc]; [by left|by right].
  Qed.

End visits.

Lemma traversal_strictly_increasing_witness :
  inv example.st3.2 example.st3.1 ∧
  traversal.left_cursors example.st3.1 example.st3.2
  = Some [Some 3; Some 4; Some 2]%positive ∧
  traversal.left_keys example.st3.2 [Some 3; Some 4; Some 2]%positive
  = Some [1; 2; 3] ∧
  traversal.right_keys example.st3.2 [Some 4; Some 3; Some 2]%positive
  = Some [10; 20; 30] ∧
  StronglySorted (λ x y, Nat.ltb x y = true) [1; 2; 3] ∧
  StronglySorted (λ x y, Nat.ltb x y = true) [10; 20; 30] ∧
  bimap.size example.st3.1 = 3%Z ∧
  bimap.find_left example.st3.1 example.st3.2 2
  = Some (bimap.mk_iterator (Some 4%positive)) ∧
  inv example.b0.2 example.a0.1 ∧
  ∃ cs ks,
    traversal.left_cursors example.a0.1 example.b0.2 = Some cs ∧
    traversal.left_keys example.b0.2 cs = Some ks ∧
    bimap.size example.a0.1 = Z.of_nat (length ks).
Proof.
  split; [exact st3_inv|].
  destruct (traversal_strictly_increasing example.b0.2 example.a0.1 a0_inv_later)
    as (csa & ksa & _ & _ & Hcsa & Hksa & _ & _ & _ & _ & Hsizea & _).
  destruct (traversal_strictly_increasing example.st3.2 example.st3.1 st3_inv)
    as (cs & ks & cs' & ks' & Hcs & Hks & Hcs' & Hks' & Hsort & Hsort' & Hsize & _ & _
        & _ & _ & Hfind & _).
  vm_compute in Hcs. injection Hcs as <-.
  vm_compute in Hcs'. injection Hcs' as <-.
  assert (ks = [1; 2; 3]) as ->.
  { vm_compute in Hks. by injection Hks as <-. }
  assert (ks' = [10; 20; 30]) as ->.
  { vm_compute in Hks'. by injection Hks' as <-. }
  split; [vm_compute; reflexivity|]. split; [vm_compute; reflexivity|].
  split; [vm_compute; reflexivity|].
  split; [exact Hsort|]. split; [exact Hsort'|]. split; [exact Hsize|].
  apply Forall2_cons_1 in Hfind as [_ Hfind].
  apply Forall2_cons_1 in Hfind as [Hfind _].
  split; [exact Hfind|]. split; [exact a0_inv_later|].
  exists csa, ksa. split; [exact Hcsa|]. split; [exact Hksa|exact Hsizea].
Defined.

(** ** [at_left_or_default] on a key of the record it erases *)

Lemma at_or_default_reads_key_after_erase_witness :
  inv example.b0.2 example.b0.1 ∧
  (bimap.m_size example.b0.1 + 1 < size_t_modulus)%Z ∧
  traversal.left_pairs example.b0.1 example.b0.2 = Some [(3, 0)] ∧
  bimap.find_right example.b0.1 example.b0.2 0
  = Some (bimap.mk_iterator (Some 4%positive)) ∧
  bimap.read_ref (bimap.ref_member 4%positive bimap.right_key) example.b0.2 = Some 0 ∧
  bimap.at_left_or_default 0 example.b0.1
    (bimap.ref_member 4%positive bimap.right_key) example.b0.2 = None ∧
  ∃ b' mm',
    bimap.at_left_or_default 0 example.b0.1 (bimap.ref_value 0) example.b0.2
    = Some ((0, b'), mm') ∧
    bimap.at_left b' mm' 0 = Some (returned 0) ∧
    bimap.find_left b' mm' 3 = Some (bimap.end_left b') ∧
    bimap.size b' = 1%Z.
Proof.
  split; [exact (reachable_inv _ _ b0_reachable)|]. split; [done|].
  split; [vm_compute; reflexivity|]. split; [vm_compute; reflexivity|].
  split; [vm_compute; reflexivity|].
  split.
  - destruct (at_or_default_reads_key_after_erase example.b0.2 example.b0.1 0 0
                (bimap.ref_member 4%positive bimap.right_key) (bimap.ref_value 7) 0 7
                (reachable_inv _ _ b0_reachable) eq_refl eq_refl eq_refl)
      as (ps & ps' & jl & jr & Hps & Hps' & Hjl & Hjr & H & _).
    vm_compute in Hps. injection Hps as <-.
    vm_compute in Hjr. injection Hjr as <-.
    match type of H with
    | match ?c with _ => _ end => decide_cond c (@None (nat * nat))
    end.
    match type of H with
    | if ?c then _ else _ => decide_cond c true
    end.
    exact H.
  - destruct (at_or_default_reads_key_after_erase example.b0.2 example.b0.1 0 0
                (bimap.ref_value 0) (bimap.ref_value 7) 0 7
                (reachable_inv _ _ b0_reachable) eq_refl eq_refl eq_refl)
      as (ps & ps' & jl & jr & Hps & Hps' & Hjl & Hjr & H & _).
    vm_compute in Hps. injection Hps as <-.
    vm_compute in Hps'. injection Hps' as <-.
    vm_compute in Hjr. injection Hjr as <-.
    match type of H with
    | match ?c with _ => _ end => decide_cond c (@None (nat * nat))
    end.
    match type of H with
    | if ?c then _ else _ => decide_cond c false
    end.
    destruct H as (b' & mm' & Hat & _ & Hnew & H).
    match type of H with
    | match ?c with _ => _ end => decide_cond c (Some (3, 0))
    end.
    destruct H as [Hf Hsize].
    exists b', mm'. split; [exact Hat|]. split; [exact Hnew|].
    split; [exact Hf|exact Hsize].
Defined.

(** ** [operator==] on two containers, in both orders *)

Lemma p0_reachable : reachable example.p0.2 example.p0.1.
Proof.
  eapply (reachable_insert _ _ 2 20 _ _ _
            (reachable_insert _ _ 1 10 _ _ _
               (reachable_new example.mem0 Nat.ltb Nat.ltb _ _
                  ltb_swo ltb_swo eq_refl) eq_refl eq_refl));
    [done|vm_compute; reflexivity].
Qed.

Lemma q0_reachable : reachable example.q0.2 example.q0.1.
Proof.
  eapply (reachable_insert _ _ 1 10 _ _ _
            (reachable_insert _ _ 2 20 _ _ _
               (reachable_new example.p0.2 Nat.ltb Nat.ltb _ _
                  ltb_swo ltb_swo eq_refl) eq_refl eq_refl));
    [done|vm_compute; reflexivity].
Qed.

Lemma p0_inv_later : inv example.q0.2 example.p0.1.
Proof.
  apply (inv_frame example.p0.2 example.q0.2 example.p0.1
           [Some 2; Some 3]%positive).
  - exact (reachable_inv _ _ p0_reachable).
  - vm_compute. reflexivity.
  - intros x Hx. repeat (apply elem_of_cons in Hx as [[= ->]|Hx]);
      [vm_compute; done..|by apply elem_of_nil in Hx].
Qed.

(** [a] holds [(2, 0)] and compares left keys by their halves, [b] holds
    [(3, 0)] and compares them by [<]: both satisfy the invariant, [a == b]
    is true and [b == a] is false, so [==] is not symmetric. *)
Lemma eq_is_not_symmetric :
  inv example.b0.2 example.a0.1 ∧ inv example.b0.2 example.b0.1 ∧
  bimap.eq example.a0.1 example.b0.1 example.b0.2 = Some true ∧
  bimap.eq example.b0.1 example.a0.1 example.b0.2 = Some false ∧
  bimap.eq example.a0.1 example.b0.1 example.b0.2
  ≠ bimap.eq example.b0.1 example.a0.1 example.b0.2.
Proof.
  split; [exact a0_inv_later|].
  split; [exact (reachable_inv _ _ b0_reachable)|].
  split; [vm_compute; reflexivity|]. split; [vm_compute; reflexivity|].
  vm_compute. discriminate.
Qed.

Lemma eq_is_lockstep_equivalence_witness :
  inv example.q0.2 example.p0.1 ∧ inv example.q0.2 example.q0.1 ∧
  traversal.left_cursors example.p0.1 example.q0.2
  = Some [Some 2; Some 3]%positive ∧
  traversal.left_cursors example.q0.1 example.q0.2
  = Some [Some 6; Some 5]%positive ∧
  bimap.eq example.p0.1 example.q0.1 example.q0.2 = Some true ∧
  bimap.eq example.q0.1 example.p0.1 example.q0.2 = Some true ∧
  bimap.ne example.p0.1 example.q0.1 example.q0.2 = Some false ∧
  bimap.eq example.p0.1 example.p0.1 example.q0.2 = Some true.
Proof.
  split; [exact p0_inv_later|].
  split; [exact (reachable_inv _ _ q0_reachable)|].
  split; [vm_compute; reflexivity|]. split; [vm_compute; reflexivity|].
  destruct (eq_is_lockstep_equivalence example.q0.2 example.p0.1 example.q0.1
              p0_inv_later (reachable_inv _ _ q0_reachable))
    as (ps & qs & Hps & Hqs & Heq & Hne & Hrefl & Hsame).
  destruct (Hsame eq_refl eq_refl) as [Hsym Hperm].
  vm_compute in Hps. injection Hps as <-.
  vm_compute in Hqs. injection Hqs as <-.
  specialize (Hperm (reflexivity _)).
  split; [exact Hperm|]. split; [by rewrite Hsym|].
  split; [|exact Hrefl]. unfold bimap.ne. by rewrite Hperm.
Defined.

(** * Two containers in one memory *)

(** ** [intrusive_set::swap] *)

(** [if (sentinel->left) sentinel->left->parent = sentinel;] on a sentinel
    whose left slot holds the root of [t]. *)
Lemma reparent_root m s ns t q :
  m !! s = Some ns → left ns = root t → shape m q t →
  NoDup (elements t) → s ∉ elements t →
  ∃ m',
    (∀ B (k : cmd links B),
       (let* a := get_left (Some s) in
        (if non_null a then put_parent a (Some s) else ret tt);; k) m = k m') ∧
    shape m' (Some s) t ∧
    (∀ x, x ∉ elements t → m' !! x = m !! x) ∧
    (∀ x, is_Some (m' !! x) ↔ is_Some (m !! x)).
Proof.
  intros Hs Hl Hsh Hnd Hnin. destruct t as [|l y r].
  - exists m. split; [|done]. intros B k.
    erewrite bind_Some; [|apply get_left_Some; exact Hs]. by rewrite Hl.
  - destruct (shape_Br_inv _ _ _ _ _ Hsh) as (ny & Hy & _).
    exists (<[y := with_parent (Some s) ny]> m). split; [|split; [|split]].
    + intros B k. erewrite bind_Some; [|apply get_left_Some; exact Hs].
      rewrite Hl. cbn [root non_null].
      erewrite bind_Some; [done|]. by apply store_Some.
    + by eapply shape_reparent.
    + intros x Hx. apply lookup_insert_ne. set_solver.
    + intros x. destruct (decide (x = y)) as [->|Hne].
      * rewrite lookup_insert_eq, Hy. split; eauto.
      * by rewrite lookup_insert_ne.
Qed.

Lemma set_swap_spec {K} (g : addr → option K) (self other : intrusive_set.t K)
    m sa sb ta tb :
  intrusive_set.sentinel self = Some sa →
  intrusive_set.sentinel other = Some sb →
  tree_inv g (intrusive_set.compare self) m sa ta →
  tree_inv g (intrusive_set.compare other) m sb tb →
  (sa :: elements ta) ## (sb :: elements tb) →
  ∃ m',
    intrusive_set.swap self other m
    = Some ((intrusive_set.mk (intrusive_set.compare other) (Some sa),
             intrusive_set.mk (intrusive_set.compare self) (Some sb)), m') ∧
    tree_inv g (intrusive_set.compare other) m' sa tb ∧
    tree_inv g (intrusive_set.compare self) m' sb ta ∧
    (∀ x, x ∉ (sa :: elements ta) ++ (sb :: elements tb) → m' !! x = m !! x) ∧
    (∀ x, is_Some (m' !! x) ↔ is_Some (m !! x)).
Proof.
  intros Hsa Hsb (HsA & HshA & HndA & HninA & HkA & HsoA)
    (HsB & HshB & HndB & HninB & HkB & HsoB) Hdisj.
  destruct (m !! sa) as [nsa|] eqn:Esa; [|done]. destruct HsA as [HlA HrA].
  destruct (m !! sb) as [nsb|] eqn:Esb; [|done]. destruct HsB as [HlB HrB].
  assert (sa ≠ sb) as Hne by (intros ->; apply (Hdisj sb); set_solver).
  assert (sa ∉ elements tb) as HsaB by (intros ?; apply (Hdisj sa); set_solver).
  assert (sb ∉ elements ta) as HsbA by (intros ?; apply (Hdisj sb); set_solver).
  assert (∀ x, x ∈ elements ta → x ∉ elements tb) as HAB.
  { intros x ? ?. apply (Hdisj x); set_solver. }
  set (m1 := <[sa := with_left (root tb) nsa]> m).
  set (m2 := <[sb := with_left (root ta) nsb]> m1).
  assert (m2 !! sa = Some (with_left (root tb) nsa)) as E2a.
  { subst m2 m1. by rewrite lookup_insert_ne, lookup_insert_eq. }
  assert (m2 !! sb = Some (with_left (root ta) nsb)) as E2b.
  { subst m2. by rewrite lookup_insert_eq. }
  assert (∀ x, x ≠ sa → x ≠ sb → m2 !! x = m !! x) as Hm2.
  { intros x ? ?. subst m2 m1. by rewrite !lookup_insert_ne. }
  assert (shape m2 (Some sb) tb) as Hsh2B.
  { eapply shape_frame; [|exact HshB]. intros x Hx. apply Hm2; set_solver. }
  assert (shape m2 (Some sa) ta) as Hsh2A.
  { eapply shape_frame; [|exact HshA]. intros x Hx. apply Hm2; set_solver. }
  destruct (reparent_root m2 sa _ tb (Some sb) E2a eq_refl Hsh2B HndB HsaB)
    as (m3 & Hk3 & Hsh3B & Hfr3 & Hdom3).
  assert (m3 !! sb = Some (with_left (root ta) nsb)) as E3b.
  { by rewrite Hfr3. }
  assert (shape m3 (Some sa) ta) as Hsh3A.
  { eapply shape_frame; [|exact Hsh2A]. intros x Hx. apply Hfr3. by apply HAB. }
  destruct (reparent_root m3 sb _ ta (Some sa) E3b eq_refl Hsh3A HndA HsbA)
    as (m4 & Hk4 & Hsh4A & Hfr4 & Hdom4).
  assert (shape m4 (Some sa) tb) as Hsh4B.
  { eapply shape_frame; [|exact Hsh3B]. intros x Hx. apply Hfr4.
    intros ?. by apply (HAB x). }
  exists m4. split; [|split; [|split; [|split]]].
  - unfold intrusive_set.swap. rewrite Hsa, Hsb.
    exec_left Esa. exec_left Esb.
    exec_with ltac:(apply store_Some; exact Esa). fold m1.
    exec_with ltac:(apply store_Some; subst m1; rewrite lookup_insert_ne by done;
                    exact Esb).
    fold m2. rewrite HlA, HlB. rewrite Hk3, Hk4. done.
  - unfold tree_inv. rewrite Hfr4, Hfr3, E2a by done. cbn. done.
  - unfold tree_inv. rewrite Hfr4, E3b by done. cbn. done.
  - intros x Hx. rewrite Hfr4, Hfr3 by set_solver. apply Hm2; set_solver.
  - intros x. rewrite Hdom4, Hdom3. subst m2 m1.
    destruct (decide (x = sb)) as [->|?];
      [rewrite lookup_insert_eq, Esb; split; eauto|].
    rewrite lookup_insert_ne by done.
    destruct (decide (x = sa)) as [->|?];
      [rewrite lookup_insert_eq, Esa; split; eauto|].
    by rewrite lookup_insert_ne.
Qed.

(** ** [bimap::swap], and what a mutator of one container leaves alone *)

Section two_containers.
  Context {left_t right_t : Type}.
  Abbreviation mem := (bimap.mem left_t right_t).
  Abbreviation bimap := (bimap.t left_t right_t).
  Implicit Types (mm : mem) (a b : bimap) (tl tr : tree).

  Abbreviation gL mm := (bimap.get_key tag_for_left mm).
  Abbreviation gR mm := (bimap.get_key tag_for_right mm).
  Abbreviation cmpL b := (intrusive_set.compare (bimap.left_set b)).
  Abbreviation cmpR b := (intrusive_set.compare (bimap.right_set b)).

Lemma swap_spec mm a b tla tra tlb trb :
    inv_with mm a tla tra → inv_with mm b tlb trb →
    (bimap.sentinel a :: elements tla) ## (bimap.sentinel b :: elements tlb) →
    ∃ a' b' mm',
      bimap.swap a b mm = Some ((a', b'), mm') ∧
      bimap.sentinel a' = bimap.sentinel a ∧ bimap.sentinel b' = bimap.sentinel b ∧
      bimap.m_size a' = bimap.m_size b ∧ bimap.m_size b' = bimap.m_size a ∧
      cmpL a' = cmpL b ∧ cmpR a' = cmpR b ∧ cmpL b' = cmpL a ∧ cmpR b' = cmpR a ∧
      inv_with mm' a' tlb trb ∧ inv_with mm' b' tla tra ∧
      bimap.records mm' = bimap.records mm ∧
      (∀ x, x ∉ (bimap.sentinel a :: elements tla) ++ (bimap.sentinel b :: elements tlb) →
            bimap.lnodes mm' !! x = bimap.lnodes mm !! x ∧
            bimap.rnodes mm' !! x = bimap.rnodes mm !! x) ∧
      (∀ x, is_Some (bimap.lnodes mm' !! x) ↔ is_Some (bimap.lnodes mm !! x)) ∧
      (∀ x, is_Some (bimap.rnodes mm' !! x) ↔ is_Some (bimap.rnodes mm !! x)).
  Proof.
    intros HA HB Hdisj.
    apply inv_with_sides in HA as ([HsLa HLa] & [HsRa HRa] & Hpa & Hsza & Hba).
    apply inv_with_sides in HB as ([HsLb HLb] & [HsRb HRb] & Hpb & Hszb & Hbb).
    cbn [bimap.set bimap.nodes] in *.
    destruct (set_swap_spec (gL mm) _ _ _ _ _ _ _ HsLa HsLb HLa HLb Hdisj)
      as (l' & Hswl & HLa' & HLb' & Hfrl & Hdoml).
    assert ((bimap.sentinel a :: elements tra) ## (bimap.sentinel b :: elements trb))
      as Hdisj'.
    { intros x Hx Hy. apply (Hdisj x).
      - apply elem_of_cons in Hx as [->|Hx]; [set_solver|].
        rewrite <-Hpa in Hx. set_solver.
      - apply elem_of_cons in Hy as [->|Hy]; [set_solver|].
        rewrite <-Hpb in Hy. set_solver. }
    destruct (set_swap_spec (gR mm) _ _ _ _ _ _ _ HsRa HsRb HRa HRb Hdisj')
      as (r' & Hswr & HRa' & HRb' & Hfrr & Hdomr).
    eexists _, _, (bimap.mk_mem l' r' (bimap.records mm)).
    split.
    { unfold bimap.swap.
      erewrite bind_Some; [|apply on_left_Some; exact Hswl]. cbv beta iota.
      erewrite bind_Some; [|apply on_right_Some; exact Hswr]. cbv beta iota.
      reflexivity. }
    cbn [bimap.sentinel bimap.m_size bimap.left_set bimap.right_set
           intrusive_set.compare bimap.records bimap.lnodes bimap.rnodes].
    do 8 (split; [done|]).
    split.
    { apply inv_with_sides. split; [by split|]. split; [by split|]. done. }
    split.
    { apply inv_with_sides. split; [by split|]. split; [by split|]. done. }
    split; [done|]. split; [|done].
    intros x Hx. split; [by apply Hfrl|]. apply Hfrr.
    intros Hin. apply Hx.
    apply elem_of_app in Hin as [Hin|Hin]; apply elem_of_app; [left|right];
      (apply elem_of_cons in Hin as [->|Hin]; [set_solver|]);
      apply elem_of_cons; right; [by rewrite Hpa|by rewrite Hpb].
  Qed.

  (** [insert] of a pair whose keys are not in [b]: the new record is at an
      address that held nothing, and the memory changes at that address and
      at the addresses of [b] only. *)
Lemma insert_absent_frame mm b tl tr (l : left_t) (r : right_t)
      (HswoL : StrictWeakOrder (cmpL b)) (HswoR : StrictWeakOrder (cmpR b)) :
    inv_with mm b tl tr → (bimap.m_size b + 1 < size_t_modulus)%Z →
    (∀ x, x ∈ elements tl → matches (gL mm) (cmpL b) l x = false) →
    (∀ x, x ∈ elements tr → matches (gR mm) (cmpR b) r x = false) →
    ∃ (a : addr) mm' tl' tr',
      let b' := bimap.with_size (size_t_succ (bimap.m_size b)) b in
      bimap.insert b l r mm = Some ((bimap.mk_iterator (Some a), b'), mm') ∧
      inv_with mm' b' tl' tr' ∧
      elements tl' ≡ₚ a :: elements tl ∧
      bimap.lnodes mm !! a = None ∧ bimap.rnodes mm !! a = None ∧
      bimap.records mm !! a = None ∧
      bimap.records mm' = <[a := bimap.mk_storage_node l r]> (bimap.records mm) ∧
      (∀ x, x ∉ a :: bimap.sentinel b :: elements tl →
            bimap.lnodes mm' !! x = bimap.lnodes mm !! x ∧
            bimap.rnodes mm' !! x = bimap.rnodes mm !! x).
  Proof.
    intros Hinv Hbound HabsL HabsR.
    destruct (insert_absent mm b tl tr l r Hinv HabsL HabsR)
      as (mm' & Hins & Hrec & HL' & HR' & HfrL & HfrR & _).
    set (a := fresh (dom (bimap.lnodes mm) ∪ dom (bimap.rnodes mm)
                     ∪ dom (bimap.records mm))) in *.
    pose proof (is_fresh (dom (bimap.lnodes mm) ∪ dom (bimap.rnodes mm)
                          ∪ dom (bimap.records mm))) as Hf. fold a in Hf.
    pose proof (proj1 (inv_with_sides _ _ _ _) Hinv) as (_ & _ & Hperm & Hsize & _).
    eexists a, mm', _, _. cbn zeta. split; [exact Hins|]. split.
    { apply inv_with_sides. split; [exact HL'|]. split; [exact HR'|].
      split; [by rewrite !tins_perm, Hperm|].
      cbn [bimap.m_size bimap.with_size]. rewrite size_t_succ_small by lia.
      rewrite tins_perm. cbn [length]. split; lia. }
    split; [apply tins_perm|].
    split; [apply not_elem_of_dom; set_solver|].
    split; [apply not_elem_of_dom; set_solver|].
    split; [apply not_elem_of_dom; set_solver|].
    split; [done|].
    intros x Hx. split.
    - apply HfrL; set_solver.
    - apply HfrR; [set_solver..|]. rewrite <-Hperm. set_solver.
  Qed.

  (** [erase_left] and [erase_right] change the memory at the addresses of
      their container only. *)
Lemma erase_side_frame T mm b tl tr pre (a : addr) post :
    inv_with mm b tl tr →
    elements (match T with tag_for_left => tl | tag_for_right => tr end)
    = pre ++ a :: post →
    ∃ mm',
      let b' := bimap.with_size (size_t_pred (bimap.m_size b)) b in
      erase_side T b (bimap.mk_iterator (Some a)) mm
      = Some ((bimap.mk_iterator (cursor_at (Some (bimap.sentinel b)) post), b'), mm') ∧
      inv_with mm' b' (tdelete a tl) (tdelete a tr) ∧
      elements (tdelete a (match T with tag_for_left => tl | tag_for_right => tr end))
      = pre ++ post ∧
      bimap.m_size b' = (bimap.m_size b - 1)%Z ∧
      bimap.records mm' = delete a (bimap.records mm) ∧
      bimap.lnodes mm' !! a = None ∧ bimap.rnodes mm' !! a = None ∧
      (∀ x, x ∉ bimap.sentinel b :: elements tl →
            bimap.lnodes mm' !! x = bimap.lnodes mm !! x ∧
            bimap.rnodes mm' !! x = bimap.rnodes mm !! x).
  Proof.
    intros Hinv E.
    pose proof (proj1 (inv_with_sides _ _ _ _) Hinv) as (HL & HR & Hperm & Hsize & Hbound).
    destruct T.
    - destruct (erase_side_spec tag_for_left mm b tl tr pre a post HL HR Hperm E)
        as (mm' & pre' & post' & Herase & E' & HL' & HR' & El & El' & Hrec
            & Ha & Ha' & Hfr & Hfr' & _).
      assert (a ∈ elements tl) as Hin by (rewrite E; set_solver).
      destruct (erase_left_inv_with mm b tl tr a _ _ _ Hinv Hin Herase)
        as (_ & _ & Hinv').
      exists mm'. cbn zeta. split; [exact Herase|]. split; [exact Hinv'|].
      split; [exact El|]. split.
      { cbn [bimap.m_size bimap.with_size]. apply size_t_pred_pos.
        rewrite E, length_app in Hsize. cbn [length] in Hsize. lia. }
      split; [exact Hrec|]. split; [exact Ha|]. split; [exact Ha'|].
      intros x Hx. split; [apply Hfr; set_solver|apply Hfr'; set_solver].
    - destruct (erase_side_spec tag_for_right mm b tr tl pre a post HR HL
                  (symmetry Hperm) E)
        as (mm' & pre' & post' & Herase & E' & HR' & HL' & Er & El' & Hrec
            & Ha & Ha' & Hfr & Hfr' & _).
      assert (a ∈ elements tr) as Hin by (rewrite E; set_solver).
      destruct (erase_right_inv_with mm b tl tr a _ _ _ Hinv Hin Herase)
        as (_ & _ & Hinv').
      exists mm'. cbn zeta. split; [exact Herase|]. split; [exact Hinv'|].
      split; [exact Er|]. split.
      { cbn [bimap.m_size bimap.with_size]. apply size_t_pred_pos.
        rewrite Hperm, E, length_app in Hsize. cbn [length] in Hsize. lia. }
      split; [exact Hrec|]. split; [exact Ha'|]. split; [exact Ha|].
      intros x Hx.
      assert (x ∉ elements tr) by (rewrite <-Hperm; set_solver).
      split; [apply Hfr'; set_solver|apply Hfr; set_solver].
  Qed.

End two_containers.

(** ** The copy constructor *)

Lemma omap_agree {A B} (f g : A → option B) (l : list A) :
  (∀ x, x ∈ l → f x = g x) → omap f l = omap g l.
Proof.
  intros H. apply list_omap_ext. induction l as [|x l IH]; [constructor|].
  constructor; [apply H; set_solver|]. apply IH. intros. apply H. set_solver.
Qed.

Lemma omap_Forall2 {A B} (f : A → option B) (l : list A) (k : list B) :
  Forall2 (λ x p, f x = Some p) l k → omap f l = k.
Proof.
  induction 1 as [|x p l k Hx _ IH]; [done|]. cbn. by rewrite Hx, IH.
Qed.

Lemma omap_length_keyed {A B} (f : A → option B) (l : list A) :
  (∀ x, x ∈ l → is_Some (f x)) → length (omap f l) = length l.
Proof.
  induction l as [|x l IH]; intros H; [done|]. cbn.
  destruct (H x) as [y ->]; [set_solver|]. cbn. rewrite IH; [done|].
  intros. apply H. set_solver.
Qed.

Section copy.
  Context {left_t right_t : Type}.
  Abbreviation mem := (bimap.mem left_t right_t).
  Abbreviation bimap := (bimap.t left_t right_t).
  Implicit Types (mm : mem) (b c o : bimap) (tl tr : tree).

  Abbreviation gL mm := (bimap.get_key tag_for_left mm).
  Abbreviation gR mm := (bimap.get_key tag_for_right mm).
  Abbreviation cmpL b := (intrusive_set.compare (bimap.left_set b)).
  Abbreviation cmpR b := (intrusive_set.compare (bimap.right_set b)).

Lemma pair_of_agree mm mm' (x : addr) :
    bimap.records mm' !! x = bimap.records mm !! x → pair_of mm' x = pair_of mm x.
  Proof. unfold pair_of. by intros ->. Qed.

Lemma omap_pairs mm tl ps :
    mapM (pair_of mm) (elements tl) = Some ps →
    omap (pair_of mm) (elements tl) = ps.
  Proof. intros H. apply omap_Forall2. by apply mapM_Some. Qed.

  (** The addresses of a container hold nodes. *)
Lemma inv_with_allocated mm b tl tr (x : addr) :
    inv_with mm b tl tr → x ∈ bimap.sentinel b :: elements tl →
    is_Some (bimap.lnodes mm !! x).
  Proof.
    intros Hinv Hx. apply inv_with_left in Hinv as [_ Hinv].
    by eapply tree_inv_lookup.
  Qed.

  (** No two records of a container have equivalent left keys, nor
      equivalent right keys. *)
Lemma inv_with_distinct_keys mm b tl tr (x y : addr) p q
      (HswoL : StrictWeakOrder (cmpL b)) (HswoR : StrictWeakOrder (cmpR b)) :
    inv_with mm b tl tr → x ∈ elements tl → y ∈ elements tl → x ≠ y →
    pair_of mm x = Some p → pair_of mm y = Some q →
    equiv_under (cmpL b) p.1 q.1 = false ∧ equiv_under (cmpR b) p.2 q.2 = false.
  Proof.
    intros Hinv Hx Hy Hne [Hxl Hxr]%pair_of_Some [Hyl Hyr]%pair_of_Some.
    pose proof (proj1 (inv_with_sides _ _ _ _) Hinv) as (HL & HR & Hperm & _).
    split.
    - pose proof Hx as Hx'. apply list_elem_of_split in Hx' as (pre & post & E).
      pose proof (side_matches_unique tag_for_left mm b tl pre x post p.1 HL E) as H.
      unfold matches in H. cbn [bimap.key bimap.set] in H.
      rewrite Hxl in H. specialize (H (equiv_under_refl _ _) y).
      rewrite Hyl in H. apply H. rewrite E in Hy. set_solver.
    - assert (x ∈ elements tr) as Hx' by (by rewrite <-Hperm).
      apply list_elem_of_split in Hx' as (pre & post & E).
      pose proof (side_matches_unique tag_for_right mm b tr pre x post p.2 HR E) as H.
      unfold matches in H. cbn [bimap.key bimap.set] in H.
      rewrite Hxr in H. specialize (H (equiv_under_refl _ _) y).
      rewrite Hyr in H. apply H.
      assert (y ∈ elements tr) as Hy' by (by rewrite <-Hperm).
      rewrite E in Hy'. set_solver.
  Qed.

  Section loop.
    Variables (mm0 : mem) (o : bimap) (tlo tro : tree).
    Hypothesis HswoL : StrictWeakOrder (cmpL o).
    Hypothesis HswoR : StrictWeakOrder (cmpR o).
    Hypothesis Ho : inv_with mm0 o tlo tro.

Lemma copy_loop_spec suf :
      ∀ pre fuel mm c tl tr,
        elements tlo = pre ++ suf →
        length suf < fuel →
        inv_with mm c tl tr → cmpL c = cmpL o → cmpR c = cmpR o →
        bimap.sentinel c ∉ bimap.sentinel o :: elements tlo →
        (∀ x, x ∈ elements tl →
              bimap.lnodes mm0 !! x = None ∧ bimap.rnodes mm0 !! x = None ∧
              bimap.records mm0 !! x = None) →
        (∀ x, x ∉ bimap.sentinel c :: elements tl →
              bimap.lnodes mm !! x = bimap.lnodes mm0 !! x ∧
              bimap.rnodes mm !! x = bimap.rnodes mm0 !! x ∧
              bimap.records mm !! x = bimap.records mm0 !! x) →
        omap (pair_of mm) (elements tl) ≡ₚ omap (pair_of mm0) pre →
        ∃ c' mm' tl' tr',
          bimap.copy_loop fuel o c
            (bimap.mk_iterator (cursor_at (Some (bimap.sentinel o)) suf)) mm
          = Some (c', mm') ∧
          inv_with mm' c' tl' tr' ∧
          bimap.sentinel c' = bimap.sentinel c ∧
          cmpL c' = cmpL o ∧ cmpR c' = cmpR o ∧
          (∀ x, x ∈ elements tl' →
                bimap.lnodes mm0 !! x = None ∧ bimap.rnodes mm0 !! x = None ∧
                bimap.records mm0 !! x = None) ∧
          (∀ x, x ∉ bimap.sentinel c :: elements tl' →
                bimap.lnodes mm' !! x = bimap.lnodes mm0 !! x ∧
                bimap.rnodes mm' !! x = bimap.rnodes mm0 !! x ∧
                bimap.records mm' !! x = bimap.records mm0 !! x) ∧
          omap (pair_of mm') (elements tl') ≡ₚ omap (pair_of mm0) (elements tlo).
    Proof.
      pose proof (end_left_spec _ _ _ _ Ho) as Hend.
      induction suf as [|z suf IH];
        intros pre fuel mm c tl tr E Hfuel Hc EcL EcR Hsep Hfresh Hframe Hpairs.
      { destruct fuel; [cbn in Hfuel; lia|].
        exists c, mm, tl, tr. cbn [bimap.copy_loop cursor_at]. rewrite Hend.
        rewrite iterator_ne_false by done.
        rewrite app_nil_r in E. rewrite E. done. }
      destruct fuel as [|fuel]; [cbn in Hfuel; lia|].
      (* the other container is where it was *)
      assert (∀ x, x ∈ bimap.sentinel o :: elements tlo →
                x ∉ bimap.sentinel c :: elements tl) as Hapart.
      { intros x Hx [->|Hx']%elem_of_cons; [done|].
        destruct (inv_with_allocated _ _ _ _ x Ho Hx) as [n Hn].
        destruct (Hfresh x Hx') as (Hnone & _). congruence. }
      assert (inv_with mm o tlo tro) as Hok.
      { apply (inv_with_frame mm0); [|done].
        intros x Hx. apply Hframe. by apply Hapart. }
      pose proof (proj1 (inv_with_sides _ _ _ _) Hok) as (HLo & HRo & Hpo & Hso & Hbo).
      pose proof (proj1 (inv_with_sides _ _ _ _) Hc) as (HLc & HRc & Hpc & Hsc & Hbc).
      assert (z ∈ elements tlo) as Hz by (rewrite E; set_solver).
      assert (z ≠ bimap.sentinel o) as Hzs.
      { intros ->. by apply HLo in Hz. }
      destruct (side_inv_keyed _ _ _ _ z HLo Hz) as [rec Hrec].
      assert (pair_of mm z = Some (bimap.left_key rec, bimap.right_key rec)) as Hpz.
      { unfold pair_of. by rewrite Hrec. }
      assert (∀ y, y ∈ elements tlo → pair_of mm y = pair_of mm0 y) as Hsame.
      { intros y Hy. apply pair_of_agree. apply Hframe, Hapart. set_solver. }
      (* the keys of the copy so far are keys of earlier records *)
      assert (∀ x, x ∈ elements tl →
                ∃ y p, y ∈ pre ∧ pair_of mm y = Some p ∧ pair_of mm x = Some p)
        as Hearlier.
      { intros x Hx.
        destruct (side_inv_keyed _ _ _ _ x HLc Hx) as [rx Hrx].
        assert (pair_of mm x = Some (bimap.left_key rx, bimap.right_key rx)) as Hpx.
        { unfold pair_of. by rewrite Hrx. }
        assert ((bimap.left_key rx, bimap.right_key rx)
                  ∈ omap (pair_of mm) (elements tl)) as Hin.
        { apply list_elem_of_omap. eauto. }
        rewrite Hpairs in Hin. apply list_elem_of_omap in Hin as (y & Hy & Hpy).
        exists y, (bimap.left_key rx, bimap.right_key rx).
        split; [done|]. split; [|done]. rewrite Hsame; [done|]. rewrite E. set_solver. }
      assert (NoDup (elements tlo)) as Hndo by apply HLo.
      assert (∀ y, y ∈ pre → y ≠ z ∧ y ∈ elements tlo) as Hprez.
      { intros y Hy. split; [|rewrite E; set_solver].
        rewrite E in Hndo. apply NoDup_app in Hndo as (_ & Hd & _).
        intros ->. apply (Hd z Hy). set_solver. }
      assert (StrictWeakOrder (cmpL c)) as HswoLc by (by rewrite EcL).
      assert (StrictWeakOrder (cmpR c)) as HswoRc by (by rewrite EcR).
      destruct (insert_absent_frame mm c tl tr (bimap.left_key rec)
                  (bimap.right_key rec) HswoLc HswoRc Hc)
        as (a & mm1 & tl1 & tr1 & Hins & Hc1 & Hperm1 & HaL & HaR & HaK & Hrec1 & Hfr1).
      { (* the size does not wrap *)
        assert (length (elements tl) = length pre) as Hlen.
        { apply Permutation_length in Hpairs.
          rewrite !omap_length_keyed in Hpairs; [done| |].
          - intros y Hy. unfold pair_of. apply fmap_is_Some.
            apply (side_inv_keyed tag_for_left mm0 o tlo).
            + by eapply inv_with_left.
            + by apply Hprez.
          - intros x Hx. unfold pair_of. apply fmap_is_Some.
            by apply (side_inv_keyed tag_for_left mm c tl). }
        rewrite E, length_app in Hso. cbn [length] in Hso. lia. }
      { intros x Hx. destruct (Hearlier x Hx) as (y & p & Hy & Hpy & Hpx).
        destruct (Hprez y Hy) as [Hyz Hyo].
        destruct (inv_with_distinct_keys mm o tlo tro z y _ p HswoL HswoR Hok Hz Hyo
                    (not_eq_sym Hyz) Hpz Hpy) as [Hl _].
        apply pair_of_Some in Hpx as [Hxl _].
        unfold matches. cbn [bimap.key] in *. by rewrite Hxl, EcL. }
      { intros x Hx. rewrite <-Hpc in Hx.
        destruct (Hearlier x Hx) as (y & p & Hy & Hpy & Hpx).
        destruct (Hprez y Hy) as [Hyz Hyo].
        destruct (inv_with_distinct_keys mm o tlo tro z y _ p HswoL HswoR Hok Hz Hyo
                    (not_eq_sym Hyz) Hpz Hpy) as [_ Hr].
        apply pair_of_Some in Hpx as [_ Hxr].
        unfold matches. cbn [bimap.key] in *. by rewrite Hxr, EcR. }
      cbn zeta in Hins.
      set (c1 := bimap.with_size (size_t_succ (bimap.m_size c)) c) in *.
      (* the new address was not in use *)
      assert (a ∉ bimap.sentinel c :: elements tl) as Hac.
      { intros Hin. destruct (inv_with_allocated _ _ _ _ a Hc Hin) as [n Hn].
        congruence. }
      assert (∀ x, x ∈ bimap.sentinel o :: elements tlo → x ≠ a) as Hoa.
      { intros x Hx ->. destruct (inv_with_allocated _ _ _ _ a Hok Hx) as [n Hn].
        congruence. }
      assert (∀ x, x ≠ a → bimap.records mm1 !! x = bimap.records mm !! x) as Hrec1'.
      { intros x Hx. rewrite Hrec1. by apply lookup_insert_ne. }
      assert (inv_with mm1 o tlo tro) as Hok1.
      { apply (inv_with_frame mm); [|done]. intros x Hx.
        pose proof (Hoa x Hx). pose proof (Hapart x Hx).
        destruct (Hfr1 x) as [? ?]; [set_solver|]. split; [done|]. split; [done|].
        by apply Hrec1'. }
      (* the step *)
      destruct (IH (pre ++ [z]) fuel mm1 c1 tl1 tr1) as
        (c' & mm' & tl' & tr' & Hloop & Hc' & Hs' & EcL' & EcR' & Hfresh' & Hframe'
         & Hpairs'); try done.
      { by rewrite <-app_assoc. }
      { cbn in Hfuel. lia. }
      { intros x Hx. rewrite Hperm1 in Hx. apply elem_of_cons in Hx as [->|Hx].
        - destruct (Hframe a Hac) as (<- & <- & <-). done.
        - by apply Hfresh. }
      { intros x Hx.
        assert (x ∉ a :: bimap.sentinel c :: elements tl) as Hx'.
        { intros [->|Hin]%elem_of_cons.
          - apply Hx. apply elem_of_cons. right. rewrite Hperm1. set_solver.
          - apply Hx. apply elem_of_cons in Hin as [->|Hin]; [set_solver|].
            apply elem_of_cons. right. rewrite Hperm1. set_solver. }
        destruct (Hfr1 x Hx') as [-> ->]. rewrite Hrec1' by set_solver.
        apply Hframe. set_solver. }
      { rewrite Hperm1. cbn [omap list_omap].
        assert (pair_of mm1 a = Some (bimap.left_key rec, bimap.right_key rec)) as ->.
        { unfold pair_of. by rewrite Hrec1, lookup_insert_eq. }
        rewrite omap_app. cbn [omap list_omap].
        rewrite <-(Hsame z Hz), Hpz.
        rewrite (omap_agree (pair_of mm1) (pair_of mm)).
        - rewrite Hpairs. apply Permutation_cons_append.
        - intros x Hx. apply pair_of_agree, Hrec1'. set_solver. }
      exists c', mm', tl', tr'. split; [|done].
      cbn [bimap.copy_loop cursor_at]. rewrite Hend.
      rewrite iterator_ne_true by (cbn; congruence).
      exec_with ltac:(apply query_Some; exact (get_key_left mm z rec Hrec)).
      exec_with ltac:(apply query_Some; exact (get_key_right mm z rec Hrec)).
      exec_with ltac:(exact Hins). cbv beta iota.
      exec_with ltac:(apply query_Some;
                      exact (f_equal (fmap (bimap.mk_iterator (T:=tag_for_left)))
                               (incr_spec _ _ _ _ _ pre z suf
                                  (proj2 (inv_with_left _ _ _ _ Hok1)) E))).
      exact Hloop.
    Qed.

  End loop.

End copy.

Section copy_constructor.
  Context {left_t right_t : Type}.
  Abbreviation mem := (bimap.mem left_t right_t).
  Abbreviation bimap := (bimap.t left_t right_t).
  Implicit Types (mm : mem) (b c o : bimap) (tl tr : tree).

  Abbreviation gL mm := (bimap.get_key tag_for_left mm).
  Abbreviation gR mm := (bimap.get_key tag_for_right mm).
  Abbreviation cmpL b := (intrusive_set.compare (bimap.left_set b)).
  Abbreviation cmpR b := (intrusive_set.compare (bimap.right_set b)).

  (** Two lists of pairs with the same elements, both strictly increasing in
      the left keys, are the same list. *)
Lemma sorted_pairs_unique (cmp : left_t → left_t → bool) `{!StrictWeakOrder cmp}
      (ps qs : list (left_t * right_t)) :
    StronglySorted (λ p q, cmp p.1 q.1 = true) ps →
    StronglySorted (λ p q, cmp p.1 q.1 = true) qs →
    ps ≡ₚ qs → ps = qs.
  Proof.
    intros Hps Hqs Hperm.
    apply (StronglySorted_unique_strong (λ p q, cmp p.1 q.1 = true)); try done.
    intros p q _ _ H1 H2. pose proof (swo_asym cmp p.1 q.1 H1). congruence.
  Qed.

  (** [bimap(const bimap& other)]: the copy is a container of addresses that
      were free, with the comparison objects and the pairs of [other], and
      nothing else in the memory changes. *)
Lemma copy_spec mm o tlo tro pso
      (HswoL : StrictWeakOrder (cmpL o)) (HswoR : StrictWeakOrder (cmpR o)) :
    inv_with mm o tlo tro →
    mapM (pair_of mm) (elements tlo) = Some pso →
    ∃ c mm' tl tr,
      bimap.copy o mm = Some (c, mm') ∧
      inv_with mm' c tl tr ∧
      cmpL c = cmpL o ∧ cmpR c = cmpR o ∧
      bimap.m_size c = bimap.m_size o ∧
      mapM (pair_of mm') (elements tl) = Some pso ∧
      (∀ x, x ∈ bimap.sentinel c :: elements tl →
            bimap.lnodes mm !! x = None ∧ bimap.rnodes mm !! x = None ∧
            bimap.records mm !! x = None) ∧
      (∀ x, x ∉ bimap.sentinel c :: elements tl →
            bimap.lnodes mm' !! x = bimap.lnodes mm !! x ∧
            bimap.rnodes mm' !! x = bimap.rnodes mm !! x ∧
            bimap.records mm' !! x = bimap.records mm !! x).
  Proof.
    intros Ho Hpso.
    set (s := fresh (dom (bimap.lnodes mm) ∪ dom (bimap.rnodes mm)
                     ∪ dom (bimap.records mm))).
    pose proof (is_fresh (dom (bimap.lnodes mm) ∪ dom (bimap.rnodes mm)
                          ∪ dom (bimap.records mm))) as Hf. fold s in Hf.
    assert (bimap.lnodes mm !! s = None ∧ bimap.rnodes mm !! s = None ∧
            bimap.records mm !! s = None) as (HsL & HsR & HsK).
    { split; [|split]; apply not_elem_of_dom; set_solver. }
    set (mm0 := bimap.mk_mem (<[s := node_default]> (bimap.lnodes mm))
                  (<[s := node_default]> (bimap.rnodes mm)) (bimap.records mm)).
    set (c0 := bimap.mk s 0%Z (intrusive_set.mk (cmpL o) (Some s))
                 (intrusive_set.mk (cmpR o) (Some s))).
    assert (bimap.new (cmpL o) (cmpR o) mm = Some (c0, mm0)) as Hnew by done.
    pose proof (new_inv_with _ _ _ _ _ Hnew) as Hc0.
    assert (∀ x, x ≠ s →
              bimap.lnodes mm0 !! x = bimap.lnodes mm !! x ∧
              bimap.rnodes mm0 !! x = bimap.rnodes mm !! x ∧
              bimap.records mm0 !! x = bimap.records mm !! x) as Hfr0.
    { intros x Hx. subst mm0. cbn. by rewrite !lookup_insert_ne. }
    assert (s ∉ bimap.sentinel o :: elements tlo) as Hso.
    { intros Hin. destruct (inv_with_allocated _ _ _ _ s Ho Hin) as [n Hn].
      congruence. }
    assert (inv_with mm0 o tlo tro) as Ho0.
    { apply (inv_with_frame mm); [|done]. intros x Hx. apply Hfr0.
      intros ->. done. }
    destruct (copy_loop_spec mm0 o tlo tro HswoL HswoR Ho0 (elements tlo) []
                (fuel_of (bimap.lnodes mm0)) mm0 c0 Leaf Leaf)
      as (c & mm' & tl & tr & Hloop & Hc & Hs & EcL & EcR & Hfresh & Hframe & Hpairs);
      try done.
    { exact (side_inv_fuel tag_for_left mm0 o tlo (inv_with_left _ _ _ _ Ho0)). }
    { intros x Hx. by apply elem_of_nil in Hx. }
    cbn [bimap.sentinel] in Hframe. change (bimap.sentinel c0) with s in Hs.
    pose proof (inv_with_left _ _ _ _ Hc) as HLc.
    destruct (pairs_exist _ _ _ _ HLc) as [ps Hps].
    assert (ps = pso) as ->.
    { apply (sorted_pairs_unique (cmpL o)).
      - rewrite <-EcL. by eapply side_sorted_pairs.
      - eapply side_sorted_pairs; [by eapply inv_with_left|done].
      - rewrite <-(omap_pairs mm' tl ps Hps), Hpairs.
        rewrite <-(omap_pairs mm tlo pso Hpso).
        erewrite omap_agree; [done|]. intros x Hx. apply pair_of_agree, Hfr0.
        intros ->. apply Hso. set_solver. }
    exists c, mm', tl, tr. split.
    { unfold bimap.copy. erewrite bind_Some; [|exact Hnew].
      pose proof (begin_side tag_for_left mm0 o tlo (inv_with_left _ _ _ _ Ho0)) as Hb.
      erewrite bind_Some;
        [|apply query_Some;
          exact (f_equal (fmap (bimap.mk_iterator (T:=tag_for_left))) Hb)].
      erewrite bind_Some; [|by apply query_Some]. exact Hloop. }
    split; [done|]. split; [done|]. split; [done|]. split.
    { apply inv_with_sides in Hc as (_ & _ & _ & Hsz & _).
      apply inv_with_sides in Ho as (_ & _ & _ & Hszo & _).
      rewrite Hsz, Hszo. f_equal.
      apply mapM_Some, Forall2_length in Hps.
      apply mapM_Some, Forall2_length in Hpso. congruence. }
    split; [done|]. split.
    - intros x [->|Hx]%elem_of_cons; [by rewrite Hs|].
      destruct (Hfresh x Hx) as (H1 & H2 & H3).
      assert (x ≠ s) as Hxs.
      { intros ->. subst mm0. cbn in H1. by rewrite lookup_insert_eq in H1. }
      destruct (Hfr0 x Hxs) as (<- & <- & <-). done.
    - intros x Hx. rewrite Hs in Hx.
      destruct (Hframe x Hx) as (-> & -> & ->). apply Hfr0. set_solver.
  Qed.

End copy_constructor.

(** ** Erasing a range, and the destructor *)

Lemma cursor_at_apart (s : addr) (x : addr) (mid post : list addr) :
  NoDup (x :: mid ++ post) → x ≠ s → Some x ≠ cursor_at (Some s) post.
Proof.
  intros Hnd Hs. destruct post as [|y post]; cbn; [congruence|].
  intros [= ->]. apply NoDup_cons in Hnd as [Hx _]. apply Hx. set_solver.
Qed.

Section ranges.
  Context {left_t right_t : Type}.
  Abbreviation mem := (bimap.mem left_t right_t).
  Abbreviation bimap := (bimap.t left_t right_t).
  Implicit Types (mm : mem) (b c o : bimap) (tl tr : tree).

Lemma erase_left_loop_spec (post mid : list addr) :
    ∀ pre fuel mm b tl tr,
      inv_with mm b tl tr → elements tl = pre ++ mid ++ post →
      length mid < fuel →
      ∃ b' mm' tl' tr',
        bimap.erase_left_loop fuel b
          (bimap.mk_iterator (cursor_at (Some (bimap.sentinel b)) (mid ++ post)))
          (bimap.mk_iterator (cursor_at (Some (bimap.sentinel b)) post)) mm
        = Some (b', mm') ∧
        inv_with mm' b' tl' tr' ∧ elements tl' = pre ++ post ∧
        bimap.sentinel b' = bimap.sentinel b ∧
        bimap.left_set b' = bimap.left_set b ∧
        bimap.right_set b' = bimap.right_set b ∧
        bimap.m_size b' = (bimap.m_size b - Z.of_nat (length mid))%Z ∧
        (∀ x, x ∈ mid →
              bimap.records mm' !! x = None ∧ bimap.lnodes mm' !! x = None ∧
              bimap.rnodes mm' !! x = None) ∧
        (∀ x, x ∉ mid → bimap.records mm' !! x = bimap.records mm !! x) ∧
        (∀ x, x ∉ bimap.sentinel b :: elements tl →
              bimap.lnodes mm' !! x = bimap.lnodes mm !! x ∧
              bimap.rnodes mm' !! x = bimap.rnodes mm !! x).
  Proof.
    induction mid as [|x mid IH]; intros pre fuel mm b tl tr Hinv E Hfuel.
    { destruct fuel; [cbn in Hfuel; lia|].
      exists b, mm, tl, tr. cbn [bimap.erase_left_loop app].
      rewrite iterator_ne_false by done. cbn [length].
      do 6 (split; [done|]). split; [lia|]. split; [|done].
      intros x Hx. by apply elem_of_nil in Hx. }
    destruct fuel as [|fuel]; [cbn in Hfuel; lia|].
    pose proof (inv_with_left _ _ _ _ Hinv) as HL.
    assert (NoDup (elements tl)) as Hnd by apply HL.
    assert (x ≠ bimap.sentinel b) as Hxs.
    { intros ->. destruct HL as [_ (_ & _ & _ & Hnin & _)]. apply Hnin.
      rewrite E. set_solver. }
    assert (NoDup (x :: mid ++ post)) as Hnd'.
    { rewrite E in Hnd. by apply NoDup_app in Hnd as (_ & _ & Hnd). }
    destruct (erase_side_frame tag_for_left mm b tl tr pre x (mid ++ post) Hinv E)
      as (mm1 & Herase & Hinv1 & El1 & Hsz1 & Hrec1 & HxL & HxR & Hfr1).
    cbn zeta in Herase, Hsz1.
    set (b1 := bimap.with_size (size_t_pred (bimap.m_size b)) b) in *.
    destruct (IH pre fuel mm1 b1 _ _ Hinv1 El1)
      as (b' & mm' & tl' & tr' & Hloop & Hinv' & El' & Hs' & HsetL & HsetR & Hsz'
          & Hgone & Hkeep & Hfr'); [cbn in Hfuel; lia|].
    assert (x ∉ mid) as Hxmid.
    { apply NoDup_cons in Hnd' as [Hx _]. set_solver. }
    exists b', mm', tl', tr'. split.
    { cbn [bimap.erase_left_loop app cursor_at].
      rewrite iterator_ne_true.
      2:{ cbn [bimap.it]. by eapply cursor_at_apart. }
      erewrite bind_Some; [|exact Herase]. exact Hloop. }
    split; [done|]. split; [done|]. split; [done|]. split; [done|].
    split; [done|]. split.
    { rewrite Hsz', Hsz1. cbn [length]. lia. }
    split; [|split].
    - intros y [->|Hy]%elem_of_cons; [|by apply Hgone].
      split.
      { rewrite (Hkeep x Hxmid), Hrec1. apply lookup_delete_eq. }
      destruct (Hfr' x) as [-> ->]; [|done].
      change (bimap.sentinel b1) with (bimap.sentinel b). rewrite El1.
      intros [?|Hin]%elem_of_cons; [done|].
      rewrite E in Hnd. apply NoDup_app in Hnd as (_ & Hd & Hnd).
      apply NoDup_cons in Hnd as [Hx _].
      apply elem_of_app in Hin as [Hin|Hin]; [|done].
      apply (Hd x Hin). set_solver.
    - intros y Hy. rewrite Hkeep by set_solver. rewrite Hrec1.
      apply lookup_delete_ne. set_solver.
    - intros y Hy. destruct (Hfr1 y Hy) as [<- <-]. apply Hfr'.
      change (bimap.sentinel b1) with (bimap.sentinel b).
      intros [->|Hin]%elem_of_cons; [set_solver|].
      apply Hy. apply elem_of_cons. right. by eapply tdelete_subseteq.
  Qed.

Lemma erase_right_loop_spec (post mid : list addr) :
    ∀ pre fuel mm b tl tr,
      inv_with mm b tl tr → elements tr = pre ++ mid ++ post →
      length mid < fuel →
      ∃ b' mm' tl' tr',
        bimap.erase_right_loop fuel b
          (bimap.mk_iterator (cursor_at (Some (bimap.sentinel b)) (mid ++ post)))
          (bimap.mk_iterator (cursor_at (Some (bimap.sentinel b)) post)) mm
        = Some (b', mm') ∧
        inv_with mm' b' tl' tr' ∧ elements tr' = pre ++ post ∧
        bimap.sentinel b' = bimap.sentinel b ∧
        bimap.left_set b' = bimap.left_set b ∧
        bimap.right_set b' = bimap.right_set b ∧
        bimap.m_size b' = (bimap.m_size b - Z.of_nat (length mid))%Z ∧
        (∀ x, x ∈ mid →
              bimap.records mm' !! x = None ∧ bimap.lnodes mm' !! x = None ∧
              bimap.rnodes mm' !! x = None) ∧
        (∀ x, x ∉ mid → bimap.records mm' !! x = bimap.records mm !! x) ∧
        (∀ x, x ∉ bimap.sentinel b :: elements tl →
              bimap.lnodes mm' !! x = bimap.lnodes mm !! x ∧
              bimap.rnodes mm' !! x = bimap.rnodes mm !! x).
  Proof.
    induction mid as [|x mid IH]; intros pre fuel mm b tl tr Hinv E Hfuel.
    { destruct fuel; [cbn in Hfuel; lia|].
      exists b, mm, tl, tr. cbn [bimap.erase_right_loop app].
      rewrite iterator_ne_false by done. cbn [length].
      do 6 (split; [done|]). split; [lia|]. split; [|done].
      intros x Hx. by apply elem_of_nil in Hx. }
    destruct fuel as [|fuel]; [cbn in Hfuel; lia|].
    pose proof (inv_with_right _ _ _ _ Hinv) as HR.
    pose proof (proj1 (inv_with_sides _ _ _ _) Hinv) as (_ & _ & Hperm & _).
    assert (NoDup (elements tr)) as Hnd by apply HR.
    assert (x ≠ bimap.sentinel b) as Hxs.
    { intros ->. destruct HR as [_ (_ & _ & _ & Hnin & _)]. apply Hnin.
      rewrite E. set_solver. }
    assert (NoDup (x :: mid ++ post)) as Hnd'.
    { rewrite E in Hnd. by apply NoDup_app in Hnd as (_ & _ & Hnd). }
    destruct (erase_side_frame tag_for_right mm b tl tr pre x (mid ++ post) Hinv E)
      as (mm1 & Herase & Hinv1 & El1 & Hsz1 & Hrec1 & HxL & HxR & Hfr1).
    cbn zeta in Herase, Hsz1.
    set (b1 := bimap.with_size (size_t_pred (bimap.m_size b)) b) in *.
    destruct (IH pre fuel mm1 b1 _ _ Hinv1 El1)
      as (b' & mm' & tl' & tr' & Hloop & Hinv' & El' & Hs' & HsetL & HsetR & Hsz'
          & Hgone & Hkeep & Hfr'); [cbn in Hfuel; lia|].
    assert (x ∉ mid) as Hxmid.
    { apply NoDup_cons in Hnd' as [Hx _]. set_solver. }
    exists b', mm', tl', tr'. split.
    { cbn [bimap.erase_right_loop app cursor_at].
      rewrite iterator_ne_true.
      2:{ cbn [bimap.it]. by eapply cursor_at_apart. }
      erewrite bind_Some; [|exact Herase]. exact Hloop. }
    split; [done|]. split; [done|]. split; [done|]. split; [done|].
    split; [done|]. split.
    { rewrite Hsz', Hsz1. cbn [length]. lia. }
    split; [|split].
    - intros y [->|Hy]%elem_of_cons; [|by apply Hgone].
      split.
      { rewrite (Hkeep x Hxmid), Hrec1. apply lookup_delete_eq. }
      destruct (Hfr' x) as [-> ->]; [|done].
      change (bimap.sentinel b1) with (bimap.sentinel b).
      intros [?|Hin]%elem_of_cons; [done|].
      apply inv_with_sides in Hinv1 as (_ & _ & Hperm1 & _).
      rewrite Hperm1, El1 in Hin.
      rewrite E in Hnd. apply NoDup_app in Hnd as (_ & Hd & Hnd).
      apply NoDup_cons in Hnd as [Hx _].
      apply elem_of_app in Hin as [Hin|Hin]; [|done].
      apply (Hd x Hin). set_solver.
    - intros y Hy. rewrite Hkeep by set_solver. rewrite Hrec1.
      apply lookup_delete_ne. set_solver.
    - intros y Hy. destruct (Hfr1 y Hy) as [<- <-]. apply Hfr'.
      change (bimap.sentinel b1) with (bimap.sentinel b).
      intros [->|Hin]%elem_of_cons; [set_solver|].
      apply Hy. apply elem_of_cons. right. by eapply tdelete_subseteq.
  Qed.

  (** [~bimap()]: every record of the container and its sentinel are
      released; the rest of the memory stays. *)
Lemma destroy_spec mm b tl tr :
    inv_with mm b tl tr →
    ∃ mm',
      bimap.destroy b mm = Some (tt, mm') ∧
      (∀ x, x ∈ bimap.sentinel b :: elements tl →
            bimap.lnodes mm' !! x = None ∧ bimap.rnodes mm' !! x = None) ∧
      (∀ x, x ∈ elements tl → bimap.records mm' !! x = None) ∧
      (∀ x, x ∉ elements tl → bimap.records mm' !! x = bimap.records mm !! x) ∧
      (∀ x, x ∉ bimap.sentinel b :: elements tl →
            bimap.lnodes mm' !! x = bimap.lnodes mm !! x ∧
            bimap.rnodes mm' !! x = bimap.rnodes mm !! x).
  Proof.
    intros Hinv. pose proof (inv_with_left _ _ _ _ Hinv) as HL.
    destruct (erase_left_loop_spec [] (elements tl) [] (fuel_of (bimap.lnodes mm))
                mm b tl tr Hinv)
      as (b' & mm1 & tl' & tr' & Hloop & Hinv' & El' & Hs' & _ & _ & _
          & Hgone & Hkeep & Hfr).
    { by rewrite app_nil_r. }
    { exact (side_inv_fuel tag_for_left mm b tl HL). }
    rewrite app_nil_r in Hloop. cbn [cursor_at] in Hloop.
    eexists. split.
    { unfold bimap.destroy.
      pose proof (begin_side tag_for_left mm b tl HL) as Hb.
      erewrite bind_Some;
        [|apply query_Some;
          exact (f_equal (fmap (bimap.mk_iterator (T:=tag_for_left))) Hb)].
      unfold bimap.erase_left_range. rewrite (end_left_spec _ _ _ _ Hinv).
      rewrite !bind_assoc. erewrite bind_Some; [|by apply query_Some].
      rewrite !bind_assoc. erewrite bind_Some; [|exact Hloop].
      cbn [bind ret]. reflexivity. }
    cbn [bimap.lnodes bimap.rnodes bimap.records].
    split; [|split; [|split]].
    - intros x [->|Hx]%elem_of_cons.
      + by rewrite !lookup_delete_eq.
      + destruct (Hgone x Hx) as (_ & HxL & HxR).
        destruct (decide (x = bimap.sentinel b)) as [->|Hne];
          [by rewrite !lookup_delete_eq|].
        by rewrite !lookup_delete_ne.
    - intros x Hx. by apply Hgone.
    - intros x Hx. by apply Hkeep.
    - intros x Hx. rewrite !lookup_delete_ne by set_solver. by apply Hfr.
  Qed.

End ranges.

(** ** Copy assignment *)

Lemma mapM_agree {A B} (f g : A → option B) (l : list A) :
  (∀ x, x ∈ l → f x = g x) → mapM f l = mapM g l.
Proof.
  induction l as [|x l IH]; intros H; [done|]. cbn.
  rewrite (H x) by set_solver. rewrite IH; [done|]. intros. apply H. set_solver.
Qed.

Section assignment.
  Context {left_t right_t : Type}.
  Abbreviation mem := (bimap.mem left_t right_t).
  Abbreviation bimap := (bimap.t left_t right_t).
  Implicit Types (mm : mem) (b c o : bimap) (tl tr : tree).

  Abbreviation cmpL b := (intrusive_set.compare (bimap.left_set b)).
  Abbreviation cmpR b := (intrusive_set.compare (bimap.right_set b)).

Lemma pairs_agree mm mm' tl :
    (∀ x, x ∈ elements tl → bimap.records mm' !! x = bimap.records mm !! x) →
    mapM (pair_of mm') (elements tl) = mapM (pair_of mm) (elements tl).
  Proof. intros H. apply mapM_agree. intros x Hx. by apply pair_of_agree, H. Qed.

  (** A container whose addresses were free in [mm] is apart from one that
      lives in [mm]. *)
Lemma fresh_apart mm b tl tr (s : addr) (t : tree) :
    inv_with mm b tl tr →
    (∀ x, x ∈ s :: elements t → bimap.lnodes mm !! x = None) →
    (s :: elements t) ## (bimap.sentinel b :: elements tl).
  Proof.
    intros Hinv Hfresh x Hx Hb.
    destruct (inv_with_allocated _ _ _ _ x Hinv Hb) as [n Hn].
    rewrite (Hfresh x Hx) in Hn. done.
  Qed.

Lemma assign_spec mm b o tlb trb tlo tro pso
      (HswoL : StrictWeakOrder (cmpL o)) (HswoR : StrictWeakOrder (cmpR o)) :
    inv_with mm b tlb trb → inv_with mm o tlo tro →
    (bimap.sentinel b :: elements tlb) ## (bimap.sentinel o :: elements tlo) →
    mapM (pair_of mm) (elements tlo) = Some pso →
    ∃ b' mm' tl tr,
      bimap.assign b o mm = Some (b', mm') ∧
      bimap.sentinel b' = bimap.sentinel b ∧
      cmpL b' = cmpL o ∧ cmpR b' = cmpR o ∧
      bimap.m_size b' = bimap.m_size o ∧
      inv_with mm' b' tl tr ∧
      mapM (pair_of mm') (elements tl) = Some pso ∧
      inv_with mm' o tlo tro ∧
      mapM (pair_of mm') (elements tlo) = Some pso ∧
      (∀ x, x ∈ elements tlb → bimap.records mm' !! x = None) ∧
      (bimap.sentinel b' :: elements tl) ## (bimap.sentinel o :: elements tlo).
  Proof.
    intros Hb Ho Hsep Hpso.
    assert (bimap.sentinel o ≠ bimap.sentinel b) as Hne.
    { intros E. apply (Hsep (bimap.sentinel b)); [set_solver|]. rewrite E. set_solver. }
    (* the temporary copy *)
    destruct (copy_spec mm o tlo tro pso HswoL HswoR Ho Hpso)
      as (c & mm1 & tlc & trc & Hcopy & Hc & EcL & EcR & Hszc & Hpc & Hfresh & Hfr1).
    assert ((bimap.sentinel c :: elements tlc) ## (bimap.sentinel b :: elements tlb))
      as Hcb.
    { apply (fresh_apart mm b tlb trb); [done|]. intros x Hx. by apply Hfresh. }
    assert ((bimap.sentinel c :: elements tlc) ## (bimap.sentinel o :: elements tlo))
      as Hco.
    { apply (fresh_apart mm o tlo tro); [done|]. intros x Hx. by apply Hfresh. }
    assert (inv_with mm1 b tlb trb) as Hb1.
    { apply (inv_with_frame mm); [|done]. intros x Hx. apply Hfr1.
      intros Hin. by apply (Hcb x). }
    assert (inv_with mm1 o tlo tro) as Ho1.
    { apply (inv_with_frame mm); [|done]. intros x Hx. apply Hfr1.
      intros Hin. by apply (Hco x). }
    (* the exchange *)
    destruct (swap_spec mm1 c b tlc trc tlb trb Hc Hb1 Hcb)
      as (c' & b' & mm2 & Hswap & Hsc' & Hsb' & Hszc' & Hszb' & EL1 & ER1 & EL2 & ER2
          & Hc2 & Hb2 & Hrec2 & Hfr2 & _).
    assert (inv_with mm2 o tlo tro) as Ho2.
    { apply (inv_with_frame mm1); [|done]. intros x Hx.
      destruct (Hfr2 x) as [-> ->]; [|by rewrite Hrec2].
      intros [Hin|Hin]%elem_of_app; [by apply (Hco x)|by apply (Hsep x)]. }
    (* the temporary goes, with the records the container held *)
    destruct (destroy_spec mm2 c' tlb trb Hc2)
      as (mm3 & Hdestroy & _ & Hgone & Hkeep & Hfr3).
    rewrite Hsc' in Hfr3.
    assert (∀ x, x ∈ bimap.sentinel b :: elements tlc →
              x ∉ bimap.sentinel c :: elements tlb) as Hbc.
    { intros x [->|Hx]%elem_of_cons [Hc'|Hb']%elem_of_cons.
      - apply (Hcb (bimap.sentinel c)); [set_solver|]. rewrite <-Hc'. set_solver.
      - apply inv_with_left in Hb as [_ (_ & _ & _ & Hnin & _)]. done.
      - subst x. apply inv_with_left in Hc as [_ (_ & _ & _ & Hnin & _)]. done.
      - apply (Hcb x); set_solver. }
    assert (inv_with mm3 b' tlc trc) as Hb3.
    { apply (inv_with_frame mm2); [|done]. rewrite Hsb'. intros x Hx.
      pose proof (Hbc x Hx) as Hx'.
      destruct (Hfr3 x Hx') as [-> ->]. rewrite Hkeep by set_solver. done. }
    assert (∀ x, x ∈ bimap.sentinel o :: elements tlo →
              x ∉ bimap.sentinel c :: elements tlb) as Hoc.
    { intros x Hx [->|Hb']%elem_of_cons.
      - apply (Hco (bimap.sentinel c)); set_solver.
      - apply (Hsep x); set_solver. }
    assert (inv_with mm3 o tlo tro) as Ho3.
    { apply (inv_with_frame mm2); [|done]. intros x Hx.
      pose proof (Hoc x Hx) as Hx'.
      destruct (Hfr3 x Hx') as [-> ->]. rewrite Hkeep by set_solver. done. }
    exists b', mm3, tlc, trc. split.
    { unfold bimap.assign. rewrite decide_True by done.
      erewrite bind_Some; [|exact Hcopy].
      erewrite bind_Some; [|exact Hswap]. cbv beta iota.
      erewrite bind_Some; [|exact Hdestroy]. done. }
    split; [done|]. split; [congruence|]. split; [congruence|].
    split; [congruence|]. split; [done|]. split.
    { rewrite <-Hpc. rewrite (pairs_agree mm2 mm3).
      - apply pairs_agree. intros x Hx. by rewrite Hrec2.
      - intros x Hx. apply Hkeep. intros Hin. apply (Hbc x); set_solver. }
    split; [done|]. split.
    { rewrite <-Hpso. rewrite (pairs_agree mm2 mm3).
      - apply pairs_agree. intros x Hx. rewrite Hrec2. apply Hfr1.
        intros Hin. apply (Hco x); set_solver.
      - intros x Hx. apply Hkeep. intros Hin. apply (Hoc x); set_solver. }
    split; [done|].
    rewrite Hsb'. intros x Hx Hxo.
    apply elem_of_cons in Hx as [->|Hx].
    - apply (Hsep (bimap.sentinel b)); set_solver.
    - apply (Hco x); set_solver.
  Qed.

End assignment.

(** ** Construction and assignment from an rvalue *)

Section rvalues.
  Context {left_t right_t : Type}.
  Abbreviation mem := (bimap.mem left_t right_t).
  Abbreviation bimap := (bimap.t left_t right_t).
  Implicit Types (mm : mem) (b c o : bimap) (tl tr : tree).

  Abbreviation cmpL b := (intrusive_set.compare (bimap.left_set b)).
  Abbreviation cmpR b := (intrusive_set.compare (bimap.right_set b)).

  (** Cursors that are apart are addresses that are apart. *)
Lemma cursors_apart (s s' : addr) (l l' : list addr) :
    (Some s :: (Some <$> l)) ## (Some s' :: (Some <$> l')) →
    (s :: l) ## (s' :: l').
  Proof.
    intros H x Hx Hx'. apply (H (Some x)).
    - change (Some x ∈ Some <$> s :: l). by apply list_elem_of_fmap_2.
    - change (Some x ∈ Some <$> s' :: l'). by apply list_elem_of_fmap_2.
  Qed.

Lemma addresses_apart (s s' : addr) (l l' : list addr) :
    (s :: l) ## (s' :: l') →
    (Some s :: (Some <$> l)) ## (Some s' :: (Some <$> l')).
  Proof.
    intros H c Hc Hc'.
    change (c ∈ Some <$> s :: l) in Hc. change (c ∈ Some <$> s' :: l') in Hc'.
    apply list_elem_of_fmap in Hc as (x & -> & Hx).
    apply list_elem_of_fmap in Hc' as (x' & [= <-] & Hx'). by apply (H x).
  Qed.


End rvalues.



(** * Further properties of the code *)

(** ** [operator--] *)

Lemma tmax_last t : tmax t = last (elements t).
Proof.
  induction t as [|l _ a r IHr]; [done|]. rewrite last_elements_Br.
  destruct r as [|r1 y r2]; [done|]. exact IHr.
Qed.

Lemma ascend_from_left_mono f f' m p q :
  intrusive_set.ascend_from_left f m p = Some q → f ≤ f' →
  intrusive_set.ascend_from_left f' m p = Some q.
Proof.
  revert f' p. induction f as [|f IH]; intros f' p; [done|].
  intros H Hle. destruct f' as [|f']; [lia|]. simpl in *.
  destruct (load m p) as [n|]; [|done]. simpl in *.
  destruct (non_null (parent n)); [|done].
  destruct (load m (parent n)) as [nq|]; [|done]. simpl in *.
  case_decide; [|done]. apply IH; [done|lia].
Qed.

Lemma head_elements_Br l x r :
  head (elements (Br l x r)) =
  match l with Leaf => Some x | Br _ _ _ => head (elements l) end.
Proof.
  simpl. destruct l as [|l1 y l2]; [done|].
  apply (head_elements_app (Br l1 y l2)). done.
Qed.

Lemma ascend_leftmost m p t a :
  shape m p t → head (elements t) = Some a →
  ∀ f q, intrusive_set.ascend_from_left f m (root t) = Some q →
         intrusive_set.ascend_from_left (height t + f) m (Some a) = Some q.
Proof.
  revert p. induction t as [|l IHl x r _]; intros p Hs Hhead f q Hq; [done|].
  simpl in Hs. destruct (m !! x) as [n|] eqn:Hx; [|done].
  destruct Hs as (Hp & Hl & Hr & Hsl & Hsr).
  rewrite head_elements_Br in Hhead.
  destruct l as [|l1 y l2].
  - simplify_eq. eapply ascend_from_left_mono; [done|lia].
  - eapply ascend_from_left_mono; [eapply (IHl _ Hsl Hhead (S f))|simpl; lia].
    simpl in Hsl |- *. destruct (m !! y) as [ny|] eqn:Hy; [|done]. simpl.
    destruct Hsl as (-> & _). simpl. rewrite Hx. simpl.
    rewrite Hl. simpl. rewrite decide_True by done. done.
Qed.

(** [operator--] on a node of a subtree: the node before it in the subtree,
    as long as there is one. *)
Lemma decr_shape F m p t pre a post :
  shape m p t → NoDup (elements t) → elements t = pre ++ a :: post →
  height t < F →
  ∃ n, m !! a = Some n ∧
    match last pre with
    | Some b =>
        (if non_null (left n) then intrusive_set.descend_right F m (left n)
         else p' ← intrusive_set.ascend_from_left F m (Some a);
              q ← load m p'; Some (parent q)) = Some (Some b)
    | None => left n = None
    end.
Proof.
  revert p pre post. induction t as [|l IHl x r IHr]; intros p pre post Hs Hnd E HF.
  { by destruct pre. }
  simpl in Hs. destruct (m !! x) as [n|] eqn:Hx; [|done].
  destruct Hs as (Hp & Hl & Hr & Hsl & Hsr).
  simpl in E, Hnd, HF.
  apply NoDup_app in Hnd as (Hndl & Hlr & Hndr).
  apply NoDup_cons in Hndr as (Hxr & Hndr).
  apply app_cons_split in E as [(post' & E & ->)|[(-> & -> & ->)|(pre' & E & ->)]].
  - destruct (IHl _ _ _ Hsl Hndl E) as (na & Ha & Hpre); [lia|].
    exists na. done.
  - exists n. split; [done|]. rewrite <-tmax_last.
    destruct l as [|l1 y l2]; [done|].
    rewrite Hl. cbn [root non_null].
    destruct (tmax_is_Some (Br l1 y l2)) as [mx Hmx]; [done|]. rewrite Hmx.
    rewrite <-Hmx.
    apply (descend_right_spec _ _ _ (Br l1 y l2) Hsl); [done|simpl in *; lia].
  - destruct (IHr _ _ _ Hsr Hndr E) as (na & Ha & Hpre); [lia|].
    exists na. split; [done|].
    destruct pre' as [|c pre'] using rev_ind.
    + rewrite last_snoc. cbn [last] in Hpre. rewrite Hpre. cbn [non_null].
      assert (head (elements r) = Some a) as Hhead by (by rewrite E).
      destruct r as [|r1 y r2]; [done|].
      assert (intrusive_set.ascend_from_left F m (Some a) = Some (Some y)) as ->.
      { eapply ascend_from_left_mono;
          [eapply (ascend_leftmost _ _ _ _ Hsr Hhead 1)|simpl in *; lia].
        simpl in Hsr |- *. destruct (m !! y) as [ny|] eqn:Hy; [|done]. simpl.
        destruct Hsr as (-> & _). simpl. rewrite Hx. simpl.
        rewrite decide_False; [done|].
        rewrite Hl. intros Hroot. apply root_elem in Hroot.
        apply (Hlr y); set_solver. }
      simpl. simpl in Hsr. destruct (m !! y) as [ny|]; [|done]. simpl.
      by destruct Hsr as (-> & _).
    + rewrite app_comm_cons, app_assoc, !last_snoc in *. done.
Qed.

Section decrement.
  Context {Key : Type}.
  Variable get_key : positive → option Key.
  Variable self : intrusive_set.t Key.
  Variable s : addr.
  Hypothesis sentinel_self : intrusive_set.sentinel self = Some s.

  (** [operator--] on the cursor that follows [a], which is the end cursor
      when [a] is the last node. *)
Lemma decr_spec m t pre a post :
    tree_inv get_key (intrusive_set.compare self) m s t →
    elements t = pre ++ a :: post →
    intrusive_set.decr m (cursor_at (Some s) post) = Some (Some a).
  Proof.
    intros Hinv E.
    pose proof (tree_inv_fuel get_key self s m t Hinv) as [Hf Hf'].
    destruct Hinv as (Hs & Hsh & Hnd & Hnin & _).
    unfold intrusive_set.decr. destruct post as [|b post]; cbn [cursor_at].
    - cbn. destruct (m !! s) as [ns|] eqn:Es; [|done]. destruct Hs as [Hl _].
      cbn. rewrite Hl.
      destruct t as [|l x r]; [by destruct pre|]. cbn [root non_null].
      rewrite (descend_right_spec _ _ _ (Br l x r) Hsh); [|done|unfold fuel_of; lia].
      rewrite tmax_last, E, last_snoc. done.
    - destruct (decr_shape (fuel_of m) _ _ _ (pre ++ [a]) b post Hsh Hnd)
        as (n & Hb & Hpre);
        [by rewrite <-app_assoc|exact Hf|].
      rewrite last_snoc in Hpre. cbn. rewrite Hb. cbn. exact Hpre.
  Qed.

End decrement.

Section bimap_decrement.
  Context {left_t right_t : Type}.
  Abbreviation mem := (bimap.mem left_t right_t).
  Abbreviation bimap := (bimap.t left_t right_t).
  Implicit Types (mm : mem) (b : bimap) (tl tr : tree).

Lemma iterator_steps T mm b t pre (a : addr) post :
    side_inv T mm b t → elements t = pre ++ a :: post →
    bimap.iterator_incr (T:=T) b (bimap.mk_iterator (Some a)) mm
    = Some (bimap.mk_iterator (cursor_at (Some (bimap.sentinel b)) post)) ∧
    bimap.iterator_decr (T:=T) b
      (bimap.mk_iterator (cursor_at (Some (bimap.sentinel b)) post)) mm
    = Some (bimap.mk_iterator (Some a)).
  Proof.
    intros [Hsen Hinv] E. unfold bimap.iterator_incr, bimap.iterator_decr.
    cbn [bimap.it].
    rewrite (incr_spec _ _ _ _ _ pre a post Hinv E).
    rewrite (decr_spec _ _ _ _ _ pre a post Hinv E). done.
  Qed.

  (** X1.  For every cursor [c] of the left traversal, [++] moves it to the
      cursor that follows it ([end_left()] after the last), and [--] moves
      that one back to [c]; so [--end_left()] is the last cursor of a
      container that is not empty.  The same holds in the right traversal. *)
Theorem decrement_undoes_increment mm b cs cs' :
    inv mm b →
    traversal.left_cursors b mm = Some cs →
    traversal.right_cursors b mm = Some cs' →
    (∀ pre c post, cs = pre ++ c :: post →
       let next : bimap.left_iterator :=
         bimap.mk_iterator (default (bimap.it (bimap.end_left b)) (head post)) in
       bimap.iterator_incr b (bimap.mk_iterator c) mm = Some next ∧
       bimap.iterator_decr b next mm = Some (bimap.mk_iterator c)) ∧
    (∀ pre c post, cs' = pre ++ c :: post →
       let next : bimap.right_iterator :=
         bimap.mk_iterator (default (bimap.it (bimap.end_right b)) (head post)) in
       bimap.iterator_incr b (bimap.mk_iterator c) mm = Some next ∧
       bimap.iterator_decr b next mm = Some (bimap.mk_iterator c)).
  Proof.
    intros (_ & _ & tl & tr & Hinv) Hcs Hcs'.
    pose proof (inv_with_left _ _ _ _ Hinv) as HL.
    pose proof (inv_with_right _ _ _ _ Hinv) as HR.
    rewrite (left_cursors_spec mm b tl HL) in Hcs. injection Hcs as <-.
    rewrite (right_cursors_spec mm b tr HR) in Hcs'. injection Hcs' as <-.
    rewrite (end_left_spec _ _ _ _ Hinv), (end_right_spec _ _ _ _ Hinv).
    cbn [bimap.it]. split.
    - intros pre c post (pre0 & a & post0 & E & -> & -> & ->)%fmap_split_inv.
      cbn zeta. rewrite <-cursor_at_head.
      exact (iterator_steps tag_for_left mm b tl pre0 a post0 HL E).
    - intros pre c post (pre0 & a & post0 & E & -> & -> & ->)%fmap_split_inv.
      cbn zeta. rewrite <-cursor_at_head.
      exact (iterator_steps tag_for_right mm b tr pre0 a post0 HR E).
  Qed.

End bimap_decrement.

Lemma decrement_undoes_increment_witness :
  inv example.st3.2 example.st3.1 ∧
  bimap.iterator_decr (T:=tag_for_left) example.st3.1 (bimap.end_left example.st3.1)
    example.st3.2
  = Some (bimap.mk_iterator (Some 2%positive)) ∧
  bimap.iterator_decr (T:=tag_for_right) example.st3.1
    (bimap.mk_iterator (Some 3%positive)) example.st3.2
  = Some (bimap.mk_iterator (Some 4%positive)).
Proof.
  split; [exact st3_inv|].
  pose proof (decrement_undoes_increment example.st3.2 example.st3.1
                [Some 3; Some 4; Some 2]%positive [Some 4; Some 3; Some 2]%positive
                st3_inv eq_refl eq_refl) as [HL HR].
  split.
  - exact (proj2 (HL [Some 3; Some 4]%positive (Some 2%positive) [] eq_refl)).
  - exact (proj2 (HR [] (Some 4%positive) [Some 3; Some 2]%positive eq_refl)).
Defined.

(** ** Erasing a range of cursors, and the destructor *)

Lemma fmap_segment_inv {A B} (f : A → B) l pre mid post :
  f <$> l = pre ++ mid ++ post →
  ∃ pre0 mid0 post0, l = pre0 ++ mid0 ++ post0 ∧ pre = f <$> pre0 ∧
                     mid = f <$> mid0 ∧ post = f <$> post0.
Proof.
  intros (pre0 & l2 & -> & H2 & ->)%fmap_app_inv.
  symmetry in H2. apply fmap_app_inv in H2 as (mid0 & post0 & -> & -> & ->).
  by exists pre0, mid0, post0.
Qed.

Lemma elem_of_Some_fmap (x : addr) (l : list addr) : Some x ∈ Some <$> l ↔ x ∈ l.
Proof.
  split; [|apply list_elem_of_fmap_2].
  intros (y & [= <-] & Hy)%list_elem_of_fmap. done.
Qed.

Section erase_more.
  Context {left_t right_t : Type}.
  Abbreviation mem := (bimap.mem left_t right_t).
  Abbreviation bimap := (bimap.t left_t right_t).
  Implicit Types (mm : mem) (b : bimap) (tl tr : tree).

  Abbreviation gL mm := (bimap.get_key tag_for_left mm).
  Abbreviation gR mm := (bimap.get_key tag_for_right mm).
  Abbreviation cmpL b := (intrusive_set.compare (bimap.left_set b)).
  Abbreviation cmpR b := (intrusive_set.compare (bimap.right_set b)).

Lemma inv_same_sets mm mm' b b' tl tr :
    inv mm b → inv_with mm' b' tl tr →
    bimap.left_set b' = bimap.left_set b → bimap.right_set b' = bimap.right_set b →
    inv mm' b'.
  Proof.
    intros (HswoL & HswoR & _) Hinv EL ER. unfold inv. rewrite EL, ER. eauto.
  Qed.

  (** X2.  [erase_left(first, last)] on a segment [mid] of the left
      traversal, from its first cursor to the cursor after its last, erases
      the pairs of [mid] and no other: it returns [last], the left traversal
      keeps the cursors before and after the segment in their order, the
      size drops by the length of the segment, the records of the segment
      are released and every other record stays.  [erase_right(first, last)]
      does the same on a segment of the right traversal.  An empty segment
      ([first == last]) changes nothing. *)
Theorem erase_range_removes_segment mm b cs cs' :
    inv mm b →
    traversal.left_cursors b mm = Some cs →
    traversal.right_cursors b mm = Some cs' →
    (∀ pre mid post, cs = pre ++ mid ++ post →
       let first : bimap.left_iterator :=
         bimap.mk_iterator (default (bimap.it (bimap.end_left b)) (head (mid ++ post))) in
       let last : bimap.left_iterator :=
         bimap.mk_iterator (default (bimap.it (bimap.end_left b)) (head post)) in
       ∃ b' mm',
         bimap.erase_left_range b first last mm = Some ((last, b'), mm') ∧
         inv mm' b' ∧
         traversal.left_cursors b' mm' = Some (pre ++ post) ∧
         bimap.size b' = (bimap.size b - Z.of_nat (length mid))%Z ∧
         (∀ a, Some a ∈ mid → bimap.records mm' !! a = None) ∧
         (∀ a, Some a ∉ mid → bimap.records mm' !! a = bimap.records mm !! a) ∧
         (mid = [] → b' = b ∧ mm' = mm)) ∧
    (∀ pre mid post, cs' = pre ++ mid ++ post →
       let first : bimap.right_iterator :=
         bimap.mk_iterator (default (bimap.it (bimap.end_right b)) (head (mid ++ post))) in
       let last : bimap.right_iterator :=
         bimap.mk_iterator (default (bimap.it (bimap.end_right b)) (head post)) in
       ∃ b' mm',
         bimap.erase_right_range b first last mm = Some ((last, b'), mm') ∧
         inv mm' b' ∧
         traversal.right_cursors b' mm' = Some (pre ++ post) ∧
         bimap.size b' = (bimap.size b - Z.of_nat (length mid))%Z ∧
         (∀ a, Some a ∈ mid → bimap.records mm' !! a = None) ∧
         (∀ a, Some a ∉ mid → bimap.records mm' !! a = bimap.records mm !! a) ∧
         (mid = [] → b' = b ∧ mm' = mm)).
  Proof.
    intros Hi Hcs Hcs'. pose proof Hi as (_ & _ & tl & tr & Hinv).
    pose proof (inv_with_left _ _ _ _ Hinv) as HL.
    pose proof (inv_with_right _ _ _ _ Hinv) as HR.
    rewrite (left_cursors_spec mm b tl HL) in Hcs. injection Hcs as <-.
    rewrite (right_cursors_spec mm b tr HR) in Hcs'. injection Hcs' as <-.
    rewrite (end_left_spec _ _ _ _ Hinv), (end_right_spec _ _ _ _ Hinv).
    cbn [bimap.it]. split.
    - intros pre mid post (pre0 & mid0 & post0 & E & -> & -> & ->)%fmap_segment_inv.
      cbn zeta. rewrite <-fmap_app, <-!cursor_at_head.
      assert (length mid0 < fuel_of (bimap.lnodes mm)) as Hfuel.
      { pose proof (side_inv_fuel tag_for_left mm b tl HL) as Hf. cbn in Hf.
        rewrite E, !length_app in Hf. lia. }
      destruct (erase_left_loop_spec post0 mid0 pre0 _ mm b tl tr Hinv E Hfuel)
        as (b' & mm' & tl' & tr' & Hloop & Hinv' & El' & Hs' & HsetL & HsetR & Hsz
            & Hgone & Hkeep & _).
      exists b', mm'. split.
      { unfold bimap.erase_left_range.
        erewrite bind_Some; [|by apply query_Some].
        erewrite bind_Some; [|exact Hloop]. done. }
      split; [by eapply inv_same_sets|]. split.
      { rewrite (left_cursors_spec mm' b' tl' (inv_with_left _ _ _ _ Hinv')), El'.
        by rewrite fmap_app. }
      split; [by rewrite length_fmap|]. split.
      { intros a Ha%elem_of_Some_fmap. by apply Hgone. }
      split.
      { intros a Ha. apply Hkeep. by rewrite <-elem_of_Some_fmap. }
      intros Hnil. apply fmap_nil_inv in Hnil. subst mid0.
      destruct (fuel_of (bimap.lnodes mm)) as [|f]; [cbn in Hfuel; lia|].
      cbn [bimap.erase_left_loop app] in Hloop.
      rewrite iterator_ne_false in Hloop by done. by injection Hloop as <- <-.
    - intros pre mid post (pre0 & mid0 & post0 & E & -> & -> & ->)%fmap_segment_inv.
      cbn zeta. rewrite <-fmap_app, <-!cursor_at_head.
      assert (length mid0 < fuel_of (bimap.rnodes mm)) as Hfuel.
      { pose proof (side_inv_fuel tag_for_right mm b tr HR) as Hf. cbn in Hf.
        rewrite E, !length_app in Hf. lia. }
      destruct (erase_right_loop_spec post0 mid0 pre0 _ mm b tl tr Hinv E Hfuel)
        as (b' & mm' & tl' & tr' & Hloop & Hinv' & El' & Hs' & HsetL & HsetR & Hsz
            & Hgone & Hkeep & _).
      exists b', mm'. split.
      { unfold bimap.erase_right_range.
        erewrite bind_Some; [|by apply query_Some].
        erewrite bind_Some; [|exact Hloop]. done. }
      split; [by eapply inv_same_sets|]. split.
      { rewrite (right_cursors_spec mm' b' tr' (inv_with_right _ _ _ _ Hinv')), El'.
        by rewrite fmap_app. }
      split; [by rewrite length_fmap|]. split.
      { intros a Ha%elem_of_Some_fmap. by apply Hgone. }
      split.
      { intros a Ha. apply Hkeep. by rewrite <-elem_of_Some_fmap. }
      intros Hnil. apply fmap_nil_inv in Hnil. subst mid0.
      destruct (fuel_of (bimap.rnodes mm)) as [|f]; [cbn in Hfuel; lia|].
      cbn [bimap.erase_right_loop app] in Hloop.
      rewrite iterator_ne_false in Hloop by done. by injection Hloop as <- <-.
  Qed.

  (** X3.  [~bimap()] releases every record of the container and the two
      sentinel nodes, and changes nothing else in the memory: no record and
      no node of another container. *)
Theorem destructor_releases_the_container mm b cs :
    inv mm b →
    traversal.left_cursors b mm = Some cs →
    ∃ mm',
      bimap.destroy b mm = Some (tt, mm') ∧
      (∀ a, Some a ∈ Some (bimap.sentinel b) :: cs →
            bimap.lnodes mm' !! a = None ∧ bimap.rnodes mm' !! a = None) ∧
      (∀ a, Some a ∈ cs → bimap.records mm' !! a = None) ∧
      (∀ a, Some a ∉ cs → bimap.records mm' !! a = bimap.records mm !! a) ∧
      (∀ a, Some a ∉ Some (bimap.sentinel b) :: cs →
            bimap.lnodes mm' !! a = bimap.lnodes mm !! a ∧
            bimap.rnodes mm' !! a = bimap.rnodes mm !! a).
  Proof.
    intros (_ & _ & tl & tr & Hinv) Hcs.
    rewrite (left_cursors_spec mm b tl (inv_with_left _ _ _ _ Hinv)) in Hcs.
    injection Hcs as <-.
    destruct (destroy_spec mm b tl tr Hinv) as (mm' & Hd & Hnodes & Hgone & Hkeep & Hfr).
    exists mm'. split; [done|].
    change (Some (bimap.sentinel b) :: (Some <$> elements tl))
      with (Some <$> bimap.sentinel b :: elements tl).
    split; [|split; [|split]].
    - intros a Ha%elem_of_Some_fmap. by apply Hnodes.
    - intros a Ha%elem_of_Some_fmap. by apply Hgone.
    - intros a Ha. apply Hkeep. by rewrite <-elem_of_Some_fmap.
    - intros a Ha. apply Hfr. by rewrite <-elem_of_Some_fmap.
  Qed.

End erase_more.

Lemma erase_range_removes_segment_witness :
  inv example.st3.2 example.st3.1 ∧
  ∃ b' mm',
    bimap.erase_left_range example.st3.1
      (bimap.mk_iterator (Some 3%positive)) (bimap.mk_iterator (Some 2%positive))
      example.st3.2
    = Some ((bimap.mk_iterator (Some 2%positive), b'), mm') ∧
    traversal.left_cursors b' mm' = Some [Some 2%positive] ∧
    bimap.size b' = 1%Z.
Proof.
  split; [exact st3_inv|].
  destruct (proj1 (erase_range_removes_segment example.st3.2 example.st3.1
                     [Some 3; Some 4; Some 2]%positive
                     [Some 4; Some 3; Some 2]%positive
                     st3_inv eq_refl eq_refl)
              [] [Some 3; Some 4]%positive [Some 2%positive] eq_refl)
    as (b' & mm' & Herase & _ & Hcs & Hsize & _).
  exists b', mm'. split; [exact Herase|]. split; [exact Hcs|exact Hsize].
Defined.

Lemma destructor_releases_the_container_witness :
  inv example.b0.2 example.b0.1 ∧
  ∃ mm',
    bimap.destroy example.b0.1 example.b0.2 = Some (tt, mm') ∧
    bimap.records mm' !! 4%positive = None ∧
    bimap.records mm' !! 2%positive = bimap.records example.b0.2 !! 2%positive.
Proof.
  split; [exact (reachable_inv _ _ b0_reachable)|].
  destruct (destructor_releases_the_container example.b0.2 example.b0.1
              [Some 4%positive] (reachable_inv _ _ b0_reachable) eq_refl)
    as (mm' & Hd & _ & Hgone & Hkeep & _).
  exists mm'. split; [exact Hd|]. split.
  - apply Hgone. set_solver.
  - apply Hkeep. set_solver.
Defined.

(** ** Erasing by key *)

Lemma mapM_split {A B} (f : A → option B) pre a post ps :
  mapM f (pre ++ a :: post) = Some ps →
  ∃ pps p qps, ps = pps ++ p :: qps ∧ mapM f pre = Some pps ∧ f a = Some p ∧
               mapM f post = Some qps.
Proof.
  intros H%mapM_Some.
  apply Forall2_app_inv_l in H as (pps & rest & Hpre & Hrest & ->).
  apply Forall2_cons_inv_l in Hrest as (p & qps & Hp & Hpost & ->).
  exists pps, p, qps. split; [done|]. split; [by apply mapM_Some|].
  split; [done|]. by apply mapM_Some.
Qed.

Lemma mapM_app_Some {A B} (f : A → option B) l1 l2 k1 k2 :
  mapM f l1 = Some k1 → mapM f l2 = Some k2 → mapM f (l1 ++ l2) = Some (k1 ++ k2).
Proof.
  intros H1%mapM_Some H2%mapM_Some. apply mapM_Some. by apply Forall2_app.
Qed.

Section erase_key.
  Context {left_t right_t : Type}.
  Abbreviation mem := (bimap.mem left_t right_t).
  Abbreviation bimap := (bimap.t left_t right_t).
  Implicit Types (mm : mem) (b : bimap) (tl tr : tree).

  Abbreviation gL mm := (bimap.get_key tag_for_left mm).
  Abbreviation gR mm := (bimap.get_key tag_for_right mm).
  Abbreviation cmpL b := (intrusive_set.compare (bimap.left_set b)).
  Abbreviation cmpR b := (intrusive_set.compare (bimap.right_set b)).

  (** The pairs of a tree once the record at [a] went. *)
Lemma pairs_without mm mm' (a : addr) pre post ps :
    NoDup (pre ++ a :: post) →
    bimap.records mm' = delete a (bimap.records mm) →
    mapM (pair_of mm) (pre ++ a :: post) = Some ps →
    ∃ pps p qps, ps = pps ++ p :: qps ∧ pair_of mm a = Some p ∧
                 length pps = length pre ∧
                 mapM (pair_of mm') (pre ++ post) = Some (pps ++ qps).
  Proof.
    intros Hnd Hrec (pps & p & qps & -> & Hpre & Hp & Hpost)%mapM_split.
    exists pps, p, qps. split; [done|]. split; [done|].
    split; [symmetry; by apply mapM_Some, Forall2_length in Hpre|].
    apply NoDup_app in Hnd as (_ & Hpre_a & Hnd).
    apply NoDup_cons in Hnd as [Hpost_a _].
    apply mapM_app_Some.
    - rewrite <-Hpre. apply mapM_agree. intros x Hx. apply pair_of_agree.
      rewrite Hrec. apply lookup_delete_ne. intros ->. apply (Hpre_a x Hx). set_solver.
    - rewrite <-Hpost. apply mapM_agree. intros x Hx. apply pair_of_agree.
      rewrite Hrec. apply lookup_delete_ne. by intros ->.
  Qed.

Lemma erase_left_key_spec mm b tl tr (k : left_t)
      (HswoL : StrictWeakOrder (cmpL b)) (HswoR : StrictWeakOrder (cmpR b)) :
    inv_with mm b tl tr →
    match List.find (matches (gL mm) (cmpL b) k) (elements tl) with
    | None => bimap.erase_left_key b k mm = Some ((false, b), mm)
    | Some a =>
        ∃ rec mm' pre post,
          let b' := bimap.with_size (size_t_pred (bimap.m_size b)) b in
          elements tl = pre ++ a :: post ∧
          bimap.records mm !! a = Some rec ∧
          bimap.erase_left_key b k mm = Some ((true, b'), mm') ∧
          inv_with mm' b' (tdelete a tl) (tdelete a tr) ∧
          elements (tdelete a tl) = pre ++ post ∧
          bimap.records mm' = delete a (bimap.records mm) ∧
          bimap.m_size b' = (bimap.m_size b - 1)%Z ∧
          bimap.find_left b' mm' k = Some (bimap.end_left b') ∧
          bimap.find_right b' mm' (bimap.right_key rec) = Some (bimap.end_right b')
    end.
  Proof.
    intros Hinv.
    pose proof (inv_with_left _ _ _ _ Hinv) as HL.
    pose proof (inv_with_right _ _ _ _ Hinv) as HR.
    pose proof (proj1 (inv_with_sides _ _ _ _) Hinv) as (_ & _ & Hperm & Hsize & Hlt).
    unfold bimap.erase_left_key.
    exec_with ltac:(apply query_Some; by apply find_left_spec).
    rewrite (end_left_spec _ _ _ _ Hinv). unfold first_where.
    destruct (List.find (matches (gL mm) (cmpL b) k) (elements tl)) as [a|] eqn:Ef.
    2:{ cbn [from_option]. by rewrite iterator_ne_false by done. }
    apply find_elem_of in Ef as [Ha Hm]. cbn [from_option].
    rewrite iterator_ne_true.
    2:{ cbn. intros [= ->]. by apply HL in Ha. }
    pose proof Ha as Hsplit. apply list_elem_of_split in Hsplit as (pre & post & E).
    destruct (erase_side_removes tag_for_left mm b tl tr pre a post HL HR Hperm E)
      as (rec & mm' & pre' & post' & Hrec & Herase & E' & HL' & HR' & El & El'
          & Hrec' & _ & _ & _ & HfR).
    rewrite <-erase_left_side in Herase.
    destruct (erase_left_inv_with mm b tl tr a _ _ _ Hinv Ha Herase)
      as (_ & _ & Hinv').
    exists rec, mm', pre, post. cbn zeta.
    split; [done|]. split; [done|]. split.
    { exec_with ltac:(exact Herase). done. }
    split; [done|]. split; [done|]. split; [done|]. split.
    { cbn [bimap.m_size bimap.with_size]. apply size_t_pred_pos.
      rewrite E, length_app in Hsize. cbn [length] in Hsize. lia. }
    rewrite (end_left_spec _ _ _ _ Hinv'), (end_right_spec _ _ _ _ Hinv').
    split.
    - pose proof (find_side_end tag_for_left mm' _ (tdelete a tl) k HL') as Hf.
      refine (f_equal (fmap (bimap.mk_iterator (T:=tag_for_left))) (Hf _)).
      intros x Hx. rewrite El in Hx.
      exact (erase_side_absent tag_for_left mm mm' b tl pre a post k HL E Hrec' Hm x Hx).
    - exact (f_equal (fmap (bimap.mk_iterator (T:=tag_for_right)))
               (HfR (bimap.right_key rec) (get_key_right mm a rec Hrec))).
  Qed.

Lemma erase_right_key_spec mm b tl tr (k : right_t)
      (HswoL : StrictWeakOrder (cmpL b)) (HswoR : StrictWeakOrder (cmpR b)) :
    inv_with mm b tl tr →
    match List.find (matches (gR mm) (cmpR b) k) (elements tr) with
    | None => bimap.erase_right_key b k mm = Some ((false, b), mm)
    | Some a =>
        ∃ rec mm' pre post,
          let b' := bimap.with_size (size_t_pred (bimap.m_size b)) b in
          elements tr = pre ++ a :: post ∧
          bimap.records mm !! a = Some rec ∧
          bimap.erase_right_key b k mm = Some ((true, b'), mm') ∧
          inv_with mm' b' (tdelete a tl) (tdelete a tr) ∧
          elements (tdelete a tr) = pre ++ post ∧
          bimap.records mm' = delete a (bimap.records mm) ∧
          bimap.m_size b' = (bimap.m_size b - 1)%Z ∧
          bimap.find_right b' mm' k = Some (bimap.end_right b') ∧
          bimap.find_left b' mm' (bimap.left_key rec) = Some (bimap.end_left b')
    end.
  Proof.
    intros Hinv.
    pose proof (inv_with_left _ _ _ _ Hinv) as HL.
    pose proof (inv_with_right _ _ _ _ Hinv) as HR.
    pose proof (proj1 (inv_with_sides _ _ _ _) Hinv) as (_ & _ & Hperm & Hsize & Hlt).
    unfold bimap.erase_right_key.
    exec_with ltac:(apply query_Some; by apply find_right_spec).
    rewrite (end_right_spec _ _ _ _ Hinv). unfold first_where.
    destruct (List.find (matches (gR mm) (cmpR b) k) (elements tr)) as [a|] eqn:Ef.
    2:{ cbn [from_option]. by rewrite iterator_ne_false by done. }
    apply find_elem_of in Ef as [Ha Hm]. cbn [from_option].
    rewrite iterator_ne_true.
    2:{ cbn. intros [= ->]. by apply HR in Ha. }
    pose proof Ha as Hsplit. apply list_elem_of_split in Hsplit as (pre & post & E).
    destruct (erase_side_removes tag_for_right mm b tr tl pre a post HR HL
                (symmetry Hperm) E)
      as (rec & mm' & pre' & post' & Hrec & Herase & E' & HR' & HL' & Er & El
          & Hrec' & _ & _ & _ & HfL).
    rewrite <-erase_right_side in Herase.
    destruct (erase_right_inv_with mm b tl tr a _ _ _ Hinv Ha Herase)
      as (_ & _ & Hinv').
    exists rec, mm', pre, post. cbn zeta.
    split; [done|]. split; [done|]. split.
    { exec_with ltac:(exact Herase). done. }
    split; [done|]. split; [done|]. split; [done|]. split.
    { cbn [bimap.m_size bimap.with_size]. apply size_t_pred_pos.
      rewrite Hperm, E, length_app in Hsize. cbn [length] in Hsize. lia. }
    rewrite (end_left_spec _ _ _ _ Hinv'), (end_right_spec _ _ _ _ Hinv').
    split.
    - pose proof (find_side_end tag_for_right mm' _ (tdelete a tr) k HR') as Hf.
      refine (f_equal (fmap (bimap.mk_iterator (T:=tag_for_right))) (Hf _)).
      intros x Hx. rewrite Er in Hx.
      exact (erase_side_absent tag_for_right mm mm' b tr pre a post k HR E Hrec' Hm x Hx).
    - exact (f_equal (fmap (bimap.mk_iterator (T:=tag_for_left)))
               (HfL (bimap.left_key rec) (get_key_left mm a rec Hrec))).
  Qed.

  (** X4.  [erase_left(key)] returns [false] and changes neither the
      container nor the memory when no pair has a left key equivalent to
      [key].  Otherwise it returns [true] and erases the one pair [p] that
      has: the left traversal holds the other pairs in their order, the size
      is one less, and afterwards [find_left(key)] and [find_right] of the
      right key of [p] give the end cursors.  [erase_right(key)] is the same
      with the sides exchanged. *)
Theorem erase_key_removes_the_pair mm b ps ps' (l : left_t) (r : right_t) :
    inv mm b →
    traversal.left_pairs b mm = Some ps →
    traversal.right_pairs b mm = Some ps' →
    match List.find (λ p, equiv_under (cmpL b) l p.1) ps with
    | None => bimap.erase_left_key b l mm = Some ((false, b), mm)
    | Some p =>
        ∃ b' mm' pre post,
          ps = pre ++ p :: post ∧
          bimap.erase_left_key b l mm = Some ((true, b'), mm') ∧
          inv mm' b' ∧
          traversal.left_pairs b' mm' = Some (pre ++ post) ∧
          bimap.size b' = (bimap.size b - 1)%Z ∧
          bimap.find_left b' mm' l = Some (bimap.end_left b') ∧
          bimap.find_right b' mm' p.2 = Some (bimap.end_right b')
    end ∧
    match List.find (λ p, equiv_under (cmpR b) r p.2) ps' with
    | None => bimap.erase_right_key b r mm = Some ((false, b), mm)
    | Some p =>
        ∃ b' mm' pre post,
          ps' = pre ++ p :: post ∧
          bimap.erase_right_key b r mm = Some ((true, b'), mm') ∧
          inv mm' b' ∧
          traversal.right_pairs b' mm' = Some (pre ++ post) ∧
          bimap.size b' = (bimap.size b - 1)%Z ∧
          bimap.find_right b' mm' r = Some (bimap.end_right b') ∧
          bimap.find_left b' mm' p.1 = Some (bimap.end_left b')
    end.
  Proof.
    intros (HswoL & HswoR & tl & tr & Hinv) Hps Hps'.
    pose proof (inv_with_left _ _ _ _ Hinv) as HL.
    pose proof (inv_with_right _ _ _ _ Hinv) as HR.
    rewrite (left_pairs_spec mm b tl HL) in Hps.
    rewrite (right_pairs_spec mm b tr HR) in Hps'.
    split.
    - pose proof (find_pairs_left mm b (elements tl) ps l Hps) as Hfind.
      pose proof (erase_left_key_spec mm b tl tr l HswoL HswoR Hinv) as Hspec.
      destruct (List.find (matches (gL mm) (cmpL b) l) (elements tl)) as [a|];
        destruct (List.find (λ p, equiv_under (cmpL b) l p.1) ps) as [p|];
        try done.
      destruct Hspec as (rec & mm' & pre & post & E & Hrec & Herase & Hinv' & El
                         & Hrec' & Hsize & HfL & HfR).
      rewrite E in Hps.
      destruct (pairs_without mm mm' a pre post ps) as (pps & p' & qps & -> & Hp' & _ & Hps1).
      { rewrite <-E. apply HL. }
      { done. }
      { done. }
      assert (p' = p) as -> by congruence.
      rewrite (pair_of_record mm a rec p Hrec Hfind) in *.
      eexists _, mm', pps, qps. split; [done|]. split; [exact Herase|].
      split. { by eapply inv_same_sets; [unfold inv; eauto|exact Hinv'|..]. }
      split.
      { rewrite (left_pairs_spec mm' _ _ (inv_with_left _ _ _ _ Hinv')).
        by rewrite El. }
      done.
    - pose proof (find_pairs_right mm b (elements tr) ps' r Hps') as Hfind.
      pose proof (erase_right_key_spec mm b tl tr r HswoL HswoR Hinv) as Hspec.
      destruct (List.find (matches (gR mm) (cmpR b) r) (elements tr)) as [a|];
        destruct (List.find (λ p, equiv_under (cmpR b) r p.2) ps') as [p|];
        try done.
      destruct Hspec as (rec & mm' & pre & post & E & Hrec & Herase & Hinv' & Er
                         & Hrec' & Hsize & HfR & HfL).
      rewrite E in Hps'.
      destruct (pairs_without mm mm' a pre post ps') as (pps & p' & qps & -> & Hp' & _ & Hps1).
      { rewrite <-E. apply HR. }
      { done. }
      { done. }
      assert (p' = p) as -> by congruence.
      rewrite (pair_of_record mm a rec p Hrec Hfind) in *.
      eexists _, mm', pps, qps. split; [done|]. split; [exact Herase|].
      split. { by eapply inv_same_sets; [unfold inv; eauto|exact Hinv'|..]. }
      split.
      { rewrite (right_pairs_spec mm' _ _ (inv_with_right _ _ _ _ Hinv')).
        by rewrite Er. }
      done.
  Qed.

End erase_key.

Lemma erase_key_removes_the_pair_witness :
  inv example.st3.2 example.st3.1 ∧
  (∃ b' mm',
     bimap.erase_left_key example.st3.1 2 example.st3.2 = Some ((true, b'), mm') ∧
     traversal.left_pairs b' mm' = Some [(1, 20); (3, 30)] ∧
     bimap.find_right b' mm' 10 = Some (bimap.end_right b')) ∧
  bimap.erase_right_key example.st3.1 15 example.st3.2
  = Some ((false, example.st3.1), example.st3.2).
Proof.
  split; [exact st3_inv|].
  pose proof (erase_key_removes_the_pair example.st3.2 example.st3.1
                [(1, 20); (2, 10); (3, 30)] [(2, 10); (1, 20); (3, 30)] 2 15
                st3_inv eq_refl eq_refl) as [HL HR].
  split.
  - decide_cond
      (List.find (λ p : nat * nat,
         equiv_under (intrusive_set.compare (bimap.left_set example.st3.1)) 2 p.1)
         [(1, 20); (2, 10); (3, 30)])
      (Some (2, 10)).
    destruct HL as (b' & mm' & pre & post & Hps & Herase & _ & Hpairs & _ & _ & Hfr).
    exists b', mm'. split; [exact Herase|]. split; [|exact Hfr].
    destruct pre as [|p0 [|p1 [|p2 [|p3 pre]]]]; cbn in Hps; simplify_eq.
    exact Hpairs.
  - decide_cond
      (List.find (λ p : nat * nat,
         equiv_under (intrusive_set.compare (bimap.right_set example.st3.1)) 15 p.2)
         [(2, 10); (1, 20); (3, 30)])
      (@None (nat * nat)).
    exact HR.
Defined.

(** ** The pairs of a container are a one-to-one relation *)

Section one_to_one.
  Context {left_t right_t : Type}.
  Abbreviation mem := (bimap.mem left_t right_t).
  Abbreviation bimap := (bimap.t left_t right_t).
  Implicit Types (mm : mem) (b c o : bimap) (tl tr : tree).

  Abbreviation gL mm := (bimap.get_key tag_for_left mm).
  Abbreviation gR mm := (bimap.get_key tag_for_right mm).
  Abbreviation cmpL b := (intrusive_set.compare (bimap.left_set b)).
  Abbreviation cmpR b := (intrusive_set.compare (bimap.right_set b)).

Lemma begin_left_end mm b tl tr :
    inv_with mm b tl tr →
    bimap.begin_left b mm = Some (bimap.end_left b) ↔ elements tl = [].
  Proof.
    intros Hinv. pose proof (inv_with_left _ _ _ _ Hinv) as HL.
    unfold bimap.begin_left.
    pose proof (begin_side tag_for_left mm b tl HL) as Hb.
    cbn [bimap.set bimap.nodes bimap.key] in Hb. rewrite Hb.
    rewrite (end_left_spec _ _ _ _ Hinv). cbn.
    destruct (elements tl) as [|x l] eqn:E; cbn [cursor_at]; [done|].
    split; [|done]. intros [= ->]. exfalso.
    destruct HL as [_ (_ & _ & _ & Hnin & _)]. apply Hnin. rewrite E. set_solver.
  Qed.

  (** X5.  In a container the two traversals hold the same pairs, [size()]
      is their number, [empty()] holds exactly when there is none, which is
      when [begin_left()] is [end_left()], and no two pairs have equivalent
      left keys or equivalent right keys: every left key is paired with one
      right key and every right key with one left key. *)
Theorem pairs_are_one_to_one mm b :
    inv mm b →
    ∃ ps ps',
      traversal.left_pairs b mm = Some ps ∧
      traversal.right_pairs b mm = Some ps' ∧
      ps ≡ₚ ps' ∧
      bimap.size b = Z.of_nat (length ps) ∧
      (bimap.empty b = true ↔ ps = []) ∧
      (bimap.empty b = true ↔ bimap.begin_left b mm = Some (bimap.end_left b)) ∧
      (∀ i j p q, ps !! i = Some p → ps !! j = Some q → i ≠ j →
         equiv_under (cmpL b) p.1 q.1 = false ∧
         equiv_under (cmpR b) p.2 q.2 = false).
  Proof.
    intros (HswoL & HswoR & tl & tr & Hinv).
    pose proof (inv_with_left _ _ _ _ Hinv) as HL.
    pose proof (inv_with_right _ _ _ _ Hinv) as HR.
    pose proof (proj1 (inv_with_sides _ _ _ _) Hinv) as (_ & _ & Hperm & Hsize & _).
    destruct (pairs_exist _ _ _ _ HL) as [ps Hps].
    destruct (pairs_exist _ _ _ _ HR) as [ps' Hps'].
    exists ps, ps'.
    split; [by rewrite (left_pairs_spec mm b tl HL)|].
    split; [by rewrite (right_pairs_spec mm b tr HR)|].
    assert (length ps = length (elements tl)) as Hlen.
    { symmetry. by apply mapM_Some, Forall2_length in Hps. }
    split.
    { rewrite <-(omap_pairs mm tl ps Hps), <-(omap_pairs mm tr ps' Hps').
      by apply omap_Permutation. }
    split; [unfold bimap.size; by rewrite Hlen|].
    assert (bimap.empty b = true ↔ elements tl = []) as Hempty.
    { unfold bimap.empty. rewrite bool_decide_eq_true, Hsize.
      destruct (elements tl); cbn [length]; split; intros; (done || lia). }
    split.
    { rewrite Hempty. destruct ps, (elements tl); cbn in Hlen; split; intros;
        (done || lia). }
    split; [by rewrite (begin_left_end mm b tl tr Hinv)|].
    intros i j p q Hi Hj Hne. apply mapM_Some in Hps.
    destruct (Forall2_lookup_r _ _ _ _ _ Hps Hi) as (x & Hx & Hxp).
    destruct (Forall2_lookup_r _ _ _ _ _ Hps Hj) as (y & Hy & Hyq).
    apply (inv_with_distinct_keys mm b tl tr x y p q HswoL HswoR Hinv);
      [by eapply list_elem_of_lookup_2|by eapply list_elem_of_lookup_2| |done|done].
    intros ->. apply Hne.
    destruct HL as [_ (_ & _ & Hnd & _)].
    by apply (NoDup_lookup _ i j y Hnd).
  Qed.

  (** X6.  [at_left] and [at_right] are inverse to each other: if
      [at_left(l)] returns [r], then [at_right(r)] returns a left key [l']
      that is equivalent to [l], and [at_left(l')] returns [r]; the same
      with the sides exchanged. *)
Theorem at_left_and_at_right_are_inverse mm b :
    inv mm b →
    (∀ l r, bimap.at_left b mm l = Some (returned r) →
       ∃ l', bimap.at_right b mm r = Some (returned l') ∧
             equiv_under (cmpL b) l l' = true ∧
             bimap.at_left b mm l' = Some (returned r)) ∧
    (∀ r l, bimap.at_right b mm r = Some (returned l) →
       ∃ r', bimap.at_left b mm l = Some (returned r') ∧
             equiv_under (cmpR b) r r' = true ∧
             bimap.at_right b mm r' = Some (returned l)).
  Proof.
    intros (HswoL & HswoR & tl & tr & Hinv).
    pose proof (inv_with_left _ _ _ _ Hinv) as HL.
    pose proof (inv_with_right _ _ _ _ Hinv) as HR.
    pose proof (proj1 (inv_with_sides _ _ _ _) Hinv) as (_ & _ & Hperm & _).
    destruct (pairs_exist _ _ _ _ HL) as [ps Hps].
    destruct (pairs_exist _ _ _ _ HR) as [ps' Hps'].
    split.
    - intros l r. rewrite (at_left_pairs mm b tl tr ps l Hinv Hps).
      destruct (List.find _ ps) as [p|] eqn:Ef; [|done]. intros [= <-].
      apply find_elem_of in Ef as [Hp Heq].
      apply mapM_Some in Hps.
      destruct (Forall2_elem_r _ _ _ _ Hps Hp) as (a & Ha & Hap).
      destruct (side_inv_keyed _ _ _ _ a HL Ha) as [rec Hrec].
      rewrite (pair_of_record mm a rec p Hrec Hap) in *. cbn [fst snd] in *.
      exists (bimap.left_key rec).
      split; [|split; [done|]].
      + apply (at_right_own mm b tl tr a rec HswoR Hinv); [by rewrite <-Hperm|done].
      + by apply (at_left_own mm b tl tr a rec HswoL Hinv).
    - intros r l. rewrite (at_right_pairs mm b tl tr ps' r Hinv Hps').
      destruct (List.find _ ps') as [p|] eqn:Ef; [|done]. intros [= <-].
      apply find_elem_of in Ef as [Hp Heq].
      apply mapM_Some in Hps'.
      destruct (Forall2_elem_r _ _ _ _ Hps' Hp) as (a & Ha & Hap).
      destruct (side_inv_keyed _ _ _ _ a HR Ha) as [rec Hrec].
      rewrite (pair_of_record mm a rec p Hrec Hap) in *. cbn [fst snd] in *.
      exists (bimap.right_key rec).
      split; [|split; [done|]].
      + apply (at_left_own mm b tl tr a rec HswoL Hinv); [by rewrite Hperm|done].
      + by apply (at_right_own mm b tl tr a rec HswoR Hinv).
  Qed.

Lemma eq_same_pairs mm a b tla tra tlb trb ps
      (HswoL : StrictWeakOrder (cmpL a)) (HswoR : StrictWeakOrder (cmpR a)) :
    inv_with mm a tla tra → inv_with mm b tlb trb →
    mapM (pair_of mm) (elements tla) = Some ps →
    mapM (pair_of mm) (elements tlb) = Some ps →
    bimap.m_size a = bimap.m_size b →
    bimap.eq a b mm = Some true.
  Proof.
    intros Ha Hb Hpa Hpb Hsz.
    rewrite (eq_spec mm a b tla tra tlb trb ps ps Ha Hb Hpa Hpb).
    unfold structurally_equal, bimap.size. rewrite bool_decide_true by done.
    pose proof (pairs_equivalent_refl (cmpL a) (cmpR a) ps) as Hrefl.
    by rewrite Hrefl.
  Qed.

  (** X7.  A container compares equal to itself; the container that the
      copy constructor builds from [o] compares equal to [o], in both
      orders of the operands, and [!=] is false of them; the assignment
      [o = o] changes nothing; and for every container [b] that is apart
      from [o] in the memory, after the assignment [b = o] the container
      [b] compares equal to [o]. *)
Theorem copies_compare_equal mm o :
    inv mm o →
    bimap.eq o o mm = Some true ∧
    (∃ c mm',
       bimap.copy o mm = Some (c, mm') ∧
       bimap.eq c o mm' = Some true ∧ bimap.eq o c mm' = Some true ∧
       bimap.ne c o mm' = Some false) ∧
    bimap.assign o o mm = Some (o, mm) ∧
    (∀ b csb cso,
       inv mm b →
       traversal.left_cursors b mm = Some csb →
       traversal.left_cursors o mm = Some cso →
       (Some (bimap.sentinel b) :: csb) ## (Some (bimap.sentinel o) :: cso) →
       ∃ b' mm',
         bimap.assign b o mm = Some (b', mm') ∧
         bimap.eq b' o mm' = Some true ∧ bimap.eq o b' mm' = Some true).
  Proof.
    intros (HswoLo & HswoRo & tlo & tro & Ho).
    pose proof (inv_with_left _ _ _ _ Ho) as HLo.
    destruct (pairs_exist _ _ _ _ HLo) as [pso Hpso].
    split; [by apply (eq_same_pairs mm o o tlo tro tlo tro pso)|].
    split; [|split].
    - destruct (copy_spec mm o tlo tro pso HswoLo HswoRo Ho Hpso)
        as (c & mm' & tl & tr & Hcopy & Hc & EL & ER & Hsz & Hpc & Hfresh & Hfr).
      assert (∀ x, x ∈ bimap.sentinel o :: elements tlo →
                x ∉ bimap.sentinel c :: elements tl) as Hapart.
      { intros x Hx Hin.
        apply (fresh_apart mm o tlo tro (bimap.sentinel c) tl Ho) with x; try done.
        intros y Hy. by apply Hfresh. }
      assert (inv_with mm' o tlo tro) as Ho'.
      { apply (inv_with_frame mm); [|done]. intros x Hx. by apply Hfr, Hapart. }
      assert (mapM (pair_of mm') (elements tlo) = Some pso) as Hpso'.
      { rewrite <-Hpso. apply pairs_agree. intros x Hx. apply Hfr, Hapart.
        set_solver. }
      assert (bimap.eq c o mm' = Some true) as Heq.
      { apply (eq_same_pairs mm' c o tl tr tlo tro pso); try done.
        - by rewrite EL.
        - by rewrite ER. }
      exists c, mm'. split; [done|]. split; [done|]. split.
      + by apply (eq_same_pairs mm' o c tlo tro tl tr pso).
      + unfold bimap.ne. by rewrite Heq.
    - unfold bimap.assign. by rewrite decide_False by (by intros []).
    - intros b csb cso (HswoLb & HswoRb & tlb & trb & Hb) Hcsb Hcso Hsep.
      pose proof (inv_with_left _ _ _ _ Hb) as HLb.
      rewrite (left_cursors_spec mm b tlb HLb) in Hcsb. injection Hcsb as <-.
      rewrite (left_cursors_spec mm o tlo HLo) in Hcso. injection Hcso as <-.
      apply cursors_apart in Hsep.
      destruct (assign_spec mm b o tlb trb tlo tro pso HswoLo HswoRo Hb Ho Hsep Hpso)
        as (b' & mm' & tl & tr & Hassign & Hs & EL & ER & Hsz & Hb' & Hpb' & Ho'
            & Hpo' & _).
      exists b', mm'. split; [done|]. split.
      + apply (eq_same_pairs mm' b' o tl tr tlo tro pso); try done.
        * by rewrite EL.
        * by rewrite ER.
      + by apply (eq_same_pairs mm' o b' tlo tro tl tr pso).
  Qed.

End one_to_one.

Lemma pairs_are_one_to_one_witness :
  inv example.st3.2 example.st3.1 ∧
  ∃ ps ps',
    traversal.left_pairs example.st3.1 example.st3.2 = Some ps ∧
    traversal.right_pairs example.st3.1 example.st3.2 = Some ps' ∧
    ps ≡ₚ ps' ∧ bimap.size example.st3.1 = Z.of_nat (length ps).
Proof.
  split; [exact st3_inv|].
  destruct (pairs_are_one_to_one example.st3.2 example.st3.1 st3_inv)
    as (ps & ps' & Hps & Hps' & Hperm & Hsize & _).
  exists ps, ps'. split; [exact Hps|]. split; [exact Hps'|].
  split; [exact Hperm|exact Hsize].
Defined.

Lemma at_left_and_at_right_are_inverse_witness :
  inv example.st3.2 example.st3.1 ∧
  bimap.at_left example.st3.1 example.st3.2 2 = Some (returned 10) ∧
  ∃ l', bimap.at_right example.st3.1 example.st3.2 10 = Some (returned l') ∧
        bimap.at_left example.st3.1 example.st3.2 l' = Some (returned 10).
Proof.
  split; [exact st3_inv|].
  assert (bimap.at_left example.st3.1 example.st3.2 2 = Some (returned 10)) as Hat
    by (vm_compute; reflexivity).
  split; [exact Hat|].
  destruct (proj1 (at_left_and_at_right_are_inverse example.st3.2 example.st3.1
                     st3_inv) 2 10 Hat) as (l' & Hr & _ & Hl).
  exists l'. split; [exact Hr|exact Hl].
Defined.

Lemma copies_compare_equal_witness :
  inv example.st3.2 example.st3.1 ∧
  bimap.eq example.st3.1 example.st3.1 example.st3.2 = Some true ∧
  (∃ c mm',
     bimap.copy example.st3.1 example.st3.2 = Some (c, mm') ∧
     bimap.eq c example.st3.1 mm' = Some true) ∧
  bimap.assign example.st3.1 example.st3.1 example.st3.2
  = Some (example.st3.1, example.st3.2) ∧
  inv example.b0.2 example.b0.1 ∧ inv example.b0.2 example.a0.1 ∧
  ∃ b' mm',
    bimap.assign example.b0.1 example.a0.1 example.b0.2 = Some (b', mm') ∧
    bimap.eq b' example.a0.1 mm' = Some true.
Proof.
  split; [exact st3_inv|].
  destruct (copies_compare_equal example.st3.2 example.st3.1 st3_inv)
    as (Hrefl & (c & mm0 & Hcopy & Hceq & _) & Hself & _).
  split; [exact Hrefl|].
  split; [exists c, mm0; split; [exact Hcopy|exact Hceq]|].
  split; [exact Hself|].
  split; [exact (reachable_inv _ _ b0_reachable)|].
  split; [exact a0_inv_later|].
  destruct (copies_compare_equal example.b0.2 example.a0.1 a0_inv_later)
    as (_ & _ & _ & Htwo).
  destruct (Htwo example.b0.1 [Some 4%positive] [Some 2%positive]
              (reachable_inv _ _ b0_reachable) eq_refl eq_refl)
    as (b' & mm' & Hassign & Heq & _).
  { apply (addresses_apart 3 1 [4] [2])%positive.
    intros x Hx Hx'. clear -Hx Hx'. set_solver. }
  exists b', mm'. split; [exact Hassign|exact Heq].
Defined.

(** ** Two containers in one memory *)

Section apart.
  Context {left_t right_t : Type}.
  Abbreviation mem := (bimap.mem left_t right_t).
  Abbreviation bimap := (bimap.t left_t right_t).
  Implicit Types (mm : mem) (b c o : bimap) (tl tr : tree).

  Abbreviation gL mm := (bimap.get_key tag_for_left mm).
  Abbreviation gR mm := (bimap.get_key tag_for_right mm).
  Abbreviation cmpL b := (intrusive_set.compare (bimap.left_set b)).
  Abbreviation cmpR b := (intrusive_set.compare (bimap.right_set b)).

  (** What a container shows depends on the memory at its own addresses
      only. *)
Lemma same_observations mm mm' o tlo tro
      (HswoL : StrictWeakOrder (cmpL o)) (HswoR : StrictWeakOrder (cmpR o)) :
    inv_with mm o tlo tro →
    (∀ x, x ∈ bimap.sentinel o :: elements tlo →
          bimap.lnodes mm' !! x = bimap.lnodes mm !! x ∧
          bimap.rnodes mm' !! x = bimap.rnodes mm !! x ∧
          bimap.records mm' !! x = bimap.records mm !! x) →
    inv mm' o ∧
    traversal.left_cursors o mm' = Some (Some <$> elements tlo) ∧
    traversal.right_cursors o mm' = traversal.right_cursors o mm ∧
    traversal.left_pairs o mm' = traversal.left_pairs o mm ∧
    (∀ k, bimap.at_left o mm' k = bimap.at_left o mm k) ∧
    (∀ k, bimap.at_right o mm' k = bimap.at_right o mm k).
  Proof.
    intros Ho Hsame.
    pose proof (inv_with_frame mm mm' o tlo tro Hsame Ho) as Ho'.
    pose proof (inv_with_left _ _ _ _ Ho) as HL.
    pose proof (inv_with_right _ _ _ _ Ho) as HR.
    pose proof (inv_with_left _ _ _ _ Ho') as HL'.
    pose proof (inv_with_right _ _ _ _ Ho') as HR'.
    pose proof (proj1 (inv_with_sides _ _ _ _) Ho) as (_ & _ & Hperm & _).
    destruct (pairs_exist _ _ _ _ HL) as [ps Hps].
    destruct (pairs_exist _ _ _ _ HR) as [ps' Hps'].
    assert (mapM (pair_of mm') (elements tlo) = Some ps) as Hps1.
    { rewrite <-Hps. apply pairs_agree. intros x Hx. apply Hsame. set_solver. }
    assert (mapM (pair_of mm') (elements tro) = Some ps') as Hps1'.
    { rewrite <-Hps'. apply pairs_agree. intros x Hx. apply Hsame.
      rewrite Hperm. set_solver. }
    split; [unfold inv; eauto 10|].
    split; [by apply left_cursors_spec|].
    split.
    { by rewrite (right_cursors_spec mm' o tro HR'), (right_cursors_spec mm o tro HR). }
    split.
    { rewrite (left_pairs_spec mm' o tlo HL'), (left_pairs_spec mm o tlo HL).
      congruence. }
    split.
    - intros k. rewrite (at_left_pairs mm' o tlo tro ps k Ho' Hps1).
      by rewrite (at_left_pairs mm o tlo tro ps k Ho Hps).
    - intros k. rewrite (at_right_pairs mm' o tlo tro ps' k Ho' Hps1').
      by rewrite (at_right_pairs mm o tlo tro ps' k Ho Hps').
  Qed.

  (** X8.  Containers that share no address do not disturb each other:
      [insert], [erase_left] and [erase_right] on [b] leave another
      container [o] with its invariant, its two traversals, its pairs and
      the results of [at_left] and [at_right]; and afterwards [b] and [o]
      share no address still. *)
Theorem mutators_leave_other_containers mm b o csb cso :
    inv mm b → inv mm o →
    traversal.left_cursors b mm = Some csb →
    traversal.left_cursors o mm = Some cso →
    (Some (bimap.sentinel b) :: csb) ## (Some (bimap.sentinel o) :: cso) →
    let untouched (b' : bimap) (mm' : mem) :=
      inv mm' o ∧
      traversal.left_cursors o mm' = Some cso ∧
      traversal.right_cursors o mm' = traversal.right_cursors o mm ∧
      traversal.left_pairs o mm' = traversal.left_pairs o mm ∧
      (∀ k, bimap.at_left o mm' k = bimap.at_left o mm k) ∧
      (∀ k, bimap.at_right o mm' k = bimap.at_right o mm k) ∧
      ∃ csb', traversal.left_cursors b' mm' = Some csb' ∧
              (Some (bimap.sentinel b') :: csb') ## (Some (bimap.sentinel o) :: cso) in
    (∀ l r, (bimap.m_size b + 1 < size_t_modulus)%Z →
       ∃ i b' mm', bimap.insert b l r mm = Some ((i, b'), mm') ∧ untouched b' mm') ∧
    (∀ p : ptr, p ∈ csb →
       ∃ i b' mm', bimap.erase_left b (bimap.mk_iterator p) mm = Some ((i, b'), mm') ∧
                   untouched b' mm') ∧
    (∀ p : ptr, p ∈ csb →
       ∃ i b' mm', bimap.erase_right b (bimap.mk_iterator p) mm = Some ((i, b'), mm') ∧
                   untouched b' mm').
  Proof.
    intros (HswoLb & HswoRb & tlb & trb & Hb) (HswoLo & HswoRo & tlo & tro & Ho)
      Hcsb Hcso Hsep untouched.
    pose proof (inv_with_left _ _ _ _ Hb) as HLb.
    pose proof (inv_with_left _ _ _ _ Ho) as HLo.
    pose proof (proj1 (inv_with_sides _ _ _ _) Hb) as (_ & _ & Hperm & _).
    rewrite (left_cursors_spec mm b tlb HLb) in Hcsb. injection Hcsb as <-.
    rewrite (left_cursors_spec mm o tlo HLo) in Hcso. injection Hcso as <-.
    apply cursors_apart in Hsep.
    assert (∀ b' mm' tl' tr',
              inv_with mm' b' tl' tr' → bimap.sentinel b' = bimap.sentinel b →
              (∀ x, x ∈ elements tl' → x ∉ bimap.sentinel o :: elements tlo) →
              (∀ x, x ∈ bimap.sentinel o :: elements tlo →
                    bimap.lnodes mm' !! x = bimap.lnodes mm !! x ∧
                    bimap.rnodes mm' !! x = bimap.rnodes mm !! x ∧
                    bimap.records mm' !! x = bimap.records mm !! x) →
              untouched b' mm') as Hgen.
    { intros b' mm' tl' tr' Hb' Hsen Hnew Hsame. subst untouched. cbn beta.
      destruct (same_observations mm mm' o tlo tro HswoLo HswoRo Ho Hsame)
        as (H1 & H2 & H3 & H4 & H5 & H6).
      do 6 (split; [done|]).
      exists (Some <$> elements tl').
      split; [by apply left_cursors_spec, (inv_with_left _ _ _ _ Hb')|].
      apply addresses_apart. rewrite Hsen. intros x Hx Hxo.
      apply elem_of_cons in Hx as [->|Hx].
      - apply (Hsep (bimap.sentinel b)); set_solver.
      - by apply (Hnew x). }
    split; [|split].
    - intros l r Hbound.
      destruct (exists_or_none (matches (gL mm) (cmpL b) l) (elements tlb)) as [Hl|Hl].
      { eexists _, b, mm. split; [by apply (insert_present mm b tlb trb l r Hb); left|].
        apply (Hgen b mm tlb trb); try done.
        intros x Hx Hxo. apply (Hsep x); set_solver. }
      destruct (exists_or_none (matches (gR mm) (cmpR b) r) (elements trb)) as [Hr|Hr].
      { eexists _, b, mm. split; [by apply (insert_present mm b tlb trb l r Hb); right|].
        apply (Hgen b mm tlb trb); try done.
        intros x Hx Hxo. apply (Hsep x); set_solver. }
      destruct (insert_absent_frame mm b tlb trb l r HswoLb HswoRb Hb Hbound Hl Hr)
        as (a & mm' & tl' & tr' & Hins & Hb' & Hel & HaL & HaR & Harec & Hrec & Hfr).
      cbn zeta in Hins, Hb'.
      assert (a ∉ bimap.sentinel o :: elements tlo) as Hao.
      { intros Hin. destruct (inv_with_allocated _ _ _ _ a Ho Hin) as [n Hn]. congruence. }
      eexists _, _, mm'. split; [exact Hins|].
      apply (Hgen _ mm' tl' tr' Hb'); [done| |].
      + intros x Hx Hxo. rewrite Hel in Hx. apply elem_of_cons in Hx as [->|Hx]; [done|].
        apply (Hsep x); set_solver.
      + intros x Hx.
        assert (x ≠ a) as Hne by (by intros ->).
        destruct (Hfr x) as [-> ->].
        { intros [->|Hin]%elem_of_cons; [done|]. by apply (Hsep x). }
        rewrite Hrec. by rewrite lookup_insert_ne.
    - intros p (a & -> & Ha)%list_elem_of_fmap.
      pose proof Ha as Hsplit. apply list_elem_of_split in Hsplit as (pre & post & E).
      destruct (erase_side_frame tag_for_left mm b tlb trb pre a post Hb E)
        as (mm' & Herase & Hb' & El & _ & Hrec & _ & _ & Hfr).
      cbn zeta in Herase, Hb'. rewrite <-erase_left_side in Herase.
      eexists _, _, mm'. split; [exact Herase|].
      apply (Hgen _ mm' _ _ Hb'); [done| |].
      + intros x Hx Hxo. rewrite El in Hx. apply (Hsep x); [|done].
        rewrite E. set_solver.
      + intros x Hx.
        assert (x ≠ a) as Hne.
        { intros ->. apply (Hsep a); set_solver. }
        destruct (Hfr x) as [-> ->].
        { intros Hin. by apply (Hsep x). }
        rewrite Hrec. by rewrite lookup_delete_ne.
    - intros p (a & -> & Ha)%list_elem_of_fmap.
      assert (a ∈ elements trb) as Har by (by rewrite <-Hperm).
      apply list_elem_of_split in Har as (pre & post & E).
      destruct (erase_side_frame tag_for_right mm b tlb trb pre a post Hb E)
        as (mm' & Herase & Hb' & Er & _ & Hrec & _ & _ & Hfr).
      cbn zeta in Herase, Hb'. rewrite <-erase_right_side in Herase.
      eexists _, _, mm'. split; [exact Herase|].
      apply (Hgen _ mm' _ _ Hb'); [done| |].
      + intros x Hx Hxo.
        pose proof (proj1 (inv_with_sides _ _ _ _) Hb') as (_ & _ & Hperm' & _).
        rewrite Hperm', Er in Hx. apply (Hsep x); [|done].
        apply elem_of_cons. right. rewrite Hperm, E. set_solver.
      + intros x Hx.
        assert (x ≠ a) as Hne.
        { intros ->. apply (Hsep a); set_solver. }
        destruct (Hfr x) as [-> ->].
        { intros Hin. by apply (Hsep x). }
        rewrite Hrec. by rewrite lookup_delete_ne.
  Qed.

End apart.

Lemma mutators_leave_other_containers_witness :
  inv example.b0.2 example.b0.1 ∧ inv example.b0.2 example.a0.1 ∧
  ∃ i b' mm',
    bimap.insert example.b0.1 7 7 example.b0.2 = Some ((i, b'), mm') ∧
    inv mm' example.a0.1 ∧
    traversal.left_pairs example.a0.1 mm'
    = traversal.left_pairs example.a0.1 example.b0.2.
Proof.
  split; [exact (reachable_inv _ _ b0_reachable)|].
  split; [exact a0_inv_later|].
  destruct (mutators_leave_other_containers example.b0.2 example.b0.1
              example.a0.1 [Some 4%positive] [Some 2%positive]
              (reachable_inv _ _ b0_reachable) a0_inv_later eq_refl eq_refl)
    as (Hins & _).
  { apply (addresses_apart 3 1 [4] [2])%positive.
    intros x Hx Hx'. set_solver. }
  destruct (Hins 7 7) as (i & b' & mm' & Hinsert & Hinv & _ & _ & Hpairs & _).
  { vm_compute. reflexivity. }
  exists i, b', mm'. split; [exact Hinsert|]. split; [exact Hinv|exact Hpairs].
Defined.

(** ** Lookups after [insert], and the new container *)

Lemma find_skip {A} (Q : A → bool) pre x post :
  Q x = false → List.find Q (pre ++ x :: post) = List.find Q (pre ++ post).
Proof.
  intros Hx. induction pre as [|y pre IH]; cbn; [by rewrite Hx|].
  by destruct (Q y).
Qed.

Section lookups.
  Context {left_t right_t : Type}.
  Abbreviation mem := (bimap.mem left_t right_t).
  Abbreviation bimap := (bimap.t left_t right_t).
  Implicit Types (mm : mem) (b c o : bimap) (tl tr : tree).

  Abbreviation gL mm := (bimap.get_key tag_for_left mm).
  Abbreviation gR mm := (bimap.get_key tag_for_right mm).
  Abbreviation cmpL b := (intrusive_set.compare (bimap.left_set b)).
  Abbreviation cmpR b := (intrusive_set.compare (bimap.right_set b)).

  (** The pairs of a tree once a record came at [a]. *)
Lemma pairs_with mm mm' (a : addr) rec pre post ps :
    bimap.records mm !! a = None →
    bimap.records mm' = <[a := rec]> (bimap.records mm) →
    mapM (pair_of mm) (pre ++ post) = Some ps →
    ∃ pps qps, ps = pps ++ qps ∧
      mapM (pair_of mm') (pre ++ a :: post)
      = Some (pps ++ (bimap.left_key rec, bimap.right_key rec) :: qps).
  Proof.
    intros Hnone Hrec Hps.
    assert (∀ x p, pair_of mm x = Some p → pair_of mm' x = Some p) as Hkeep.
    { intros x p Hx. rewrite <-Hx. apply pair_of_agree. rewrite Hrec.
      apply lookup_insert_ne. intros ->. unfold pair_of in Hx.
      by rewrite Hnone in Hx. }
    apply mapM_Some, Forall2_app_inv_l in Hps as (pps & qps & Hpre & Hpost & ->).
    exists pps, qps. split; [done|]. apply mapM_Some, Forall2_app.
    - eapply Forall2_impl; [exact Hpre|]. exact Hkeep.
    - constructor.
      + unfold pair_of. by rewrite Hrec, lookup_insert_eq.
      + eapply Forall2_impl; [exact Hpost|]. exact Hkeep.
  Qed.

  (** X9.  After [insert(l, r)] of two keys that were absent, the left
      traversal holds the pairs it held, in their order, and [(l, r)] among
      them; [find_left(l)] is the cursor that [insert] returned and
      [find_right(r)] its flip; [at_left(l)] is [r] and [at_right(r)] is
      [l]; the lookups of keys that are equivalent to neither are what they
      were; and [erase_left] on the returned cursor gives back the pairs,
      the size and the records of before. *)
Theorem insert_then_lookup mm b ps (l : left_t) (r : right_t) :
    inv mm b → (bimap.m_size b + 1 < size_t_modulus)%Z →
    traversal.left_pairs b mm = Some ps →
    (∀ p, p ∈ ps → equiv_under (cmpL b) l p.1 = false ∧
                   equiv_under (cmpR b) r p.2 = false) →
    ∃ i b' mm' pre post,
      bimap.insert b l r mm = Some ((i, b'), mm') ∧
      inv mm' b' ∧
      ps = pre ++ post ∧
      traversal.left_pairs b' mm' = Some (pre ++ (l, r) :: post) ∧
      bimap.find_left b' mm' l = Some i ∧
      bimap.find_right b' mm' r = Some (bimap.flip i) ∧
      bimap.at_left b' mm' l = Some (returned r) ∧
      bimap.at_right b' mm' r = Some (returned l) ∧
      (∀ k, equiv_under (cmpL b) k l = false →
            bimap.at_left b' mm' k = bimap.at_left b mm k) ∧
      (∀ k, equiv_under (cmpR b) k r = false →
            bimap.at_right b' mm' k = bimap.at_right b mm k) ∧
      ∃ j b'' mm'',
        bimap.erase_left b' i mm' = Some ((j, b''), mm'') ∧
        inv mm'' b'' ∧
        traversal.left_pairs b'' mm'' = Some ps ∧
        bimap.size b'' = bimap.size b ∧
        bimap.records mm'' = bimap.records mm.
  Proof.
    intros (HswoL & HswoR & tl & tr & Hinv) Hbound Hps Habs.
    pose proof (inv_with_left _ _ _ _ Hinv) as HL.
    pose proof (inv_with_right _ _ _ _ Hinv) as HR.
    pose proof (proj1 (inv_with_sides _ _ _ _) Hinv) as (_ & _ & Hperm & Hsize & _).
    rewrite (left_pairs_spec mm b tl HL) in Hps.
    destruct (pairs_exist _ _ _ _ HR) as [ps' Hps'].
    pose proof (present_pairs mm b tl tr ps l r Hinv Hps) as Hpres.
    rewrite (proj2 (existsb_false_iff _ ps)) in Hpres.
    2:{ intros p Hp. destruct (Habs p Hp) as [-> ->]. done. }
    destruct Hpres as [HabsL HabsR].
    destruct (insert_absent mm b tl tr l r Hinv HabsL HabsR)
      as (mm' & Hins & Hrec & HL' & HR' & _).
    set (a := fresh (dom (bimap.lnodes mm) ∪ dom (bimap.rnodes mm)
                     ∪ dom (bimap.records mm))) in *.
    set (b' := bimap.with_size (size_t_succ (bimap.m_size b)) b) in *.
    set (tl' := tins (lt_at (gL mm') (cmpL b)) a tl) in *.
    set (tr' := tins (lt_at (gR mm') (cmpR b)) a tr) in *.
    set (rec := bimap.mk_storage_node l r) in *.
    assert (bimap.records mm !! a = None) as Hnone.
    { apply not_elem_of_dom. pose proof (is_fresh (dom (bimap.lnodes mm)
        ∪ dom (bimap.rnodes mm) ∪ dom (bimap.records mm))) as Hf.
      fold a in Hf. set_solver. }
    assert (bimap.records mm' !! a = Some rec) as Hreca.
    { by rewrite Hrec, lookup_insert_eq. }
    assert (bimap.m_size b' = (bimap.m_size b + 1)%Z) as Hsize'.
    { subst b'. cbn [bimap.m_size bimap.with_size]. apply size_t_succ_small; lia. }
    assert (inv_with mm' b' tl' tr') as Hinv'.
    { apply inv_with_sides. split; [exact HL'|]. split; [exact HR'|].
      split; [subst tl' tr'; by rewrite !tins_perm, Hperm|].
      rewrite Hsize'. subst tl'. rewrite tins_perm. cbn [length]. split; lia. }
    destruct (tins_elements (lt_at (gL mm') (cmpL b)) a tl)
      as (pre & post & Epre & Eins). fold tl' in Eins.
    destruct (tins_elements (lt_at (gR mm') (cmpR b)) a tr)
      as (pre' & post' & Epre' & Eins'). fold tr' in Eins'.
    rewrite Epre in Hps. rewrite Epre' in Hps'.
    destruct (pairs_with mm mm' a rec pre post ps Hnone Hrec Hps)
      as (pps & qps & -> & Hps1).
    destruct (pairs_with mm mm' a rec pre' post' ps' Hnone Hrec Hps')
      as (pps' & qps' & -> & Hps1').
    rewrite <-Eins in Hps1. rewrite <-Eins' in Hps1'.
    rewrite <-Epre in Hps. rewrite <-Epre' in Hps'.
    assert (a ∈ elements tl') as Hal by (rewrite Eins; set_solver).
    assert (a ∈ elements tr') as Har by (rewrite Eins'; set_solver).
    exists (bimap.mk_iterator (Some a)), b', mm', pps, qps.
    split; [exact Hins|]. split; [unfold inv; eauto 10|]. split; [done|].
    split; [by rewrite (left_pairs_spec mm' b' tl' HL')|].
    split; [exact (find_left_own mm' b' tl' a rec HswoL HL' Hal Hreca)|].
    split; [exact (find_right_own mm' b' tr' a rec HswoR HR' Har Hreca)|].
    split; [exact (at_left_own mm' b' tl' tr' a rec HswoL Hinv' Hal Hreca)|].
    split; [exact (at_right_own mm' b' tl' tr' a rec HswoR Hinv' Har Hreca)|].
    split.
    { intros k Hk.
      rewrite (at_left_pairs mm' b' tl' tr' _ k Hinv' Hps1).
      rewrite (at_left_pairs mm b tl tr _ k Hinv Hps).
      by rewrite find_skip. }
    split.
    { intros k Hk.
      rewrite (at_right_pairs mm' b' tl' tr' _ k Hinv' Hps1').
      rewrite (at_right_pairs mm b tl tr _ k Hinv Hps').
      by rewrite find_skip. }
    destruct (erase_side_frame tag_for_left mm' b' tl' tr' pre a post Hinv' Eins)
      as (mm'' & Herase & Hinv'' & El & Hsize'' & Hrec'' & _).
    cbn zeta in Herase, Hinv'', Hsize''. rewrite <-erase_left_side in Herase.
    assert (bimap.records mm'' = bimap.records mm) as Hsame.
    { rewrite Hrec'', Hrec, delete_insert_eq. by apply delete_id. }
    eexists _, _, mm''. split; [exact Herase|].
    split; [unfold inv; eauto 10|]. split.
    { rewrite (left_pairs_spec mm'' _ _ (inv_with_left _ _ _ _ Hinv'')).
      rewrite El, <-Epre, <-Hps. apply pairs_agree. intros x _. by rewrite Hsame. }
    split; [|done]. unfold bimap.size. lia.
  Qed.

  (** X10.  The constructor gives an empty container, in a node that was
      free, with the two comparison objects it was called with: the size is
      zero, both traversals are empty and [begin] is [end] on both sides;
      for every key, [find] gives [end], [at] throws and [erase] by key
      returns [false] and changes nothing; the memory that was there before
      is untouched. *)
Theorem new_container_is_empty (cl : left_t → left_t → bool)
      (cr : right_t → right_t → bool) (mm0 : mem) :
    StrictWeakOrder cl → StrictWeakOrder cr →
    ∃ b mm,
      bimap.new cl cr mm0 = Some (b, mm) ∧
      inv mm b ∧ cmpL b = cl ∧ cmpR b = cr ∧
      bimap.size b = 0%Z ∧ bimap.empty b = true ∧
      traversal.left_cursors b mm = Some [] ∧
      traversal.right_cursors b mm = Some [] ∧
      bimap.begin_left b mm = Some (bimap.end_left b) ∧
      bimap.begin_right b mm = Some (bimap.end_right b) ∧
      (∀ l, bimap.find_left b mm l = Some (bimap.end_left b) ∧
            bimap.at_left b mm l = Some (thrown (out_of_range "element doesn't exist")) ∧
            bimap.erase_left_key b l mm = Some ((false, b), mm)) ∧
      (∀ r, bimap.find_right b mm r = Some (bimap.end_right b) ∧
            bimap.at_right b mm r = Some (thrown (out_of_range "element doesn't exist")) ∧
            bimap.erase_right_key b r mm = Some ((false, b), mm)) ∧
      bimap.lnodes mm0 !! bimap.sentinel b = None ∧
      bimap.rnodes mm0 !! bimap.sentinel b = None ∧
      bimap.records mm = bimap.records mm0 ∧
      (∀ x, x ≠ bimap.sentinel b →
            bimap.lnodes mm !! x = bimap.lnodes mm0 !! x ∧
            bimap.rnodes mm !! x = bimap.rnodes mm0 !! x).
  Proof.
    intros HswoL HswoR.
    destruct (bimap.new cl cr mm0) as [[b mm]|] eqn:Hnew; [|done].
    exists b, mm. split; [done|].
    pose proof (new_inv_with cl cr mm0 b mm Hnew) as Hinv.
    destruct (new_compare cl cr mm0 b mm Hnew) as [EL ER].
    assert (StrictWeakOrder (cmpL b)) as HswoLb by (by rewrite EL).
    assert (StrictWeakOrder (cmpR b)) as HswoRb by (by rewrite ER).
    pose proof (inv_with_left _ _ _ _ Hinv) as HL.
    pose proof (inv_with_right _ _ _ _ Hinv) as HR.
    pose proof (proj1 (inv_with_sides _ _ _ _) Hinv) as (_ & _ & _ & Hsize & _).
    split; [unfold inv; eauto 10|]. split; [done|]. split; [done|].
    split; [done|]. split; [unfold bimap.empty; by rewrite Hsize|].
    split; [exact (left_cursors_spec mm b Leaf HL)|].
    split; [exact (right_cursors_spec mm b Leaf HR)|].
    split.
    { rewrite (end_left_spec _ _ _ _ Hinv).
      exact (f_equal (fmap (bimap.mk_iterator (T:=tag_for_left)))
               (begin_side tag_for_left mm b Leaf HL)). }
    split.
    { rewrite (end_right_spec _ _ _ _ Hinv).
      exact (f_equal (fmap (bimap.mk_iterator (T:=tag_for_right)))
               (begin_side tag_for_right mm b Leaf HR)). }
    split.
    { intros l.
      split; [rewrite (end_left_spec _ _ _ _ Hinv); exact (find_left_spec mm b Leaf l HL)|].
      split; [exact (at_left_pairs mm b Leaf Leaf [] l Hinv eq_refl)|].
      exact (erase_left_key_spec mm b Leaf Leaf l HswoLb HswoRb Hinv). }
    split.
    { intros r.
      split; [rewrite (end_right_spec _ _ _ _ Hinv); exact (find_right_spec mm b Leaf r HR)|].
      split; [exact (at_right_pairs mm b Leaf Leaf [] r Hinv eq_refl)|].
      exact (erase_right_key_spec mm b Leaf Leaf r HswoLb HswoRb Hinv). }
    unfold bimap.new in Hnew. injection Hnew as <- <-. cbn.
    pose proof (is_fresh (dom (bimap.lnodes mm0) ∪ dom (bimap.rnodes mm0)
                          ∪ dom (bimap.records mm0))) as Hf.
    split; [apply not_elem_of_dom; set_solver|].
    split; [apply not_elem_of_dom; set_solver|].
    split; [done|]. intros x Hx. by rewrite !lookup_insert_ne.
  Qed.

End lookups.

Lemma insert_then_lookup_witness :
  inv example.st3.2 example.st3.1 ∧
  ∃ i b' mm',
    bimap.insert example.st3.1 5 50 example.st3.2 = Some ((i, b'), mm') ∧
    bimap.at_left b' mm' 5 = Some (returned 50) ∧
    bimap.at_left b' mm' 2 = bimap.at_left example.st3.1 example.st3.2 2.
Proof.
  split; [exact st3_inv|].
  destruct (insert_then_lookup example.st3.2 example.st3.1
              [(1, 20); (2, 10); (3, 30)] 5 50 st3_inv)
    as (i & b' & mm' & pre & post & Hins & _ & _ & _ & _ & _ & Hat & _ & Hother & _).
  { vm_compute. reflexivity. }
  { vm_compute. reflexivity. }
  { intros p Hp. repeat (apply elem_of_cons in Hp as [->|Hp]);
      [split; vm_compute; reflexivity..|by apply elem_of_nil in Hp]. }
  exists i, b', mm'. split; [exact Hins|]. split; [exact Hat|].
  apply Hother. vm_compute. reflexivity.
Defined.

Lemma new_container_is_empty_witness :
  ∃ b mm,
    bimap.new Nat.ltb Nat.ltb example.mem0 = Some (b, mm) ∧
    bimap.size b = 0%Z ∧
    bimap.at_left b mm 1 = Some (thrown (out_of_range "element doesn't exist")).
Proof.
  destruct (new_container_is_empty Nat.ltb Nat.ltb example.mem0 ltb_swo ltb_swo)
    as (b & mm & Hnew & _ & _ & _ & Hsize & _ & _ & _ & _ & _ & Hl & _).
  exists b, mm. split; [exact Hnew|]. split; [exact Hsize|].
  exact (proj1 (proj2 (Hl 1))).
Defined.

(** ** [intrusive_set::insert] without a hint *)

Section insert_checked.
  Context {K : Type}.
  Variable get_key : addr → option K.
  Variable self : intrusive_set.t K.
  Variable s : addr.
  Hypothesis sentinel_self : intrusive_set.sentinel self = Some s.
  Context `{!StrictWeakOrder (intrusive_set.compare self)}.

  Abbreviation cmp := (intrusive_set.compare self).

  (** X11.  [insert(obj)] without a hint looks the key of [obj] up first.
      When a node of the set has an equivalent key (so too when [obj] is in
      the set), it returns [end()] and writes nothing.  When none has, it
      does what [insert(obj, true)] does: it returns the cursor on [obj],
      the traversal gains [obj] and keeps the other nodes in their order,
      and the nodes outside the set and [obj] are untouched. *)
Theorem insert_without_hint_rejects_duplicates m t obj ko :
    tree_inv get_key cmp m s t →
    get_key obj = Some ko →
    ((∃ a, a ∈ elements t ∧ matches get_key cmp ko a = true) →
     intrusive_set.insert get_key self (Some obj) false m
     = Some (intrusive_set.end_ self, m)) ∧
    ((∀ a, a ∈ elements t → matches get_key cmp ko a = false) →
     ∀ no, m !! obj = Some no → left no = None → right no = None →
           obj ≠ s → obj ∉ elements t →
     ∃ m' t' pre post,
       intrusive_set.insert get_key self (Some obj) false m = Some (Some obj, m') ∧
       intrusive_set.insert get_key self (Some obj) true m = Some (Some obj, m') ∧
       tree_inv get_key cmp m' s t' ∧
       elements t = pre ++ post ∧ elements t' = pre ++ obj :: post ∧
       (∀ x, x ≠ s → x ∉ obj :: elements t → m' !! x = m !! x)).
  Proof.
    intros Hinv Hko.
    pose proof (find_spec get_key self s sentinel_self m t ko Hinv) as Hfind.
    assert (intrusive_set.insert get_key self (Some obj) false m
            = if bool_decide
                   (first_where (matches get_key cmp ko) (Some s) (elements t)
                    ≠ intrusive_set.end_ self)
              then Some (intrusive_set.end_ self, m)
              else intrusive_set.insert get_key self (Some obj) true m) as Hdup.
    { unfold intrusive_set.insert.
      exec_with ltac:(apply query_Some; cbn; exact Hko).
      exec_with ltac:(apply query_Some; exact Hfind).
      exec_with ltac:(reflexivity).
      by destruct (bool_decide _). }
    rewrite Hdup. split.
    - intros (a & Ha & Hm).
      destruct (exists_or_none (matches get_key cmp ko) (elements t)) as [Hex|Hnone].
      2:{ rewrite Hnone in Hm by done. done. }
      unfold first_where.
      destruct (List.find _ (elements t)) as [x|] eqn:Ef.
      2:{ destruct Hex as (y & Hy & Hmy).
          rewrite (proj1 (find_None_iff _ _) Ef y Hy) in Hmy. done. }
      apply find_elem_of in Ef as [Hx _]. cbn [from_option].
      rewrite bool_decide_true; [done|].
      unfold intrusive_set.end_. rewrite sentinel_self. intros [= ->].
      by apply Hinv in Hx.
    - intros Habs no Hobj Hl Hr Hos Hnin.
      destruct (insert_spec get_key self s sentinel_self m t obj no ko Hinv Hobj Hl Hr
                  Hos Hnin Hko Habs) as (m' & Hins & Hinv' & Hfr & _).
      destruct (tins_elements (lt_at get_key cmp) obj t) as (pre & post & E & E').
      exists m', (tins (lt_at get_key cmp) obj t), pre, post.
      rewrite bool_decide_false.
      2:{ intros Hne. apply Hne. unfold intrusive_set.end_. rewrite sentinel_self.
          apply first_where_end; [apply Hinv|done]. }
      do 5 (split; [done|]). done.
  Qed.

End insert_checked.

Lemma insert_without_hint_rejects_duplicates_witness :
  intrusive_set.insert (bimap.get_key tag_for_left example.st3.2)
    (bimap.left_set example.st3.1) (Some 3%positive) false
    (bimap.lnodes example.st3.2)
  = Some (intrusive_set.end_ (bimap.left_set example.st3.1),
          bimap.lnodes example.st3.2).
Proof.
  destruct st3_inv as (HswoL & _ & tl & tr & Hinv).
  pose proof (inv_with_left _ _ _ _ Hinv) as [Hsen HL].
  assert (3%positive ∈ elements tl) as Hin.
  { pose proof (left_cursors_spec example.st3.2 example.st3.1 tl
                  (inv_with_left _ _ _ _ Hinv)) as Hcs.
    assert (traversal.left_cursors example.st3.1 example.st3.2
            = Some [Some 3; Some 4; Some 2]%positive) as E by (vm_compute; reflexivity).
    rewrite E in Hcs. injection Hcs as Hcs.
    apply elem_of_Some_fmap. rewrite <-Hcs. set_solver. }
  apply (proj1 (insert_without_hint_rejects_duplicates
                  (bimap.get_key tag_for_left example.st3.2)
                  (bimap.left_set example.st3.1) _ Hsen _ tl 3%positive 1 HL eq_refl)).
  exists 3%positive. split; [exact Hin|]. vm_compute. reflexivity.
Defined.

(** ** No record outlives its container *)

Section life.
  Context {left_t right_t : Type}.
  Abbreviation mem := (bimap.mem left_t right_t).
  Abbreviation bimap := (bimap.t left_t right_t).
  Implicit Types (mm : mem) (b : bimap) (tl tr : tree).

  Abbreviation gL mm := (bimap.get_key tag_for_left mm).
  Abbreviation gR mm := (bimap.get_key tag_for_right mm).
  Abbreviation cmpL b := (intrusive_set.compare (bimap.left_set b)).
  Abbreviation cmpR b := (intrusive_set.compare (bimap.right_set b)).

Lemma mem_eq mm mm' :
    (∀ x, bimap.lnodes mm' !! x = bimap.lnodes mm !! x) →
    (∀ x, bimap.rnodes mm' !! x = bimap.rnodes mm !! x) →
    (∀ x, bimap.records mm' !! x = bimap.records mm !! x) →
    mm' = mm.
  Proof.
    destruct mm, mm'. cbn. intros H1 H2 H3. f_equal; by apply map_eq.
  Qed.

  (** The container owns the addresses of its sentinel and of its records,
      which were free in [mm0]; the rest of the memory is as in [mm0]. *)
Lemma reachable_from_owns mm0 mm b :
    reachable_from mm0 mm b →
    StrictWeakOrder (cmpL b) ∧ StrictWeakOrder (cmpR b) ∧
    ∃ tl tr,
      inv_with mm b tl tr ∧
      bimap.records mm !! bimap.sentinel b = None ∧
      (∀ x, x ∈ bimap.sentinel b :: elements tl →
            bimap.lnodes mm0 !! x = None ∧ bimap.rnodes mm0 !! x = None ∧
            bimap.records mm0 !! x = None) ∧
      (∀ x, x ∉ bimap.sentinel b :: elements tl →
            bimap.lnodes mm !! x = bimap.lnodes mm0 !! x ∧
            bimap.rnodes mm !! x = bimap.rnodes mm0 !! x ∧
            bimap.records mm !! x = bimap.records mm0 !! x).
  Proof.
    induction 1 as [cl cr b mm HswoL HswoR Hnew
                   |mm b l r i b' mm' _ IH Hbound Hins
                   |mm b cs c i b' mm' _ IH Hcs Hc Herase
                   |mm b cs c i b' mm' _ IH Hcs Hc Herase].
    - pose proof (new_inv_with cl cr mm0 b mm Hnew) as Hinv.
      destruct (new_compare cl cr mm0 b mm Hnew) as [EL ER].
      split; [by rewrite EL|]. split; [by rewrite ER|].
      exists Leaf, Leaf. split; [done|].
      unfold bimap.new in Hnew. injection Hnew as <- <-. cbn.
      pose proof (is_fresh (dom (bimap.lnodes mm0) ∪ dom (bimap.rnodes mm0)
                            ∪ dom (bimap.records mm0))) as Hf.
      assert (bimap.records mm0 !! fresh (dom (bimap.lnodes mm0)
                ∪ dom (bimap.rnodes mm0) ∪ dom (bimap.records mm0)) = None) as Hrec.
      { apply not_elem_of_dom. set_solver. }
      split; [done|]. split.
      + intros x ->%list_elem_of_singleton.
        split; [apply not_elem_of_dom; set_solver|].
        split; [apply not_elem_of_dom; set_solver|done].
      + intros x Hx. rewrite !lookup_insert_ne by set_solver. done.
    - destruct IH as (HswoL & HswoR & tl & tr & Hinv & Hsrec & Hfree & Hsame).
      destruct (exists_or_none (matches (gL mm) (cmpL b) l) (elements tl)) as [Hl|Hl].
      { rewrite (insert_present mm b tl tr l r Hinv) in Hins by (by left).
        injection Hins as <- <- <-. eauto 10. }
      destruct (exists_or_none (matches (gR mm) (cmpR b) r) (elements tr)) as [Hr|Hr].
      { rewrite (insert_present mm b tl tr l r Hinv) in Hins by (by right).
        injection Hins as <- <- <-. eauto 10. }
      destruct (insert_absent_frame mm b tl tr l r HswoL HswoR Hinv Hbound Hl Hr)
        as (a & mm1 & tl' & tr' & Hins' & Hinv' & Hel & HaL & HaR & Harec & Hrec & Hfr).
      cbn zeta in Hins', Hinv'. rewrite Hins' in Hins. injection Hins as <- <- <-.
      assert (a ∉ bimap.sentinel b :: elements tl) as Hanew.
      { intros Hin. destruct (inv_with_allocated _ _ _ _ a Hinv Hin) as [n Hn].
        congruence. }
      split; [done|]. split; [done|]. exists tl', tr'. split; [done|].
      cbn [bimap.sentinel bimap.with_size].
      split.
      { rewrite Hrec, lookup_insert_ne; [done|]. intros ->. set_solver. }
      split.
      + intros x [->|Hx]%elem_of_cons; [apply Hfree; set_solver|].
        rewrite Hel in Hx. apply elem_of_cons in Hx as [->|Hx]; [|apply Hfree; set_solver].
        destruct (Hsame a Hanew) as (<- & <- & <-). done.
      + intros x Hx. assert (x ≠ a) as Hne.
        { intros ->. apply Hx. rewrite Hel. set_solver. }
        assert (x ∉ bimap.sentinel b :: elements tl) as Hx'.
        { intros Hin. apply Hx. rewrite Hel. set_solver. }
        destruct (Hfr x) as [-> ->]; [set_solver|].
        rewrite Hrec, lookup_insert_ne by done. by apply Hsame.
    - destruct IH as (HswoL & HswoR & tl & tr & Hinv & Hsrec & Hfree & Hsame).
      destruct (cursors_elem mm b tl tr cs c Hinv Hcs Hc) as (a & -> & Ha).
      pose proof Ha as Hsplit. apply list_elem_of_split in Hsplit as (pre & post & E).
      destruct (erase_side_frame tag_for_left mm b tl tr pre a post Hinv E)
        as (mm1 & Herase' & Hinv' & El & _ & Hrec & HaL & HaR & Hfr).
      cbn zeta in Herase', Hinv'. rewrite <-erase_left_side in Herase'.
      rewrite Herase' in Herase. injection Herase as <- <- <-.
      split; [done|]. split; [done|].
      exists (tdelete a tl), (tdelete a tr). split; [done|].
      cbn [bimap.sentinel bimap.with_size].
      assert (a ≠ bimap.sentinel b) as Has.
      { intros ->. by apply (inv_with_left _ _ _ _ Hinv) in Ha. }
      split; [by rewrite Hrec, lookup_delete_ne|]. split.
      + intros x Hx. apply Hfree. rewrite El in Hx. rewrite E. set_solver.
      + intros x Hx. destruct (decide (x = a)) as [->|Hne].
        * rewrite HaL, HaR, Hrec, lookup_delete_eq.
          destruct (Hfree a) as (-> & -> & ->); [set_solver|done].
        * assert (x ∉ bimap.sentinel b :: elements tl) as Hx'.
          { intros Hin. apply Hx. rewrite El. rewrite E in Hin. set_solver. }
          destruct (Hfr x Hx') as [-> ->].
          rewrite Hrec, lookup_delete_ne by done. by apply Hsame.
    - destruct IH as (HswoL & HswoR & tl & tr & Hinv & Hsrec & Hfree & Hsame).
      destruct (right_cursors_elem mm b tl tr cs c Hinv Hcs Hc) as (a & -> & Ha).
      pose proof (proj1 (inv_with_sides _ _ _ _) Hinv) as (HL & _ & Hperm & _).
      pose proof Ha as Hsplit. apply list_elem_of_split in Hsplit as (pre & post & E).
      destruct (erase_side_frame tag_for_right mm b tl tr pre a post Hinv E)
        as (mm1 & Herase' & Hinv' & Er & _ & Hrec & HaL & HaR & Hfr).
      cbn zeta in Herase', Hinv'. rewrite <-erase_right_side in Herase'.
      rewrite Herase' in Herase. injection Herase as <- <- <-.
      pose proof (proj1 (inv_with_sides _ _ _ _) Hinv') as (_ & _ & Hperm' & _).
      assert (a ∈ elements tl) as Hal by (by rewrite Hperm).
      assert (∀ x, x ∈ elements (tdelete a tl) ↔ x ∈ elements tl ∧ x ≠ a) as Hdel.
      { intros x. rewrite Hperm', Er, Hperm, E.
        assert (NoDup (pre ++ a :: post)) as Hnd.
        { rewrite <-E, <-Hperm. apply HL. }
        apply NoDup_app in Hnd as (_ & Hpre & Hnd).
        apply NoDup_cons in Hnd as [Hpost _].
        rewrite !elem_of_app, elem_of_cons. split.
        - intros [Hx|Hx]; (split; [tauto|]); intros ->; [|done].
          apply (Hpre a Hx). set_solver.
        - intros [[Hx|[->|Hx]] Hne]; tauto. }
      split; [done|]. split; [done|].
      exists (tdelete a tl), (tdelete a tr). split; [done|].
      cbn [bimap.sentinel bimap.with_size].
      assert (a ≠ bimap.sentinel b) as Has.
      { intros ->. by apply HL in Hal. }
      split; [by rewrite Hrec, lookup_delete_ne|]. split.
      + intros x [->|Hx]%elem_of_cons; [apply Hfree; set_solver|].
        apply Hdel in Hx as [Hx _]. apply Hfree. set_solver.
      + intros x Hx. destruct (decide (x = a)) as [->|Hne].
        * rewrite HaL, HaR, Hrec, lookup_delete_eq.
          destruct (Hfree a) as (-> & -> & ->); [set_solver|done].
        * assert (x ∉ bimap.sentinel b :: elements tl) as Hx'.
          { intros [->|Hin]%elem_of_cons; apply Hx; [set_solver|].
            apply elem_of_cons. right. by apply Hdel. }
          destruct (Hfr x Hx') as [-> ->].
          rewrite Hrec, lookup_delete_ne by done. by apply Hsame.
  Qed.

  (** X12.  A container leaks nothing and frees nothing that is not its
      own: when it is constructed in the memory [mm0], then changed by
      [insert], [erase_left] and [erase_right] in any number and order, its
      destructor leaves the memory [mm0] exactly, with every address it
      allocated free again and every other node and record as it was. *)
Theorem destructor_restores_the_memory mm0 mm b :
    reachable_from mm0 mm b →
    reachable mm b ∧ bimap.destroy b mm = Some (tt, mm0).
  Proof.
    intros Hfrom. split.
    { induction Hfrom; [by eapply reachable_new|by eapply reachable_insert
                        |by eapply reachable_erase_left
                        |by eapply reachable_erase_right]. }
    destruct (reachable_from_owns mm0 mm b Hfrom)
      as (_ & _ & tl & tr & Hinv & Hsrec & Hfree & Hsame).
    destruct (destroy_spec mm b tl tr Hinv) as (mm' & Hd & Hnodes & Hgone & Hkeep & Hfr).
    rewrite Hd. do 2 f_equal.
    assert (bimap.sentinel b ∉ elements tl) as Hs.
    { apply (inv_with_left _ _ _ _ Hinv). }
    apply mem_eq.
    - intros x. destruct (decide (x ∈ bimap.sentinel b :: elements tl)) as [Hx|Hx].
      + destruct (Hnodes x Hx) as [-> _]. by destruct (Hfree x Hx) as (-> & _).
      + destruct (Hfr x Hx) as [-> _]. by apply Hsame.
    - intros x. destruct (decide (x ∈ bimap.sentinel b :: elements tl)) as [Hx|Hx].
      + destruct (Hnodes x Hx) as [_ ->]. by destruct (Hfree x Hx) as (_ & -> & _).
      + destruct (Hfr x Hx) as [_ ->]. by apply Hsame.
    - intros x. destruct (decide (x ∈ elements tl)) as [Hx|Hx].
      + rewrite (Hgone x Hx). destruct (Hfree x) as (_ & _ & ->); [set_solver|done].
      + rewrite (Hkeep x Hx). destruct (decide (x = bimap.sentinel b)) as [->|Hne].
        * rewrite Hsrec. destruct (Hfree (bimap.sentinel b)) as (_ & _ & ->);
            [set_solver|done].
        * apply Hsame. set_solver.
  Qed.

End life.

Lemma st3_reachable_from : reachable_from example.mem0 example.st3.2 example.st3.1.
Proof.
  eapply (from_insert _ example.st2.2 example.st2.1 2 10);
    [|vm_compute; reflexivity|vm_compute; reflexivity].
  eapply (from_insert _ example.st1.2 example.st1.1 1 20);
    [|vm_compute; reflexivity|vm_compute; reflexivity].
  eapply (from_insert _ example.st0.2 example.st0.1 3 30);
    [|vm_compute; reflexivity|vm_compute; reflexivity].
  eapply (from_new _ Nat.ltb Nat.ltb); [exact ltb_swo|exact ltb_swo|].
  vm_compute. reflexivity.
Qed.

Lemma destructor_restores_the_memory_witness :
  reachable_from example.mem0 example.st3.2 example.st3.1 ∧
  bimap.destroy example.st3.1 example.st3.2 = Some (tt, example.mem0).
Proof.
  split; [exact st3_reachable_from|].
  exact (proj2 (destructor_restores_the_memory example.mem0 example.st3.2
                  example.st3.1 st3_reachable_from)).
Defined.

(** ** Lookups after [erase_left] and [erase_right] *)

Section lookups_after_erase.
  Context {left_t right_t : Type}.
  Abbreviation mem := (bimap.mem left_t right_t).
  Abbreviation bimap := (bimap.t left_t right_t).
  Implicit Types (mm : mem) (b : bimap) (tl tr : tree).

  Abbreviation gL mm := (bimap.get_key tag_for_left mm).
  Abbreviation gR mm := (bimap.get_key tag_for_right mm).
  Abbreviation cmpL b := (intrusive_set.compare (bimap.left_set b)).
  Abbreviation cmpR b := (intrusive_set.compare (bimap.right_set b)).

  (** The lookups of the state that the erasure of the record at [a]
      leaves. *)
Lemma lookups_without mm mm' b b' tl tr (a : addr) rec
      (HswoL : StrictWeakOrder (cmpL b)) (HswoR : StrictWeakOrder (cmpR b)) :
    inv_with mm b tl tr → inv_with mm' b' (tdelete a tl) (tdelete a tr) →
    cmpL b' = cmpL b → cmpR b' = cmpR b →
    a ∈ elements tl →
    bimap.records mm !! a = Some rec →
    bimap.records mm' = delete a (bimap.records mm) →
    (∀ k, equiv_under (cmpL b) k (bimap.left_key rec) = false →
          bimap.at_left b' mm' k = bimap.at_left b mm k) ∧
    (∀ k, equiv_under (cmpR b) k (bimap.right_key rec) = false →
          bimap.at_right b' mm' k = bimap.at_right b mm k).
  Proof.
    intros Hinv Hinv' EL ER Ha Hrec Hrec'.
    assert (StrictWeakOrder (cmpL b')) as HswoL' by (by rewrite EL).
    assert (StrictWeakOrder (cmpR b')) as HswoR' by (by rewrite ER).
    pose proof (proj1 (inv_with_sides _ _ _ _) Hinv) as (HL & HR & Hperm & _).
    assert (pair_of mm a = Some (bimap.left_key rec, bimap.right_key rec)) as Hpa.
    { unfold pair_of. by rewrite Hrec. }
    assert (∀ (t : tree) ps, NoDup (elements t) → a ∈ elements t →
              mapM (pair_of mm) (elements t) = Some ps →
              ∃ pps qps,
                ps = pps ++ (bimap.left_key rec, bimap.right_key rec) :: qps ∧
                mapM (pair_of mm') (elements (tdelete a t)) = Some (pps ++ qps))
      as Hwithout.
    { intros t ps Hnd Hin Hps.
      apply list_elem_of_split in Hin as (pre & post & E).
      rewrite (tdelete_elements a t pre post Hnd E).
      rewrite E in Hps, Hnd.
      destruct (pairs_without mm mm' a pre post ps Hnd Hrec' Hps)
        as (pps & p & qps & -> & Hp & _ & Hps1).
      exists pps, qps. split; [congruence|done]. }
    destruct (pairs_exist _ _ _ _ HL) as [ps Hps].
    destruct (pairs_exist _ _ _ _ HR) as [ps' Hps'].
    destruct (Hwithout tl ps) as (pps & qps & -> & Hps1); [apply HL|done|done|].
    destruct (Hwithout tr ps') as (pps' & qps' & -> & Hps1');
      [apply HR|by rewrite <-Hperm|done|].
    split.
    - intros k Hk.
      rewrite (at_left_pairs mm' b' _ _ _ k Hinv' Hps1).
      rewrite (at_left_pairs mm b tl tr _ k Hinv Hps).
      rewrite find_skip by done. by rewrite EL.
    - intros k Hk.
      rewrite (at_right_pairs mm' b' _ _ _ k Hinv' Hps1').
      rewrite (at_right_pairs mm b tl tr _ k Hinv Hps').
      rewrite find_skip by done. by rewrite ER.
  Qed.

Lemma at_left_end mm b (k : left_t) :
    bimap.find_left b mm k = Some (bimap.end_left b) →
    bimap.at_left b mm k = Some (thrown (out_of_range "element doesn't exist")).
  Proof. unfold bimap.at_left. intros ->. cbn. by rewrite iterator_eq_true. Qed.

Lemma at_right_end mm b (k : right_t) :
    bimap.find_right b mm k = Some (bimap.end_right b) →
    bimap.at_right b mm k = Some (thrown (out_of_range "element doesn't exist")).
  Proof. unfold bimap.at_right. intros ->. cbn. by rewrite iterator_eq_true. Qed.

  (** X13.  [erase_left] on a cursor of the left traversal, which is on a
      pair [(l, r)], makes [at_left(l)] and [at_right(r)] throw and leaves
      every other lookup as it was: [at_left(k)] for the keys [k] that are
      not equivalent to [l], and [at_right(k)] for the keys [k] that are not
      equivalent to [r].  [erase_right] on a cursor of the right traversal
      does the same. *)
Theorem erase_keeps_the_other_lookups mm b cs cs' :
    inv mm b →
    traversal.left_cursors b mm = Some cs →
    traversal.right_cursors b mm = Some cs' →
    let erased (l : left_t) (r : right_t) (b' : bimap) (mm' : mem) :=
      bimap.at_left b mm l = Some (returned r) ∧
      bimap.at_right b mm r = Some (returned l) ∧
      bimap.at_left b' mm' l = Some (thrown (out_of_range "element doesn't exist")) ∧
      bimap.at_right b' mm' r = Some (thrown (out_of_range "element doesn't exist")) ∧
      (∀ k, equiv_under (cmpL b) k l = false →
            bimap.at_left b' mm' k = bimap.at_left b mm k) ∧
      (∀ k, equiv_under (cmpR b) k r = false →
            bimap.at_right b' mm' k = bimap.at_right b mm k) in
    (∀ p : ptr, p ∈ cs →
       ∃ l r i b' mm',
         traversal.pair_at_left mm p = Some (l, r) ∧
         bimap.erase_left b (bimap.mk_iterator p) mm = Some ((i, b'), mm') ∧
         erased l r b' mm') ∧
    (∀ p : ptr, p ∈ cs' →
       ∃ l r i b' mm',
         traversal.pair_at_right mm p = Some (l, r) ∧
         bimap.erase_right b (bimap.mk_iterator p) mm = Some ((i, b'), mm') ∧
         erased l r b' mm').
  Proof.
    intros (HswoL & HswoR & tl & tr & Hinv) Hcs Hcs' erased.
    pose proof (proj1 (inv_with_sides _ _ _ _) Hinv) as (HL & HR & Hperm & _).
    assert (∀ (a : addr) rec b' mm',
              a ∈ elements tl → bimap.records mm !! a = Some rec →
              inv_with mm' b' (tdelete a tl) (tdelete a tr) →
              cmpL b' = cmpL b → cmpR b' = cmpR b →
              bimap.records mm' = delete a (bimap.records mm) →
              bimap.find_left b' mm' (bimap.left_key rec) = Some (bimap.end_left b') →
              bimap.find_right b' mm' (bimap.right_key rec) = Some (bimap.end_right b') →
              erased (bimap.left_key rec) (bimap.right_key rec) b' mm') as Hgen.
    { intros a rec b' mm' Ha Hrec Hinv' EL ER Hrec' HfL HfR. subst erased. cbn beta.
      split; [by apply (at_left_own mm b tl tr a rec HswoL Hinv)|].
      split; [apply (at_right_own mm b tl tr a rec HswoR Hinv); [by rewrite <-Hperm|done]|].
      split; [by apply at_left_end|]. split; [by apply at_right_end|].
      by apply (lookups_without mm mm' b b' tl tr a rec). }
    split.
    - intros p Hp.
      destruct (cursors_elem mm b tl tr cs p Hinv Hcs Hp) as (a & -> & Ha).
      pose proof Ha as Hsplit. apply list_elem_of_split in Hsplit as (pre & post & E).
      destruct (erase_side_removes tag_for_left mm b tl tr pre a post HL HR Hperm E)
        as (rec & mm' & pre' & post' & Hrec & Herase & _ & _ & _ & _ & _
            & Hrec' & _ & _ & HfL & HfR).
      rewrite <-erase_left_side in Herase.
      destruct (erase_left_inv_with mm b tl tr a _ _ _ Hinv Ha Herase)
        as (EL & ER & Hinv').
      exists (bimap.left_key rec), (bimap.right_key rec). eexists _, _, mm'.
      split; [rewrite pair_at_left_of; unfold pair_of; by rewrite Hrec|].
      split; [exact Herase|].
      apply (Hgen a rec); try done.
      + rewrite (end_left_spec _ _ _ _ Hinv').
        exact (f_equal (fmap (bimap.mk_iterator (T:=tag_for_left)))
                 (HfL (bimap.left_key rec) (get_key_left mm a rec Hrec))).
      + rewrite (end_right_spec _ _ _ _ Hinv').
        exact (f_equal (fmap (bimap.mk_iterator (T:=tag_for_right)))
                 (HfR (bimap.right_key rec) (get_key_right mm a rec Hrec))).
    - intros p Hp.
      destruct (right_cursors_elem mm b tl tr cs' p Hinv Hcs' Hp) as (a & -> & Ha).
      pose proof Ha as Hsplit. apply list_elem_of_split in Hsplit as (pre & post & E).
      destruct (erase_side_removes tag_for_right mm b tr tl pre a post HR HL
                  (symmetry Hperm) E)
        as (rec & mm' & pre' & post' & Hrec & Herase & _ & _ & _ & _ & _
            & Hrec' & _ & _ & HfR & HfL).
      rewrite <-erase_right_side in Herase.
      destruct (erase_right_inv_with mm b tl tr a _ _ _ Hinv Ha Herase)
        as (EL & ER & Hinv').
      exists (bimap.left_key rec), (bimap.right_key rec). eexists _, _, mm'.
      split; [rewrite pair_at_right_of; unfold pair_of; by rewrite Hrec|].
      split; [exact Herase|].
      apply (Hgen a rec); try done.
      + by rewrite Hperm.
      + rewrite (end_left_spec _ _ _ _ Hinv').
        exact (f_equal (fmap (bimap.mk_iterator (T:=tag_for_left)))
                 (HfL (bimap.left_key rec) (get_key_left mm a rec Hrec))).
      + rewrite (end_right_spec _ _ _ _ Hinv').
        exact (f_equal (fmap (bimap.mk_iterator (T:=tag_for_right)))
                 (HfR (bimap.right_key rec) (get_key_right mm a rec Hrec))).
  Qed.

End lookups_after_erase.

Lemma erase_keeps_the_other_lookups_witness :
  inv example.st3.2 example.st3.1 ∧
  ∃ i b' mm',
    bimap.erase_left example.st3.1 (bimap.mk_iterator (Some 4%positive)) example.st3.2
    = Some ((i, b'), mm') ∧
    bimap.at_left b' mm' 2 = Some (thrown (out_of_range "element doesn't exist")) ∧
    bimap.at_left b' mm' 3 = bimap.at_left example.st3.1 example.st3.2 3 ∧
    bimap.at_right b' mm' 30 = bimap.at_right example.st3.1 example.st3.2 30.
Proof.
  split; [exact st3_inv|].
  destruct (proj1 (erase_keeps_the_other_lookups example.st3.2 example.st3.1
                     [Some 3; Some 4; Some 2]%positive
                     [Some 4; Some 3; Some 2]%positive
                     st3_inv eq_refl eq_refl) (Some 4%positive))
    as (l & r & i & b' & mm' & Hpair & Herase & _ & _ & Hl & _ & Hkl & Hkr).
  { set_solver. }
  vm_compute in Hpair. injection Hpair as <- <-.
  exists i, b', mm'. split; [exact Herase|]. split; [exact Hl|].
  split; [apply Hkl|apply Hkr]; vm_compute; reflexivity.
Defined.

(** ** [swap] twice, and [swap] with itself *)

Lemma store_same f m a n :
  m !! a = Some n → f n = n → store f (Some a) m = Some (tt, m).
Proof. intros H E. rewrite (store_Some f m a n H), E. by rewrite insert_id. Qed.

(** [s.swap(s)] writes what it read. *)
Lemma set_swap_self {K} (g : addr → option K) (self : intrusive_set.t K) m s t :
  intrusive_set.sentinel self = Some s →
  tree_inv g (intrusive_set.compare self) m s t →
  intrusive_set.swap self self m = Some ((self, self), m).
Proof.
  intros Hs (Hsen & Hsh & _).
  destruct (m !! s) as [ns|] eqn:Es; [|done]. destruct Hsen as [Hl Hr].
  assert (intrusive_set.mk (intrusive_set.compare self) (Some s) = self) as Hself.
  { destruct self. cbn in *. by subst. }
  unfold intrusive_set.swap. rewrite Hs, Hself.
  exec_left Es. exec_left Es.
  exec_with ltac:(apply (store_same _ m s ns Es); by destruct ns).
  exec_with ltac:(apply (store_same _ m s ns Es); by destruct ns).
  exec_left Es. rewrite Hl.
  destruct t as [|l x r]; cbn [root non_null].
  - exec_with ltac:(reflexivity). exec_left Es. rewrite Hl. cbn [root non_null].
    exec_with ltac:(reflexivity). done.
  - destruct (shape_Br_inv _ _ _ _ _ Hsh) as (nx & Hx & Hp & _).
    exec_with ltac:(apply (store_same _ m x nx Hx); destruct nx; cbn in *; by subst).
    exec_left Es. rewrite Hl. cbn [root non_null].
    exec_with ltac:(apply (store_same _ m x nx Hx); destruct nx; cbn in *; by subst).
    done.
Qed.

Section swap_twice.
  Context {left_t right_t : Type}.
  Abbreviation mem := (bimap.mem left_t right_t).
  Abbreviation bimap := (bimap.t left_t right_t).
  Implicit Types (mm : mem) (b o : bimap) (tl tr : tree).

  Abbreviation cmpL b := (intrusive_set.compare (bimap.left_set b)).
  Abbreviation cmpR b := (intrusive_set.compare (bimap.right_set b)).

  (** A container is its sentinel, its size and its comparison objects. *)
Lemma bimap_eq mm mm' b b' tl tr tl' tr' :
    inv_with mm b tl tr → inv_with mm' b' tl' tr' →
    bimap.sentinel b' = bimap.sentinel b → bimap.m_size b' = bimap.m_size b →
    cmpL b' = cmpL b → cmpR b' = cmpR b → b' = b.
  Proof.
    intros (HsL & HsR & _) (HsL' & HsR' & _) Hs Hn EL ER.
    destruct b as [s n [cl pl] [cr pr]], b' as [s' n' [cl' pl'] [cr' pr']].
    cbn in *. by subst.
  Qed.

  (** X14.  A container swapped with itself is unchanged, as is the memory.
      And [swap] is its own inverse: for every other container that shares
      no address with it, a second [swap] gives back both containers,
      comparison objects and sizes included, with the cursors of their two
      traversals and the records as they were before the first. *)
Theorem swap_twice_restores mm b :
    inv mm b →
    bimap.swap b b mm = Some ((b, b), mm) ∧
    (∀ o csb cso,
       inv mm o →
       traversal.left_cursors b mm = Some csb →
       traversal.left_cursors o mm = Some cso →
       (Some (bimap.sentinel b) :: csb) ## (Some (bimap.sentinel o) :: cso) →
       ∃ b1 o1 mm1 mm2,
         bimap.swap b o mm = Some ((b1, o1), mm1) ∧
         bimap.swap b1 o1 mm1 = Some ((b, o), mm2) ∧
         inv mm2 b ∧ inv mm2 o ∧
         bimap.records mm2 = bimap.records mm ∧
         traversal.left_cursors b mm2 = Some csb ∧
         traversal.left_cursors o mm2 = Some cso ∧
         traversal.right_cursors b mm2 = traversal.right_cursors b mm ∧
         traversal.right_cursors o mm2 = traversal.right_cursors o mm ∧
         traversal.left_pairs b mm2 = traversal.left_pairs b mm ∧
         traversal.left_pairs o mm2 = traversal.left_pairs o mm).
  Proof.
    intros (HswoLb & HswoRb & tlb & trb & Hb).
    pose proof (inv_with_left _ _ _ _ Hb) as HLb.
    split; [|intros o csb cso (HswoLo & HswoRo & tlo & tro & Ho) Hcsb Hcso Hsep];
      cycle 1.
    - pose proof (inv_with_left _ _ _ _ Ho) as HLo.
      rewrite (left_cursors_spec mm b tlb HLb) in Hcsb. injection Hcsb as <-.
      rewrite (left_cursors_spec mm o tlo HLo) in Hcso. injection Hcso as <-.
      apply cursors_apart in Hsep.
      destruct (swap_spec mm b o tlb trb tlo tro Hb Ho Hsep)
        as (b1 & o1 & mm1 & Hswap & Hs1 & Hs2 & Hz1 & Hz2 & EL1 & ER1 & EL2 & ER2
            & Hb1 & Ho1 & Hrec & _).
      assert ((bimap.sentinel b1 :: elements tlo) ## (bimap.sentinel o1 :: elements tlb))
        as Hsep1.
      { rewrite Hs1, Hs2. intros x Hx Hx'.
        apply elem_of_cons in Hx as [->|Hx]; apply elem_of_cons in Hx' as [Hx'|Hx'].
        - apply (Hsep (bimap.sentinel b)); [set_solver|]. rewrite Hx'. set_solver.
        - by apply (inv_with_left _ _ _ _ Hb) in Hx'.
        - subst x. by apply (inv_with_left _ _ _ _ Ho) in Hx.
        - apply (Hsep x); set_solver. }
      destruct (swap_spec mm1 b1 o1 tlo tro tlb trb Hb1 Ho1 Hsep1)
        as (b2 & o2 & mm2 & Hswap' & Hs1' & Hs2' & Hz1' & Hz2' & EL1' & ER1' & EL2' & ER2'
            & Hb2 & Ho2 & Hrec' & _).
      assert (b2 = b) as ->.
      { apply (bimap_eq mm mm2 b b2 tlb trb tlb trb); congruence. }
      assert (o2 = o) as ->.
      { apply (bimap_eq mm mm2 o o2 tlo tro tlo tro); congruence. }
      exists b1, o1, mm1, mm2. split; [done|]. split; [done|].
      split; [unfold inv; eauto 10|]. split; [unfold inv; eauto 10|].
      split; [congruence|].
      split; [by apply left_cursors_spec, (inv_with_left _ _ _ _ Hb2)|].
      split; [by apply left_cursors_spec, (inv_with_left _ _ _ _ Ho2)|].
      split.
      { rewrite (right_cursors_spec mm2 b trb (inv_with_right _ _ _ _ Hb2)).
        by rewrite (right_cursors_spec mm b trb (inv_with_right _ _ _ _ Hb)). }
      split.
      { rewrite (right_cursors_spec mm2 o tro (inv_with_right _ _ _ _ Ho2)).
        by rewrite (right_cursors_spec mm o tro (inv_with_right _ _ _ _ Ho)). }
      split.
      { rewrite (left_pairs_spec mm2 b tlb (inv_with_left _ _ _ _ Hb2)).
        rewrite (left_pairs_spec mm b tlb HLb).
        apply pairs_agree. intros x _. congruence. }
      rewrite (left_pairs_spec mm2 o tlo (inv_with_left _ _ _ _ Ho2)).
      rewrite (left_pairs_spec mm o tlo HLo).
      apply pairs_agree. intros x _. congruence.
    - pose proof (proj1 (inv_with_sides _ _ _ _) Hb) as ([HsL HL] & [HsR HR] & _).
      cbn [bimap.set bimap.nodes bimap.key] in *.
      unfold bimap.swap.
      erewrite bind_Some;
        [|apply on_left_Some; exact (set_swap_self _ _ _ _ _ HsL HL)].
      cbv beta iota.
      erewrite bind_Some;
        [|apply on_right_Some; exact (set_swap_self _ _ _ _ _ HsR HR)].
      cbv beta iota. cbn. by destruct b, mm.
  Qed.

End swap_twice.

Lemma swap_twice_restores_witness :
  inv example.st3.2 example.st3.1 ∧
  bimap.swap example.st3.1 example.st3.1 example.st3.2
  = Some ((example.st3.1, example.st3.1), example.st3.2) ∧
  inv example.b0.2 example.b0.1 ∧ inv example.b0.2 example.a0.1 ∧
  (∃ b1 o1 mm1 mm2,
     bimap.swap example.b0.1 example.a0.1 example.b0.2 = Some ((b1, o1), mm1) ∧
     bimap.swap b1 o1 mm1 = Some ((example.b0.1, example.a0.1), mm2) ∧
     traversal.left_cursors example.b0.1 mm2 = Some [Some 4%positive]) ∧
  bimap.swap example.b0.1 example.b0.1 example.b0.2
  = Some ((example.b0.1, example.b0.1), example.b0.2).
Proof.
  split; [exact st3_inv|].
  split; [exact (proj1 (swap_twice_restores example.st3.2 example.st3.1 st3_inv))|].
  split; [exact (reachable_inv _ _ b0_reachable)|].
  split; [exact a0_inv_later|].
  destruct (swap_twice_restores example.b0.2 example.b0.1
              (reachable_inv _ _ b0_reachable)) as [Hself Htwo].
  destruct (Htwo example.a0.1 [Some 4%positive] [Some 2%positive]
              a0_inv_later eq_refl eq_refl)
    as (b1 & o1 & mm1 & mm2 & H1 & H2 & _ & _ & _ & Hcs & _).
  { apply (addresses_apart 3 1 [4] [2])%positive.
    intros x Hx Hx'. clear -Hx Hx'. set_solver. }
  split; [|exact Hself].
  exists b1, o1, mm1, mm2. split; [exact H1|]. split; [exact H2|exact Hcs].
Defined.
